(** * Plain-text cleaning of Wiktionary markup: [wiktextract/clean.py]

    A shallow embedding of the script converters ([to_superscript],
    [to_subscript], [to_chem]), of the math expander ([to_math]) and of the
    value cleaner ([clean_value]), with the part of Python's [str] and [re]
    that the module relies on.

    A Python [str] is a sequence of Unicode code points: it is modelled as a
    list of code points, so that [len], slicing and indexing count code
    points as the source does. *)

From Stdlib Require Import String Ascii NArith Bool Arith Lia List.
Import ListNotations.

Set Implicit Arguments.

(** ** Strings *)

Definition char := N.
Definition pystr := list char.

(** An ASCII literal of the source as a [pystr].  Rocq string literals have
    no escapes: a backslash stands for itself. *)
Definition str (s : string) : pystr :=
  map N_of_ascii (list_ascii_of_string s).
Arguments str s%_string.

Definition chr_nl : char := 10%N.
Definition chr_tab : char := 9%N.
Definition chr_cr : char := 13%N.
Definition chr_nbsp : char := 0xa0%N.

Fixpoint streq (a b : pystr) : bool :=
  match a, b with
  | [], [] => true
  | x :: a', y :: b' => N.eqb x y && streq a' b'
  | _, _ => false
  end.

(** [s.startswith(p)] *)
Fixpoint startswith (p s : pystr) : bool :=
  match p, s with
  | [], _ => true
  | x :: p', y :: s' => N.eqb x y && startswith p' s'
  | _ :: _, [] => false
  end.

(** [s[i:]] and [s[:-1]] *)
Definition slice_from (i : nat) (s : pystr) : pystr := skipn i s.
Definition drop_last (s : pystr) : pystr := removelast s.

(** [s[-1]], for a non-empty [s] *)
Definition last_char (s : pystr) : option char :=
  match rev s with [] => None | c :: _ => Some c end.

(** ** Outcomes

    A call either returns, raises a Python exception, or (in the model only)
    exhausts the fuel that bounds its [while True] loops and its recursion. *)

Inductive exn := KeyError | IndexError | ValueError | AttributeError.

Inductive res (A : Type) :=
| Ret (a : A)
| Raise (e : exn)
| Timeout.
Arguments Ret {A} a.
Arguments Raise {A} e.
Arguments Timeout {A}.

Definition rbind {A B} (r : res A) (f : A -> res B) : res B :=
  match r with
  | Ret a => f a
  | Raise e => Raise e
  | Timeout => Timeout
  end.

(** [[f(x) for x in xs]], left to right, stopping at the first exception. *)
Fixpoint rmap {A B} (f : A -> res B) (xs : list A) : res (list B) :=
  match xs with
  | [] => Ret []
  | x :: xs' => rbind (f x) (fun y => rbind (rmap f xs') (fun ys => Ret (y :: ys)))
  end.

(** ** Dictionaries

    The tables of the module are dict displays.  A display is kept as its
    list of items in source order; when a key is repeated, the last item
    wins, as Python evaluates the display by successive insertion. *)

Definition dict := list (pystr * pystr).

Fixpoint dict_get (d : dict) (k : pystr) : option pystr :=
  match d with
  | [] => None
  | (k', v) :: d' =>
      match dict_get d' k with
      | Some w => Some w
      | None => if streq k' k then Some v else None
      end
  end.

(** [k in d] *)
Definition dict_mem (d : dict) (k : pystr) : bool :=
  match dict_get d k with Some _ => true | None => false end.

(** [d[k]] *)
Definition dict_item (d : dict) (k : pystr) : res pystr :=
  match dict_get d k with Some v => Ret v | None => Raise KeyError end.

(** [d.get(k, default)] *)
Definition dict_get_default (d : dict) (k default : pystr) : pystr :=
  match dict_get d k with Some v => v | None => default end.

(** ** Character classes of the Unicode database

    [str.isspace], [str.strip] and the [\s] of [re] share one set of
    white-space code points, listed here in full.  The alphabetic and numeric
    classes are fixed on ASCII; above ASCII they are read from a [Unicode]
    record, the character database being no part of the repository. *)

Local Open Scope N_scope.
Local Open Scope bool_scope.

Record Unicode := {
  ext_alpha : char -> bool;     (* str.isalpha on a code point above U+007F *)
  ext_decimal : char -> bool;   (* str.isdecimal, the \d of re *)
  ext_digit : char -> bool;     (* str.isdigit *)
  ext_numeric : char -> bool    (* str.isnumeric *)
}.

Definition in_range (lo hi c : char) : bool := N.leb lo c && N.leb c hi.

Definition is_space (c : char) : bool :=
  in_range 0x09 0x0d c || in_range 0x1c 0x20 c || N.eqb c 0x85 || N.eqb c 0xa0
  || N.eqb c 0x1680 || in_range 0x2000 0x200a c || N.eqb c 0x2028
  || N.eqb c 0x2029 || N.eqb c 0x202f || N.eqb c 0x205f || N.eqb c 0x3000.

Definition is_ascii (c : char) : bool := N.ltb c 0x80.
Definition ascii_upper (c : char) : bool := in_range 0x41 0x5a c.
Definition ascii_lower (c : char) : bool := in_range 0x61 0x7a c.
Definition ascii_letter (c : char) : bool := ascii_upper c || ascii_lower c.
Definition ascii_digit (c : char) : bool := in_range 0x30 0x39 c.

(** ** Glyph tables *)


Definition superscript_ht : dict :=
  [
    (str "1", [0xb9]);
    (str "2", [0xb2]);
    (str "3", [0xb3]);
    (str "4", [0x2074]);
    (str "5", [0x2075]);
    (str "6", [0x2076]);
    (str "7", [0x2077]);
    (str "8", [0x2078]);
    (str "9", [0x2079]);
    (str "+", [0x207a]);
    (str "-", [0x207b]);
    (str "=", [0x207c]);
    (str "(", [0x207d]);
    (str ")", [0x207e]);
    (str "A", [0x1d2c]);
    (str "B", [0x1d2e]);
    (str "D", [0x1d30]);
    (str "E", [0x1d31]);
    (str "G", [0x1d33]);
    (str "H", [0x1d34]);
    (str "I", [0x1d35]);
    (str "J", [0x1d36]);
    (str "K", [0x1d37]);
    (str "L", [0x1d38]);
    (str "M", [0x1d39]);
    (str "N", [0x1d3a]);
    (str "O", [0x1d3c]);
    (str "P", [0x1d3e]);
    (str "R", [0x1d3f]);
    (str "T", [0x1d40]);
    (str "U", [0x1d41]);
    (str "V", [0x2c7d]);
    (str "W", [0x1d42]);
    (str "a", [0x1d43]);
    (str "b", [0x1d47]);
    (str "c", [0x1d9c]);
    (str "d", [0x1d48]);
    (str "e", [0x1d49]);
    (str "f", [0x1da0]);
    (str "g", [0x1d4d]);
    (str "h", [0x2b0]);
    (str "i", [0x2071]);
    (str "j", [0x2b2]);
    (str "k", [0x1d4f]);
    (str "l", [0x2e1]);
    (str "m", [0x1d50]);
    (str "n", [0x207f]);
    (str "o", [0x1d52]);
    (str "p", [0x1d56]);
    (str "r", [0x2b3]);
    (str "s", [0x2e2]);
    (str "t", [0x1d57]);
    (str "u", [0x1d58]);
    (str "v", [0x1d5b]);
    (str "w", [0x2b7]);
    (str "x", [0x2e3]);
    (str "y", [0x2b8]);
    (str "z", [0x1dbb]);
    ([0x3b2], [0x1d5d]);
    ([0x3b3], [0x1d5e]);
    ([0x3b4], [0x1d5f]);
    ([0x3b8], [0x1dbf]);
    ([0x3b9], [0x1da5]);
    ([0x3c6], [0x1d60]);
    ([0x3c7], [0x1d61]);
    ([0x221e], [0x20; 0x1ab2])
  ].

Definition subscript_ht : dict :=
  [
    (str "0", [0x2080]);
    (str "1", [0x2081]);
    (str "2", [0x2082]);
    (str "3", [0x2083]);
    (str "4", [0x2084]);
    (str "5", [0x2085]);
    (str "6", [0x2086]);
    (str "7", [0x2087]);
    (str "8", [0x2088]);
    (str "9", [0x2089]);
    (str "+", [0x208a]);
    (str "-", [0x208b]);
    (str "=", [0x208c]);
    (str "(", [0x208d]);
    (str ")", [0x208e]);
    (str "a", [0x2090]);
    (str "e", [0x2091]);
    (str "h", [0x2095]);
    (str "i", [0x1d62]);
    (str "j", [0x2c7c]);
    (str "k", [0x2096]);
    (str "l", [0x2097]);
    (str "m", [0x2098]);
    (str "n", [0x2099]);
    (str "o", [0x2092]);
    (str "p", [0x209a]);
    (str "r", [0x1d63]);
    (str "s", [0x209b]);
    (str "t", [0x209c]);
    (str "u", [0x1d64]);
    (str "v", [0x1d65]);
    (str "x", [0x2093]);
    ([0x259], [0x2094]);
    ([0x3c1], [0x1d68]);
    ([0x3c6], [0x1d69]);
    ([0x3c7], [0x1d6a])
  ].

Definition math_map : dict :=
  [
    (str "ldots", [0x2026]);
    (str "textbar", [0x7c]);
    (str "textbullet", [0x2022]);
    (str "textbackslash", [0x5c]);
    (str "S", [0xa7]);
    (str "textless", [0x3c]);
    (str "textgreater", [0x3e]);
    (str "sim", [0x223c]);
    (str "backsim", [0x223d]);
    (str "tiny", []);
    (str "scriptsize", []);
    (str "footnotesize", []);
    (str "small", []);
    (str "normalsize", []);
    (str "large", []);
    (str "ge", [0x3e]);
    (str "geq", [0x3e]);
    (str "le", [0x3c]);
    (str "leq", [0x3c]);
    (str "leq", [0x2264]);
    (str "geq", [0x2265]);
    (str "neq", [0x2260]);
    (str "doteq", [0x2250]);
    (str "approx", [0x2248]);
    (str "times", [0x2a2f]);
    (str "div", [0xf7]);
    (str "pm", [0xb1]);
    (str "mp", [0x2213]);
    (str "cdot", [0xb7]);
    (str "circ", [0x2218]);
    (str "ast", [0x2217]);
    (str "smallsetminus", [0x2216]);
    (str "slash", [0x2215]);
    (str "prime", [0x2032]);
    (str "textprime", [0x2032]);
    (str "second", [0x2032; 0x2032]);
    (str "third", [0x2032; 0x2032; 0x2032]);
    (str "fourth", [0x2032; 0x2032; 0x2032; 0x2032]);
    (str "backprime", [0x2035]);
    (str "dagger", [0x2020]);
    (str "ddagger", [0x2021]);
    (str "bullet", [0x2022]);
    (str "ldots", [0x2e; 0x2e; 0x2e]);
    (str "dots", [0x2026]);
    (str "cat", [0x2040]);
    (str "cdots", [0x22ef]);
    (str "infty", [0x221e]);
    (str "neg", [0xac]);
    (str "wedge", [0x2227]);
    (str "vee", [0x2228]);
    (str "forall", [0x2200]);
    (str "in", [0x2208]);
    (str "ni", [0x220b]);
    (str "nni", [0x220c]);
    (str "rightarrow", [0x2192]);
    (str "leftarrow", [0x2190]);
    (str "leftrightarrow", [0x2194]);
    (str "uparrow", [0x2191]);
    (str "downarrow", [0x2193]);
    (str "updownarrow", [0x2195]);
    (str "nwarrow", [0x2196]);
    (str "nearrow", [0x2197]);
    (str "searrow", [0x2198]);
    (str "swarrow", [0x2199]);
    (str "nleftarrow", [0x219a]);
    (str "nrightarrow", [0x219b]);
    (str "twoheadleftarrow", [0x219e]);
    (str "twoheadrightarrow", [0x21a0]);
    (str "leftarrowtail", [0x21a2]);
    (str "rightarrowtail", [0x21a3]);
    (str "mapsfrom", [0x21a4]);
    (str "MapsUp", [0x21a5]);
    (str "mapsto", [0x21a6]);
    (str "MapsDown", [0x21a7]);
    (str "hookleftarrow", [0x21a9]);
    (str "hookrightarrow", [0x21aa]);
    (str "looparrowleft", [0x21ab]);
    (str "looparrowright", [0x21ac]);
    (str "leftrightsquigarrow", [0x21ad]);
    (str "nleftrightarrow", [0x21ae]);
    (str "lightning", [0x21af]);
    (str "Lsh", [0x21b0]);
    (str "Rsh", [0x21b1]);
    (str "dlsh", [0x21b2]);
    (str "drsh", [0x21b3]);
    (str "curvearrowleft", [0x21b6]);
    (str "curvearrowright", [0x21b7]);
    (str "circlearrowleft", [0x21ba]);
    (str "circlearrowright", [0x21bb]);
    (str "leftharpoonup", [0x21bc]);
    (str "leftharpoondown", [0x21bd]);
    (str "upharpoonright", [0x21be]);
    (str "upharpoonleft", [0x21bf]);
    (str "rightharpoonup", [0x21c0]);
    (str "rightharpoondown", [0x21c1]);
    (str "downharpoonright", [0x21c2]);
    (str "downharpoonleft", [0x21c3]);
    (str "rightleftarrows", [0x21c4]);
    (str "updownarrows", [0x21c5]);
    (str "leftrightarrows", [0x21c6]);
    (str "leftleftarrows", [0x21c7]);
    (str "upuparrows", [0x21c8]);
    (str "rightrightarrows", [0x21c9]);
    (str "downdownarrows", [0x21ca]);
    (str "leftrightharpoons", [0x21cb]);
    (str "rightleftharpoons", [0x21cc]);
    (str "nLeftarrow", [0x21cd]);
    (str "nLeftrightarrow", [0x21ce]);
    (str "nRightarrow", [0x21cf]);
    (str "Leftarrow", [0x21d0]);
    (str "Uparrow", [0x21d1]);
    (str "Rightarrow", [0x21d2]);
    (str "Downarrow", [0x21d3]);
    (str "Leftrightarrow", [0x21d4]);
    (str "Updownarrow", [0x21d5]);
    (str "Nwarrow", [0x21d6]);
    (str "Nearrow", [0x21d7]);
    (str "Searrow", [0x21d8]);
    (str "Swarrow", [0x21d9]);
    (str "Lleftarrow", [0x21da]);
    (str "Rrightarrow", [0x21db]);
    (str "leftsquigarrow", [0x21dc]);
    (str "rightsquigarrow", [0x21dd]);
    (str "dashleftarrow", [0x21e0]);
    (str "dashrightarrow", [0x21e2]);
    (str "LeftArrowBar", [0x21e4]);
    (str "RightArrowBar", [0x21e5]);
    (str "downuparrows", [0x21f5]);
    (str "pfun", [0x21f8]);
    (str "ffun", [0x21fb]);
    (str "leftarrowtriangle", [0x21fd]);
    (str "rightarrowtriangle", [0x21fe]);
    (str "leftrightarrowtriangle", [0x21ff]);
    (str "subset", [0x2282]);
    (str "subseteq", [0x2286]);
    (str "supset", [0x2283]);
    (str "supseteq", [0x2287]);
    (str "prec", [0x227a]);
    (str "succ", [0x227b]);
    (str "exists", [0x2203]);
    (str "nexists", [0x2204]);
    (str "notin", [0x2209]);
    (str "Rightarrow", [0x21d2]);
    (str "Leftarrow", [0x21d0]);
    (str "cup", [0x222a]);
    (str "cap", [0x2229]);
    (str "mid", [0x2223]);
    (str "nmid", [0x2224]);
    (str "parallel", [0x2225]);
    (str "nparallel", [0x2226]);
    (str "rightangle", [0x221f]);
    (str "angle", [0x2220]);
    (str "measuredangle", [0x2221]);
    (str "sphericalangle", [0x2222]);
    (str "propto", [0x221d]);
    (str "vdots", [0x22ee]);
    (str "diameter", [0x2205]);
    (str "lceil", [0x2308]);
    (str "rceil", [0x2309]);
    (str "lfloor", [0x230a]);
    (str "rfloor", [0x230b]);
    (str "varnothing", [0x2205]);
    (str "sptilde", [0x7e]);
    (str "cent", [0xa2]);
    (str "pounds", [0xa3]);
    (str "yen", [0xa5]);
    (str "backslash", [0x5c]);
    (str "spddot", [0x308]);
    (str "sphat", [0x5e]);
    (str "Micro", [0x3bc]);
    (str "eth", [0xf0]);
    (str "imath", [0x131]);
    (str "jmath", [0x237]);
    (str "circledR", [0xae]);
    (str "therefore", [0x2234]);
    (str "because", [0x2235]);
    (str "Proportion", [0x2237]);
    (str "eqcolon", [0x2239]);
    (str "alpha", [0x1d6fc]);
    (str "beta", [0x1d6fd]);
    (str "varbeta", [0x3b2]);
    (str "gamma", [0x1d6fe]);
    (str "delta", [0x1d6ff]);
    (str "epsilon", [0x1d700]);
    (str "varepsilon", [0x3b5]);
    (str "backepsilon", [0x3f6]);
    (str "zeta", [0x1d701]);
    (str "eta", [0x1d702]);
    (str "theta", [0x1d703]);
    (str "vartheta", [0x3b8]);
    (str "iota", [0x1d704]);
    (str "kappa", [0x1d705]);
    (str "varkappa", [0x1d718]);
    (str "lambda", [0x1d706]);
    (str "mu", [0x1d707]);
    (str "nu", [0x1d708]);
    (str "xi", [0x1d709]);
    (str "pi", [0x1d70b]);
    (str "varpi", [0x1d71b]);
    (str "rho", [0x1d70c]);
    (str "varrho", [0x1d71a]);
    (str "sigma", [0x1d70e]);
    (str "varsigma", [0x3c2]);
    (str "tau", [0x1d70f]);
    (str "upsilon", [0x1d710]);
    (str "phi", [0x1d719]);
    (str "varphi", [0x1d711]);
    (str "chi", [0x1d712]);
    (str "psi", [0x1d713]);
    (str "omega", [0x1d714]);
    (str "Gamma", [0x1d6e4]);
    (str "Delta", [0x1d6e5]);
    (str "Theta", [0x1d6e9]);
    (str "Lambda", [0x1d6ec]);
    (str "Xi", [0x1d6ef]);
    (str "Pi", [0x1d6f1]);
    (str "Sigma", [0x1d6f4]);
    (str "Upsilon", [0x1d6f6]);
    (str "Phi", [0x1d6f7]);
    (str "Psi", [0x1d6f9]);
    (str "Omega", [0x1d6fa]);
    (str "nabla", [0x2207]);
    (str "partial", [0x2202]);
    (str "int", [0x222b]);
    (str "iint", [0x222b; 0x222b]);
    (str "iint", [0x222b; 0x222b; 0x222b]);
    (str "oint", [0x222e]);
    (str "oiint", [0x222e; 0x222e]);
    (str "Euler", [0x190]);
    (str "Im", [0x2111]);
    (str "ell", [0x2113]);
    (str "wp", [0x2118]);
    (str "Re", [0x211c]);
    (str "tcohm", [0x2126]);
    (str "mho", [0x2127]);
    (str "Angstroem", [0x212b]);
    (str "Finv", [0x2132]);
    (str "aleph", [0x5d0]);
    (str "beth", [0x5d1]);
    (str "gimel", [0x5d2]);
    (str "daleth", [0x5d3]);
    (str "Yup", [0x2144]);
    (str "complement", [0x2201]);
    (str "dotplus", [0x2214]);
    (str "hslash", [0x210f]);
    (str "invamp", [0x214b]);
    (str "grave", [0x300]);
    (str "acute", [0x301]);
    (str "hat", [0x302]);
    (str "tilde", [0x303]);
    (str "bar", [0x304]);
    (str "breve", [0x306]);
    (str "dot", [0x307]);
    (str "ddot", [0x308]);
    (str "dddot", [0x20db]);
    (str "dddot", [0x20dc]);
    (str "mathring", [0x30a]);
    (str "check", [0x30c]);
    (str "not", [0x338]);
    (str "textstyle", []);
    (str "sqrt", [0x221a]);
    (str "frac", [0x20; 0x2f; 0x20]);
    (str "sum", [0x2211]);
    (str "prod", [0x220f]);
    (str "coprod", [0x2210]);
    (str "lvec", [0x20d0]);
    (str "vec", [0x20d1]);
    (str "left", []);
    (str "right", []);
    (str "bigl", []);
    (str "bigr", []);
    (str "lbrace", [0x7b]);
    (str "rbrace", [0x7d]);
    (str "lbrack", [0x5b]);
    (str "rbrack", [0x5d]);
    (str "langle", [0x27e8]);
    (str "rangle", [0x27e9]);
    (str "vert", [0x7c]);
    (str "Vert", [0x2016]);
    (str "CapitalDifferentialD", [0x2145]);
    (str "DifferentialD", [0x2146]);
    (str "ExponentialE", [0x2147]);
    (str "ComplexI", [0x2148]);
    (str "ComplexJ", [0x2149]);
    (str "over", [0x2f]);
    (str "style", [])
  ].

Definition mathcal_map : dict :=
  [
    (str "A", [0x1d49c]);
    (str "B", [0x212c]);
    (str "C", [0x1d49e]);
    (str "D", [0x1d49f]);
    (str "E", [0x2130]);
    (str "F", [0x2131]);
    (str "G", [0x1d4a2]);
    (str "H", [0x210b]);
    (str "I", [0x2110]);
    (str "J", [0x1d4a5]);
    (str "K", [0x1d4a6]);
    (str "L", [0x2112]);
    (str "M", [0x2133]);
    (str "N", [0x1d4a9]);
    (str "O", [0x1d4aa]);
    (str "P", [0x1d4ab]);
    (str "Q", [0x1d4ac]);
    (str "R", [0x211b]);
    (str "S", [0x1d4ae]);
    (str "T", [0x1d4af]);
    (str "U", [0x1d4b0]);
    (str "V", [0x1d4b1]);
    (str "W", [0x1d4b2]);
    (str "X", [0x1d4b3]);
    (str "Y", [0x1d4b4]);
    (str "Z", [0x1d4b5]);
    (str "a", [0x1d4b6]);
    (str "b", [0x1d4b7]);
    (str "c", [0x1d4b8]);
    (str "d", [0x1d4b9]);
    (str "e", [0x212f]);
    (str "f", [0x1d4bb]);
    (str "g", [0x210a]);
    (str "h", [0x1d4bd]);
    (str "i", [0x1d4be]);
    (str "j", [0x1d4bf]);
    (str "k", [0x1d4c0]);
    (str "l", [0x1d4c1]);
    (str "m", [0x1d4c2]);
    (str "n", [0x1d4c3]);
    (str "o", [0x2134]);
    (str "p", [0x1d4c5]);
    (str "q", [0x1d4c6]);
    (str "r", [0x1d4c7]);
    (str "s", [0x1d4c8]);
    (str "t", [0x1d4c9]);
    (str "u", [0x1d4ca]);
    (str "v", [0x1d4cb]);
    (str "w", [0x1d4cc]);
    (str "x", [0x1d4cd]);
    (str "y", [0x1d4ce]);
    (str "z", [0x1d4cf])
  ].

Definition mathfrak_map : dict :=
  [
    (str "A", [0x1d504]);
    (str "B", [0x1d505]);
    (str "C", [0x212d]);
    (str "D", [0x1d507]);
    (str "E", [0x1d508]);
    (str "F", [0x1d509]);
    (str "G", [0x1d50a]);
    (str "H", [0x210c]);
    (str "J", [0x1d50d]);
    (str "K", [0x1d50e]);
    (str "L", [0x1d50f]);
    (str "M", [0x1d510]);
    (str "N", [0x1d511]);
    (str "O", [0x1d512]);
    (str "P", [0x1d513]);
    (str "Q", [0x1d514]);
    (str "S", [0x1d516]);
    (str "T", [0x1d517]);
    (str "U", [0x1d518]);
    (str "V", [0x1d519]);
    (str "W", [0x1d51a]);
    (str "X", [0x1d51b]);
    (str "Y", [0x1d51c]);
    (str "Z", [0x2128])
  ].

Definition mathbb_map : dict :=
  [
    (str "A", [0x1d538]);
    (str "B", [0x1d539]);
    (str "C", [0x2102]);
    (str "D", [0x1d53b]);
    (str "E", [0x1d53c]);
    (str "F", [0x1d53d]);
    (str "G", [0x1d53e]);
    (str "H", [0x210d]);
    (str "I", [0x1d540]);
    (str "J", [0x1d541]);
    (str "K", [0x1d542]);
    (str "L", [0x1d543]);
    (str "M", [0x1d544]);
    (str "N", [0x2115]);
    (str "O", [0x1d546]);
    (str "P", [0x2119]);
    (str "Q", [0x211a]);
    (str "R", [0x211d]);
    (str "S", [0x1d54a]);
    (str "T", [0x1d54b]);
    (str "U", [0x1d54c]);
    (str "V", [0x1d54d]);
    (str "W", [0x1d54e]);
    (str "X", [0x1d54f]);
    (str "Y", [0x1d550]);
    (str "Z", [0x2124]);
    (str "a", [0x1d552]);
    (str "b", [0x1d553]);
    (str "c", [0x1d554]);
    (str "d", [0x1d555]);
    (str "e", [0x1d556]);
    (str "f", [0x1d557]);
    (str "g", [0x1d558]);
    (str "h", [0x1d559]);
    (str "i", [0x1d55a]);
    (str "j", [0x1d55b]);
    (str "k", [0x1d55c]);
    (str "l", [0x1d55d]);
    (str "m", [0x1d55e]);
    (str "n", [0x1d55f]);
    (str "o", [0x1d560]);
    (str "p", [0x1d561]);
    (str "q", [0x1d562]);
    (str "r", [0x1d563]);
    (str "s", [0x1d564]);
    (str "t", [0x1d565]);
    (str "u", [0x1d566]);
    (str "v", [0x1d567]);
    (str "w", [0x1d568]);
    (str "x", [0x1d569]);
    (str "y", [0x1d56a]);
    (str "z", [0x1d56b]);
    (str "pi", [0x213c]);
    (str "gamma", [0x213d]);
    (str "Gamma", [0x213e]);
    (str "Pi", [0x213f]);
    (str "Sigma", [0x2140])
  ].

Local Close Scope N_scope.

Section WithUnicode.

Variable U : Unicode.

Definition is_alpha (c : char) : bool :=
  if is_ascii c then ascii_letter c else ext_alpha U c.
Definition is_decimal (c : char) : bool :=
  if is_ascii c then ascii_digit c else ext_decimal U c.
Definition is_digit (c : char) : bool :=
  if is_ascii c then ascii_digit c else ext_digit U c.
Definition is_numeric (c : char) : bool :=
  if is_ascii c then ascii_digit c else ext_numeric U c.
Definition is_alnum (c : char) : bool :=
  is_alpha c || is_decimal c || is_digit c || is_numeric c.
(** the [\w] of [re] *)
Definition is_word (c : char) : bool := is_alnum c || N.eqb c 0x5f.

(** [s.isspace()], [s.isalnum()]: false on the empty string *)
Definition isspace (s : pystr) : bool :=
  match s with [] => false | _ => forallb is_space s end.
Definition isalnum (s : pystr) : bool :=
  match s with [] => false | _ => forallb is_alnum s end.

End WithUnicode.

(** [s.strip()] *)
Fixpoint lstrip (s : pystr) : pystr :=
  match s with
  | c :: s' => if is_space c then lstrip s' else s
  | [] => []
  end.
Definition rstrip (s : pystr) : pystr := rev (lstrip (rev s)).
Definition strip (s : pystr) : pystr := rstrip (lstrip s).

(** ** Script converters *)

Definition to_superscript (text : pystr) : res pystr :=
  match text with
  | [] => Ret []
  | _ =>
      if forallb (fun x => dict_mem superscript_ht [x]) text then
        rbind (rmap (fun x => dict_item superscript_ht [x]) text)
              (fun gs => Ret (concat gs))
      else if Nat.eqb (length text) 1 then Ret (str "^" ++ text)
      else Ret (str "^(" ++ text ++ str ")")
  end.

Definition to_subscript (text : pystr) : res pystr :=
  match text with
  | [] => Ret []
  | _ =>
      if forallb (fun x => dict_mem subscript_ht [x]) text then
        rbind (rmap (fun x => dict_item subscript_ht [x]) text)
              (fun gs => Ret (concat gs))
      else if Nat.eqb (length text) 1 then Ret (str "_" ++ text)
      else Ret (str "_(" ++ text ++ str ")")
  end.

Definition to_chem (U : Unicode) (text : pystr) : res pystr :=
  rbind (rmap (fun x => if is_digit U x then to_subscript [x] else Ret [x]) text)
        (fun gs => Ret (concat gs)).

Definition mathcal_fn (text : pystr) : pystr :=
  concat (map (fun x => dict_get_default mathcal_map [x] [x]) text).
Definition mathfrak_fn (text : pystr) : pystr :=
  concat (map (fun x => dict_get_default mathfrak_map [x] [x]) text).
Definition mathbb_fn (text : pystr) : pystr :=
  concat (map (fun x => dict_get_default mathbb_map [x] [x]) text).

(** ** Regular expressions

    The fragment of Python's [re] the module uses, as a backtracking matcher:
    alternatives are tried left to right, a greedy repetition tries one more
    iteration before it gives up, a lazy one the other way round, and the
    first complete match wins.  Every repeated sub-pattern of the source
    consumes at least one character, which is what the matcher asks of an
    iteration. *)

Inductive re :=
| Eps
| Cls (p : char -> bool)            (* one character of a class *)
| Seq (a b : re)
| Alt (a b : re)
| Star (greedy : bool) (a : re)
| Grp (n : nat) (a : re)            (* capturing group number n *)
| Eol                               (* $ *)
| WordB (w : char -> bool).         (* \b, for the word characters w *)

Definition Plus (greedy : bool) (a : re) : re := Seq a (Star greedy a).
Definition Opt (a : re) : re := Alt a Eps.

Definition Chr (c : char) : re := Cls (N.eqb c).
Fixpoint Lit (s : pystr) : re :=
  match s with
  | [] => Eps
  | [c] => Chr c
  | c :: s' => Seq (Chr c) (Lit s')
  end.

(** A letter of a pattern under the [i] flag.  Besides the two ASCII cases,
    [i] also matches U+0130 and U+0131, [s] matches U+017F and [k] matches
    U+212A. *)
Definition ci_char (c x : char) : bool :=
  let lo := if ascii_upper c then (c + 32)%N else c in
  if ascii_lower lo then
    N.eqb x lo || N.eqb x (lo - 32)%N
    || (N.eqb lo 0x69%N && (N.eqb x 0x130%N || N.eqb x 0x131%N))
    || (N.eqb lo 0x73%N && N.eqb x 0x17f%N)
    || (N.eqb lo 0x6b%N && N.eqb x 0x212a%N)
  else N.eqb x c.
Fixpoint LitI (s : pystr) : re :=
  match s with
  | [] => Eps
  | [c] => Cls (ci_char c)
  | c :: s' => Seq (Cls (ci_char c)) (LitI s')
  end.

(** [.] without and with the [s] flag; [[^...]] *)
Definition Dot : re := Cls (fun c => negb (N.eqb c chr_nl)).
Definition DotAll : re := Cls (fun _ => true).
Definition NoneOf (s : pystr) : re := Cls (fun c => negb (existsb (N.eqb c) s)).
Definition Space : re := Cls is_space.

Record mstate := {
  m_pos : nat;                        (* offset in the subject string *)
  m_prev : option char;               (* the character before that offset *)
  m_rest : pystr;                     (* the subject from that offset on *)
  m_caps : list (nat * (nat * nat))   (* spans of the groups closed so far *)
}.

Definition opt_is (w : char -> bool) (o : option char) : bool :=
  match o with Some c => w c | None => false end.

Definition or_else {A} (a b : option A) : option A :=
  match a with Some _ => a | None => b end.

(** One character consumed, and a group closed. *)
Definition advance (s : mstate) (c : char) (t : pystr) : mstate :=
  {| m_pos := S (m_pos s); m_prev := Some c; m_rest := t;
     m_caps := m_caps s |}.
Definition close_group (n : nat) (s s' : mstate) : mstate :=
  {| m_pos := m_pos s'; m_prev := m_prev s'; m_rest := m_rest s';
     m_caps := (n, (m_pos s, m_pos s')) :: m_caps s' |}.

Definition at_eol (rest : pystr) : bool :=
  match rest with
  | [] => true
  | [c] => N.eqb c chr_nl
  | _ => false
  end.
Definition at_boundary (w : char -> bool) (s : mstate) : bool :=
  xorb (opt_is w (m_prev s)) (opt_is w (hd_error (m_rest s))).

(** The iterations of a repetition whose body is run by [body]; [n] bounds
    their number by the length of the subject that is left. *)
Definition star_loop (body : (mstate -> option mstate) -> mstate -> option mstate)
  (greedy : bool) (k : mstate -> option mstate)
  : nat -> mstate -> option mstate :=
  fix loop (n : nat) (s : mstate) : option mstate :=
    match n with
    | O => k s
    | S n' =>
        let more :=
          body (fun s' => if Nat.ltb (m_pos s) (m_pos s')
                          then loop n' s' else None) s in
        if greedy then or_else more (k s) else or_else (k s) more
    end.

Fixpoint exec (r : re) (k : mstate -> option mstate) (s : mstate)
  : option mstate :=
  match r with
  | Eps => k s
  | Cls p =>
      match m_rest s with
      | c :: t => if p c then k (advance s c t) else None
      | [] => None
      end
  | Seq a b => exec a (exec b k) s
  | Alt a b => or_else (exec a k s) (exec b k s)
  | Star greedy a => star_loop (exec a) greedy k (List.length (m_rest s)) s
  | Grp n a => exec a (fun s' => k (close_group n s s')) s
  | Eol => if at_eol (m_rest s) then k s else None
  | WordB w => if at_boundary w s then k s else None
  end.

(** A match object: the subject, the span of the match and the spans of its
    groups. *)
Record mobj := {
  mo_string : pystr;
  mo_start : nat;
  mo_end : nat;
  mo_caps : list (nat * (nat * nat))
}.

Definition substr (s : pystr) (i j : nat) : pystr := firstn (j - i) (skipn i s).

Fixpoint cap_get (caps : list (nat * (nat * nat))) (n : nat)
  : option (nat * nat) :=
  match caps with
  | [] => None
  | (n', sp) :: caps' => if Nat.eqb n' n then Some sp else cap_get caps' n
  end.

(** [m.group(0)] and [m.group(n)], which is [None] for a group that took no
    part in the match. *)
Definition group0 (m : mobj) : pystr := substr (mo_string m) (mo_start m) (mo_end m).
Definition group (m : mobj) (n : nat) : option pystr :=
  match cap_get (mo_caps m) n with
  | Some (i, j) => Some (substr (mo_string m) i j)
  | None => None
  end.

Definition match_at (r : re) (text : pystr) (pos : nat) (prev : option char)
  (rest : pystr) : option mobj :=
  match exec r Some {| m_pos := pos; m_prev := prev; m_rest := rest;
                       m_caps := [] |} with
  | Some e => Some {| mo_string := text; mo_start := pos; mo_end := m_pos e;
                      mo_caps := m_caps e |}
  | None => None
  end.

(** [re.match(r, text)] *)
Definition re_match (r : re) (text : pystr) : option mobj :=
  match_at r text 0 None text.

(** [re.finditer(r, text)]: the leftmost match, then the leftmost one that
    starts at or after its end, and so on.  [skip] counts the characters of
    the last match still to be passed over. *)
Fixpoint scan (r : re) (text : pystr) (pos : nat) (prev : option char)
  (rest : pystr) (skip : nat) {struct rest} : list mobj :=
  match skip with
  | S k =>
      match rest with
      | [] => []
      | c :: rest' => scan r text (S pos) (Some c) rest' k
      end
  | O =>
      match match_at r text pos prev rest with
      | Some m =>
          m :: match rest with
               | [] => []
               | c :: rest' =>
                   scan r text (S pos) (Some c) rest' (mo_end m - pos - 1)
               end
      | None =>
          match rest with
          | [] => []
          | c :: rest' => scan r text (S pos) (Some c) rest' 0
          end
      end
  end.

Definition finditer (r : re) (text : pystr) : list mobj :=
  scan r text 0 None text 0.

(** The subject with each match replaced by the corresponding replacement:
    the text between the matches is kept. *)
Fixpoint splice (text : pystr) (pos : nat) (ms : list mobj)
  (reps : list pystr) : pystr :=
  match ms, reps with
  | m :: ms', rep :: reps' =>
      substr text pos (mo_start m) ++ rep ++ splice text (mo_end m) ms' reps'
  | _, _ => skipn pos text
  end.

(** [re.sub(r, repl, text)] for a replacement function that cannot fail, and
    for one that can. *)
Definition re_sub (r : re) (repl : mobj -> pystr) (text : pystr) : pystr :=
  let ms := finditer r text in
  splice text 0 ms (map repl ms).

Definition re_sub_r (r : re) (repl : mobj -> res pystr) (text : pystr)
  : res pystr :=
  let ms := finditer r text in
  rbind (rmap repl ms) (fun reps => Ret (splice text 0 ms reps)).

(** ** The math expander *)

(** Modelled from the spec: the reserved private-use range of placeholder
    code points, which the module imports from the markup parser
    ([wikitextprocessor.common], not in the repository), with the values
    that package gives them, in plane 16. *)
Definition MAGIC_FIRST : char := 0x0010203e%N.
Definition MAGIC_LAST : char := 0x0010fff0%N.

Definition is_magic (c : char) : bool := in_range MAGIC_FIRST MAGIC_LAST c.

(** [chr(n)], defined up to U+10FFFF *)
Definition chr (n : N) : res pystr :=
  if N.leb n 0x10ffff%N then Ret [n] else Raise ValueError.

(** [ord(s)] of a one-character string *)
Definition ord (s : pystr) : N := hd 0%N s.

(** What the expander prints, line by line. *)
Inductive event :=
| Print_to_math (text : pystr)
| Print_before_iter (text : pystr)
| Print_frac (v : pystr)
| Print_frac_error
| Print_final (text : pystr).

(** The state of one call of [to_math]: the placeholder vector, which its
    nested functions share, and the lines printed so far. *)
Record env := { magic_vec : list pystr; printed : list event }.

Definition M (A : Type) : Type := env -> res (A * env).

Definition ret {A} (a : A) : M A := fun e => Ret (a, e).
Definition bind {A B} (c : M A) (f : A -> M B) : M B :=
  fun e =>
    match c e with
    | Ret (a, e') => f a e'
    | Raise x => Raise x
    | Timeout => Timeout
    end.
Definition lift {A} (r : res A) : M A :=
  fun e => match r with
           | Ret a => Ret (a, e)
           | Raise x => Raise x
           | Timeout => Timeout
           end.
Definition raise {A} (x : exn) : M A := fun _ => Raise x.
Definition timeout {A} : M A := fun _ => Timeout.

Notation "x <- c ;; k" := (bind c (fun x => k))
  (at level 61, c at next level, right associativity).
Notation "c ;;; k" := (bind c (fun _ => k))
  (at level 61, right associativity).

Definition print (ev : event) : M unit :=
  fun e => Ret (tt, {| magic_vec := magic_vec e; printed := printed e ++ [ev] |}).
Definition get_vec : M (list pystr) := fun e => Ret (magic_vec e, e).
Definition append_vec (t : pystr) : M unit :=
  fun e => Ret (tt, {| magic_vec := magic_vec e ++ [t]; printed := printed e |}).

(** [[f(x) for x in xs]] in the state monad *)
Fixpoint mmap {A B} (f : A -> M B) (xs : list A) : M (list B) :=
  match xs with
  | [] => ret []
  | x :: xs' => y <- f x ;; ys <- mmap f xs' ;; ret (y :: ys)
  end.

(** [re.sub] with a replacement function that has effects: the matches are
    those of the subject, which the replacements do not alter, and the
    function is called on them from left to right. *)
Definition re_sub_m (r : re) (repl : mobj -> M pystr) (text : pystr)
  : M pystr :=
  let ms := finditer r text in
  reps <- mmap repl ms ;; ret (splice text 0 ms reps).

(** [while True: orig = text; text = step(text); if text == orig: break] *)
Fixpoint until_fixed (fuel : nat) (step : pystr -> M pystr) (text : pystr)
  : M pystr :=
  match fuel with
  | O => timeout
  | S fuel' =>
      t <- step text ;;
      if streq t text then ret t else until_fixed fuel' step t
  end.

Definition nonempty (s : pystr) : bool :=
  match s with [] => false | _ => true end.

(** [expand]: placeholders back to their resolved text, until nothing
    changes; then [strip]. *)
Definition magic_re : re := Cls is_magic.

Definition expand_pass (text : pystr) : M pystr :=
  vec <- get_vec ;;
  lift (re_sub_r magic_re
          (fun m =>
             match nth_error vec (N.to_nat (ord (group0 m) - MAGIC_FIRST)) with
             | Some t => Ret t
             | None => Raise IndexError
             end) text).

Definition expand (fuel : nat) (text : pystr) : M pystr :=
  t <- until_fixed fuel expand_pass text ;; ret (strip t).

(** [math_magic]: every innermost [left ... right] group is resolved by [fn]
    and replaced by a fresh placeholder, until none is left. *)
Definition math_magic_re (left right : pystr) : re :=
  Seq (Lit left) (Seq (Grp 1 (Plus true (NoneOf (left ++ right)))) (Lit right)).

Definition group_or_empty (m : mobj) (n : nat) : pystr :=
  match group m n with Some g => g | None => [] end.

(** The replacement function [repl] of [math_magic]. *)
Definition math_magic_repl (fn : pystr -> M pystr) (m : mobj) : M pystr :=
  vec <- get_vec ;;
  magic <- lift (chr (MAGIC_FIRST + N.of_nat (List.length vec))) ;;
  t <- fn (group_or_empty m 1) ;;
  append_vec t ;;;
  ret magic.

Definition math_magic (fuel : nat) (text left right : pystr)
  (fn : pystr -> M pystr) : M pystr :=
  let regexp := math_magic_re left right in
  until_fixed fuel (re_sub_m regexp (math_magic_repl fn)) text.

Section Expander.

Variable U : Unicode.

Let word : re := Cls (is_word U).
Let wordb : re := WordB (is_word U).
Let letters : re := Plus true (Cls ascii_letter).
Let bs : re := Chr 0x5c%N.

(** The argument of a fraction: [\\[a-zA-Z]+|\\.|.] *)
Definition frac_arg : re := Alt (Seq bs letters) (Alt (Seq bs Dot) Dot).

Definition mathcal_re : re := Seq (Lit (str "\mathcal")) wordb.
Definition mathfrak_re : re := Seq (Lit (str "\mathfrak")) wordb.
Definition mathbb_re : re := Seq (Lit (str "\mathbb")) wordb.
Definition begin_end_re : re :=
  Seq bs (Seq (Grp 1 (Alt (Lit (str "begin")) (Lit (str "end")))) wordb).
Definition text_re : re := Seq (Lit (str "\text")) wordb.
Definition sqrt_index_re : re := Lit (str "\sqrt[").
Definition sqrt_re : re :=
  Seq (Lit (str "\sqrt")) (Grp 1 (Alt Eol (Alt (Cls ascii_digit) wordb))).
Definition frac_test_re : re :=
  Seq (Lit (str "\frac")) (Grp 1 (Alt Eol (Alt (Cls ascii_digit) wordb))).
(** [\\frac\s*(A)\s*(A)], for the argument pattern [A] *)
Definition frac_call_re : re :=
  Seq (Lit (str "\frac"))
    (Seq (Star true Space)
       (Seq (Grp 1 frac_arg) (Seq (Star true Space) (Grp 2 frac_arg)))).
Definition frac_re : re := Seq frac_call_re Eol.

(** The tokens of [recurse]: white space, a fraction with its arguments, or
    an optional command prefix, an optional mark and an atom. *)
Definition command_prefix_re : re :=
  Grp 3
    (Alt (Seq bs
            (Seq (Grp 4
                    (Alt (Lit (str "mathcal"))
                       (Alt (Lit (str "mathfrak"))
                          (Alt (Lit (str "mathbb"))
                             (Alt (Lit (str "text"))
                                (Alt (Lit (str "begin"))
                                   (Lit (str "end"))))))))
               (Seq wordb (Star true Space))))
       (Seq (Lit (str "\sqrt"))
          (Seq wordb
             (Opt (Grp 5
                     (Seq (Chr 0x5b%N)
                        (Seq (Plus true (Cls (is_decimal U)))
                           (Chr 0x5d%N)))))))).
Definition mark_re : re :=
  Cls (fun c => N.eqb c 0x5f%N || N.eqb c 0x5e%N).
Definition atom_re : re :=
  Grp 6
    (Alt (Seq bs (Seq letters (Star true Space)))
       (Alt (Seq bs Dot) (Alt (Plus true word) Dot))).
Definition token_re : re :=
  Alt (Plus true Space)
    (Alt frac_call_re
       (Seq (Opt command_prefix_re) (Seq (Opt mark_re) atom_re))).

Definition matches (r : re) (v : pystr) : bool :=
  match re_match r v with Some _ => true | None => false end.

(** The value of [fn] in [expand_group] *)
Inductive style := NoStyle | Mathcal | Mathfrak | Mathbb | Sub | Sup.

Definition apply_style (fn : style) (v : pystr) : res pystr :=
  match fn with
  | NoStyle => Ret v
  | Mathcal => Ret (mathcal_fn v)
  | Mathfrak => Ret (mathfrak_fn v)
  | Mathbb => Ret (mathbb_fn v)
  | Sub => to_subscript v
  | Sup => to_superscript v
  end.

Definition glyph_sqrt : pystr := [0x221a%N].
Definition glyph_cbrt : pystr := [0x221b%N].
Definition glyph_qdrt : pystr := [0x221c%N].

(** The command lookup and the special characters, after the branch on the
    shape of the token. *)
Definition lookup_command (v : pystr) : pystr :=
  if startswith (str "\") v then
    let name := strip (skipn 1 v) in
    match dict_get math_map name with
    | None => if isalnum U name then str " " ++ name ++ str " " else name
    | Some mapped => mapped
    end
  else if isspace v || streq v (str "&") then []
  else v.

(** [parts[-1]] and [s[-1]], [s[0]] *)
Definition last_part (parts : list pystr) : res pystr :=
  match rev parts with [] => Raise IndexError | p :: _ => Ret p end.
Definition last_of (s : pystr) : res char :=
  match rev s with [] => Raise IndexError | c :: _ => Ret c end.

(** The test of the spacing heuristic, with the short-circuit evaluation of
    [and] and [or]. *)
Definition needs_space (parts : list pystr) (v : pystr) : res bool :=
  let same_class (p : char -> bool) : res bool :=
    match parts with
    | [] => Ret false
    | _ =>
        rbind (last_part parts) (fun l =>
        rbind (last_of l) (fun c =>
        if p c then
          match v with
          | [] => Ret false
          | c0 :: _ => Ret (p c0)
          end
        else Ret false))
    end in
  rbind (same_class (is_alpha U)) (fun a =>
  rbind (if a then Ret true else same_class (is_digit U)) (fun ad =>
  if ad then
    rbind (last_part parts) (fun l =>
    Ret (Nat.ltb 1 (List.length l) && Nat.ltb 1 (List.length v)))
  else Ret false)).

Definition parenthesize (a : pystr) : pystr :=
  if Nat.ltb 1 (List.length a) then str "(" ++ a ++ str ")" else a.

(** The end of [expand_group], common to the branches that fall through. *)
Definition finish_group (fuel : nat) (parts : list pystr) (fn : style)
  (v : pystr) : M pystr :=
  let v := lookup_command v in
  v <- match fn with
       | NoStyle => ret v
       | _ => v <- expand fuel v ;; lift (apply_style fn v)
       end ;;
  sp <- lift (needs_space parts v) ;;
  let v := if (sp : bool) then str " " ++ v else v in
  expand fuel v.

Fixpoint expand_group (fuel : nat) (parts : list pystr) (v : pystr)
  : M pystr :=
  match fuel with
  | O => timeout
  | S fuel' =>
      if matches mathcal_re v then
        finish_group fuel' parts Mathcal (strip (skipn 8 v))
      else if matches mathfrak_re v then
        finish_group fuel' parts Mathfrak (strip (skipn 9 v))
      else if matches mathbb_re v then
        finish_group fuel' parts Mathbb (skipn 7 v)
      else if matches begin_end_re v then
        finish_group fuel' parts NoStyle []
      else if matches text_re v then
        finish_group fuel' parts NoStyle (skipn 5 v)
      else if matches sqrt_index_re v then
        let a := strip (removelast (skipn 6 v)) in
        if streq a (str "2") then finish_group fuel' parts NoStyle glyph_sqrt
        else if streq a (str "3") then
          (* v = "∛", binds a one-element tuple: the startswith that
             follows is not defined on it *)
          raise AttributeError
        else if streq a (str "4") then
          finish_group fuel' parts NoStyle glyph_qdrt
        else
          s <- lift (to_superscript a) ;;
          finish_group fuel' parts NoStyle (s ++ glyph_sqrt)
      else if matches sqrt_re v then
        finish_group fuel' parts NoStyle glyph_sqrt
      else if matches frac_test_re v then
        print (Print_frac v) ;;;
        match re_match frac_re v with
        | None => print Print_frac_error ;;; ret v
        | Some m =>
            a <- expand_group fuel' parts (strip (group_or_empty m 1)) ;;
            b <- expand_group fuel' parts (strip (group_or_empty m 2)) ;;
            finish_group fuel' parts NoStyle
              (parenthesize a ++ str "/" ++ parenthesize b)
        end
      else if startswith (str "_") v then
        finish_group fuel' parts Sub (skipn 1 v)
      else if startswith (str "^") v then
        finish_group fuel' parts Sup (skipn 1 v)
      else finish_group fuel' parts NoStyle v
  end.

(** The loop over the tokens: [parts] grows by the non-empty results. *)
Fixpoint for_tokens (fuel : nat) (ms : list mobj) (parts : list pystr)
  : M (list pystr) :=
  match ms with
  | [] => ret parts
  | m :: ms' =>
      v <- expand_group fuel parts (group0 m) ;;
      for_tokens fuel ms' (if nonempty v then parts ++ [v] else parts)
  end.

Fixpoint recurse (fuel : nat) (text : pystr) : M pystr :=
  match fuel with
  | O => timeout
  | S fuel' =>
      text <- until_fixed fuel'
                (fun text =>
                   math_magic fuel' text (str "{") (str "}") (recurse fuel'))
                text ;;
      print (Print_before_iter text) ;;;
      parts <- for_tokens fuel' (finditer token_re text) [] ;;
      ret (concat parts)
  end.

(** [to_math], with the lines it printed. *)
Definition to_math_run (fuel : nat) (text : pystr) : res (pystr * env) :=
  (print (Print_to_math text) ;;;
   text <- recurse fuel text ;;
   print (Print_final text) ;;;
   ret text) {| magic_vec := []; printed := [] |}.

Definition to_math (fuel : nat) (text : pystr) : res pystr :=
  rbind (to_math_run fuel text) (fun r => Ret (fst r)).

End Expander.

(** ** The value cleaner *)

Definition star_space : re := Star true Space.
Definition lt_sign : re := Chr 0x3c%N.
Definition gt_sign : re := Chr 0x3e%N.
Definition slash : re := Chr 0x2f%N.
Definition bar : re := Chr 0x7c%N.
Definition not_gt : re := NoneOf (str ">").
Definition not_rbracket : re := NoneOf (str "]").
Definition not_rbracket_bar : re := NoneOf (str "]|").

Fixpoint seq (rs : list re) : re :=
  match rs with
  | [] => Eps
  | [r] => r
  | r :: rs' => Seq r (seq rs')
  end.

Section Cleaner.

Variable U : Unicode.
(** The value of the [config] argument is not read. *)
Variable WiktionaryConfig : Type.
(** [html.unescape] and [unicodedata.normalize("NFC", _)] of the Python
    library. *)
Variable html_unescape : pystr -> pystr.
Variable normalize_nfc : pystr -> pystr.

Let wordb : re := WordB (is_word U).

(** [\{\{[^}]+\}\}] *)
Definition template_re : re :=
  seq [Lit (str "{{"); Plus true (NoneOf (str "}")); Lit (str "}}")].
(** [(?s)\{\|.*?\|\}] *)
Definition table_re : re :=
  seq [Lit (str "{|"); Star false DotAll; Lit (str "|}")].
(** [(?is)<\s*ref\s*[^>]*?>\s*.*?<\s*/\s*ref\s*>\n*] *)
Definition ref_re : re :=
  seq [lt_sign; star_space; LitI (str "ref"); star_space; Star false not_gt;
       gt_sign; star_space; Star false DotAll; lt_sign; star_space; slash;
       star_space; LitI (str "ref"); star_space; gt_sign;
       Star true (Chr chr_nl)].
(** [(?si)<\s*br\s*/?>\n*] *)
Definition br_re : re :=
  seq [lt_sign; star_space; LitI (str "br"); star_space; Opt slash; gt_sign;
       Star true (Chr chr_nl)].
(** [(?si)<\s*/?\s*(div|tr|li|table)\b[^>]*>] *)
Definition block_re : re :=
  seq [lt_sign; star_space; Opt slash; star_space;
       Grp 1 (Alt (LitI (str "div"))
                (Alt (LitI (str "tr"))
                   (Alt (LitI (str "li")) (LitI (str "table")))));
       wordb; Star true not_gt; gt_sign].
(** [(?si)<\s*/?\s*(td|th)\b[^>]*>] *)
Definition cell_re : re :=
  seq [lt_sign; star_space; Opt slash; star_space;
       Grp 1 (Alt (LitI (str "td")) (LitI (str "th")));
       wordb; Star true not_gt; gt_sign].
(** [(?si)<\s*open\b[^>]*>\s*<\s*/\s*close\s*>], for the empty pairs *)
Definition empty_pair_re (open close : pystr) : re :=
  seq [lt_sign; star_space; LitI open; wordb; Star true not_gt; gt_sign;
       star_space; lt_sign; star_space; slash; star_space; LitI close;
       star_space; gt_sign].
(** [(?si)<\s*tag\b[^>]*>(.*?)<\s*/\s*tag\s*>] *)
Definition span_re (tag : pystr) : re :=
  seq [lt_sign; star_space; LitI tag; wordb; Star true not_gt; gt_sign;
       Grp 1 (Star false DotAll); lt_sign; star_space; slash; star_space;
       LitI tag; star_space; gt_sign].
(** [(?s)<\s*[^/>][^>]*>] and [(?s)<\s*/\s*[^>]+>] *)
Definition open_tag_re : re :=
  seq [lt_sign; star_space; NoneOf (str "/>"); Star true not_gt; gt_sign].
Definition close_tag_re : re :=
  seq [lt_sign; star_space; slash; star_space; Plus true not_gt; gt_sign].
(** [(?si)\[\[\s*Category\s*:\s*([^]]+?)\s*\]\]] *)
Definition category_re : re :=
  seq [Lit (str "[["); star_space; LitI (str "Category"); star_space;
       Chr 0x3a%N; star_space; Grp 1 (Plus false not_rbracket); star_space;
       Lit (str "]]")].
(** [(?s)\[\[\s*([^]|]+?)\s*\|\s*([^]|]+?)(\s*\|\s*([^]|]+?))?\s*\]\]] *)
Definition link_bars_re : re :=
  seq [Lit (str "[["); star_space; Grp 1 (Plus false not_rbracket_bar);
       star_space; bar; star_space; Grp 2 (Plus false not_rbracket_bar);
       Opt (Grp 3 (seq [star_space; bar; star_space;
                        Grp 4 (Plus false not_rbracket_bar)]));
       star_space; Lit (str "]]")].
(** [(?s)\[\[\s*(([a-zA-z0-9]+)\s*:)?\s*([^][]+?)\]\]]; the class runs from
    [A] to the lower-case [z]. *)
Definition link_re : re :=
  seq [Lit (str "[["); star_space;
       Opt (Grp 1 (seq [Grp 2 (Plus true
                          (Cls (fun c => ascii_lower c
                                         || in_range 0x41%N 0x7a%N c
                                         || ascii_digit c)));
                        star_space; Chr 0x3a%N]));
       star_space; Grp 3 (Plus false (NoneOf (str "][")));
       Lit (str "]]")].
(** [(?s)\[\[\s*:?([^]|]+?)\s*\]\]] *)
Definition simple_link_re : re :=
  seq [Lit (str "[["); star_space; Opt (Chr 0x3a%N);
       Grp 1 (Plus false not_rbracket_bar); star_space; Lit (str "]]")].
(** [\[(https?:)//[^]\s]+\s+([^]]+?)\s*\]] *)
Definition url_re : re :=
  seq [Chr 0x5b%N;
       Grp 1 (seq [Lit (str "http"); Opt (Chr 0x73%N); Chr 0x3a%N]);
       Lit (str "//");
       Plus true (Cls (fun c => negb (N.eqb c 0x5d%N || is_space c)));
       Plus true Space; Grp 2 (Plus false not_rbracket); star_space;
       Chr 0x5d%N].
(** [\[//[^]\s]+\s+edit\s*\]] *)
Definition edit_re : re :=
  seq [Lit (str "[//");
       Plus true (Cls (fun c => negb (N.eqb c 0x5d%N || is_space c)));
       Plus true Space; Lit (str "edit"); star_space; Chr 0x5d%N].
(** [''+] *)
Definition quotes_re : re := seq [Chr 0x27%N; Plus true (Chr 0x27%N)].
(** [\xa0], [[ \t\r]+] and [ *\n+] *)
Definition nbsp_re : re := Chr chr_nbsp.
Definition blanks_re : re :=
  Plus true (Cls (fun c => N.eqb c 0x20%N || N.eqb c chr_tab || N.eqb c chr_cr)).
Definition newlines_re : re :=
  seq [Star true (Chr 0x20%N); Plus true (Chr chr_nl)].
(** [(?si)(File|Image)\s*:] *)
Definition file_re : re :=
  seq [Grp 1 (Alt (LitI (str "File")) (LitI (str "Image"))); star_space;
       Chr 0x3a%N].

(** [s.lower()] on the ASCII strings it is applied to *)
Definition lower (s : pystr) : pystr :=
  map (fun c => if ascii_upper c then (c + 32)%N else c) s.

(** [s.split("|")[0]] *)
Fixpoint before_bar (s : pystr) : pystr :=
  match s with
  | [] => []
  | c :: s' => if N.eqb c 0x7c%N then [] else c :: before_bar s'
  end.

Definition const (s : pystr) (_ : mobj) : pystr := s.

(** The replacement functions of [clean_value]; [cv] is the recursive call
    [clean_value(config, _, no_strip=_)]. *)
Section Replacements.

Variable cv : pystr -> bool -> res pystr.

Definition repl_1 (m : mobj) : res pystr := cv (group_or_empty m 1) true.
Definition repl_2 (m : mobj) : res pystr := cv (group_or_empty m 2) true.

Definition repl_link (m : mobj) : res pystr :=
  let is_file :=
    match group m 2 with
    | Some g =>
        nonempty g
        && (streq (lower g) (str "file") || streq (lower g) (str "image"))
    | None => false
    end in
  if is_file then Ret []
  else cv (before_bar (group_or_empty m 3)) true.

(** [m.group(4) or m.group(2) or ""] *)
Definition caption_or_display (m : mobj) : pystr :=
  match group m 4 with
  | Some g4 => if nonempty g4 then g4 else group_or_empty m 2
  | None => group_or_empty m 2
  end.

Definition repl_link_bars (m : mobj) : res pystr :=
  let lnk := group_or_empty m 1 in
  if matches file_re lnk then Ret []
  else cv (caption_or_display m) true.

Definition repl_1_sup (m : mobj) : res pystr :=
  rbind (cv (group_or_empty m 1) false) to_superscript.
Definition repl_1_sub (m : mobj) : res pystr :=
  rbind (cv (group_or_empty m 1) false) to_subscript.
Definition repl_1_chem (m : mobj) : res pystr :=
  rbind (cv (group_or_empty m 1) false) (to_chem U).

End Replacements.

Definition repl_1_math (fuel : nat) (m : mobj) : res pystr :=
  to_math U fuel (group_or_empty m 1).

(** The substitutions of [clean_value] up to the sup and sub spans, from
    there to the links, the links, and the rest. *)
Definition strip_blocks (title : pystr) : pystr :=
  let title := re_sub template_re (const []) title in
  let title := re_sub table_re (const [chr_nl]) title in
  let title := re_sub ref_re (const []) title in
  let title := re_sub br_re (const (str ", ")) title in
  let title := re_sub block_re (const [chr_nl]) title in
  re_sub cell_re (const (str " ")) title.

Definition strip_tags (title : pystr) : pystr :=
  let title := re_sub open_tag_re (const []) title in
  let title := re_sub close_tag_re (const []) title in
  re_sub category_re (const []) title.

Definition finish_value (title : pystr) (no_strip : bool) : pystr :=
  let title := re_sub edit_re (const []) title in
  let title := re_sub quotes_re (const []) title in
  let title := html_unescape title in
  let title := re_sub nbsp_re (const (str " ")) title in
  let title := re_sub blanks_re (const (str " ")) title in
  let title := re_sub newlines_re (const [chr_nl]) title in
  let title := if no_strip then title else strip title in
  normalize_nfc title.

Fixpoint clean_value (fuel : nat) (config : WiktionaryConfig)
  (title : pystr) (no_strip : bool) : res pystr :=
  match fuel with
  | O => Timeout
  | S fuel' =>
      let cv := clean_value fuel' config in
      let title := strip_blocks title in
      let title :=
        re_sub (empty_pair_re (str "sup") (str "sup")) (const []) title in
      rbind (re_sub_r (span_re (str "sup")) (repl_1_sup cv) title) (fun title =>
      let title :=
        re_sub (empty_pair_re (str "sub") (str "sup")) (const []) title in
      rbind (re_sub_r (span_re (str "sub")) (repl_1_sub cv) title) (fun title =>
      rbind (re_sub_r (span_re (str "chem")) (repl_1_chem cv) title) (fun title =>
      rbind (re_sub_r (span_re (str "math")) (repl_1_math fuel') title) (fun title =>
      let title := strip_tags title in
      rbind (re_sub_r link_bars_re (repl_link_bars cv) title) (fun title =>
      rbind (re_sub_r link_re (repl_link cv) title) (fun title =>
      rbind (re_sub_r simple_link_re (repl_1 cv) title) (fun title =>
      rbind (re_sub_r url_re (repl_2 cv) title) (fun title =>
      Ret (finish_value title no_strip)))))))))
  end.

End Cleaner.

(** ** Instances for the examples *)

(** The character database cut off after Latin-1: it is exact up to U+00FF,
    and above it on every code point that is neither a letter nor a number,
    as are the placeholders and the operators of the examples. *)
Definition latin1 : Unicode :=
  let digit c := N.eqb c 0xb2%N || N.eqb c 0xb3%N || N.eqb c 0xb9%N in
  {| ext_alpha := fun c =>
       N.eqb c 0xaa%N || N.eqb c 0xb5%N || N.eqb c 0xba%N
       || in_range 0xc0%N 0xd6%N c || in_range 0xd8%N 0xf6%N c
       || in_range 0xf8%N 0xff%N c;
     ext_decimal := fun _ => false;
     ext_digit := digit;
     ext_numeric := fun c => digit c || in_range 0xbc%N 0xbe%N c |}.

(** [html.unescape] on a string without an ampersand: its argument. *)
Definition unescape_no_amp (s : pystr) : pystr := s.

(** Canonical composition of a vowel and a following combining acute accent
    (U+0301), the one composition the examples need. *)
Definition compose_acute (b : char) : option char :=
  if N.eqb b 0x61%N then Some 0xe1%N
  else if N.eqb b 0x65%N then Some 0xe9%N
  else if N.eqb b 0x69%N then Some 0xed%N
  else if N.eqb b 0x6f%N then Some 0xf3%N
  else if N.eqb b 0x75%N then Some 0xfa%N
  else None.

Fixpoint nfc_acute (s : pystr) : pystr :=
  match s with
  | b :: s' =>
      match s' with
      | m :: s'' =>
          if N.eqb m 0x301%N then
            match compose_acute b with
            | Some c => c :: nfc_acute s''
            | None => b :: nfc_acute s'
            end
          else b :: nfc_acute s'
      | [] => [b]
      end
  | [] => []
  end.

(** ** What a pattern can match

    [reach r s s'] holds when the pattern [r] can take the matcher from the
    state [s] to the state [s']; [lang r w] when [r] can consume the word
    [w], the assertions [$] and [\b] read as the empty pattern. *)

Inductive reach : re -> mstate -> mstate -> Prop :=
| R_eps s : reach Eps s s
| R_cls p s c t :
    m_rest s = c :: t -> p c = true -> reach (Cls p) s (advance s c t)
| R_seq a b s s1 s2 : reach a s s1 -> reach b s1 s2 -> reach (Seq a b) s s2
| R_alt_l a b s s' : reach a s s' -> reach (Alt a b) s s'
| R_alt_r a b s s' : reach b s s' -> reach (Alt a b) s s'
| R_star_nil g a s : reach (Star g a) s s
| R_star_step g a s s1 s2 :
    reach a s s1 -> m_pos s < m_pos s1 -> reach (Star g a) s1 s2 ->
    reach (Star g a) s s2
| R_grp n a s s' : reach a s s' -> reach (Grp n a) s (close_group n s s')
| R_eol s : at_eol (m_rest s) = true -> reach Eol s s
| R_wordb w s : at_boundary w s = true -> reach (WordB w) s s.

Inductive lang : re -> pystr -> Prop :=
| L_eps : lang Eps []
| L_cls p c : p c = true -> lang (Cls p) [c]
| L_seq a b u v : lang a u -> lang b v -> lang (Seq a b) (u ++ v)
| L_alt_l a b w : lang a w -> lang (Alt a b) w
| L_alt_r a b w : lang b w -> lang (Alt a b) w
| L_star_nil g a : lang (Star g a) []
| L_star_step g a u v :
    lang a u -> u <> [] -> lang (Star g a) v -> lang (Star g a) (u ++ v)
| L_grp n a w : lang a w -> lang (Grp n a) w
| L_eol : lang Eol []
| L_wordb w : lang (WordB w) [].

(** The matcher is at offset [m_pos s] of [text]. *)
Definition at_offset (text : pystr) (s : mstate) : Prop :=
  skipn (m_pos s) text = m_rest s /\ m_pos s <= List.length text.

(** Every group closed so far spans a word that satisfies [P]. *)
Definition caps_in (P : nat -> pystr -> Prop) (text : pystr)
  (caps : list (nat * (nat * nat))) : Prop :=
  forall n i j, In (n, (i, j)) caps -> P n (substr text i j).

(** Every group of [r] can only capture words that satisfy [P]. *)
Fixpoint groups_in (P : nat -> pystr -> Prop) (r : re) : Prop :=
  match r with
  | Grp n a => (forall w, lang a w -> P n w) /\ groups_in P a
  | Seq a b | Alt a b => groups_in P a /\ groups_in P b
  | Star _ a => groups_in P a
  | _ => True
  end.

(** A pattern without [$] and [\b] matches in every context. *)
Fixpoint context_free (r : re) : bool :=
  match r with
  | Eol | WordB _ => false
  | Seq a b | Alt a b => context_free a && context_free b
  | Star _ a | Grp _ a => context_free a
  | _ => true
  end.

(** The matches of a scan come in order, each after the end of the one
    before. *)
Fixpoint chain (pos : nat) (ms : list mobj) : Prop :=
  match ms with
  | [] => True
  | m :: ms' => pos <= mo_start m /\ mo_start m <= mo_end m /\ chain (mo_end m) ms'
  end.

(** A match of [r] in [text]. *)
Record match_of (r : re) (text : pystr) (m : mobj) : Prop := {
  mo_subject : mo_string m = text;
  mo_word : lang r (group0 m);
  mo_ordered : mo_start m <= mo_end m;
  mo_bounded : mo_end m <= List.length text;
  mo_groups : forall P, groups_in P r -> caps_in P text (mo_caps m)
}.

(** The characters of a class replaced one by one: what [re.sub] does with
    a pattern that is a single class. *)
Fixpoint subst_class (p : char -> bool) (text : pystr) (reps : list pystr)
  : pystr :=
  match text with
  | [] => []
  | c :: t =>
      if p c then
        match reps with
        | rep :: reps' => rep ++ subst_class p t reps'
        | [] => c :: t
        end
      else c :: subst_class p t reps
  end.

(** The number of occurrences of a character. *)
Definition count (c : char) (s : pystr) : nat :=
  List.length (filter (N.eqb c) s).

(** ** Placeholders

    A string is free of placeholders when it holds no code point of the
    reserved range; the placeholder vector is sound when its entries are. *)

Definition magic_free (s : pystr) : Prop :=
  forall c, In c s -> is_magic c = false.

Definition vec_ok (e : env) : Prop := Forall magic_free (magic_vec e).

(** A token is safe when the unparseable-fraction branch, which returns
    its token as it is, can only return it free of placeholders. *)
Definition safe (U : Unicode) (v : pystr) : Prop :=
  matches (frac_test_re U) v = true -> re_match frac_re v = None ->
  magic_free v.

(** The placeholders of a string index the first [n] entries of the
    vector. *)
Definition bounded (n : nat) (s : pystr) : Prop :=
  forall c, In c s -> is_magic c = true -> N.to_nat (c - MAGIC_FIRST) < n.

(** The values of a table hold no placeholder. *)
Definition table_free (d : dict) : bool :=
  forallb (fun kv => forallb (fun c => negb (is_magic c)) (snd kv)) d.


(** The argument of a fraction, stripped: at most two characters, or a
    backslash and letters. *)
Definition arg_like (v : pystr) : Prop :=
  List.length v <= 2
  \/ exists w, v = 0x5c%N :: w /\ Forall (fun c => ascii_letter c = true) w.

(** The opening brace, whose occurrences bound the number of placeholders
    that [to_math] allocates, and the largest number of entries for which
    [chr] still has a code point. *)
Definition lbrace : char := 0x7b%N.
Definition MAX_ENTRIES : N := 57282%N.

(** The placeholder that [math_magic] allocates for the entry [i] of the
    vector, [chr(MAGIC_FIRST + i)], and the number of code points of the
    reserved range. *)
Definition placeholder (i : nat) : char := (MAGIC_FIRST + N.of_nat i)%N.
Definition RANGE_SIZE : N := (MAGIC_LAST - MAGIC_FIRST + 1)%N.

(** The state of the brace loops of [recurse]: the vector is sound, the
    placeholders of the text index it, and the entries and the braces still
    to resolve add up to [total]. *)
Definition pass_inv (first total : nat) (x : pystr) (e : env) : Prop :=
  vec_ok e /\ bounded (List.length (magic_vec e)) x
  /\ first <= List.length (magic_vec e)
  /\ List.length (magic_vec e) + count lbrace x = total.

(** The pattern of the brace groups, and what it is to return for
    [recurse] with the fuel [f]. *)
Definition brace_re : re := math_magic_re (str "{") (str "}").

Definition recurse_returns (U : Unicode) (f : nat) : Prop :=
  forall text e,
    vec_ok e -> bounded (List.length (magic_vec e)) text ->
    (N.of_nat (List.length (magic_vec e) + count lbrace text)
     <= MAX_ENTRIES)%N ->
    count lbrace text + 5 <= f ->
    exists r e',
      recurse U f text e = Ret (r, e') /\ vec_ok e' /\ magic_free r
      /\ List.length (magic_vec e) <= List.length (magic_vec e')
      /\ List.length (magic_vec e')
         <= List.length (magic_vec e) + count lbrace text.

(** A title without markup brackets: neither [<] nor [[]. *)
Definition plain (s : pystr) : Prop :=
  ~ In 0x3c%N s /\ ~ In 0x5b%N s.

(** A string without white space at either end. *)
Definition head_ok (s : pystr) : Prop :=
  match s with [] => True | c :: _ => is_space c = false end.
Definition stripped (s : pystr) : Prop := head_ok s /\ head_ok (rev s).

(** A target that the link step drops: [File] or [Image], in any case, then
    optional white space and a colon. *)
Definition ci_equal (name p : pystr) : Prop :=
  Forall2 (fun x c => ci_char c x = true) name p.


(** The state of the matcher after it has consumed the word [w]. *)
Fixpoint after (s : mstate) (w : pystr) : mstate :=
  match w with
  | [] => s
  | c :: w' => after (advance s c (tl (m_rest s))) w'
  end.

(** The engine completes a pattern from [s] to [s']: every continuation
    that accepts [s'] lets the engine return, and for a repetition the loop
    returns with any fuel that covers the rest of the subject. *)
Definition completes (r : re) (s s' : mstate) : Prop :=
  forall k e, k s' = Some e ->
    (exists e', exec r k s = Some e')
    /\ match r with
       | Star g a =>
           forall n, List.length (m_rest s) <= n ->
                     exists e', star_loop (exec a) g k n s = Some e'
       | _ => True
       end.


(** [clean_value] on the Latin-1 instance, with ten levels of nested calls. *)
Definition clean_latin1 (title : pystr) : res pystr :=
  clean_value latin1 unescape_no_amp nfc_acute 10 tt title false.


(** ** Notions for the further properties *)

(** The single characters that are keys of a table. *)
Definition keys1 (d : dict) : list char :=
  flat_map (fun kv => match fst kv with [x] => [x] | _ => [] end) d.

(** What one pass of [expand] makes of a text whose placeholders index
    the vector: each placeholder is replaced by its entry. *)
Definition resolve (vec : list pystr) (text : pystr) : pystr :=
  flat_map (fun c => if is_magic c
                     then nth (N.to_nat (c - MAGIC_FIRST)) vec []
                     else [c]) text.

(** A call raises no exception but those of [P]. *)
Definition raises_only (P : exn -> Prop) {A : Type} (r : res A) : Prop :=
  forall x, r = Raise x -> P x.

Definition index_or_value (x : exn) : Prop := x = IndexError \/ x = ValueError.

(** A token whose radical index, as [expand_group] slices it, is not 3. *)
Definition no_cube_index (v : pystr) : Prop :=
  matches sqrt_index_re v = true ->
  streq (strip (removelast (skipn 6 v))) (str "3") = false.

(** The measure that the brace loops of [recurse] never raise: the entries
    of the vector and the opening braces still in the text stay within
    [total]. *)
Definition within (total : nat) (x : pystr) (e : env) : Prop :=
  vec_ok e /\ List.length (magic_vec e) + count lbrace x <= total.

(** [re.sub] as one pass from left to right over the subject: at each
    position outside a match the pattern is tried; the replacement of a
    match is put out and its characters are passed over, a character at
    which the pattern fails is kept.  [skip] counts the characters of the
    current match still to pass over. *)
Fixpoint sub_scan (r : re) (repl : mobj -> pystr) (text : pystr) (pos : nat)
  (prev : option char) (rest : pystr) (skip : nat) {struct rest} : pystr :=
  match skip with
  | S k =>
      match rest with
      | [] => []
      | c :: rest' => sub_scan r repl text (S pos) (Some c) rest' k
      end
  | O =>
      match match_at r text pos prev rest with
      | Some m =>
          repl m
          ++ match rest with
             | [] => []
             | c :: rest' =>
                 (if Nat.leb (mo_end m) pos then [c] else [])
                 ++ sub_scan r repl text (S pos) (Some c) rest'
                      (mo_end m - pos - 1)
             end
      | None =>
          match rest with
          | [] => []
          | c :: rest' => c :: sub_scan r repl text (S pos) (Some c) rest' 0
          end
      end
  end.

(** The length of the longest prefix in a class. *)
Fixpoint run_length (p : char -> bool) (s : pystr) : nat :=
  match s with
  | c :: t => if p c then S (run_length p t) else 0
  | [] => 0
  end.

(** Each maximal run of characters of a class replaced by [rep];
    [in_run] tells that the run has begun. *)
Fixpoint collapse_runs (p : char -> bool) (rep : pystr) (in_run : bool)
  (text : pystr) : pystr :=
  match text with
  | [] => []
  | c :: t =>
      if p c then (if in_run then [] else rep) ++ collapse_runs p rep true t
      else c :: collapse_runs p rep false t
  end.

(** A greedy repetition of a class, followed by [k]: the longest run
    first, then the shorter ones. *)
Fixpoint greedy (p : char -> bool) (k : mstate -> option mstate)
  (s : mstate) (rest : pystr) {struct rest} : option mstate :=
  match rest with
  | c :: t =>
      if p c then or_else (greedy p k (advance s c t) t) (k s) else k s
  | [] => k s
  end.

(** The class of [[ \t\r]]. *)
Definition is_blank (c : char) : bool :=
  N.eqb c 0x20%N || N.eqb c chr_tab || N.eqb c chr_cr.

(** The length of what the pattern of the newline step matches at the
    head of a string: spaces, then at least one newline. *)
Definition nl_len (rest : pystr) : option nat :=
  let j := run_length (N.eqb 0x20%N) rest in
  match skipn j rest with
  | c :: t =>
      if N.eqb chr_nl c then Some (j + S (run_length (N.eqb chr_nl) t))
      else None
  | [] => None
  end.

(** No two neighbours of a string are in the relation [bad]. *)
Fixpoint no_adj (bad : char -> char -> bool) (l : pystr) : bool :=
  match l with
  | a :: t =>
      match t with
      | b :: _ => negb (bad a b) && no_adj bad t
      | [] => true
      end
  | [] => true
  end.

(** A space followed by a space or by a newline. *)
Definition space_then_blank (a b : char) : bool :=
  N.eqb a 0x20%N && (N.eqb b 0x20%N || N.eqb b chr_nl).

(** White space as [clean_value] leaves it, before the normalization: no
    tab, carriage return or no-break space, and no space followed by a
    space or by a newline. *)
Definition tidy (t : pystr) : Prop :=
  (forall c, In c t -> c <> chr_tab /\ c <> chr_cr /\ c <> chr_nbsp)
  /\ no_adj space_then_blank t = true.

(** A pattern that cannot match at a string that begins with [c]: its
    first character is not [c], whatever comes after. *)
Fixpoint fails (r : re) (c : char) : bool :=
  match r with
  | Cls p => negb (p c)
  | Seq a _ => fails a c
  | Alt a b => fails a c && fails b c
  | Grp _ a => fails a c
  | Eps | Star _ _ | Eol | WordB _ => false
  end.

(** The ASCII letters and digits, and with the underscore the ASCII word
    characters. *)
Definition ascii_alnum (c : char) : bool := ascii_letter c || ascii_digit c.
Definition ascii_word (c : char) : bool := ascii_alnum c || N.eqb c 0x5f%N.


(** * Properties *)

Unset Implicit Arguments.

(** ** Outcomes, dictionaries and strings *)

Lemma streq_refl (a : pystr) : streq a a = true.
Proof.
  induction a as [|x a IH]; simpl; [reflexivity|].
  now rewrite N.eqb_refl, IH.
Qed.

Lemma streq_eq (a b : pystr) : streq a b = true <-> a = b.
Proof.
  split; [|intros ->; apply streq_refl].
  revert b; induction a as [|x a IH]; intros [|y b]; simpl; try discriminate;
    [reflexivity|].
  intros H; apply andb_true_iff in H as [Hx Ha].
  apply N.eqb_eq in Hx; subst; f_equal; auto.
Qed.

Lemma streq_neq (a b : pystr) : streq a b = false <-> a <> b.
Proof.
  split.
  - intros H E; apply streq_eq in E; congruence.
  - intros H; destruct (streq a b) eqn:E; [|reflexivity].
    apply streq_eq in E; contradiction.
Qed.

Section Lookup.

Variable d : dict.

(** When every character has a glyph, the join of the glyphs is returned. *)
Lemma rmap_items (text : pystr) (gs : list pystr) :
  Forall2 (fun x g => dict_get d [x] = Some g) text gs ->
  forallb (fun x => dict_mem d [x]) text = true
  /\ rmap (fun x => dict_item d [x]) text = Ret gs.
Proof.
  induction 1 as [|x g text gs Hx _ [IH1 IH2]]; [split; reflexivity|].
  split.
  - cbn [forallb]; unfold dict_mem at 1; now rewrite Hx, IH1.
  - cbn [rmap]; unfold dict_item at 1; rewrite Hx; cbn [rbind].
    now rewrite IH2.
Qed.

Lemma unmapped_forallb (text : pystr) :
  (exists x, In x text /\ dict_get d [x] = None) ->
  forallb (fun x => dict_mem d [x]) text = false.
Proof.
  intros (x & Hin & Hx).
  destruct (forallb _ text) eqn:E; [|reflexivity].
  rewrite forallb_forall in E; specialize (E x Hin).
  unfold dict_mem in E; rewrite Hx in E; discriminate.
Qed.

(** The guarded lookups never raise. *)
Lemma rmap_items_total (text : pystr) :
  forallb (fun x => dict_mem d [x]) text = true ->
  exists gs, rmap (fun x => dict_item d [x]) text = Ret gs.
Proof.
  induction text as [|x text IH]; [now exists []|].
  cbn [forallb]; intros H; apply andb_true_iff in H as [Hx Ht].
  destruct (IH Ht) as [gs Hgs].
  unfold dict_mem in Hx; cbn [rmap]; unfold dict_item at 1.
  destruct (dict_get d [x]) as [g|]; [|discriminate].
  exists (g :: gs); cbn [rbind]; now rewrite Hgs.
Qed.

End Lookup.

(** ** Script converters *)

(** C3: [to_superscript] returns the empty string on the empty string, the
    concatenation of the mapped glyphs when every character of the text has
    an entry in the superscript table, the caret followed by the text when
    some character has none and the text is one character long, and the
    caret followed by the parenthesized text when some character has none
    and the text is longer. *)
Theorem to_superscript_cases (text : pystr) :
  (text = [] -> to_superscript text = Ret [])
  /\ (forall gs,
        Forall2 (fun x g => dict_get superscript_ht [x] = Some g) text gs ->
        to_superscript text = Ret (concat gs))
  /\ ((exists x, In x text /\ dict_get superscript_ht [x] = None) ->
      List.length text = 1 ->
      to_superscript text = Ret (str "^" ++ text))
  /\ ((exists x, In x text /\ dict_get superscript_ht [x] = None) ->
      1 < List.length text ->
      to_superscript text = Ret (str "^(" ++ text ++ str ")")).
Proof.
  repeat split.
  - intros ->; reflexivity.
  - intros gs H; destruct (rmap_items superscript_ht text gs H) as [H1 H2].
    destruct text as [|x text]; [inversion H; reflexivity|].
    unfold to_superscript; rewrite H1, H2; reflexivity.
  - intros H Hlen; apply unmapped_forallb in H.
    destruct text as [|x text]; [discriminate|].
    unfold to_superscript; rewrite H, Hlen; reflexivity.
  - intros H Hlen; apply unmapped_forallb in H.
    destruct text as [|x text]; [inversion Hlen|].
    unfold to_superscript; rewrite H.
    destruct (Nat.eqb_spec (List.length (x :: text)) 1) as [E|_]; [lia|].
    reflexivity.
Qed.

Lemma to_superscript_cases_witness :
  to_superscript (str "12") = Ret [0xb9%N; 0xb2%N]
  /\ to_superscript (str "0") = Ret (str "^0")
  /\ to_superscript (str "10") = Ret (str "^(10)").
Proof.
  destruct (to_superscript_cases (str "12")) as (_ & H12 & _).
  destruct (to_superscript_cases (str "0")) as (_ & _ & H0 & _).
  destruct (to_superscript_cases (str "10")) as (_ & _ & _ & H10).
  split; [|split].
  - apply (H12 [[0xb9%N]; [0xb2%N]]); repeat constructor.
  - apply H0; [exists 0x30%N; split; [now left|reflexivity]|reflexivity].
  - apply H10; [exists 0x30%N; split; [right; now left|reflexivity]|].
    simpl; lia.
Defined.

(** ** The examples of the specification, evaluated *)

Example to_chem_water :
  to_chem latin1 (str "H2O") = Ret (str "H" ++ [0x2082%N] ++ str "O").
Proof. vm_compute; reflexivity. Qed.

Example to_math_square : to_math latin1 10 (str "x^2") = Ret (str "x" ++ [0xb2%N]).
Proof. vm_compute; reflexivity. Qed.

Example to_math_half : to_math latin1 10 (str "\frac{1}{2}") = Ret (str "1/2").
Proof. vm_compute; reflexivity. Qed.

Example clean_value_italic : clean_latin1 (str "''italic''") = Ret (str "italic").
Proof. vm_compute; reflexivity. Qed.

Example clean_value_br : clean_latin1 (str "a<br/>b") = Ret (str "a, b").
Proof. vm_compute; reflexivity. Qed.

Example clean_value_blank_lines :
  clean_latin1 (str "a  b" ++ [chr_nl; chr_nl; chr_nl] ++ str "c")
  = Ret (str "a b" ++ [chr_nl] ++ str "c").
Proof. vm_compute; reflexivity. Qed.

Example clean_value_link : clean_latin1 (str "[[foo|bar]]") = Ret (str "bar").
Proof. vm_compute; reflexivity. Qed.

Example clean_value_file :
  clean_latin1 (str "[[File:x.png|thumb|caption]]") = Ret [].
Proof. vm_compute; reflexivity. Qed.

Example clean_value_sup : clean_latin1 (str "<sup>2</sup>") = Ret [0xb2%N].
Proof. vm_compute; reflexivity. Qed.

Example clean_value_sub : clean_latin1 (str "<sub>x</sub>") = Ret [0x2093%N].
Proof. vm_compute; reflexivity. Qed.

(** C1: the radical commands of [to_math].  On [\sqrt{2}] the token is the
    command with the placeholder of its argument, and the [\sqrt] branch
    replaces the whole token by the root sign: the result is the root sign
    alone, not the root sign followed by 2.  On [\sqrt[3]{8}] the slice
    [v[6:-1]] keeps the closing bracket of the index and drops the
    placeholder, so the index is never 2, 3 or 4: the result is the
    superscript fallback of [3]] followed by the root sign, not the cube
    root sign followed by 8. *)
Theorem to_math_sqrt_loses_argument :
  to_math latin1 10 (str "\sqrt{2}") = Ret glyph_sqrt
  /\ to_math latin1 10 (str "\sqrt[3]{8}") = Ret (str "^(3])" ++ glyph_sqrt)
  /\ glyph_sqrt <> glyph_sqrt ++ str "2"
  /\ str "^(3])" ++ glyph_sqrt <> glyph_cbrt ++ str "8".
Proof.
  repeat split; try (vm_compute; reflexivity); vm_compute; discriminate.
Qed.

(** On [\frac\\1] the first side resolves to a backslash, the sides are
    joined as a backslash, a slash and 1, and the command lookup that follows
    every branch then takes the joined text for a command and removes its
    backslash. *)
Lemma frac_join_not_final :
  (expand_group latin1 5 [] (str "\\") {| magic_vec := []; printed := [] |}
   = Ret (str "\", {| magic_vec := []; printed := [] |}))
  /\ (expand_group latin1 5 [] (str "1") {| magic_vec := []; printed := [] |}
      = Ret (str "1", {| magic_vec := []; printed := [] |}))
  /\ to_math latin1 10 (str "\frac\\1") = Ret (str "/1")
  /\ str "/1" <> str "\" ++ str "/" ++ str "1".
Proof.
  repeat split; try (vm_compute; reflexivity); vm_compute; discriminate.
Qed.


(** C6: the sub spans of [clean_value].  The pattern of the empty sub pair
    closes with [</sup>]: on [<sub></sup>x</sub>] it removes [<sub></sup>],
    and what is left is x, where the sub span with the cleaned content x
    would have been the subscript of x. *)
Theorem clean_value_sub_mismatched_pair :
  clean_latin1 (str "<sub></sup>x</sub>") = Ret (str "x")
  /\ clean_latin1 (str "</sup>x") = Ret (str "x")
  /\ to_subscript (str "x") = Ret [0x2093%N]
  /\ clean_latin1 (str "<sub>x</sub>") = Ret [0x2093%N].
Proof. repeat split; vm_compute; reflexivity. Qed.


(** C8: [clean_value] is not idempotent on the markup-free string of two
    letters separated by a line that holds one space: the first call leaves
    two newlines between the letters, the second call one. *)
Theorem clean_value_not_idempotent :
  clean_latin1 (str "a" ++ [chr_nl; 0x20%N; chr_nl] ++ str "b")
  = Ret (str "a" ++ [chr_nl; chr_nl] ++ str "b")
  /\ clean_latin1 (str "a" ++ [chr_nl; chr_nl] ++ str "b")
     = Ret (str "a" ++ [chr_nl] ++ str "b").
Proof. split; vm_compute; reflexivity. Qed.

(** C9, as stated, fails for [to_math]: on [e\acute] it returns the letter
    followed by the combining acute accent, which is not its own canonical
    composition. *)
Lemma to_math_not_nfc :
  to_math latin1 10 (str "e\acute") = Ret [0x65%N; 0x301%N]
  /\ nfc_acute [0x65%N; 0x301%N] <> [0x65%N; 0x301%N].
Proof. split; [vm_compute; reflexivity | vm_compute; discriminate]. Qed.

(** ** The matcher and the patterns *)

Lemma or_else_some {A} (a b : option A) (x : A) :
  or_else a b = Some x -> a = Some x \/ b = Some x.
Proof. destruct a; simpl; auto. Qed.

Section StarLoop.

Variables (a : re) (g : bool) (k : mstate -> option mstate).

Hypothesis body_sound : forall k s e,
  exec a k s = Some e -> exists s', reach a s s' /\ k s' = Some e.

Lemma star_loop_sound (n : nat) : forall s e,
  star_loop (exec a) g k n s = Some e ->
  exists s', reach (Star g a) s s' /\ k s' = Some e.
Proof.
  induction n as [|n IH]; intros s e H; simpl in H.
  - exists s; split; [constructor | exact H].
  - assert (Hcases :
      exec a (fun s' => if Nat.ltb (m_pos s) (m_pos s')
                        then star_loop (exec a) g k n s' else None) s = Some e
      \/ k s = Some e).
    { destruct g; apply or_else_some in H; tauto. }
    destruct Hcases as [Hmore|Hk].
    + apply body_sound in Hmore as (s1 & Hs1 & Hloop).
      destruct (Nat.ltb_spec (m_pos s) (m_pos s1)) as [Hlt|_]; [|discriminate].
      apply IH in Hloop as (s2 & Hs2 & Hk).
      exists s2; split; [|exact Hk].
      eapply R_star_step; eauto.
    + exists s; split; [constructor | exact Hk].
Qed.

End StarLoop.

(** Soundness: a match found by the matcher is one the pattern allows. *)
Lemma exec_sound (r : re) : forall k s e,
  exec r k s = Some e -> exists s', reach r s s' /\ k s' = Some e.
Proof.
  induction r as [|p|a IHa b IHb|a IHa b IHb|g a IHa|n a IHa| |w];
    intros k s e H; simpl in H.
  - exists s; split; [constructor|exact H].
  - destruct (m_rest s) as [|c t] eqn:Hrest; [discriminate|].
    destruct (p c) eqn:Hp; [|discriminate].
    exists (advance s c t); split; [now constructor|exact H].
  - apply IHa in H as (s1 & H1 & H).
    apply IHb in H as (s2 & H2 & H).
    exists s2; split; [econstructor; eauto|exact H].
  - apply or_else_some in H as [H|H].
    + apply IHa in H as (s' & H1 & H); exists s'; split; [now apply R_alt_l|exact H].
    + apply IHb in H as (s' & H1 & H); exists s'; split; [now apply R_alt_r|exact H].
  - eapply star_loop_sound; eauto.
  - apply IHa in H as (s' & H1 & H).
    exists (close_group n s s'); split; [now constructor|exact H].
  - destruct (at_eol (m_rest s)) eqn:E; [|discriminate].
    exists s; split; [now constructor|exact H].
  - destruct (at_boundary w s) eqn:E; [|discriminate].
    exists s; split; [now constructor|exact H].
Qed.

(** What a match consumes is a word of the pattern, taken from the front of
    the subject. *)
Lemma reach_lang (r : re) (s s' : mstate) :
  reach r s s' ->
  exists w, lang r w /\ m_rest s = w ++ m_rest s'
            /\ m_pos s' = m_pos s + List.length w.
Proof.
  induction 1 as [s|p s c t Hr Hp|a b s s1 s2 _ IH1 _ IH2|a b s s' _ IH
                 |a b s s' _ IH|g a s|g a s s1 s2 _ IH1 Hlt _ IH2
                 |n a s s' _ IH|s He|w s Hw].
  - exists []; repeat split; [constructor|simpl; lia].
  - exists [c]; repeat split; [now constructor|exact Hr|simpl; lia].
  - destruct IH1 as (u & Lu & Ru & Pu), IH2 as (v & Lv & Rv & Pv).
    exists (u ++ v); repeat split; [now constructor| |].
    + now rewrite Ru, Rv, app_assoc.
    + rewrite Pv, Pu, length_app; lia.
  - destruct IH as (w & L & R & P); exists w; repeat split; auto using lang.
  - destruct IH as (w & L & R & P); exists w; repeat split; auto using lang.
  - exists []; repeat split; [constructor|simpl; lia].
  - destruct IH1 as (u & Lu & Ru & Pu), IH2 as (v & Lv & Rv & Pv).
    exists (u ++ v); repeat split.
    + constructor; auto. intros ->; simpl in Pu; lia.
    + now rewrite Ru, Rv, app_assoc.
    + rewrite Pv, Pu, length_app; lia.
  - destruct IH as (w & L & R & P); exists w; repeat split; auto using lang.
  - exists []; repeat split; [constructor|simpl; lia].
  - exists []; repeat split; [constructor|simpl; lia].
Qed.

Lemma lang_Lit (p w : pystr) : lang (Lit p) w -> w = p.
Proof.
  revert w; induction p as [|c p IH]; intros w H.
  - now inversion H.
  - destruct p as [|c' p].
    + inversion H as [|? ? Hc| | | | | | | |]; subst.
      apply N.eqb_eq in Hc; now subst.
    + change (Lit (c :: c' :: p)) with (Seq (Chr c) (Lit (c' :: p))) in H.
      inversion H as [| |? ? u v Hu Hv| | | | | | |]; subst.
      inversion Hu as [|? ? Hc| | | | | | | |]; subst.
      apply N.eqb_eq in Hc; subst; simpl; f_equal; now apply IH.
Qed.

Lemma matches_lang (r : re) (v : pystr) :
  matches r v = true -> exists w t, lang r w /\ v = w ++ t.
Proof.
  unfold matches, re_match, match_at.
  destruct (exec r Some _) as [e|] eqn:E; [intros _|discriminate].
  apply exec_sound in E as (s' & Hr & _).
  apply reach_lang in Hr as (w & Hl & Hrest & _).
  now exists w, (m_rest s').
Qed.

(** *** Offsets and groups *)

Lemma substr_skipn_app (text w t : pystr) (i : nat) :
  skipn i text = w ++ t -> substr text i (i + List.length w) = w.
Proof.
  intros H; unfold substr.
  replace (i + List.length w - i) with (List.length w) by lia.
  rewrite H, firstn_app, firstn_all, Nat.sub_diag; simpl.
  now rewrite app_nil_r.
Qed.

Lemma at_offset_step (text w : pystr) (s s' : mstate) :
  at_offset text s -> m_rest s = w ++ m_rest s' ->
  m_pos s' = m_pos s + List.length w ->
  at_offset text s'.
Proof.
  intros [Hs Hle] Hr Hp; split.
  - rewrite Hp, Nat.add_comm, <- skipn_skipn, Hs, Hr.
    rewrite skipn_app, skipn_all, Nat.sub_diag; reflexivity.
  - assert (Hlen : List.length (skipn (m_pos s) text)
                   = List.length (w ++ m_rest s')) by now rewrite Hs, Hr.
    rewrite length_skipn, length_app in Hlen; lia.
Qed.

Lemma reach_offset (text : pystr) (r : re) (s s' : mstate) :
  reach r s s' -> at_offset text s -> at_offset text s'.
Proof.
  intros H Hs; apply reach_lang in H as (w & _ & Hr & Hp).
  eapply at_offset_step; eauto.
Qed.

Lemma reach_caps (P : nat -> pystr -> Prop) (text : pystr) (r : re)
  (s s' : mstate) :
  reach r s s' -> groups_in P r -> at_offset text s ->
  caps_in P text (m_caps s) -> caps_in P text (m_caps s').
Proof.
  induction 1 as [s|p s c t Hr Hp|a b s s1 s2 H1 IH1 H2 IH2|a b s s' H IH
                 |a b s s' H IH|g a s|g a s s1 s2 H1 IH1 Hlt H2 IH2
                 |n a s s' H IH|s He|w s Hw]; simpl; intros HP Hs Hc; auto.
  - destruct HP as [Ha Hb].
    apply IH2; auto. eapply reach_offset; eauto.
  - apply IH; tauto.
  - apply IH; tauto.
  - apply IH2; auto. eapply reach_offset; eauto.
  - destruct HP as [Ha HP].
    intros n' i j [E|Hin]; [|eapply IH; eauto].
    injection E as <- <- <-.
    destruct (reach_lang a s s' H) as (w & Hl & Hr & Hp).
    rewrite Hp; destruct Hs as [Hs _]; rewrite Hr in Hs.
    rewrite (substr_skipn_app text w (m_rest s') (m_pos s) Hs); auto.
Qed.

(** A match found at an offset of the subject is a match of the pattern. *)
Lemma match_at_spec (r : re) (text : pystr) (pos : nat) (prev : option char)
  (m : mobj) :
  pos <= List.length text ->
  match_at r text pos prev (skipn pos text) = Some m ->
  match_of r text m /\ mo_start m = pos.
Proof.
  intros Hpos; unfold match_at.
  destruct (exec r Some _) as [e|] eqn:E; [|discriminate].
  intros [= <-]; apply exec_sound in E as (s' & Hr & [= <-]).
  set (s0 := {| m_pos := pos; m_prev := prev; m_rest := skipn pos text;
                m_caps := [] |}) in *.
  assert (Hs0 : at_offset text s0) by (split; [reflexivity|exact Hpos]).
  destruct (reach_lang r s0 s' Hr) as (w & Hl & Hrest & Hp); simpl in Hrest, Hp.
  destruct (reach_offset text r s0 s' Hr Hs0) as [_ Hle].
  split; [|reflexivity]; split; simpl; auto.
  - unfold group0; simpl; rewrite Hp.
    now rewrite (substr_skipn_app text w (m_rest s') pos Hrest).
  - lia.
  - intros P HP; eapply reach_caps; eauto. intros ? ? ? [].
Qed.

Lemma re_match_spec (r : re) (text : pystr) (m : mobj) :
  re_match r text = Some m -> match_of r text m /\ mo_start m = 0.
Proof. intros H; apply (match_at_spec r text 0 None); [lia|exact H]. Qed.

Lemma scan_spec (r : re) (text : pystr) :
  forall rest pos prev skip,
    skipn pos text = rest -> pos <= List.length text ->
    Forall (match_of r text) (scan r text pos prev rest skip)
    /\ chain (pos + skip) (scan r text pos prev rest skip).
Proof.
  induction rest as [|c rest IH]; intros pos prev skip Hrest Hpos.
  - destruct skip as [|skip]; simpl; [|split; constructor].
    destruct (match_at r text pos prev []) as [m|] eqn:E; [|split; constructor].
    rewrite <- Hrest in E.
    apply match_at_spec in E as [Hm Hst]; [|exact Hpos].
    split; [now constructor|].
    simpl; split; [lia|split; [apply Hm|exact I]].
  - assert (Hnext : skipn (S pos) text = rest).
    { replace (S pos) with (1 + pos) by lia.
      now rewrite <- skipn_skipn, Hrest. }
    assert (Hlt : S pos <= List.length text).
    { assert (E : List.length (skipn pos text) = S (List.length rest))
        by now rewrite Hrest.
      rewrite length_skipn in E; lia. }
    destruct skip as [|skip]; simpl.
    + destruct (match_at r text pos prev (c :: rest)) as [m|] eqn:E.
      * rewrite <- Hrest in E.
        apply match_at_spec in E as [Hm Hst]; [|exact Hpos].
        destruct (IH (S pos) (Some c) (mo_end m - pos - 1) Hnext Hlt)
          as [Hall Hch].
        split; [now constructor|].
        simpl; split; [lia|split; [apply Hm|]].
        destruct (scan r text (S pos) (Some c) rest (mo_end m - pos - 1))
          as [|m' ms]; [exact I|].
        pose proof (mo_ordered Hm).
        simpl in *; destruct Hch as (H1 & H2 & H3); repeat split; auto; lia.
      * destruct (IH (S pos) (Some c) 0 Hnext Hlt) as [Hall Hch].
        split; [exact Hall|].
        destruct (scan r text (S pos) (Some c) rest 0) as [|m' ms]; [exact I|].
        simpl in *; destruct Hch as (H1 & H2 & H3); repeat split; auto; lia.
    + destruct (IH (S pos) (Some c) skip Hnext Hlt) as [Hall Hch].
      split; [exact Hall|].
      now replace (pos + S skip) with (S pos + skip) by lia.
Qed.

Lemma finditer_spec (r : re) (text : pystr) :
  Forall (match_of r text) (finditer r text) /\ chain 0 (finditer r text).
Proof. apply (scan_spec r text text 0 None 0); [reflexivity|lia]. Qed.
(** *** Substitution *)

Lemma skipn_in (text : pystr) (i : nat) (c : char) :
  In c (skipn i text) -> In c text.
Proof.
  intros H; rewrite <- (firstn_skipn i text); apply in_or_app; now right.
Qed.

Lemma firstn_in (text : pystr) (i : nat) (c : char) :
  In c (firstn i text) -> In c text.
Proof.
  intros H; rewrite <- (firstn_skipn i text); apply in_or_app; now left.
Qed.

Lemma substr_in (text : pystr) (i j : nat) (c : char) :
  In c (substr text i j) -> In c text.
Proof.
  unfold substr; intros H.
  eapply skipn_in, firstn_in, H.
Qed.

Lemma splice_in (text : pystr) (c : char) :
  forall ms pos reps,
    In c (splice text pos ms reps) ->
    In c text \/ exists rep, In rep reps /\ In c rep.
Proof.
  induction ms as [|m ms IH]; intros pos reps H; simpl in H.
  - left; eapply skipn_in; eauto.
  - destruct reps as [|rep reps]; [left; eapply skipn_in; eauto|].
    rewrite !in_app_iff in H; destruct H as [H|[H|H]].
    + left; eapply substr_in; eauto.
    + right; exists rep; split; [now left|exact H].
    + apply IH in H as [H|(rep' & Hin & H)]; [now left|].
      right; exists rep'; split; [now right|exact H].
Qed.

Lemma skipn_split (text : pystr) (pos i j : nat) :
  pos <= i -> i <= j -> j <= List.length text ->
  skipn pos text = substr text pos i ++ substr text i j ++ skipn j text.
Proof.
  intros H1 H2 H3; unfold substr.
  rewrite <- (firstn_skipn (i - pos) (skipn pos text)) at 1.
  f_equal; rewrite skipn_skipn.
  replace (i - pos + pos) with i by lia.
  rewrite <- (firstn_skipn (j - i) (skipn i text)) at 1.
  f_equal; rewrite skipn_skipn.
  now replace (j - i + i) with j by lia.
Qed.

Lemma count_app (c : char) (a b : pystr) :
  count c (a ++ b) = count c a + count c b.
Proof. unfold count; now rewrite filter_app, length_app. Qed.

(** The occurrences of a character in the result of a substitution. *)
Lemma splice_count (c : char) (text : pystr) :
  forall ms pos reps,
    chain pos ms ->
    Forall (fun m => mo_string m = text /\ mo_end m <= List.length text) ms ->
    List.length reps = List.length ms ->
    count c (splice text pos ms reps)
    + list_sum (map (fun m => count c (group0 m)) ms)
    = count c (skipn pos text) + list_sum (map (count c) reps).
Proof.
  induction ms as [|m ms IH]; intros pos reps Hch Hall Hlen.
  - destruct reps; [simpl; lia|discriminate].
  - destruct reps as [|rep reps]; [discriminate|].
    destruct Hch as (H1 & H2 & Hch).
    destruct (Forall_inv Hall) as [Hs He].
    pose proof (Forall_inv_tail Hall) as Hall'.
    injection Hlen as Hlen.
    specialize (IH (mo_end m) reps Hch Hall' Hlen).
    cbn [splice map list_sum].
    rewrite (skipn_split text pos (mo_start m) (mo_end m)) by assumption.
    rewrite !count_app.
    unfold group0 at 1; rewrite Hs.
    unfold list_sum in *; cbn [fold_right]; lia.
Qed.

(** A pattern that is a single class matches each character of the class. *)
Lemma scan_class (p : char -> bool) (text : pystr) :
  forall rest pos prev,
    skipn pos text = rest -> pos <= List.length text ->
    map group0 (scan (Cls p) text pos prev rest 0)
    = map (fun c => [c]) (filter p rest)
    /\ forall reps,
        splice text pos (scan (Cls p) text pos prev rest 0) reps
        = subst_class p rest reps.
Proof.
  induction rest as [|c rest IH]; intros pos prev Hrest Hpos.
  - simpl; split; [reflexivity|].
    intros reps; simpl; exact Hrest.
  - assert (Hnext : skipn (S pos) text = rest).
    { replace (S pos) with (1 + pos) by lia.
      now rewrite <- skipn_skipn, Hrest. }
    assert (Hlt : S pos <= List.length text).
    { assert (E : List.length (skipn pos text) = S (List.length rest))
        by now rewrite Hrest.
      rewrite length_skipn in E; lia. }
    destruct (IH (S pos) (Some c) Hnext Hlt) as [IHg IHs].
    assert (Hm : match_at (Cls p) text pos prev (c :: rest)
                 = if p c
                   then Some {| mo_string := text; mo_start := pos;
                                mo_end := S pos; mo_caps := [] |}
                   else None)
      by (unfold match_at; simpl; destruct (p c); reflexivity).
    cbn [scan]; rewrite Hm; destruct (p c) eqn:Hp;
      cbn [mo_end filter]; rewrite Hp.
    + replace (S pos - pos - 1) with 0 by lia.
      split.
      * cbn [map]; f_equal; [|exact IHg].
        unfold group0; cbn [mo_string mo_start mo_end].
        replace (S pos) with (pos + List.length [c]) by (simpl; lia).
        apply (substr_skipn_app text [c] rest pos Hrest).
      * intros [|rep reps]; cbn [splice subst_class mo_start mo_end];
          rewrite ?Hp.
        -- exact Hrest.
        -- rewrite IHs; unfold substr; now rewrite Nat.sub_diag.
    + split; [exact IHg|].
      intros reps; cbn [subst_class]; rewrite Hp, <- IHs.
      destruct (scan_spec (Cls p) text rest (S pos) (Some c) 0 Hnext Hlt)
        as [Hall Hch].
      destruct (scan (Cls p) text (S pos) (Some c) rest 0) as [|m ms];
        [cbn [splice]; rewrite Hrest, Hnext; reflexivity|].
      destruct reps as [|rep reps];
        [cbn [splice]; rewrite Hrest, Hnext; reflexivity|].
      cbn [splice]; destruct Hch as (H1 & H2 & _).
      rewrite Nat.add_0_r in H1.
      unfold substr.
      replace (mo_start m - pos) with (S (mo_start m - S pos)) by lia.
      rewrite Hrest; cbn [firstn app]; now rewrite <- Hnext.
Qed.

Lemma finditer_class (p : char -> bool) (text : pystr) :
  map group0 (finditer (Cls p) text) = map (fun c => [c]) (filter p text)
  /\ forall reps,
      splice text 0 (finditer (Cls p) text) reps = subst_class p text reps.
Proof. apply (scan_class p text text 0 None); [reflexivity|lia]. Qed.
(** *** Completeness

    The matcher finds a match whenever the pattern allows one. *)

Lemma or_else_left {A} (a b : option A) (x : A) :
  a = Some x -> exists y, or_else a b = Some y.
Proof. intros ->; now exists x. Qed.

Lemma or_else_right {A} (a b : option A) (x : A) :
  b = Some x -> exists y, or_else a b = Some y.
Proof. intros ->; destruct a as [y|]; [now exists y|now exists x]. Qed.

Lemma reach_completes (r : re) (s s' : mstate) :
  reach r s s' -> completes r s s'.
Proof.
  induction 1 as [s|p s c t Hr Hp|a b s s1 s2 _ IH1 _ IH2|a b s s' _ IH
                 |a b s s' _ IH|g a s|g a s s1 s2 H1 IH1 Hlt _ IH2
                 |n a s s' _ IH|s He|w s Hw]; intros k e Hk.
  - split; [now exists e|exact I].
  - split; [|exact I]; simpl; rewrite Hr, Hp; now exists e.
  - split; [|exact I]; simpl.
    destruct (IH2 k e Hk) as [[e1 H2] _].
    destruct (IH1 (exec b k) e1 H2) as [H _]; exact H.
  - split; [|exact I]; simpl.
    destruct (IH k e Hk) as [[e1 H1] _]; eapply or_else_left; eauto.
  - split; [|exact I]; simpl.
    destruct (IH k e Hk) as [[e1 H1] _]; eapply or_else_right; eauto.
  - assert (Hn : forall n, exists e', star_loop (exec a) g k n s = Some e').
    { intros [|n]; simpl; [now exists e|].
      destruct g; [eapply or_else_right|eapply or_else_left]; eauto. }
    split; [apply Hn|intros n _; apply Hn].
  - assert (Hn : forall n, List.length (m_rest s) <= n ->
                           exists e', star_loop (exec a) g k n s = Some e').
    { intros n Hlen.
      destruct (reach_lang a s s1 H1) as (w & _ & Hrest & Hpos).
      assert (Hw : List.length (m_rest s)
                   = List.length w + List.length (m_rest s1))
        by now rewrite Hrest, length_app.
      destruct n as [|n]; [lia|].
      destruct (IH2 k e Hk) as [_ Hloop].
      destruct (Hloop n ltac:(lia)) as [e1 He1].
      destruct (IH1 (fun s' => if Nat.ltb (m_pos s) (m_pos s')
                               then star_loop (exec a) g k n s' else None) e1)
        as [[e2 He2] _].
      { destruct (Nat.ltb_spec (m_pos s) (m_pos s1)); [exact He1|lia]. }
      simpl; destruct g; [eapply or_else_left; eauto|].
      destruct (k s) as [y|]; [now exists y|simpl; eauto]. }
    split; [apply Hn; simpl; lia|exact Hn].
  - split; [|exact I]; simpl.
    destruct (IH (fun s'0 => k (close_group n s s'0)) e Hk) as [H _]; exact H.
  - split; [|exact I]; simpl; rewrite He; now exists e.
  - split; [|exact I]; simpl; rewrite Hw; now exists e.
Qed.

Lemma exec_complete (r : re) (s s' e : mstate) (k : mstate -> option mstate) :
  reach r s s' -> k s' = Some e -> exists e', exec r k s = Some e'.
Proof. intros H Hk; apply (reach_completes r s s' H k e Hk). Qed.

(** A pattern without assertions reaches the end of any of its words, from
    any state that has the word in front. *)
Lemma lang_reach (r : re) (w : pystr) :
  lang r w -> context_free r = true ->
  forall s t, m_rest s = w ++ t ->
    exists s', reach r s s' /\ m_rest s' = t
               /\ m_pos s' = m_pos s + List.length w.
Proof.
  induction 1 as [|p c Hp|a b u v _ IHa _ IHb|a b w _ IH|a b w _ IH|g a
                 |g a u v _ IHa Hne _ IHs|n a w _ IH| |w];
    simpl; intros Hcf s t Hrest; try discriminate.
  - exists s; repeat split; [constructor|exact Hrest|lia].
  - exists (advance s c t); repeat split; [now constructor|simpl; lia].
  - apply andb_true_iff in Hcf as [Ha Hb].
    rewrite <- app_assoc in Hrest.
    destruct (IHa Ha s (v ++ t) Hrest) as (s1 & R1 & E1 & P1).
    destruct (IHb Hb s1 t E1) as (s2 & R2 & E2 & P2).
    exists s2; repeat split; [econstructor; eauto|exact E2|].
    rewrite P2, P1, length_app; lia.
  - apply andb_true_iff in Hcf as [Ha Hb].
    destruct (IH Ha s t Hrest) as (s' & R & E & P).
    exists s'; repeat split; [now apply R_alt_l|exact E|exact P].
  - apply andb_true_iff in Hcf as [Ha Hb].
    destruct (IH Hb s t Hrest) as (s' & R & E & P).
    exists s'; repeat split; [now apply R_alt_r|exact E|exact P].
  - exists s; repeat split; [constructor|exact Hrest|simpl; lia].
  - rewrite <- app_assoc in Hrest.
    destruct (IHa Hcf s (v ++ t) Hrest) as (s1 & R1 & E1 & P1).
    destruct (IHs Hcf s1 t E1) as (s2 & R2 & E2 & P2).
    exists s2; repeat split; [|exact E2|rewrite P2, P1, length_app; lia].
    eapply R_star_step; eauto.
    destruct u; [congruence|simpl in P1; lia].
  - destruct (IH Hcf s t Hrest) as (s' & R & E & P).
    exists (close_group n s s'); repeat split; [now constructor|exact E|exact P].
Qed.

(** ** The unparseable fraction *)

Lemma matches_frac_head (U : Unicode) (v : pystr) :
  matches (frac_test_re U) v = true -> exists v', v = str "\frac" ++ v'.
Proof.
  intros H; apply matches_lang in H as (w & t & Hl & ->).
  unfold frac_test_re in Hl.
  inversion Hl as [| |? ? u v0 Hu Hv| | | | | | |]; subst.
  apply (lang_Lit (str "\frac")) in Hu; subst.
  rewrite <- app_assoc; eauto.
Qed.

(** C4: a token that begins with [\frac] and whose arguments do not have
    the expected shape is returned unchanged by [expand_group], after the
    token and a diagnostic have been printed; the placeholder vector is left
    as it was. *)
Theorem expand_group_frac_unparseable (U : Unicode) (fuel : nat)
  (parts : list pystr) (v : pystr) (e : env) :
  matches (frac_test_re U) v = true ->
  re_match frac_re v = None ->
  expand_group U (S fuel) parts v e
  = Ret (v, {| magic_vec := magic_vec e;
               printed := printed e ++ [Print_frac v; Print_frac_error] |}).
Proof.
  intros Htest Hnone.
  destruct (matches_frac_head U v Htest) as [v' ->].
  cbn [expand_group].
  replace (matches (mathcal_re U) _) with false by reflexivity.
  replace (matches (mathfrak_re U) _) with false by reflexivity.
  replace (matches (mathbb_re U) _) with false by reflexivity.
  replace (matches (begin_end_re U) _) with false by reflexivity.
  replace (matches (text_re U) _) with false by reflexivity.
  replace (matches sqrt_index_re _) with false by reflexivity.
  replace (matches (sqrt_re U) _) with false by reflexivity.
  rewrite Htest, Hnone.
  unfold bind, print, ret; cbn.
  now rewrite <- app_assoc.
Qed.

Lemma expand_group_frac_unparseable_witness :
  to_math_run latin1 10 (str "\frac")
  = Ret (str "\frac",
         {| magic_vec := [];
            printed := [Print_to_math (str "\frac");
                        Print_before_iter (str "\frac");
                        Print_frac (str "\frac"); Print_frac_error;
                        Print_final (str "\frac")] |})
  /\ expand_group latin1 1 [] (str "\frac") {| magic_vec := []; printed := [] |}
     = Ret (str "\frac",
            {| magic_vec := [];
               printed := [Print_frac (str "\frac"); Print_frac_error] |}).
Proof.
  split; [vm_compute; reflexivity|].
  apply (expand_group_frac_unparseable latin1 0 [] (str "\frac")
           {| magic_vec := []; printed := [] |}); vm_compute; reflexivity.
Defined.

(** ** Normalization *)

Lemma nfc_acute_head (m : char) (s : pystr) :
  m <> 0x301%N -> exists h t, nfc_acute (m :: s) = h :: t /\ h <> 0x301%N.
Proof.
  intros Hm; destruct s as [|m' s]; simpl; [now exists m, []|].
  destruct (N.eqb_spec m' 0x301); [|now eexists _, _].
  unfold compose_acute.
  repeat match goal with
         | |- context [N.eqb m ?c] => destruct (N.eqb_spec m c)
         end;
    eexists _, _; (split; [reflexivity|]); first [discriminate | assumption].
Qed.

Lemma nfc_acute_accent (s : pystr) :
  exists t, nfc_acute (0x301%N :: s) = 0x301%N :: t.
Proof.
  destruct s as [|m s]; simpl; [now exists []|].
  destruct (m =? 0x301)%N; simpl; now eexists.
Qed.

Lemma compose_acute_composed (b c : char) :
  compose_acute b = Some c -> compose_acute c = None /\ c <> 0x301%N.
Proof.
  unfold compose_acute.
  repeat match goal with
         | |- context [N.eqb b ?x] => destruct (N.eqb_spec b x)
         end;
    intros [=]; subst c; split; first [reflexivity | discriminate].
Qed.

Lemma nfc_acute_cons (b : char) (s : pystr) :
  (forall h t, s = h :: t -> h = 0x301%N -> compose_acute b = None) ->
  nfc_acute (b :: s) = b :: nfc_acute s.
Proof.
  intros H; destruct s as [|m s]; [reflexivity|].
  cbn [nfc_acute]; destruct (N.eqb_spec m 0x301) as [E|]; [|reflexivity].
  now rewrite (H m s eq_refl E).
Qed.

Lemma nfc_acute_eq (b m : char) (s : pystr) :
  nfc_acute (b :: m :: s)
  = if N.eqb m 0x301%N then
      match compose_acute b with
      | Some c => c :: nfc_acute s
      | None => b :: nfc_acute (m :: s)
      end
    else b :: nfc_acute (m :: s).
Proof. reflexivity. Qed.

Lemma nfc_acute_idempotent (s : pystr) : nfc_acute (nfc_acute s) = nfc_acute s.
Proof.
  enough (H : forall n s, List.length s <= n ->
                          nfc_acute (nfc_acute s) = nfc_acute s)
    by (apply (H (List.length s)); lia).
  clear s; induction n as [|n IH]; intros [|b [|m s]] Hlen;
    try reflexivity; simpl in Hlen; try lia.
  rewrite (nfc_acute_eq b m s).
  destruct (N.eqb_spec m 0x301) as [->|Hm]; cbv beta iota.
  - destruct (compose_acute b) as [c|] eqn:Hb.
    + destruct (compose_acute_composed b c Hb) as [Hc _].
      transitivity (c :: nfc_acute (nfc_acute s)).
      * apply nfc_acute_cons; intros; assumption.
      * f_equal; apply IH; lia.
    + transitivity (b :: nfc_acute (nfc_acute (0x301%N :: s))).
      * apply nfc_acute_cons; intros; assumption.
      * f_equal; apply IH; simpl; lia.
  - destruct (nfc_acute_head m s Hm) as (h & t & Ht & Hh).
    transitivity (b :: nfc_acute (nfc_acute (m :: s))).
    + apply nfc_acute_cons.
      intros h' t' E1 E2; rewrite Ht in E1; congruence.
    + f_equal; apply IH; simpl; lia.
Qed.

(** The value that [clean_value] returns went through the normalization
    last. *)
Lemma clean_value_nfc (U : Unicode) (Config : Type)
  (unescape nfc : pystr -> pystr) (fuel : nat) (config : Config)
  (title : pystr) (no_strip : bool) (r : pystr) :
  (forall s, nfc (nfc s) = nfc s) ->
  clean_value U unescape nfc fuel config title no_strip = Ret r ->
  nfc r = r.
Proof.
  intros Hnfc; destruct fuel as [|fuel]; [discriminate|].
  cbn [clean_value].
  repeat match goal with
         | |- rbind ?x _ = Ret _ -> _ => destruct x; cbn [rbind]; try discriminate
         end.
  intros [= <-]; unfold finish_value; apply Hnfc.
Qed.
(** ** The monads *)

Lemma rbind_ret {A B} (r : res A) (f : A -> res B) (b : B) :
  rbind r f = Ret b -> exists a, r = Ret a /\ f a = Ret b.
Proof. destruct r as [a| |]; simpl; try discriminate; eauto. Qed.

Lemma bind_ret {A B} (c : M A) (f : A -> M B) (e e' : env) (b : B) :
  bind c f e = Ret (b, e') ->
  exists a e1, c e = Ret (a, e1) /\ f a e1 = Ret (b, e').
Proof.
  unfold bind; destruct (c e) as [[a e1]| |]; try discriminate; eauto.
Qed.

Lemma lift_ret {A} (r : res A) (e e' : env) (a : A) :
  lift r e = Ret (a, e') -> r = Ret a /\ e' = e.
Proof. destruct r; simpl; try discriminate; now intros [= -> ->]. Qed.

Lemma ret_ret {A} (a b : A) (e e' : env) :
  ret a e = Ret (b, e') -> b = a /\ e' = e.
Proof. now intros [= -> ->]. Qed.

Lemma rmap_ret {A B} (f : A -> res B) (xs : list A) (ys : list B) :
  rmap f xs = Ret ys -> Forall2 (fun x y => f x = Ret y) xs ys.
Proof.
  revert ys; induction xs as [|x xs IH]; intros ys H; simpl in H.
  - injection H as <-; constructor.
  - apply rbind_ret in H as (y & Hy & H).
    apply rbind_ret in H as (ys' & Hys & H).
    injection H as <-; constructor; auto.
Qed.

(** A loop [until_fixed] returns what its last step returned. *)
Lemma until_fixed_inv (I : env -> Prop) (Q : pystr -> env -> Prop)
  (step : pystr -> M pystr) :
  (forall x e t e', I e -> step x e = Ret (t, e') -> I e' /\ Q t e') ->
  forall fuel x e t e',
    I e -> until_fixed fuel step x e = Ret (t, e') -> I e' /\ Q t e'.
Proof.
  intros Hstep; induction fuel as [|fuel IH]; intros x e t e' HI H;
    simpl in H; [discriminate|].
  apply bind_ret in H as (t1 & e1 & Hs & H).
  destruct (Hstep x e t1 e1 HI Hs) as [HI1 HQ1].
  destruct (streq t1 x).
  - apply ret_ret in H as [-> ->]; auto.
  - eapply IH; eauto.
Qed.

(** ** Placeholders are expanded *)

Lemma magic_free_app (a b : pystr) :
  magic_free (a ++ b) <-> magic_free a /\ magic_free b.
Proof.
  unfold magic_free; split.
  - intros H; split; intros c Hc; apply H, in_or_app; auto.
  - intros [Ha Hb] c Hc; apply in_app_or in Hc as [Hc|Hc]; auto.
Qed.

Lemma magic_free_concat (l : list pystr) :
  Forall magic_free l -> magic_free (concat l).
Proof.
  induction 1 as [|x l Hx _ IH]; simpl; [intros c []|].
  apply magic_free_app; auto.
Qed.

Lemma lstrip_in (s : pystr) (c : char) : In c (lstrip s) -> In c s.
Proof.
  induction s as [|x s IH]; simpl; [auto|].
  destruct (is_space x); [right; auto|auto].
Qed.

Lemma strip_in (s : pystr) (c : char) : In c (strip s) -> In c s.
Proof.
  unfold strip, rstrip; intros H.
  apply in_rev, lstrip_in, in_rev in H.
  now apply lstrip_in.
Qed.

Lemma magic_free_strip (s : pystr) : magic_free s -> magic_free (strip s).
Proof. intros H c Hc; apply H, strip_in, Hc. Qed.

Lemma subst_class_free (text : pystr) :
  forall reps,
    Forall magic_free reps ->
    List.length reps = List.length (filter is_magic text) ->
    magic_free (subst_class is_magic text reps).
Proof.
  induction text as [|c text IH]; intros reps Hreps Hlen; simpl.
  - intros c [].
  - simpl in Hlen; destruct (is_magic c) eqn:Hc.
    + destruct reps as [|rep reps]; [discriminate|].
      inversion Hreps; subst; injection Hlen as Hlen.
      apply magic_free_app; auto.
    + intros x [<-|Hx]; [exact Hc|]; eapply IH; eauto.
Qed.

(** One pass of [expand] leaves no placeholder when the vector is sound. *)
Lemma expand_pass_sound (text t : pystr) (e e' : env) :
  vec_ok e -> expand_pass text e = Ret (t, e') -> e' = e /\ magic_free t.
Proof.
  intros Hok H; unfold expand_pass, bind, get_vec, lift in H.
  destruct (re_sub_r _ _ text) as [t0| |] eqn:E; try discriminate.
  injection H as <- <-; split; [reflexivity|].
  unfold re_sub_r in E; apply rbind_ret in E as (reps & Hreps & E).
  injection E as <-.
  destruct (finditer_class is_magic text) as [Hg Hs].
  unfold magic_re in *; rewrite Hs.
  apply rmap_ret in Hreps.
  apply subst_class_free.
  - clear Hg Hs; induction Hreps as [|m rep ms reps Hm _ IH]; constructor; auto.
    destruct (nth_error _ _) as [x|] eqn:E; [|discriminate].
    injection Hm as <-; apply nth_error_In in E.
    unfold vec_ok in Hok; rewrite Forall_forall in Hok; auto.
  - rewrite <- (Forall2_length Hreps).
    rewrite <- (length_map group0), Hg, length_map; reflexivity.
Qed.

Lemma expand_sound (fuel : nat) (text t : pystr) (e e' : env) :
  vec_ok e -> expand fuel text e = Ret (t, e') -> e' = e /\ magic_free t.
Proof.
  intros Hok H; unfold expand in H.
  apply bind_ret in H as (t0 & e0 & Hloop & H).
  apply ret_ret in H as [-> ->].
  destruct (until_fixed_inv (fun e1 => e1 = e) (fun t _ => magic_free t)
              expand_pass) with (fuel := fuel) (x := text) (e := e)
                                (t := t0) (e' := e0) as [-> Hfree]; auto.
  - intros x e1 t1 e1' -> Hp.
    now apply expand_pass_sound in Hp.
  - split; [reflexivity|now apply magic_free_strip].
Qed.
(** ** The shape of the tokens *)

Ltac bool_to_prop H :=
  repeat first
    [ rewrite andb_true_iff in H | rewrite orb_true_iff in H
    | rewrite N.leb_le in H | rewrite N.eqb_eq in H | rewrite N.ltb_lt in H ].

Lemma space_not_magic (c : char) : is_space c = true -> is_magic c = false.
Proof.
  intros H; apply not_true_iff_false; intros Hm.
  unfold is_space, is_magic, in_range, MAGIC_FIRST, MAGIC_LAST in *.
  bool_to_prop H; bool_to_prop Hm; lia.
Qed.

Lemma letter_not_magic (c : char) : ascii_letter c = true -> is_magic c = false.
Proof.
  intros H; apply not_true_iff_false; intros Hm.
  unfold ascii_letter, ascii_upper, ascii_lower, is_magic, in_range,
    MAGIC_FIRST, MAGIC_LAST in *.
  bool_to_prop H; bool_to_prop Hm; lia.
Qed.

Lemma lang_star_class (g : bool) (p : char -> bool) (w : pystr) :
  lang (Star g (Cls p)) w -> Forall (fun c => p c = true) w.
Proof.
  remember (Star g (Cls p)) as r eqn:Er; induction 1; try discriminate.
  - constructor.
  - injection Er as -> ->.
    match goal with H : lang (Cls p) _ |- _ => inversion H; subst end.
    constructor; auto.
Qed.

Lemma lang_plus_class (g : bool) (p : char -> bool) (w : pystr) :
  lang (Plus g (Cls p)) w -> w <> [] /\ Forall (fun c => p c = true) w.
Proof.
  unfold Plus; intros H.
  inversion H as [| |? ? u v Hu Hv| | | | | | |]; subst.
  inversion Hu; subst; apply lang_star_class in Hv.
  split; [discriminate|constructor; auto].
Qed.

Lemma strip_length (s : pystr) : List.length (strip s) <= List.length s.
Proof.
  assert (L : forall s, List.length (lstrip s) <= List.length s).
  { induction s0 as [|c s0 IH]; simpl; [lia|].
    destruct (is_space c); simpl; lia. }
  unfold strip, rstrip; rewrite length_rev.
  etransitivity; [apply L|]; rewrite length_rev; apply L.
Qed.

(** The argument of a fraction is a backslash and letters, or it has at
    most two characters. *)
Lemma lang_frac_arg (a : pystr) :
  lang frac_arg a ->
  (exists w, a = 0x5c%N :: w /\ w <> []
             /\ Forall (fun c => ascii_letter c = true) w)
  \/ List.length a <= 2.
Proof.
  unfold frac_arg; intros H.
  inversion H as [| | |? ? ? H1|? ? ? H1| | | | |]; subst.
  - left.
    inversion H1 as [| |? ? u v Hu Hv| | | | | | |]; subst.
    inversion Hu as [|? c Hc| | | | | | | |]; subst.
    apply N.eqb_eq in Hc; subst c.
    apply lang_plus_class in Hv as [Hne Hall].
    exists v; repeat split; auto.
  - right.
    inversion H1 as [| | |? ? ? H2|? ? ? H2| | | | |]; subst.
    + inversion H2 as [| |? ? u v Hu Hv| | | | | | |]; subst.
      inversion Hu; inversion Hv; subst; simpl; lia.
    + inversion H2; subst; simpl; lia.
Qed.
Ltac inv_lang_step :=
  match goal with
  | H : lang (Seq _ _) _ |- _ => inversion H; clear H; subst
  | H : lang (Alt _ _) _ |- _ => inversion H; clear H; subst
  | H : lang (Grp _ _) _ |- _ => inversion H; clear H; subst
  | H : lang (Cls _) _ |- _ => inversion H; clear H; subst
  | H : lang (Chr _) _ |- _ => inversion H; clear H; subst
  | H : lang Dot _ |- _ => inversion H; clear H; subst
  | H : lang DotAll _ |- _ => inversion H; clear H; subst
  | H : lang Space _ |- _ => inversion H; clear H; subst
  | H : lang (NoneOf _) _ |- _ => inversion H; clear H; subst
  | H : lang Eps _ |- _ => inversion H; clear H; subst
  | H : lang Eol _ |- _ => inversion H; clear H; subst
  | H : lang (WordB _) _ |- _ => inversion H; clear H; subst
  | H : N.eqb _ _ = true |- _ => apply N.eqb_eq in H; subst
  end.

Lemma frac_call_parses (v : pystr) :
  lang frac_call_re v -> exists m, re_match frac_re v = Some m.
Proof.
  intros H.
  set (s0 := {| m_pos := 0; m_prev := None; m_rest := v; m_caps := [] |}).
  destruct (lang_reach frac_call_re v H eq_refl s0 [])
    as (s' & Hr & Hrest & _); [simpl; now rewrite app_nil_r|].
  assert (Hfull : reach frac_re s0 s').
  { unfold frac_re; econstructor; [exact Hr|].
    constructor; now rewrite Hrest. }
  destruct (exec_complete frac_re s0 s' s' Some Hfull eq_refl) as [e' He].
  unfold re_match, match_at; fold s0; rewrite He; eauto.
Qed.

Lemma magic_free_letters (w : pystr) :
  Forall (fun c => ascii_letter c = true) w -> magic_free w.
Proof.
  intros H c Hc; rewrite Forall_forall in H; apply letter_not_magic; auto.
Qed.

Lemma magic_free_spaces (w : pystr) :
  Forall (fun c => is_space c = true) w -> magic_free w.
Proof.
  intros H c Hc; rewrite Forall_forall in H; apply space_not_magic; auto.
Qed.

Lemma magic_free_cons (c : char) (w : pystr) :
  is_magic c = false -> magic_free w -> magic_free (c :: w).
Proof. intros Hc Hw x [<-|Hx]; auto. Qed.

Lemma frac_head_length (U : Unicode) (v : pystr) :
  matches (frac_test_re U) v = true -> 5 <= List.length v.
Proof.
  intros H; apply matches_frac_head in H as [v' ->].
  rewrite length_app; simpl; lia.
Qed.

Lemma frac_arg_safe (U : Unicode) (a : pystr) :
  lang frac_arg a -> safe U (strip a).
Proof.
  intros H Htest _; apply frac_head_length in Htest.
  pose proof (strip_length a) as Hlen.
  apply lang_frac_arg in H as [(w & -> & _ & Hw)|H]; [|lia].
  apply magic_free_strip, magic_free_cons; [reflexivity|].
  now apply magic_free_letters.
Qed.

(** An atom that begins with [\frac] is that command and white space. *)
Lemma atom_safe (U : Unicode) (v : pystr) :
  lang (atom_re U) v -> safe U v.
Proof.
  intros H Htest _.
  pose proof (frac_head_length U v Htest) as Hlen.
  unfold atom_re in H.
  inversion H as [| | | | | | |? ? ? H0| |]; subst; clear H.
  inversion H0 as [| | |? ? ? H1|? ? ? H1| | | | |]; subst; clear H0.
  - inversion H1 as [| |? ? u0 v0 Hu Hv| | | | | | |]; subst; clear H1.
    inversion Hu as [|? c Hc| | | | | | | |]; subst; clear Hu.
    apply N.eqb_eq in Hc; subst c.
    inversion Hv as [| |? ? u1 v1 Hu1 Hv1| | | | | | |]; subst; clear Hv.
    apply lang_plus_class in Hu1 as [_ Hu1].
    apply lang_star_class in Hv1.
    apply magic_free_cons; [reflexivity|].
    apply magic_free_app; split;
      [now apply magic_free_letters|now apply magic_free_spaces].
  - inversion H1 as [| | |? ? ? H2|? ? ? H2| | | | |]; subst; clear H1.
    + inversion H2 as [| |? ? u0 v0 Hu Hv| | | | | | |]; subst; clear H2.
      inversion Hu; inversion Hv; subst; simpl in Hlen; lia.
    + inversion H2 as [| | |? ? ? H3|? ? ? H3| | | | |]; subst; clear H2.
      * apply lang_plus_class in H3 as [_ H3].
        apply matches_frac_head in Htest as [v' Ev].
        rewrite Ev in H3; inversion H3 as [|? ? Hw _]; subst.
        vm_compute in Hw; discriminate.
      * inversion H3; subst; simpl in Hlen; lia.
Qed.

Lemma token_safe (U : Unicode) (v : pystr) :
  lang (token_re U) v -> safe U v.
Proof.
  intros H; unfold token_re in H.
  inversion H as [| | |? ? ? H0|? ? ? H0| | | | |]; subst; clear H.
  - (* white space *)
    intros Htest _; apply matches_frac_head in Htest as [v' ->].
    apply lang_plus_class in H0 as [_ H0].
    inversion H0 as [|? ? Hs _]; subst; vm_compute in Hs; discriminate.
  - inversion H0 as [| | |? ? ? H1|? ? ? H1| | | | |]; subst; clear H0.
    + (* a fraction with its arguments *)
      intros _ Hnone; apply frac_call_parses in H1 as [m Hm]; congruence.
    + inversion H1 as [| |? ? pre rest Hpre Hrest| | | | | | |]; subst; clear H1.
      inversion Hrest as [| |? ? mark atom Hmark Hatom| | | | | | |]; subst;
        clear Hrest.
      assert (Hmark' : mark = [] \/ exists c, mark = [c] /\ c <> 0x5c%N).
      { inversion Hmark as [| | |? ? ? H2|? ? ? H2| | | | |]; subst.
        - right; inversion H2 as [|? c Hc| | | | | | | |]; subst.
          exists c; split; [reflexivity|].
          intros ->; vm_compute in Hc; discriminate.
        - left; now inversion H2. }
      inversion Hpre as [| | |? ? ? H2|? ? ? H2| | | | |]; subst; clear Hpre.
      * (* a command prefix: it does not begin with \f *)
        intros Htest _; exfalso; unfold command_prefix_re in H2.
        inversion H2 as [| | | | | | |? ? ? H3| |]; subst; clear H2.
        inversion H3 as [| | |? ? ? H4|? ? ? H4| | | | |]; subst; clear H3.
        -- repeat inv_lang_step;
             apply matches_frac_head in Htest as [v' Ev];
             simpl in Ev; discriminate.
        -- inversion H4 as [| |? ? u0 v0 Hu Hv| | | | | | |]; subst; clear H4.
           apply (lang_Lit (str "\sqrt")) in Hu; subst u0.
           apply matches_frac_head in Htest as [v' Ev].
           simpl in Ev; discriminate.
      * (* no prefix *)
        inversion H2; subst; simpl.
        destruct Hmark' as [->|(c & -> & Hc)]; simpl.
        -- now apply atom_safe.
        -- intros Htest _; apply matches_frac_head in Htest as [v' Ev].
           simpl in Ev; congruence.
Qed.
(** ** No placeholder is returned *)

Lemma cap_get_in (caps : list (nat * (nat * nat))) (n i j : nat) :
  cap_get caps n = Some (i, j) -> In (n, (i, j)) caps.
Proof.
  induction caps as [|[k sp] caps IH]; simpl; [discriminate|].
  destruct (Nat.eqb_spec k n) as [->|_]; [intros [= ->]; now left|].
  right; auto.
Qed.

(** What a group of a match holds is a word of the pattern of the group. *)
Lemma group_in (P : nat -> pystr -> Prop) (r : re) (text : pystr) (m : mobj)
  (n : nat) (g : pystr) :
  match_of r text m -> groups_in P r -> group m n = Some g -> P n g.
Proof.
  intros Hm HP; unfold group.
  destruct (cap_get (mo_caps m) n) as [[i j]|] eqn:Hc; [|discriminate].
  intros [= <-]; rewrite (mo_subject Hm).
  apply (mo_groups Hm P HP), cap_get_in, Hc.
Qed.

Lemma frac_re_groups (v : pystr) (m : mobj) (n : nat) :
  re_match frac_re v = Some m -> n = 1 \/ n = 2 ->
  group_or_empty m n = [] \/ lang frac_arg (group_or_empty m n).
Proof.
  intros Hm Hn; destruct (re_match_spec frac_re v m Hm) as [Hof _].
  unfold group_or_empty; destruct (group m n) as [g|] eqn:Hg; [right|now left].
  apply (group_in (fun k w => (k = 1 \/ k = 2) -> lang frac_arg w)
           frac_re v m n g Hof); auto.
  simpl; repeat split; auto.
Qed.

Section Sound.

Variable U : Unicode.

Lemma finish_group_sound (fuel : nat) (parts : list pystr) (fn : style)
  (v t : pystr) (e e' : env) :
  vec_ok e -> finish_group U fuel parts fn v e = Ret (t, e') ->
  e' = e /\ magic_free t.
Proof.
  intros Hok H; unfold finish_group in H.
  apply bind_ret in H as (v1 & e1 & H1 & H).
  apply bind_ret in H as (sp & e2 & H2 & H).
  apply lift_ret in H2 as [_ ->].
  assert (E1 : e1 = e).
  { destruct fn; try (now apply ret_ret in H1);
      apply bind_ret in H1 as (v0 & e0 & H0 & H1);
      apply expand_sound in H0 as [-> _]; auto;
      now apply lift_ret in H1. }
  subst e1; now apply expand_sound in H.
Qed.

Lemma expand_group_sound (fuel : nat) :
  forall parts v t e e',
    vec_ok e -> safe U v -> expand_group U fuel parts v e = Ret (t, e') ->
    magic_vec e' = magic_vec e /\ magic_free t.
Proof.
  induction fuel as [|fuel IH]; intros parts v t e e' Hok Hsafe H;
    [discriminate|].
  cbn [expand_group] in H.
  repeat match type of H with
         | (if ?c then _ else _) _ = _ =>
             destruct c eqn:?;
             [try (apply finish_group_sound in H as [-> ?]; auto; fail)|]
         end.
  - (* the radical index 3 *)
    discriminate.
  - (* another radical index *)
    apply bind_ret in H as (s & e1 & H1 & H).
    apply lift_ret in H1 as [_ ->].
    apply finish_group_sound in H as [-> ?]; auto.
  - (* the fraction *)
    apply bind_ret in H as ([] & e1 & H1 & H).
    injection H1 as <-.
    destruct (re_match frac_re v) as [m|] eqn:Hm.
    + apply bind_ret in H as (a & e2 & Ha & H).
      apply bind_ret in H as (b & e3 & Hb & H).
      assert (Hg : forall n, n = 1 \/ n = 2 ->
                             safe U (strip (group_or_empty m n))).
      { intros n Hn; destruct (frac_re_groups v m n Hm Hn) as [->|Hl];
          [intros _ _ c []|now apply frac_arg_safe]. }
      apply IH in Ha as [Ea Hfa]; [|exact Hok|apply Hg; auto].
      assert (Hok2 : vec_ok e2) by (unfold vec_ok; now rewrite Ea).
      apply IH in Hb as [Eb Hfb]; [|exact Hok2|apply Hg; auto].
      assert (Hok3 : vec_ok e3) by (unfold vec_ok; now rewrite Eb).
      apply finish_group_sound in H as [-> ?]; auto.
      simpl in Ea; split; [congruence|assumption].
    + apply bind_ret in H as ([] & e2 & H2 & H).
      injection H2 as <-; apply ret_ret in H as [-> ->].
      split; [reflexivity|auto].
  - apply finish_group_sound in H as [-> ?]; auto.
Qed.

Lemma for_tokens_sound (fuel : nat) :
  forall ms parts ps e e',
    vec_ok e -> Forall (fun m => safe U (group0 m)) ms ->
    Forall magic_free parts ->
    for_tokens U fuel ms parts e = Ret (ps, e') ->
    magic_vec e' = magic_vec e /\ Forall magic_free ps.
Proof.
  induction ms as [|m ms IH]; intros parts ps e e' Hok Hms Hparts H;
    simpl in H.
  - apply ret_ret in H as [-> ->]; auto.
  - apply bind_ret in H as (v & e1 & Hv & H).
    inversion Hms as [|? ? Hm Hms']; subst.
    apply expand_group_sound in Hv as [E1 Hfv]; auto.
    apply IH in H as [E2 Hps]; auto.
    + split; [congruence|exact Hps].
    + unfold vec_ok; now rewrite E1.
    + destruct (nonempty v); [|exact Hparts].
      apply Forall_app; split; [exact Hparts|now constructor].
Qed.

Lemma mmap_inv {A B} (I : env -> Prop) (f : A -> M B) :
  (forall x e y e', I e -> f x e = Ret (y, e') -> I e') ->
  forall xs e ys e', I e -> mmap f xs e = Ret (ys, e') -> I e'.
Proof.
  intros Hf; induction xs as [|x xs IH]; intros e ys e' HI H; simpl in H.
  - now apply ret_ret in H as [-> ->].
  - apply bind_ret in H as (y & e1 & Hy & H).
    apply bind_ret in H as (ys' & e2 & Hys & H).
    apply ret_ret in H as [-> ->]; eauto.
Qed.

Lemma math_magic_sound (fuel : nat) (text left right t : pystr)
  (fn : pystr -> M pystr) (e e' : env) :
  (forall x e t e', vec_ok e -> fn x e = Ret (t, e') ->
                    vec_ok e' /\ magic_free t) ->
  vec_ok e -> math_magic fuel text left right fn e = Ret (t, e') ->
  vec_ok e'.
Proof.
  intros Hfn Hok H; unfold math_magic in H.
  eapply (until_fixed_inv vec_ok (fun _ _ => True)); [|exact Hok|exact H].
  intros x e0 t0 e0' Hok0 H0; split; [|exact I].
  unfold re_sub_m in H0.
  apply bind_ret in H0 as (reps & e1 & Hreps & H0).
  apply ret_ret in H0 as [_ ->].
  eapply (mmap_inv vec_ok); [|exact Hok0|exact Hreps].
  intros m e2 y e2' Hok2 H2; unfold math_magic_repl in H2.
  apply bind_ret in H2 as (vec & e3 & H1 & H2); injection H1 as <- <-.
  apply bind_ret in H2 as (magic & e3 & H1 & H2);
    apply lift_ret in H1 as [_ ->].
  apply bind_ret in H2 as (t1 & e3 & H1 & H2).
  apply Hfn in H1 as [Hok1 Hft]; [|exact Hok2].
  apply bind_ret in H2 as ([] & e4 & H4 & H2); injection H4 as <-.
  apply ret_ret in H2 as [_ ->].
  unfold vec_ok; simpl; apply Forall_app; split; [exact Hok1|now constructor].
Qed.

Lemma token_matches_safe (text : pystr) :
  Forall (fun m => safe U (group0 m)) (finditer (token_re U) text).
Proof.
  destruct (finditer_spec (token_re U) text) as [Hall _].
  eapply Forall_impl; [|exact Hall].
  intros m Hm; apply token_safe, (mo_word Hm).
Qed.

Lemma recurse_sound (fuel : nat) :
  forall text t e e',
    vec_ok e -> recurse U fuel text e = Ret (t, e') ->
    vec_ok e' /\ magic_free t.
Proof.
  induction fuel as [|fuel IH]; intros text t e e' Hok H; [discriminate|].
  cbn [recurse] in H.
  apply bind_ret in H as (text1 & e1 & Hloop & H).
  apply bind_ret in H as ([] & e2 & Hp & H); injection Hp as <-.
  apply bind_ret in H as (parts & e3 & Htok & H).
  apply ret_ret in H as [-> ->].
  assert (Hok1 : vec_ok e1).
  { eapply (until_fixed_inv vec_ok (fun _ _ => True)) with (e := e);
      [|exact Hok|exact Hloop].
    intros x e0 t0 e0' Hok0 H0; split; [|exact I].
    eapply math_magic_sound; [|exact Hok0|exact H0].
    intros; eapply IH; eauto. }
  apply for_tokens_sound in Htok as [E3 Hparts];
    [|exact Hok1|apply token_matches_safe|constructor].
  split; [unfold vec_ok; rewrite E3; exact Hok1|].
  now apply magic_free_concat.
Qed.

Lemma to_math_sound (fuel : nat) (text r : pystr) :
  to_math U fuel text = Ret r -> magic_free r.
Proof.
  unfold to_math, to_math_run; intros H.
  apply rbind_ret in H as ([r0 e0] & H & E); injection E as <-.
  apply bind_ret in H as ([] & e1 & Hp & H); injection Hp as <-.
  apply bind_ret in H as (t & e2 & Hr & H).
  apply bind_ret in H as ([] & e3 & Hp & H); injection Hp as <-.
  apply ret_ret in H as [-> ->]; simpl.
  apply recurse_sound in Hr as [_ Hf]; [exact Hf|constructor].
Qed.

End Sound.
(** ** The expander returns *)

Lemma magic_free_bounded (n : nat) (s : pystr) : magic_free s -> bounded n s.
Proof. intros H c Hc Hm; rewrite (H c Hc) in Hm; discriminate. Qed.

Lemma bounded_app (n : nat) (a b : pystr) :
  bounded n (a ++ b) <-> bounded n a /\ bounded n b.
Proof.
  unfold bounded; split.
  - intros H; split; intros c Hc; apply H, in_or_app; auto.
  - intros [Ha Hb] c Hc; apply in_app_or in Hc as [Hc|Hc]; auto.
Qed.

Lemma bounded_incl (n : nat) (a b : pystr) :
  (forall c, In c a -> In c b) -> bounded n b -> bounded n a.
Proof. intros Hin Hb c Hc; apply Hb, Hin, Hc. Qed.

Lemma bounded_mono (n n' : nat) (s : pystr) :
  n <= n' -> bounded n s -> bounded n' s.
Proof. intros Hn H c Hc Hm; specialize (H c Hc Hm); lia. Qed.

Lemma rmap_total {A B} (f : A -> res B) (xs : list A) :
  Forall (fun x => exists y, f x = Ret y) xs -> exists ys, rmap f xs = Ret ys.
Proof.
  induction 1 as [|x xs [y Hy] _ [ys Hys]]; simpl; [now exists []|].
  rewrite Hy; simpl; rewrite Hys; simpl; eauto.
Qed.

Lemma subst_class_none (p : char -> bool) (text : pystr) (reps : list pystr) :
  (forall c, In c text -> p c = false) -> subst_class p text reps = text.
Proof.
  induction text as [|c text IH]; intros H; simpl; [reflexivity|].
  rewrite (H c (or_introl eq_refl)); f_equal; apply IH.
  intros x Hx; apply H; now right.
Qed.

Lemma filter_none {A} (p : A -> bool) (l : list A) :
  (forall x, In x l -> p x = false) -> filter p l = [].
Proof.
  induction l as [|x l IH]; intros H; simpl; [reflexivity|].
  rewrite (H x (or_introl eq_refl)); apply IH; intros y Hy; apply H; now right.
Qed.

(** One pass over a string whose placeholders index the vector returns. *)
Lemma expand_pass_total (text : pystr) (e : env) :
  bounded (List.length (magic_vec e)) text ->
  exists t, expand_pass text e = Ret (t, e).
Proof.
  intros Hb; unfold expand_pass, bind, get_vec, lift, re_sub_r.
  destruct (finditer_class is_magic text) as [Hg _].
  unfold magic_re.
  destruct (rmap_total
              (fun m => match nth_error (magic_vec e)
                                (N.to_nat (ord (group0 m) - MAGIC_FIRST)) with
                        | Some t => Ret t
                        | None => Raise IndexError
                        end) (finditer (Cls is_magic) text)) as [reps Hreps].
  - assert (Hall : Forall (fun g => exists c, g = [c] /\ In c text
                                              /\ is_magic c = true)
                     (map group0 (finditer (Cls is_magic) text))).
    { rewrite Hg; apply Forall_forall; intros g Hin.
      apply in_map_iff in Hin as (c & <- & Hc).
      apply filter_In in Hc as [Hc Hm]; eauto. }
    rewrite Forall_map in Hall.
    eapply Forall_impl; [|exact Hall].
    intros m (c & -> & Hc & Hm); simpl.
    specialize (Hb c Hc Hm).
    destruct (nth_error (magic_vec e) _) as [t|] eqn:E; [eauto|].
    apply nth_error_None in E; lia.
  - rewrite Hreps; simpl; eauto.
Qed.

(** A pass over a string free of placeholders returns it. *)
Lemma expand_pass_free (text : pystr) (e : env) :
  magic_free text -> expand_pass text e = Ret (text, e).
Proof.
  intros Hf; unfold expand_pass, bind, get_vec, lift, re_sub_r.
  destruct (finditer_class is_magic text) as [Hg Hs].
  unfold magic_re.
  rewrite (filter_none is_magic text Hf) in Hg.
  destruct (finditer (Cls is_magic) text) as [|m ms] eqn:E; [|discriminate].
  simpl; reflexivity.
Qed.

Lemma until_fixed_S (fuel : nat) (step : pystr -> M pystr) (x : pystr)
  (e : env) :
  until_fixed (S fuel) step x e
  = match step x e with
    | Ret (t, e') =>
        if streq t x then Ret (t, e') else until_fixed fuel step t e'
    | Raise ex => Raise ex
    | Timeout => Timeout
    end.
Proof.
  simpl; unfold bind; destruct (step x e) as [[t e']| |]; try reflexivity.
  destruct (streq t x); reflexivity.
Qed.

Lemma expand_total (fuel : nat) (text : pystr) (e : env) :
  vec_ok e -> bounded (List.length (magic_vec e)) text -> 2 <= fuel ->
  exists t, expand fuel text e = Ret (t, e) /\ magic_free t.
Proof.
  intros Hok Hb Hfuel.
  destruct fuel as [|[|fuel]]; try lia.
  destruct (expand_pass_total text e Hb) as [t1 H1].
  assert (Hf1 : magic_free t1) by (eapply expand_pass_sound; eauto).
  assert (H : exists t, expand (S (S fuel)) text e = Ret (t, e)).
  { unfold expand, bind; rewrite until_fixed_S, H1.
    destruct (streq t1 text); [eexists; reflexivity|].
    rewrite until_fixed_S, (expand_pass_free t1 e Hf1), streq_refl.
    eexists; reflexivity. }
  destruct H as [t H]; exists t; split; [exact H|].
  eapply expand_sound; eauto.
Qed.

(** *** The styles and the command table *)

Lemma dict_get_in (d : dict) (k v : pystr) :
  dict_get d k = Some v -> exists k', In (k', v) d.
Proof.
  induction d as [|[k' v'] d IH]; simpl; [discriminate|].
  destruct (dict_get d k) as [w|].
  - intros [= ->]; destruct (IH eq_refl) as [k0 H]; eauto.
  - destruct (streq k' k); [intros [= ->]; eauto|discriminate].
Qed.

Lemma table_free_get (d : dict) (k v : pystr) :
  table_free d = true -> dict_get d k = Some v -> magic_free v.
Proof.
  intros Hd Hk; apply dict_get_in in Hk as [k' Hin].
  unfold table_free in Hd; rewrite forallb_forall in Hd.
  specialize (Hd _ Hin); simpl in Hd; rewrite forallb_forall in Hd.
  intros c Hc; specialize (Hd c Hc); now destruct (is_magic c).
Qed.

Lemma glyphs_free (d : dict) (text : pystr) (gs : list pystr) :
  table_free d = true ->
  rmap (fun x => dict_item d [x]) text = Ret gs -> magic_free (concat gs).
Proof.
  intros Hd H; apply rmap_ret in H; apply magic_free_concat.
  induction H as [|x g text gs Hx _ IH]; constructor; auto.
  unfold dict_item in Hx.
  destruct (dict_get d [x]) as [v|] eqn:E; [|discriminate].
  injection Hx as <-; eapply table_free_get; eauto.
Qed.

Lemma bounded_zero (s : pystr) : bounded 0 s <-> magic_free s.
Proof.
  split; [|apply magic_free_bounded].
  intros H c Hc; destruct (is_magic c) eqn:E; [|reflexivity].
  specialize (H c Hc E); lia.
Qed.

Lemma script_total (n : nat) (d : dict) (mark : pystr) (text : pystr) :
  table_free d = true -> magic_free mark -> bounded n text ->
  exists r,
    match text with
    | [] => Ret []
    | _ =>
        if forallb (fun x => dict_mem d [x]) text then
          rbind (rmap (fun x => dict_item d [x]) text)
                (fun gs => Ret (concat gs))
        else if Nat.eqb (List.length text) 1 then Ret (mark ++ text)
        else Ret (mark ++ str "(" ++ text ++ str ")")
    end = Ret r
    /\ bounded n r.
Proof.
  intros Hd Hmark Hf; destruct text as [|x text];
    [exists []; split; [reflexivity|intros c []]|].
  destruct (forallb _ (x :: text)) eqn:Hall.
  - destruct (rmap_items_total d _ Hall) as [gs Hgs].
    rewrite Hgs; simpl; exists (concat gs); split; [reflexivity|].
    apply magic_free_bounded; eapply glyphs_free; eauto.
  - destruct (Nat.eqb _ 1); eexists; (split; [reflexivity|]).
    + apply bounded_app; split; [now apply magic_free_bounded|exact Hf].
    + repeat (apply bounded_app; split); auto;
        apply magic_free_bounded; auto; intros c [<-|[]]; reflexivity.
Qed.

Lemma to_superscript_total (n : nat) (text : pystr) :
  bounded n text ->
  exists r, to_superscript text = Ret r /\ bounded n r.
Proof.
  intros Hf.
  destruct (script_total n superscript_ht (str "^") text) as (r & H & Hr); auto.
  - intros c [<-|[]]; reflexivity.
  - exists r; split; [|exact Hr].
    unfold to_superscript; destruct text; exact H.
Qed.

Lemma to_subscript_total (n : nat) (text : pystr) :
  bounded n text ->
  exists r, to_subscript text = Ret r /\ bounded n r.
Proof.
  intros Hf.
  destruct (script_total n subscript_ht (str "_") text) as (r & H & Hr); auto.
  - intros c [<-|[]]; reflexivity.
  - exists r; split; [|exact Hr].
    unfold to_subscript; destruct text; exact H.
Qed.

Lemma font_free (d : dict) (text : pystr) :
  table_free d = true -> magic_free text ->
  magic_free (concat (map (fun x => dict_get_default d [x] [x]) text)).
Proof.
  intros Hd Hf; apply magic_free_concat, Forall_forall.
  intros g Hg; apply in_map_iff in Hg as (x & <- & Hx).
  unfold dict_get_default; destruct (dict_get d [x]) as [v|] eqn:E.
  - eapply table_free_get; eauto.
  - intros c [<-|[]]; auto.
Qed.

Lemma apply_style_total (fn : style) (v : pystr) :
  magic_free v -> exists r, apply_style fn v = Ret r /\ magic_free r.
Proof.
  intros Hf; destruct fn; simpl.
  - eauto.
  - eexists; split; [reflexivity|]; now apply font_free.
  - eexists; split; [reflexivity|]; now apply font_free.
  - eexists; split; [reflexivity|]; now apply font_free.
  - destruct (to_subscript_total 0 v) as (r & H & Hr);
      [now apply bounded_zero|].
    exists r; split; [exact H|now apply bounded_zero].
  - destruct (to_superscript_total 0 v) as (r & H & Hr);
      [now apply bounded_zero|].
    exists r; split; [exact H|now apply bounded_zero].
Qed.

Lemma lookup_command_bounded (U : Unicode) (n : nat) (v : pystr) :
  bounded n v -> bounded n (lookup_command U v).
Proof.
  intros Hb; unfold lookup_command.
  assert (Hname : bounded n (strip (skipn 1 v))).
  { eapply bounded_incl; [|exact Hb].
    intros c Hc; eapply skipn_in, strip_in, Hc. }
  destruct (startswith _ v).
  - destruct (dict_get math_map _) as [mapped|] eqn:E.
    + apply magic_free_bounded; eapply table_free_get; eauto; reflexivity.
    + destruct (isalnum U _); [|exact Hname].
      repeat (apply bounded_app; split); auto;
        apply magic_free_bounded; intros c [<-|[]]; reflexivity.
  - destruct (_ || _); [intros c []|exact Hb].
Qed.

(** The spacing test returns when no part is empty. *)
Lemma needs_space_total (U : Unicode) (parts : list pystr) (v : pystr) :
  Forall (fun p => p <> []) parts ->
  exists b, needs_space U parts v = Ret b.
Proof.
  intros Hparts; unfold needs_space.
  assert (Hl : parts <> [] ->
               exists l c, last_part parts = Ret l /\ last_of l = Ret c).
  { intros Hne; unfold last_part, last_of.
    destruct (rev parts) as [|l ps] eqn:Er.
    - exfalso; apply Hne.
      rewrite <- (rev_involutive parts), Er; reflexivity.
    - assert (Hin : In l parts) by (apply in_rev; rewrite Er; now left).
      rewrite Forall_forall in Hparts; specialize (Hparts l Hin).
      destruct (rev l) as [|c cs] eqn:El.
      + exfalso; apply Hparts.
        rewrite <- (rev_involutive l), El; reflexivity.
      + exists l, c; split; [reflexivity|now rewrite El]. }
  destruct parts as [|p0 ps]; [simpl; eauto|].
  destruct (Hl ltac:(discriminate)) as (l & c & Hl1 & Hc).
  rewrite Hl1; simpl; rewrite Hc; simpl.
  destruct (is_alpha U c); [destruct v as [|c0 v]; simpl|simpl].
  - destruct (is_digit U c); simpl; eauto.
  - destruct (is_alpha U c0); simpl; [eauto|].
    destruct (is_digit U c); simpl; [|eauto].
    destruct (is_digit U c0); simpl; eauto.
  - destruct (is_digit U c); simpl; [|eauto].
    destruct v as [|c0 v]; simpl; [eauto|].
    destruct (is_digit U c0); simpl; eauto.
Qed.

Lemma finish_group_total (U : Unicode) (fuel : nat) (parts : list pystr)
  (fn : style) (v : pystr) (e : env) :
  vec_ok e -> bounded (List.length (magic_vec e)) v ->
  Forall (fun p => p <> []) parts -> 2 <= fuel ->
  exists t, finish_group U fuel parts fn v e = Ret (t, e) /\ magic_free t.
Proof.
  intros Hok Hb Hparts Hfuel; unfold finish_group.
  pose proof (lookup_command_bounded U _ v Hb) as Hb1.
  set (v1 := lookup_command U v) in *.
  assert (H1 : exists v2,
             match fn with
             | NoStyle => ret v1
             | _ => bind (expand fuel v1) (fun v0 => lift (apply_style fn v0))
             end e = Ret (v2, e)
             /\ bounded (List.length (magic_vec e)) v2).
  { destruct (expand_total fuel v1 e Hok Hb1 Hfuel) as (t & Ht & Hft).
    destruct (apply_style_total fn t Hft) as (r & Hr & Hfr).
    destruct fn; try (exists v1; split; [reflexivity|exact Hb1]);
      exists r; (split; [|now apply magic_free_bounded]);
      unfold bind; rewrite Ht; unfold lift; rewrite Hr; reflexivity. }
  destruct H1 as (v2 & H1 & Hb2).
  unfold bind at 1; rewrite H1.
  destruct (needs_space_total U parts v2 Hparts) as [sp Hsp].
  unfold bind, lift; rewrite Hsp.
  apply expand_total; auto.
  destruct sp; [|exact Hb2].
  apply bounded_app; split; [|exact Hb2].
  apply magic_free_bounded; intros c [<-|[]]; reflexivity.
Qed.
(** *** The branches of [expand_group] *)

Lemma matches_Lit_head (p : pystr) (r : re) (v : pystr) :
  matches (Seq (Lit p) r) v = true -> exists t, v = p ++ t.
Proof.
  intros H; apply matches_lang in H as (w & t & Hl & ->).
  inversion Hl as [| |? ? u v0 Hu Hv| | | | | | |]; subst.
  apply lang_Lit in Hu; subst; rewrite <- app_assoc; eauto.
Qed.

Lemma matches_sqrt_index_head (v : pystr) :
  matches sqrt_index_re v = true -> exists t, v = str "\sqrt[" ++ t.
Proof.
  intros H; apply matches_lang in H as (w & t & Hl & ->).
  apply (lang_Lit (str "\sqrt[")) in Hl; subst; eauto.
Qed.

Lemma arg_like_no_index (v : pystr) :
  arg_like v -> matches sqrt_index_re v = false.
Proof.
  intros Ha; destruct (matches sqrt_index_re v) eqn:E; [|reflexivity].
  apply matches_sqrt_index_head in E as [t ->].
  destruct Ha as [Hlen|(w & Ew & Hw)]; [simpl in Hlen; lia|].
  injection Ew as <-.
  do 4 (apply Forall_inv_tail in Hw); apply Forall_inv in Hw; discriminate.
Qed.

Lemma letter_facts (U : Unicode) (l : char) :
  ascii_letter l = true ->
  N.eqb l chr_nl = false /\ ascii_digit l = false /\ is_word U l = true
  /\ is_space l = false.
Proof.
  intros H.
  assert (Hr : ((0x41 <= l /\ l <= 0x5a) \/ (0x61 <= l /\ l <= 0x7a))%N).
  { unfold ascii_letter, ascii_upper, ascii_lower, in_range in H.
    bool_to_prop H; exact H. }
  repeat split.
  - apply N.eqb_neq; unfold chr_nl; lia.
  - unfold ascii_digit, in_range; apply andb_false_iff.
    destruct (N.leb_spec l 0x39); [left; apply N.leb_gt; lia|now right].
  - unfold is_word, is_alnum, is_alpha, is_ascii.
    destruct (N.ltb_spec l 0x80); [|lia]; now rewrite H.
  - apply not_true_iff_false; intros Hs.
    unfold is_space, in_range in Hs; bool_to_prop Hs; lia.
Qed.

(** After the characters of [p], the matcher is past them. *)
Lemma exec_Lit (p : pystr) :
  forall (r : re) k s t c,
    m_rest s = p ++ c :: t ->
    exec (Seq (Lit (p ++ [c])) r) k s
    = exec r k {| m_pos := m_pos s + S (List.length p); m_prev := Some c;
                  m_rest := t; m_caps := m_caps s |}.
Proof.
  induction p as [|x p IH]; intros r k s t c Hrest.
  - cbn [app Lit]; unfold Chr; cbn [exec]; rewrite Hrest; cbn [app].
    rewrite N.eqb_refl; unfold advance; cbn [List.length].
    now replace (m_pos s + 1) with (S (m_pos s)) by lia.
  - change (Lit ((x :: p) ++ [c])) with (Lit (x :: p ++ [c])).
    assert (E : Lit (x :: p ++ [c]) = Seq (Chr x) (Lit (p ++ [c])))
      by (destruct p; reflexivity).
    rewrite E; unfold Chr at 1; cbn [exec]; rewrite Hrest; cbn [app].
    rewrite N.eqb_refl.
    specialize (IH r k (advance s x (p ++ c :: t)) t c eq_refl).
    cbn [exec] in IH; rewrite IH; unfold advance; cbn [m_pos m_caps].
    now replace (S (m_pos s) + S (List.length p))
      with (m_pos s + S (List.length (x :: p))) by (simpl; lia).
Qed.

(** [\frac] followed by a letter does not pass the test of the fraction
    branch. *)
Lemma frac_test_letter (U : Unicode) (l : char) (t : pystr) :
  ascii_letter l = true ->
  matches (frac_test_re U) (str "\frac" ++ l :: t) = false.
Proof.
  intros Hl; destruct (letter_facts U l Hl) as (Hnl & Hd & Hw & _).
  unfold matches, re_match, match_at, frac_test_re.
  change (str "\frac") with (str "\fra" ++ [0x63%N]).
  rewrite (exec_Lit (str "\fra") _ Some _ (l :: t) 0x63%N)
    by reflexivity.
  cbn [exec m_rest]; unfold at_boundary, at_eol.
  cbn [m_rest m_prev opt_is hd_error]; rewrite Hd, Hw.
  replace (is_word U 0x63%N) with true by reflexivity.
  replace (match t with [] => N.eqb l chr_nl | _ :: _ => false end)
    with false by (destruct t; [now rewrite Hnl|reflexivity]).
  reflexivity.
Qed.

Lemma arg_like_frac (U : Unicode) (v : pystr) :
  arg_like v -> matches (frac_test_re U) v = true ->
  re_match frac_re v = None.
Proof.
  intros Ha Htest.
  destruct (matches_frac_head U v Htest) as [v' ->].
  destruct Ha as [Hlen|(w & Ew & Hw)]; [simpl in Hlen; lia|].
  injection Ew as <-.
  do 4 (apply Forall_inv_tail in Hw).
  destruct v' as [|l t]; [vm_compute; reflexivity|].
  apply Forall_inv in Hw.
  rewrite (frac_test_letter U l t Hw) in Htest; discriminate.
Qed.

Section Total.

Variable U : Unicode.

Lemma finish_group_returns (fuel : nat) (parts : list pystr) (fn : style)
  (v : pystr) (e : env) :
  vec_ok e -> Forall (fun p => p <> []) parts -> 2 <= fuel ->
  bounded (List.length (magic_vec e)) v ->
  exists t e', finish_group U fuel parts fn v e = Ret (t, e')
               /\ magic_vec e' = magic_vec e /\ magic_free t.
Proof.
  intros Hok Hparts Hfuel Hb.
  destruct (finish_group_total U fuel parts fn v e Hok Hb Hparts Hfuel)
    as (t & H & Hf).
  exists t, e; auto.
Qed.

Lemma bounded_skipn (n k : nat) (v : pystr) :
  bounded n v -> bounded n (skipn k v).
Proof. apply bounded_incl; intros c; apply skipn_in. Qed.

Lemma bounded_strip (n : nat) (v : pystr) : bounded n v -> bounded n (strip v).
Proof. apply bounded_incl; intros c; apply strip_in. Qed.

Lemma bounded_nil (n : nat) : bounded n [].
Proof. intros c []. Qed.

Lemma bounded_glyph (n : nat) (g : pystr) :
  forallb (fun c => negb (is_magic c)) g = true -> bounded n g.
Proof.
  intros H; apply magic_free_bounded; intros c Hc.
  rewrite forallb_forall in H; specialize (H c Hc); now destruct (is_magic c).
Qed.

(** The stripped argument of a fraction is resolved without a further
    fraction. *)
Lemma expand_group_arg_total (fuel : nat) (parts : list pystr) (v : pystr)
  (e : env) :
  vec_ok e -> Forall (fun p => p <> []) parts -> 3 <= fuel ->
  bounded (List.length (magic_vec e)) v -> arg_like v ->
  exists t e', expand_group U fuel parts v e = Ret (t, e')
               /\ magic_vec e' = magic_vec e.
Proof.
  intros Hok Hparts Hfuel Hb Ha.
  destruct fuel as [|fuel]; [lia|].
  assert (Hfin : forall fn x,
             bounded (List.length (magic_vec e)) x ->
             exists t e', finish_group U fuel parts fn x e = Ret (t, e')
                          /\ magic_vec e' = magic_vec e).
  { intros fn x Hx.
    destruct (finish_group_returns fuel parts fn x e) as (t & e' & H & E & _);
      auto; [lia|eauto]. }
  cbn [expand_group]; rewrite (arg_like_no_index v Ha).
  repeat match goal with
         | |- exists t e', (if ?c then _ else _) e = _ /\ _ =>
             destruct c eqn:?
         end;
    try (apply Hfin;
         first [ apply bounded_strip, bounded_skipn, Hb
               | apply bounded_skipn, Hb | apply bounded_nil
               | apply bounded_glyph; reflexivity | exact Hb ]).
  rewrite (arg_like_frac U v Ha) by assumption.
  eexists _, _; split; reflexivity.
Qed.


Lemma lstrip_keeps (s : pystr) (c : char) :
  In c s -> is_space c = false -> In c (lstrip s).
Proof.
  induction s as [|x s IH]; simpl; [auto|].
  intros [->|Hin] Hc; [rewrite Hc; now left|].
  destruct (is_space x); [auto|now right].
Qed.

Lemma strip_keeps (s : pystr) (c : char) :
  In c s -> is_space c = false -> In c (strip s).
Proof.
  intros Hin Hc; unfold strip, rstrip.
  rewrite <- in_rev; apply lstrip_keeps; [|exact Hc].
  rewrite <- in_rev; now apply lstrip_keeps.
Qed.

Lemma atom_nonempty (a : pystr) : lang (atom_re U) a -> a <> [].
Proof.
  unfold atom_re; intros H.
  unfold Plus in H; repeat inv_lang_step; simpl; discriminate.
Qed.

(** The index of a radical, as [expand_group] slices it from a token, is
    never the string 3: the slice keeps the closing bracket. *)
Lemma token_index (v : pystr) :
  lang (token_re U) v -> matches sqrt_index_re v = true ->
  streq (strip (removelast (skipn 6 v))) (str "3") = false.
Proof.
  intros H Hm; unfold token_re in H.
  inversion H as [| | |? ? ? H0|? ? ? H0| | | | |]; subst; clear H.
  - (* white space *)
    apply matches_sqrt_index_head in Hm as [t ->].
    apply lang_plus_class in H0 as [_ H0].
    inversion H0 as [|? ? Hs _]; subst; vm_compute in Hs; discriminate.
  - inversion H0 as [| | |? ? ? H1|? ? ? H1| | | | |]; subst; clear H0.
    + (* a fraction *)
      unfold frac_call_re in H1.
      inversion H1 as [| |? ? u w Hu Hw| | | | | | |]; subst; clear H1.
      apply (lang_Lit (str "\frac")) in Hu; subst u.
      apply matches_sqrt_index_head in Hm as [t Et]; simpl in Et; discriminate.
    + inversion H1 as [| |? ? pre rest Hpre Hrest| | | | | | |]; subst; clear H1.
      inversion Hrest as [| |? ? mark atom Hmark Hatom| | | | | | |]; subst;
        clear Hrest.
      pose proof (atom_nonempty atom Hatom) as Hne.
      assert (Hmark' : mark = []
                       \/ exists c, mark = [c] /\ c <> 0x5c%N /\ c <> 0x5b%N).
      { inversion Hmark as [| | |? ? ? H2|? ? ? H2| | | | |]; subst.
        - right; inversion H2 as [|? c Hc| | | | | | | |]; subst.
          exists c; repeat split; intros ->; vm_compute in Hc; discriminate.
        - left; now inversion H2. }
      clear Hmark.
      inversion Hpre as [| | |? ? ? H2|? ? ? H2| | | | |]; subst; clear Hpre.
      * unfold command_prefix_re in H2.
        inversion H2 as [| | | | | | |? ? ? H3| |]; subst; clear H2.
        inversion H3 as [| | |? ? ? H4|? ? ? H4| | | | |]; subst; clear H3.
        -- (* a font or structural command: it does not begin with \s *)
           inversion H4 as [| |? ? u0 v0 Hu Hv| | | | | | |]; subst; clear H4.
           inversion Hv as [| |? ? u1 v1 Hu1 Hv1| | | | | | |]; subst; clear Hv.
           clear Hv1 Hatom; repeat inv_lang_step;
             apply matches_sqrt_index_head in Hm as [t Et];
             simpl in Et; discriminate.
        -- (* \sqrt with or without an index *)
           inversion H4 as [| |? ? u0 v0 Hu Hv| | | | | | |]; subst; clear H4.
           apply (lang_Lit (str "\sqrt")) in Hu; subst u0.
           inversion Hv as [| |? ? u1 v1 Hu1 Hv1| | | | | | |]; subst; clear Hv.
           inversion Hu1; subst; clear Hu1.
           inversion Hv1 as [| | |? ? ? H5|? ? ? H5| | | | |]; subst; clear Hv1.
           ++ (* the index in brackets: the bracket is kept *)
              inversion H5 as [| | | | | | |? ? ? H6| |]; subst; clear H5.
              inversion H6 as [| |? ? u2 v2 Hu2 Hv2| | | | | | |]; subst; clear H6.
              inversion Hu2 as [|? c Hc| | | | | | | |]; subst; clear Hu2.
              apply N.eqb_eq in Hc; subst c.
              inversion Hv2 as [| |? ? u3 v3 Hu3 Hv3| | | | | | |]; subst; clear Hv2.
              inversion Hv3 as [|? c Hc| | | | | | | |]; subst; clear Hv3.
              apply N.eqb_eq in Hc; subst c.
              apply streq_neq; intros E.
              assert (Hin : In 0x5d%N (str "3")); [|now destruct Hin as [|[]]].
              rewrite <- E; apply strip_keeps; [|reflexivity].
              cbn [str app skipn map list_ascii_of_string N_of_ascii].
              change (skipn 6 (str "\sqrt" ++ ([] ++ [0x5b%N] ++ u3 ++ [0x5d%N])
                               ++ mark ++ atom))
                with ((u3 ++ [0x5d%N]) ++ mark ++ atom).
              rewrite removelast_app
                by (destruct mark; [exact Hne|discriminate]).
              apply in_or_app; left; apply in_or_app; right; now left.
           ++ (* no index: the token ends at the bracket *)
              inversion H5; subst; clear H5.
              apply matches_sqrt_index_head in Hm as [t Et].
              destruct Hmark' as [->|(c & -> & _ & Hc)];
                [|simpl in Et; congruence].
              simpl in Et; injection Et as Et.
              unfold atom_re in Hatom.
              inversion Hatom as [| | | | | | |? ? ? H6| |]; subst; clear Hatom.
              inversion H6 as [| | |? ? ? H7|? ? ? H7| | | | |]; subst; clear H6;
                [repeat inv_lang_step; discriminate|].
              inversion H7 as [| | |? ? ? H8|? ? ? H8| | | | |]; subst; clear H7;
                [repeat inv_lang_step; discriminate|].
              inversion H8 as [| | |? ? ? H9|? ? ? H9| | | | |]; subst; clear H8.
              ** apply lang_plus_class in H9 as [_ H9].
                 apply Forall_inv in H9; vm_compute in H9; discriminate.
              ** inversion H9; subst; reflexivity.
      * (* no prefix: an atom does not hold the bracket *)
        inversion H2; subst; clear H2.
        assert (Hmark : mark = []).
        { apply matches_sqrt_index_head in Hm as [t Et].
          destruct Hmark' as [->|(c & -> & Hc & _)];
            [reflexivity|simpl in Et; congruence]. }
        subst mark; simpl in Hm; exfalso.
        unfold atom_re in Hatom.
        inversion Hatom as [| | | | | | |? ? ? H6| |]; subst; clear Hatom.
        inversion H6 as [| | |? ? ? H7|? ? ? H7| | | | |]; subst; clear H6.
        -- inversion H7 as [| |? ? u0 v0 Hu Hv| | | | | | |]; subst; clear H7.
           inversion Hu as [|? c Hc| | | | | | | |]; subst; clear Hu.
           inversion Hv as [| |? ? u1 v1 Hu1 Hv1| | | | | | |]; subst; clear Hv.
           apply lang_plus_class in Hu1 as [_ Hu1].
           apply lang_star_class in Hv1.
           assert (Hall : Forall (fun c => ascii_letter c = true
                                           \/ is_space c = true) (u1 ++ v1)).
           { apply Forall_app; split; eapply Forall_impl; eauto; simpl; auto. }
           apply matches_sqrt_index_head in Hm as [t Et].
           simpl in Et; injection Et as _ Et; rewrite Et in Hall.
           do 4 (apply Forall_inv_tail in Hall); apply Forall_inv in Hall.
           destruct Hall as [Hx|Hx]; vm_compute in Hx; discriminate.
        -- apply matches_sqrt_index_head in Hm as [t Et].
           inversion H7 as [| | |? ? ? H8|? ? ? H8| | | | |]; subst; clear H7;
             [repeat inv_lang_step; discriminate|].
           inversion H8 as [| | |? ? ? H9|? ? ? H9| | | | |]; subst; clear H8.
           ++ apply lang_plus_class in H9 as [_ H9].
              apply Forall_inv in H9; vm_compute in H9; discriminate.
           ++ inversion H9; subst; discriminate.
Qed.


Lemma lstrip_nospace (s : pystr) :
  (forall c, In c s -> is_space c = false) -> lstrip s = s.
Proof.
  destruct s as [|x s]; [reflexivity|]; intros H; simpl.
  now rewrite (H x (or_introl eq_refl)).
Qed.

Lemma strip_nospace (s : pystr) :
  (forall c, In c s -> is_space c = false) -> strip s = s.
Proof.
  intros H; unfold strip, rstrip.
  rewrite (lstrip_nospace s H), lstrip_nospace, rev_involutive; [reflexivity|].
  intros c Hc; apply H; now apply in_rev.
Qed.

Lemma magic_free_glyph (g : pystr) :
  forallb (fun c => negb (is_magic c)) g = true -> magic_free g.
Proof.
  intros H c Hc.
  rewrite forallb_forall in H; specialize (H c Hc); now destruct (is_magic c).
Qed.

Lemma parenthesize_free (a : pystr) :
  magic_free a -> magic_free (parenthesize a).
Proof.
  intros H; unfold parenthesize; destruct (Nat.ltb 1 _); [|exact H].
  apply (magic_free_app (str "(")); split;
    [apply magic_free_glyph; reflexivity|].
  apply magic_free_app; split; [exact H|apply magic_free_glyph; reflexivity].
Qed.

Lemma removelast_in (l : pystr) (c : char) : In c (removelast l) -> In c l.
Proof.
  induction l as [|x l IH]; [auto|].
  destruct l as [|y l]; [intros []|].
  change (removelast (x :: y :: l)) with (x :: removelast (y :: l)).
  intros [->|H]; [now left|right; auto].
Qed.

Lemma frac_arg_like (a : pystr) :
  a = [] \/ lang frac_arg a -> arg_like (strip a).
Proof.
  intros [->|H]; [left; simpl; lia|].
  apply lang_frac_arg in H as [(w & -> & _ & Hw)|Hlen].
  - right; exists w; split; [|exact Hw].
    apply strip_nospace; simpl; intros c [<-|Hc]; [reflexivity|].
    rewrite Forall_forall in Hw; apply (letter_facts U c), Hw, Hc.
  - left; pose proof (strip_length a); lia.
Qed.

Lemma group_bounded (n k : nat) (m : mobj) :
  bounded n (mo_string m) -> bounded n (group_or_empty m k).
Proof.
  intros Hb; unfold group_or_empty, group.
  destruct (cap_get (mo_caps m) k) as [[i j]|]; [|apply bounded_nil].
  eapply bounded_incl; [|exact Hb]; intros c; apply substr_in.
Qed.

(** A token is resolved. *)
Lemma expand_group_token_total (fuel : nat) (parts : list pystr) (v : pystr)
  (e : env) :
  vec_ok e -> Forall (fun p => p <> []) parts -> 4 <= fuel ->
  bounded (List.length (magic_vec e)) v -> lang (token_re U) v ->
  exists t e', expand_group U fuel parts v e = Ret (t, e')
               /\ magic_vec e' = magic_vec e /\ magic_free t.
Proof.
  intros Hok Hparts Hfuel Hb Hv.
  enough (H : exists t e', expand_group U fuel parts v e = Ret (t, e')).
  { destruct H as (t & e' & H); exists t, e'; split; [exact H|].
    eapply expand_group_sound; eauto; now apply token_safe. }
  destruct fuel as [|fuel]; [lia|].
  assert (Hfin : forall fn x e0,
             magic_vec e0 = magic_vec e ->
             bounded (List.length (magic_vec e)) x ->
             exists t e', finish_group U fuel parts fn x e0 = Ret (t, e')).
  { intros fn x e0 E0 Hx.
    destruct (finish_group_returns fuel parts fn x e0) as (t & e' & H & _);
      auto; [unfold vec_ok; now rewrite E0|lia|now rewrite E0|eauto]. }
  cbn [expand_group].
  repeat match goal with
         | |- exists t e', (if ?c then _ else _) e = _ =>
             destruct c eqn:?
         end;
    try (apply Hfin; [reflexivity|];
         first [ apply bounded_strip, bounded_skipn, Hb
               | apply bounded_skipn, Hb | apply bounded_nil
               | apply bounded_glyph; reflexivity | exact Hb ]).
  - (* the radical index 3 *)
    rewrite token_index in *; auto; discriminate.
  - (* another radical index *)
    destruct (to_superscript_total (List.length (magic_vec e))
                (strip (removelast (skipn 6 v)))) as (s & Hs & Hbs).
    { apply bounded_strip; eapply bounded_incl; [|exact Hb].
      intros c Hc; eapply skipn_in, removelast_in, Hc. }
    unfold bind at 1, lift; rewrite Hs.
    apply Hfin; [reflexivity|].
    apply bounded_app; split; [exact Hbs|apply bounded_glyph; reflexivity].
  - (* the fraction *)
    unfold bind at 1, print; cbn.
    destruct (re_match frac_re v) as [m|] eqn:Hm;
      [|eexists _, _; reflexivity].
    destruct (re_match_spec frac_re v m Hm) as [Hof _].
    set (e1 := {| magic_vec := magic_vec e;
                  printed := printed e ++ [Print_frac v] |}).
    assert (Harg : forall k e0, k = 1 \/ k = 2 ->
               magic_vec e0 = magic_vec e ->
               exists t e', expand_group U fuel parts
                              (strip (group_or_empty m k)) e0 = Ret (t, e')
                            /\ magic_vec e' = magic_vec e /\ magic_free t).
    { intros k e0 Hk E0.
      assert (Hok0 : vec_ok e0) by (unfold vec_ok; now rewrite E0).
      destruct (expand_group_arg_total fuel parts
                  (strip (group_or_empty m k)) e0) as (t & e' & H & E');
        [exact Hok0|exact Hparts|lia| | |].
      - rewrite E0; apply bounded_strip, group_bounded.
        now rewrite (mo_subject Hof).
      - apply frac_arg_like.
        destruct (frac_re_groups v m k Hm Hk); auto.
      - exists t, e'; split; [exact H|split; [congruence|]].
        eapply expand_group_sound; eauto.
        destruct (frac_re_groups v m k Hm Hk) as [->|Hl];
          [intros _ _ c []|now apply frac_arg_safe]. }
    destruct (Harg 1 e1) as (a & e2 & Ha & E2 & Hfa); auto.
    destruct (Harg 2 e2) as (b & e3 & Hb2 & E3 & Hfb); auto.
    unfold bind at 1; rewrite Ha; unfold bind at 1; rewrite Hb2.
    apply Hfin; [exact E3|].
    apply magic_free_bounded, magic_free_app; split;
      [now apply parenthesize_free|].
    apply magic_free_cons; [reflexivity|now apply parenthesize_free].
Qed.

(** *** The loops *)

Lemma nonempty_true (v : pystr) : nonempty v = true -> v <> [].
Proof. destruct v; [discriminate|discriminate]. Qed.

Lemma for_tokens_total (fuel : nat) :
  forall ms parts e,
    vec_ok e -> 4 <= fuel ->
    Forall (fun p => p <> []) parts -> Forall magic_free parts ->
    Forall (fun m => lang (token_re U) (group0 m)
                     /\ bounded (List.length (magic_vec e)) (group0 m)) ms ->
    exists ps e', for_tokens U fuel ms parts e = Ret (ps, e')
                  /\ magic_vec e' = magic_vec e /\ Forall magic_free ps.
Proof.
  induction ms as [|m ms IH]; intros parts e Hok Hfuel Hne Hfree Hms.
  - exists parts, e; auto.
  - destruct (Forall_inv Hms) as [Hm Hb].
    pose proof (Forall_inv_tail Hms) as Hms'.
    destruct (expand_group_token_total fuel parts (group0 m) e)
      as (v & e1 & Hv & E1 & Hfv); auto.
    cbn [for_tokens]; unfold bind at 1; rewrite Hv.
    destruct (IH (if nonempty v then parts ++ [v] else parts) e1)
      as (ps & e' & H & E' & Hps); auto.
    + unfold vec_ok; now rewrite E1.
    + destruct (nonempty v) eqn:Hn; [|exact Hne].
      apply Forall_app; split; [exact Hne|].
      constructor; [now apply nonempty_true|constructor].
    + destruct (nonempty v); [|exact Hfree].
      apply Forall_app; split; [exact Hfree|now constructor].
    + now rewrite E1.
    + exists ps, e'; repeat split; auto; congruence.
Qed.

(** A loop [until_fixed] ends when each step that changes the text lowers a
    measure, given fuel above the measure. *)
Lemma until_fixed_total (I : pystr -> env -> Prop) (mu : pystr -> nat)
  (step : pystr -> M pystr) :
  (forall x e, I x e ->
     exists t e', step x e = Ret (t, e') /\ I t e' /\ (t = x \/ mu t < mu x)) ->
  forall fuel x e,
    I x e -> mu x < fuel ->
    exists t e', until_fixed fuel step x e = Ret (t, e') /\ I t e'
                 /\ (t = x \/ mu t < mu x).
Proof.
  intros Hstep; induction fuel as [|fuel IH]; intros x e HI Hmu; [lia|].
  destruct (Hstep x e HI) as (t1 & e1 & H1 & HI1 & Hd).
  rewrite until_fixed_S, H1.
  destruct (streq t1 x) eqn:E.
  - exists t1, e1; auto.
  - assert (Hlt : mu t1 < mu x).
    { destruct Hd as [->|Hd]; [now rewrite streq_refl in E|exact Hd]. }
    destruct (IH t1 e1 HI1 ltac:(lia)) as (t & e' & H & HI' & Hd').
    exists t, e'; repeat split; auto.
    right; destruct Hd' as [->|Hd']; lia.
Qed.

Lemma count_no_brace (w : pystr) :
  Forall (fun c => negb (existsb (N.eqb c) (str "{" ++ str "}")) = true) w ->
  count lbrace w = 0.
Proof.
  induction 1 as [|c w Hc _ IH]; [reflexivity|].
  unfold count in *; cbn [filter].
  destruct (N.eqb lbrace c) eqn:E; [|exact IH].
  apply N.eqb_eq in E; subst c; vm_compute in Hc; discriminate.
Qed.

Lemma brace_inner (w : pystr) :
  lang (Plus true (NoneOf (str "{" ++ str "}"))) w -> count lbrace w = 0.
Proof.
  intros H; apply lang_plus_class in H as [_ H]; now apply count_no_brace.
Qed.

(** A brace group holds one opening brace, and its content none. *)
Lemma brace_match (text : pystr) (m : mobj) :
  match_of brace_re text m ->
  count lbrace (group0 m) = 1 /\ count lbrace (group_or_empty m 1) = 0.
Proof.
  intros Hm; split.
  - pose proof (mo_word Hm) as Hl; unfold brace_re, math_magic_re in Hl.
    inversion Hl as [| |? ? u v Hu Hv| | | | | | |]; subst.
    inversion Hv as [| |? ? u1 v1 Hu1 Hv1| | | | | | |]; subst.
    apply (lang_Lit (str "{")) in Hu; apply (lang_Lit (str "}")) in Hv1.
    inversion Hu1 as [| | | | | | |? ? ? Hin| |]; subst.
    rewrite !count_app, (brace_inner _ Hin); reflexivity.
  - unfold group_or_empty; destruct (group m 1) as [g|] eqn:Hg;
      [|reflexivity].
    apply (group_in (fun k w => k = 1 -> count lbrace w = 0)
             brace_re text m 1 g Hm); auto.
    simpl; repeat split; auto; intros w Hw _; now apply brace_inner.
Qed.
Lemma placeholder_facts (k bound : nat) :
  k < bound -> (N.of_nat bound <= MAX_ENTRIES)%N ->
  chr (MAGIC_FIRST + N.of_nat k) = Ret [(MAGIC_FIRST + N.of_nat k)%N]
  /\ count lbrace [(MAGIC_FIRST + N.of_nat k)%N] = 0
  /\ bounded bound [(MAGIC_FIRST + N.of_nat k)%N].
Proof.
  unfold MAX_ENTRIES, MAGIC_FIRST; intros Hk Hb; repeat split.
  - unfold chr.
    destruct (N.leb_spec (0x10203e + N.of_nat k) 0x10ffff); [reflexivity|lia].
  - unfold count, lbrace; cbn [filter].
    destruct (N.eqb_spec 0x7b (0x10203e + N.of_nat k)); [lia|reflexivity].
  - intros c [<-|[]] _; unfold MAGIC_FIRST; lia.
Qed.

Lemma math_magic_repl_eq (fn : pystr -> M pystr) (m : mobj) (e : env) :
  math_magic_repl fn m e
  = match chr (MAGIC_FIRST + N.of_nat (List.length (magic_vec e))) with
    | Ret magic =>
        match fn (group_or_empty m 1) e with
        | Ret (t, e1) =>
            Ret (magic, {| magic_vec := magic_vec e1 ++ [t];
                           printed := printed e1 |})
        | Raise x => Raise x
        | Timeout => Timeout
        end
    | Raise x => Raise x
    | Timeout => Timeout
    end.
Proof.
  unfold math_magic_repl, bind, get_vec, lift.
  destruct (chr _); reflexivity.
Qed.

Lemma mmap_cons {A B} (f : A -> M B) (x : A) (xs : list A) (e : env) :
  mmap f (x :: xs) e
  = match f x e with
    | Ret (y, e1) =>
        match mmap f xs e1 with
        | Ret (ys, e2) => Ret (y :: ys, e2)
        | Raise ex => Raise ex
        | Timeout => Timeout
        end
    | Raise ex => Raise ex
    | Timeout => Timeout
    end.
Proof.
  cbn [mmap]; unfold bind; destruct (f x e) as [[y e1]| |]; reflexivity.
Qed.

(** The replacements of one pass over the brace groups. *)
Lemma repl_all (f n0 : nat) :
  recurse_returns U f ->
  forall ms e,
    vec_ok e -> (ms <> [] -> 5 <= f) -> n0 <= List.length (magic_vec e) ->
    Forall (fun m => count lbrace (group_or_empty m 1) = 0
                     /\ bounded n0 (group_or_empty m 1)) ms ->
    (N.of_nat (List.length (magic_vec e) + List.length ms)
     <= MAX_ENTRIES)%N ->
    exists reps e',
      mmap (math_magic_repl (recurse U f)) ms e = Ret (reps, e')
      /\ vec_ok e'
      /\ List.length (magic_vec e')
         = List.length (magic_vec e) + List.length ms
      /\ List.length reps = List.length ms
      /\ Forall (fun rep =>
                   count lbrace rep = 0
                   /\ bounded (List.length (magic_vec e) + List.length ms) rep)
           reps.
Proof.
  intros Hrec; induction ms as [|m ms IH]; intros e Hok Hf Hn0 Hms Hmax.
  - exists [], e; repeat split; auto; simpl; lia.
  - destruct (Forall_inv Hms) as [Hc Hb].
    pose proof (Forall_inv_tail Hms) as Hms'.
    cbn [List.length] in *.
    destruct (placeholder_facts (List.length (magic_vec e))
                (List.length (magic_vec e) + S (List.length ms)))
      as (Hchr & Hcount & Hbound); [lia|exact Hmax|].
    destruct (Hrec (group_or_empty m 1) e) as (r & e1 & Hr & Hok1 & Hfr & H1 & H2);
      [exact Hok|eapply bounded_mono; eauto|rewrite Hc; lia
      |rewrite Hc; apply Hf; discriminate|].
    rewrite Hc in H2.
    set (e2 := {| magic_vec := magic_vec e1 ++ [r]; printed := printed e1 |}).
    assert (Hok2 : vec_ok e2).
    { unfold vec_ok; simpl; apply Forall_app; split; [exact Hok1|now constructor]. }
    assert (Hlen2 : List.length (magic_vec e2) = S (List.length (magic_vec e))).
    { simpl; rewrite length_app; simpl; lia. }
    destruct (IH e2) as (reps & e' & Hreps & Hok' & Hlen' & Hl & Hall);
      [exact Hok2|intros _; apply Hf; discriminate|lia|exact Hms'
      |rewrite Hlen2; lia|].
    exists ([(MAGIC_FIRST + N.of_nat (List.length (magic_vec e)))%N] :: reps), e'.
    split; [|repeat split].
    + rewrite mmap_cons, math_magic_repl_eq, Hchr, Hr; fold e2.
      rewrite Hreps; reflexivity.
    + exact Hok'.
    + rewrite Hlen', Hlen2; lia.
    + simpl; now rewrite Hl.
    + constructor; [split; [exact Hcount|exact Hbound]|].
      eapply Forall_impl; [|exact Hall].
      intros rep [Hrc Hrb]; split; [exact Hrc|].
      eapply bounded_mono; [|exact Hrb]; rewrite Hlen2; lia.
Qed.
Lemma list_sum_const (A : Type) (f : A -> nat) (k : nat) (l : list A) :
  Forall (fun x => f x = k) l -> list_sum (map f l) = k * List.length l.
Proof.
  induction 1 as [|x l Hx _ IH]; [simpl; lia|].
  cbn [map List.length]; unfold list_sum in *; cbn [fold_right].
  rewrite IH, Hx; lia.
Qed.

(** One pass over the brace groups: every group becomes a placeholder. *)
Lemma brace_pass (f n0 total : nat) (x : pystr) (e : env) :
  recurse_returns U f -> count lbrace x + 4 <= f ->
  (N.of_nat total <= MAX_ENTRIES)%N -> pass_inv n0 total x e ->
  exists t e',
    re_sub_m brace_re (math_magic_repl (recurse U f)) x e = Ret (t, e')
    /\ pass_inv n0 total t e'
    /\ (t = x \/ count lbrace t < count lbrace x).
Proof.
  intros Hrec Hf Hmax (Hok & Hb & Hn0 & Htotal).
  destruct (finditer_spec brace_re x) as [Hall Hch].
  set (ms := finditer brace_re x) in *.
  assert (Hbrace : Forall (fun m => count lbrace (group0 m) = 1
                                    /\ count lbrace (group_or_empty m 1) = 0)
                     ms).
  { eapply Forall_impl; [|exact Hall]; intros m Hm; now apply (brace_match x). }
  assert (Hwf : Forall (fun m => mo_string m = x
                                 /\ mo_end m <= List.length x) ms).
  { eapply Forall_impl; [|exact Hall]; intros m Hm; split;
      [exact (mo_subject Hm)|exact (mo_bounded Hm)]. }
  assert (Hsum : list_sum (map (fun m => count lbrace (group0 m)) ms)
                 = List.length ms).
  { rewrite (list_sum_const _ _ 1); [lia|].
    eapply Forall_impl; [|exact Hbrace]; intros m [H _]; exact H. }
  assert (Hcount : forall reps,
             List.length reps = List.length ms ->
             count lbrace (splice x 0 ms reps) + List.length ms
             = count lbrace x + list_sum (map (count lbrace) reps)).
  { intros reps Hl.
    pose proof (splice_count lbrace x ms 0 reps Hch Hwf Hl) as H.
    rewrite Hsum in H; exact H. }
  assert (Hle : List.length ms <= count lbrace x).
  { specialize (Hcount (map (fun _ => []) ms)).
    rewrite length_map, map_map in Hcount; specialize (Hcount eq_refl).
    rewrite (list_sum_const _ _ 0) in Hcount; [lia|].
    apply Forall_forall; reflexivity. }
  destruct (repl_all f (List.length (magic_vec e)) Hrec ms e)
    as (reps & e' & Hreps & Hok' & Hlen' & Hl & Hrall);
    [exact Hok| |lia| |lia|].
  { intros Hne; destruct ms; [congruence|simpl in Hle; lia]. }
  { eapply Forall_impl; [|exact Hall]; intros m Hm; split;
      [now apply (brace_match x)|].
    apply group_bounded; now rewrite (mo_subject Hm). }
  exists (splice x 0 ms reps), e'.
  assert (Hzero : list_sum (map (count lbrace) reps) = 0).
  { rewrite (list_sum_const _ _ 0); [lia|].
    eapply Forall_impl; [|exact Hrall]; intros rep [H _]; exact H. }
  specialize (Hcount reps Hl); rewrite Hzero in Hcount.
  split; [|split].
  - unfold re_sub_m, bind; fold ms; rewrite Hreps; reflexivity.
  - repeat split; [exact Hok'| |lia|lia].
    intros c Hc Hm; apply splice_in in Hc as [Hc|(rep & Hin & Hc)].
    + specialize (Hb c Hc Hm); lia.
    + rewrite Forall_forall in Hrall; destruct (Hrall rep Hin) as [_ Hrb].
      specialize (Hrb c Hc Hm); lia.
  - destruct ms as [|m ms']; [left|right; simpl in *; lia].
    destruct reps; [|discriminate]; reflexivity.
Qed.

Lemma math_magic_total (f n0 total : nat) (x : pystr) (e : env) :
  recurse_returns U f -> count lbrace x + 4 <= f ->
  (N.of_nat total <= MAX_ENTRIES)%N -> pass_inv n0 total x e ->
  exists t e',
    math_magic f x (str "{") (str "}") (recurse U f) e = Ret (t, e')
    /\ pass_inv n0 total t e'
    /\ (t = x \/ count lbrace t < count lbrace x).
Proof.
  intros Hrec Hf Hmax Hinv; unfold math_magic; fold brace_re.
  destruct (until_fixed_total
              (fun x e => pass_inv n0 total x e /\ count lbrace x + 4 <= f)
              (count lbrace)
              (re_sub_m brace_re (math_magic_repl (recurse U f))))
    with (fuel := f) (x := x) (e := e) as (t & e' & H & [HI _] & Hd);
    [|auto|lia|eauto].
  intros y e0 [Hinv0 Hf0].
  destruct (brace_pass f n0 total y e0 Hrec Hf0 Hmax Hinv0)
    as (t & e' & H & HI & Hd).
  exists t, e'; split; [exact H|split; [split; [exact HI|]|exact Hd]].
  destruct Hd as [->|Hd]; lia.
Qed.

Lemma recurse_S (f : nat) (text : pystr) (e : env) :
  recurse U (S f) text e
  = match until_fixed f
            (fun x => math_magic f x (str "{") (str "}") (recurse U f))
            text e with
    | Ret (text1, e1) =>
        match for_tokens U f (finditer (token_re U) text1) []
                {| magic_vec := magic_vec e1;
                   printed := printed e1 ++ [Print_before_iter text1] |} with
        | Ret (parts, e3) => Ret (concat parts, e3)
        | Raise x => Raise x
        | Timeout => Timeout
        end
    | Raise x => Raise x
    | Timeout => Timeout
    end.
Proof.
  cbn [recurse]; unfold bind at 1.
  destruct (until_fixed f _ text e) as [[text1 e1]| |]; reflexivity.
Qed.

Lemma recurse_total (f : nat) : recurse_returns U f.
Proof.
  induction f as [|f IH]; intros text e Hok Hb Hmax Hf; [lia|].
  set (n0 := List.length (magic_vec e)).
  set (total := n0 + count lbrace text).
  destruct (until_fixed_total
              (fun x e => pass_inv n0 total x e /\ count lbrace x + 4 <= f)
              (count lbrace)
              (fun x => math_magic f x (str "{") (str "}") (recurse U f)))
    with (fuel := f) (x := text) (e := e)
    as (text1 & e1 & Hloop & [(Hok1 & Hb1 & Hn1 & Ht1) _] & _).
  - intros y e0 [Hinv0 Hf0].
    destruct (math_magic_total f n0 total y e0 IH Hf0 Hmax Hinv0)
      as (t & e' & H & HI & Hd).
    exists t, e'; split; [exact H|split; [split; [exact HI|]|exact Hd]].
    destruct Hd as [->|Hd]; lia.
  - split; [|lia]; repeat split; auto.
  - lia.
  - set (e2 := {| magic_vec := magic_vec e1;
                  printed := printed e1 ++ [Print_before_iter text1] |}).
    destruct (finditer_spec (token_re U) text1) as [Hall _].
    destruct (for_tokens_total f (finditer (token_re U) text1) [] e2)
      as (ps & e3 & Htok & E3 & Hps); auto; [lia| |].
    { eapply Forall_impl; [|exact Hall]; intros m Hm; split;
        [exact (mo_word Hm)|].
      eapply bounded_incl; [|exact Hb1].
      intros c; unfold group0; rewrite (mo_subject Hm); apply substr_in. }
    exists (concat ps), e3; split; [|repeat split].
    + rewrite recurse_S, Hloop; fold e2.
      match goal with
      | |- match ?X with _ => _ end = _ =>
          replace X with (Ret (A:=list pystr * env) (ps, e3))
            by (symmetry; exact Htok)
      end; reflexivity.
    + unfold vec_ok; rewrite E3; exact Hok1.
    + now apply magic_free_concat.
    + rewrite E3; exact Hn1.
    + rewrite E3; simpl; fold n0; unfold total in Ht1; lia.
Qed.

(** [to_math] returns on a string free of placeholders that is not too
    large for the reserved range. *)
Lemma to_math_total (text : pystr) :
  magic_free text -> (N.of_nat (count lbrace text) <= MAX_ENTRIES)%N ->
  exists r, to_math U (count lbrace text + 5) text = Ret r /\ magic_free r.
Proof.
  intros Hfree Hmax.
  set (e0 := {| magic_vec := []; printed := [Print_to_math text] |}).
  destruct (recurse_total (count lbrace text + 5) text e0)
    as (r & e' & Hr & _ & Hf & _); auto.
  - constructor.
  - now apply magic_free_bounded.
  - exists r; split; [|exact Hf].
    unfold to_math, to_math_run, bind, print; simpl; fold e0.
    rewrite Hr; reflexivity.
Qed.

End Total.
(** ** The value cleaner on text without tags and links *)

Lemma no_match (r : re) (c : char) (text : pystr) :
  (forall w, lang r w -> exists t, w = c :: t) -> ~ In c text ->
  finditer r text = [].
Proof.
  intros Hhead Hc; destruct (finditer_spec r text) as [Hall _].
  destruct (finditer r text) as [|m ms]; [reflexivity|exfalso].
  apply Forall_inv in Hall.
  destruct (Hhead _ (mo_word Hall)) as [t Ht].
  apply Hc; unfold group0 in Ht; rewrite (mo_subject Hall) in Ht.
  eapply substr_in; rewrite Ht; now left.
Qed.

Lemma re_sub_r_none (r : re) (repl : mobj -> res pystr) (text : pystr) :
  finditer r text = [] -> re_sub_r r repl text = Ret text.
Proof. intros H; unfold re_sub_r; rewrite H; reflexivity. Qed.

Lemma re_sub_in (r : re) (s text : pystr) (c : char) :
  In c (re_sub r (const s) text) -> In c text \/ In c s.
Proof.
  unfold re_sub; intros H; apply splice_in in H as [H|(rep & Hin & H)];
    [now left|right].
  apply in_map_iff in Hin as (m & <- & _); exact H.
Qed.

Lemma lang_head (c : char) (r : re) (w : pystr) :
  lang (Seq (Chr c) r) w -> exists t, w = c :: t.
Proof.
  intros H; inversion H as [| |? ? u v Hu Hv| | | | | | |]; subst.
  inversion Hu as [|? x Hx| | | | | | | |]; subst.
  apply N.eqb_eq in Hx; subst; simpl; eauto.
Qed.

Lemma lang_head2 (c d : char) (r : re) (w : pystr) :
  lang (Seq (Seq (Chr c) (Chr d)) r) w -> exists t, w = c :: t.
Proof.
  intros H; inversion H as [| |? ? u v Hu Hv| | | | | | |]; subst.
  apply lang_head in Hu as [t ->]; simpl; eauto.
Qed.

Section Plain.

Variables (U : Unicode) (Config : Type) (unescape nfc : pystr -> pystr).

Lemma plain_re_sub (r : re) (s text : pystr) :
  plain s -> plain text -> plain (re_sub r (const s) text).
Proof.
  intros [Hs1 Hs2] [Ht1 Ht2]; split; intros H;
    apply re_sub_in in H as [H|H]; auto.
Qed.

Lemma plain_const (s : pystr) :
  forallb (fun c => negb (N.eqb c 0x3c%N || N.eqb c 0x5b%N)) s = true ->
  plain s.
Proof.
  intros H; rewrite forallb_forall in H.
  split; intros Hin; specialize (H _ Hin); discriminate.
Qed.

Lemma plain_strip_blocks (title : pystr) :
  plain title -> plain (strip_blocks U title).
Proof.
  intros H; unfold strip_blocks.
  repeat (apply plain_re_sub; [apply plain_const; reflexivity|]); exact H.
Qed.

Lemma span_none (tag title : pystr) (repl : mobj -> res pystr) :
  plain title -> re_sub_r (span_re U tag) repl title = Ret title.
Proof.
  intros [H _]; apply re_sub_r_none, (no_match _ 0x3c%N); [|exact H].
  intros w; apply lang_head.
Qed.

Lemma link_none (r : re) (title : pystr) (repl : mobj -> res pystr) :
  (forall w, lang r w -> exists t, w = 0x5b%N :: t) ->
  plain title -> re_sub_r r repl title = Ret title.
Proof.
  intros Hr [_ H]; apply re_sub_r_none, (no_match _ 0x5b%N); auto.
Qed.

(** On a title without [<] and [[], [clean_value] makes no recursive call
    and calls no converter: it returns. *)
Lemma clean_value_plain (fuel : nat) (config : Config) (title : pystr)
  (no_strip : bool) :
  plain title ->
  exists r, clean_value U unescape nfc (S fuel) config title no_strip = Ret r.
Proof.
  intros H; cbn [clean_value].
  pose proof (plain_strip_blocks title H) as H0.
  set (t0 := strip_blocks U title) in *.
  assert (H1 : plain (re_sub (empty_pair_re U (str "sup") (str "sup"))
                        (const []) t0))
    by (apply plain_re_sub; [apply plain_const; reflexivity|exact H0]).
  rewrite span_none by exact H1; cbn [rbind].
  set (t1 := re_sub (empty_pair_re U (str "sup") (str "sup")) (const []) t0)
    in *.
  assert (H2 : plain (re_sub (empty_pair_re U (str "sub") (str "sup"))
                        (const []) t1))
    by (apply plain_re_sub; [apply plain_const; reflexivity|exact H1]).
  set (t2 := re_sub (empty_pair_re U (str "sub") (str "sup")) (const []) t1)
    in *.
  do 3 (rewrite span_none by exact H2; cbn [rbind]).
  assert (H3 : plain (strip_tags t2)).
  { unfold strip_tags.
    do 3 (apply plain_re_sub; [apply plain_const; reflexivity|]); exact H2. }
  rewrite (link_none link_bars_re)
    by (try exact H3; intros w; apply lang_head2).
  cbn [rbind].
  rewrite (link_none link_re) by (try exact H3; intros w; apply lang_head2).
  cbn [rbind].
  rewrite (link_none simple_link_re)
    by (try exact H3; intros w; apply lang_head2).
  cbn [rbind].
  rewrite (link_none url_re) by (try exact H3; intros w; apply lang_head).
  cbn [rbind]; eauto.
Qed.

End Plain.

(** ** Totality and the placeholder invariant *)

Lemma to_chem_total (U : Unicode) (text : pystr) :
  exists r, to_chem U text = Ret r.
Proof.
  unfold to_chem.
  destruct (rmap_total
              (fun x => if is_digit U x then to_subscript [x] else Ret [x])
              text) as [gs Hgs].
  - apply Forall_forall; intros x _.
    destruct (is_digit U x); [|eauto].
    destruct (to_subscript_total (S (N.to_nat x)) [x]) as (r & H & _); [|eauto].
    intros c [<-|[]] _; lia.
  - rewrite Hgs; simpl; eauto.
Qed.

Lemma converter_total (text : pystr) :
  (exists r, to_superscript text = Ret r)
  /\ (exists r, to_subscript text = Ret r).
Proof.
  assert (Hb : bounded (S (list_max (map N.to_nat text))) text).
  { intros c Hc _.
    assert (H : N.to_nat c <= list_max (map N.to_nat text)).
    { pose proof (list_max_le (map N.to_nat text)
                    (list_max (map N.to_nat text))) as [H _].
      specialize (H (Nat.le_refl _)); rewrite Forall_forall in H.
      apply H, in_map, Hc. }
    lia. }
  destruct (to_superscript_total _ text Hb) as (r1 & H1 & _).
  destruct (to_subscript_total _ text Hb) as (r2 & H2 & _).
  eauto.
Qed.



(** ** The fraction *)

Lemma lstrip_head (s : pystr) : head_ok (lstrip s).
Proof.
  induction s as [|c s IH]; simpl; [exact I|].
  destruct (is_space c) eqn:E; [exact IH|exact E].
Qed.

Lemma lstrip_suffix (s : pystr) : exists p, s = p ++ lstrip s.
Proof.
  induction s as [|c s [p IH]]; simpl; [now exists []|].
  destruct (is_space c); [exists (c :: p); simpl; now f_equal|now exists []].
Qed.

Lemma head_ok_prefix (u w p : pystr) : head_ok u -> u = w ++ p -> head_ok w.
Proof. intros H ->; destruct w; [exact I|exact H]. Qed.

Lemma strip_stripped (s : pystr) : stripped (strip s).
Proof.
  unfold strip, rstrip, stripped; rewrite rev_involutive.
  split; [|apply lstrip_head].
  destruct (lstrip_suffix (rev (lstrip s))) as [p Hp].
  apply (head_ok_prefix (lstrip s) _ (rev p)); [apply lstrip_head|].
  rewrite <- rev_app_distr, <- Hp, rev_involutive; reflexivity.
Qed.

Lemma lstrip_id (s : pystr) : head_ok s -> lstrip s = s.
Proof. destruct s as [|c s]; [reflexivity|]; simpl; now intros ->. Qed.

Lemma strip_id (s : pystr) : stripped s -> strip s = s.
Proof.
  intros [H1 H2]; unfold strip, rstrip.
  now rewrite (lstrip_id s H1), (lstrip_id _ H2), rev_involutive.
Qed.

Lemma expand_free (fuel : nat) (text : pystr) (e : env) :
  magic_free text -> expand (S fuel) text e = Ret (strip text, e).
Proof.
  intros Hf; unfold expand, bind.
  now rewrite until_fixed_S, (expand_pass_free text e Hf), streq_refl.
Qed.

Lemma finish_group_stripped (U : Unicode) (fuel : nat) (parts : list pystr)
  (fn : style) (v t : pystr) (e e' : env) :
  finish_group U fuel parts fn v e = Ret (t, e') -> stripped t.
Proof.
  unfold finish_group; intros H.
  apply bind_ret in H as (v1 & e1 & _ & H).
  apply bind_ret in H as (sp & e2 & _ & H).
  unfold expand in H; apply bind_ret in H as (t0 & e3 & _ & H).
  apply ret_ret in H as [-> _]; apply strip_stripped.
Qed.

(** What [expand_group] returns for a stripped token is stripped. *)
Lemma expand_group_stripped (U : Unicode) (fuel : nat) (parts : list pystr)
  (v t : pystr) (e e' : env) :
  stripped v -> expand_group U fuel parts v e = Ret (t, e') -> stripped t.
Proof.
  intros Hv H; destruct fuel as [|fuel]; [discriminate|].
  cbn [expand_group] in H.
  repeat match type of H with
         | (if ?c then _ else _) _ = _ =>
             destruct c eqn:?;
             [try (apply finish_group_stripped in H; exact H)|]
         end.
  - discriminate.
  - apply bind_ret in H as (s & e1 & _ & H).
    now apply finish_group_stripped in H.
  - apply bind_ret in H as ([] & e1 & _ & H).
    destruct (re_match frac_re v) as [m|].
    + apply bind_ret in H as (a & e2 & _ & H).
      apply bind_ret in H as (b & e3 & _ & H).
      now apply finish_group_stripped in H.
    + apply bind_ret in H as ([] & e2 & _ & H).
      now apply ret_ret in H as [-> _].
  - now apply finish_group_stripped in H.
Qed.

Lemma parenthesize_stripped (a : pystr) :
  stripped a -> stripped (parenthesize a).
Proof.
  intros H; unfold parenthesize; destruct (Nat.ltb 1 _); [|exact H].
  split; [reflexivity|].
  rewrite !rev_app_distr; reflexivity.
Qed.

Lemma joined_stripped (a b : pystr) :
  stripped a -> stripped b -> stripped (a ++ str "/" ++ b).
Proof.
  intros [Ha _] [_ Hb]; split.
  - destruct a; [reflexivity|exact Ha].
  - rewrite !rev_app_distr.
    destruct (rev b); [reflexivity|exact Hb].
Qed.

Lemma lookup_command_joined (U : Unicode) (a b : pystr) :
  startswith (str "\") (a ++ str "/" ++ b) = false ->
  lookup_command U (a ++ str "/" ++ b) = a ++ str "/" ++ b.
Proof.
  intros H; unfold lookup_command; rewrite H.
  assert (Hs : isspace (a ++ str "/" ++ b) = false).
  { unfold isspace; destruct (a ++ str "/" ++ b) eqn:E; [reflexivity|].
    rewrite <- E; apply not_true_iff_false; intros Hall.
    rewrite forallb_forall in Hall.
    specialize (Hall 0x2f%N); rewrite in_app_iff in Hall.
    discriminate Hall; right; now left. }
  assert (Ha : streq (a ++ str "/" ++ b) (str "&") = false).
  { apply streq_neq; intros E.
    assert (Hin : In 0x2f%N (str "&")); [|now destruct Hin as [|[]]].
    rewrite <- E, in_app_iff; right; now left. }
  now rewrite Hs, Ha.
Qed.

(** The fraction branch of [expand_group] when the spacing rule asks for no
    space: each argument, stripped, is resolved through [expand_group], a
    resolved side longer than one character is put in parentheses, and the
    sides are joined with a slash; the joined text is returned when it does
    not begin with a backslash. *)
Lemma frac_branch_joined (U : Unicode) (fuel : nat) (parts : list pystr)
  (v a b : pystr) (m : mobj) (e e1 e2 : env) :
  vec_ok e ->
  matches (frac_test_re U) v = true ->
  re_match frac_re v = Some m ->
  expand_group U fuel parts (strip (group_or_empty m 1))
    {| magic_vec := magic_vec e; printed := printed e ++ [Print_frac v] |}
  = Ret (a, e1) ->
  expand_group U fuel parts (strip (group_or_empty m 2)) e1 = Ret (b, e2) ->
  startswith (str "\") (parenthesize a ++ str "/" ++ parenthesize b) = false ->
  needs_space U parts (parenthesize a ++ str "/" ++ parenthesize b)
  = Ret false ->
  expand_group U (S fuel) parts v e
  = Ret (parenthesize a ++ str "/" ++ parenthesize b, e2).
Proof.
  intros Hok Htest Hm Ha Hb Hstart Hspace.
  assert (Hfuel : exists f, fuel = S f)
    by (destruct fuel as [|f]; [discriminate|now exists f]).
  assert (Hg : forall n, n = 1 \/ n = 2 ->
                         safe U (strip (group_or_empty m n))).
  { intros n Hn; destruct (frac_re_groups v m n Hm Hn) as [->|Hl];
      [intros _ _ c []|now apply frac_arg_safe]. }
  pose proof (expand_group_stripped U _ _ _ _ _ _ (strip_stripped _) Ha) as Sa.
  pose proof (expand_group_stripped U _ _ _ _ _ _ (strip_stripped _) Hb) as Sb.
  pose proof Ha as Ha'; pose proof Hb as Hb'.
  apply expand_group_sound in Ha' as [Ea Hfa]; [|exact Hok|apply Hg; auto].
  assert (Hok1 : vec_ok e1) by (unfold vec_ok; now rewrite Ea).
  apply expand_group_sound in Hb' as [Eb Hfb]; [|exact Hok1|apply Hg; auto].
  destruct (matches_frac_head U v Htest) as [v' Ev].
  cbn [expand_group]; rewrite Ev.
  replace (matches (mathcal_re U) _) with false by reflexivity.
  replace (matches (mathfrak_re U) _) with false by reflexivity.
  replace (matches (mathbb_re U) _) with false by reflexivity.
  replace (matches (begin_end_re U) _) with false by reflexivity.
  replace (matches (text_re U) _) with false by reflexivity.
  replace (matches sqrt_index_re _) with false by reflexivity.
  replace (matches (sqrt_re U) _) with false by reflexivity.
  rewrite <- Ev, Htest, Hm.
  unfold bind at 1, print.
  unfold bind at 1; rewrite Ha.
  unfold bind at 1; rewrite Hb.
  unfold finish_group.
  rewrite lookup_command_joined by exact Hstart.
  unfold bind at 1, ret; unfold bind at 1, lift; rewrite Hspace.
  destruct Hfuel as [f ->]; rewrite expand_free.
  - rewrite strip_id; [reflexivity|].
    apply joined_stripped; now apply parenthesize_stripped.
  - apply magic_free_app; split; [now apply parenthesize_free|].
    apply magic_free_cons; [reflexivity|now apply parenthesize_free].
Qed.

(** ** The piped links *)







(** ** The normalization of the result *)

(** C9, amended: the value returned by [clean_value] is its own NFC
    normalization, normalization being idempotent, and on a title without
    markup brackets such a value is returned; the strings returned by
    [to_math] and by the script converters are returned without being
    normalized. *)
Theorem clean_value_normalized (U : Unicode) (Config : Type)
  (unescape nfc : pystr -> pystr) :
  (forall s, nfc (nfc s) = nfc s) ->
  (forall fuel (config : Config) title no_strip r,
     clean_value U unescape nfc fuel config title no_strip = Ret r ->
     nfc r = r)
  /\ (forall fuel (config : Config) title no_strip,
        plain title ->
        exists r,
          clean_value U unescape nfc (S fuel) config title no_strip = Ret r
          /\ nfc r = r).
Proof.
  intros Hnfc; split.
  - intros fuel config title no_strip r; now apply clean_value_nfc.
  - intros fuel config title no_strip Hp.
    destruct (clean_value_plain U Config unescape nfc fuel config title
                no_strip Hp) as [r Hr].
    exists r; split; [exact Hr|].
    now apply (clean_value_nfc U Config unescape nfc (S fuel) config title
                 no_strip).
Qed.

Lemma clean_value_normalized_witness :
  clean_latin1 [0x65%N; 0x301%N] = Ret [0xe9%N]
  /\ nfc_acute [0xe9%N] = [0xe9%N].
Proof.
  assert (H : clean_latin1 [0x65%N; 0x301%N] = Ret [0xe9%N])
    by (vm_compute; reflexivity).
  split; [exact H|].
  destruct (clean_value_normalized latin1 unit unescape_no_amp nfc_acute
              nfc_acute_idempotent) as [Hn _].
  exact (Hn 10 tt [0x65%N; 0x301%N] false [0xe9%N] H).
Defined.

(** * Further properties *)

(** ** The script converters and the font functions *)

Lemma dict_get_In (d : dict) (k v : pystr) :
  dict_get d k = Some v -> In (k, v) d.
Proof.
  induction d as [|[k' v'] d IH]; [discriminate|].
  cbn [dict_get]; destruct (dict_get d k) as [w|].
  - intros [= ->]; right; now apply IH.
  - destruct (streq k' k) eqn:E; [|discriminate].
    apply streq_eq in E; subst; intros [= ->]; now left.
Qed.

Lemma dict_get_keys1 (d : dict) (c : char) (v : pystr) :
  dict_get d [c] = Some v -> In c (keys1 d).
Proof.
  intros H; apply dict_get_In in H.
  unfold keys1; apply in_flat_map; exists ([c], v); split; [exact H|now left].
Qed.

(** X1: the four cases of [to_subscript]. *)
Theorem to_subscript_cases (text : pystr) :
  (text = [] -> to_subscript text = Ret [])
  /\ (forall gs,
        Forall2 (fun x g => dict_get subscript_ht [x] = Some g) text gs ->
        to_subscript text = Ret (concat gs))
  /\ ((exists x, In x text /\ dict_get subscript_ht [x] = None) ->
      List.length text = 1 ->
      to_subscript text = Ret (str "_" ++ text))
  /\ ((exists x, In x text /\ dict_get subscript_ht [x] = None) ->
      1 < List.length text ->
      to_subscript text = Ret (str "_(" ++ text ++ str ")")).
Proof.
  repeat split.
  - intros ->; reflexivity.
  - intros gs H; destruct (rmap_items subscript_ht text gs H) as [H1 H2].
    destruct text as [|x text]; [inversion H; reflexivity|].
    unfold to_subscript; rewrite H1, H2; reflexivity.
  - intros H Hlen; apply unmapped_forallb in H.
    destruct text as [|x text]; [discriminate|].
    unfold to_subscript; rewrite H, Hlen; reflexivity.
  - intros H Hlen; apply unmapped_forallb in H.
    destruct text as [|x text]; [inversion Hlen|].
    unfold to_subscript; rewrite H.
    destruct (Nat.eqb_spec (List.length (x :: text)) 1) as [E|_]; [lia|].
    reflexivity.
Qed.

Lemma to_subscript_cases_witness :
  to_subscript (str "10") = Ret [0x2081%N; 0x2080%N]
  /\ to_subscript (str "b") = Ret (str "_b")
  /\ to_subscript (str "ab") = Ret (str "_(ab)").
Proof.
  destruct (to_subscript_cases (str "10")) as (_ & H10 & _).
  destruct (to_subscript_cases (str "b")) as (_ & _ & Hb & _).
  destruct (to_subscript_cases (str "ab")) as (_ & _ & _ & Hab).
  split; [|split].
  - apply (H10 [[0x2081%N]; [0x2080%N]]); repeat constructor.
  - apply Hb; [exists 0x62%N; split; [now left|reflexivity]|reflexivity].
  - apply Hab; [exists 0x62%N; split; [right; now left|reflexivity]|].
    simpl; lia.
Defined.

(** The converters lose nothing: the glyphs of a table begin with
    different code points, none of which is the mark of the fallback. *)
Section Script.

Variables (d : dict) (mark : pystr) (f : pystr -> res pystr).

Hypothesis f_eq : forall text,
  f text
  = match text with
    | [] => Ret []
    | _ =>
        if forallb (fun x => dict_mem d [x]) text then
          rbind (rmap (fun x => dict_item d [x]) text)
                (fun gs => Ret (concat gs))
        else if Nat.eqb (List.length text) 1 then Ret (mark ++ text)
        else Ret (mark ++ str "(" ++ text ++ str ")")
    end.

Hypothesis heads_differ :
  forallb (fun e1 =>
     forallb (fun e2 =>
        match snd e1, snd e2 with
        | g1 :: _, g2 :: _ => implb (N.eqb g1 g2) (streq (fst e1) (fst e2))
        | _, _ => false
        end) d) d = true.

Hypothesis mark_differs :
  match mark with
  | m :: _ =>
      forallb (fun e => match snd e with
                        | g :: _ => negb (N.eqb g m)
                        | [] => false
                        end) d
  | [] => false
  end = true.

Lemma glyph_heads (x y : char) (gx gy rx ry : pystr) :
  dict_get d [x] = Some gx -> dict_get d [y] = Some gy ->
  gx ++ rx = gy ++ ry -> x = y /\ rx = ry.
Proof.
  intros Hx Hy E.
  pose proof (dict_get_In _ _ _ Hx) as Ix.
  pose proof (dict_get_In _ _ _ Hy) as Iy.
  rewrite forallb_forall in heads_differ.
  pose proof (heads_differ _ Ix) as H; rewrite forallb_forall in H.
  specialize (H _ Iy); cbn [fst snd] in H.
  destruct gx as [|g1 gx]; [discriminate|].
  destruct gy as [|g2 gy]; [discriminate|].
  injection E as E1 E2; subst g2; rewrite N.eqb_refl in H; cbn [implb] in H.
  apply streq_eq in H; injection H as ->.
  rewrite Hx in Hy; injection Hy as <-.
  split; [reflexivity|now apply app_inv_head in E2].
Qed.

Lemma glyph_not_mark (x : char) (gx rx t : pystr) :
  dict_get d [x] = Some gx -> gx ++ rx <> mark ++ t.
Proof.
  intros Hx E; apply dict_get_In in Hx.
  destruct mark as [|m ms]; [discriminate|].
  rewrite forallb_forall in mark_differs.
  specialize (mark_differs _ Hx); cbn [snd] in mark_differs.
  destruct gx as [|g gx]; [discriminate|].
  injection E as -> _; now rewrite N.eqb_refl in mark_differs.
Qed.

Lemma glyphs_injective (a : pystr) :
  forall b gs hs,
    Forall2 (fun x g => dict_get d [x] = Some g) a gs ->
    Forall2 (fun x g => dict_get d [x] = Some g) b hs ->
    concat gs = concat hs -> a = b.
Proof.
  induction a as [|x a IH]; intros b gs hs Ha Hb E.
  - inversion Ha; subst; destruct Hb as [|y h b hs Hy Hb]; [reflexivity|].
    apply dict_get_In in Hy.
    rewrite forallb_forall in heads_differ.
    pose proof (heads_differ _ Hy) as H; rewrite forallb_forall in H.
    specialize (H _ Hy); cbn [snd] in H.
    destruct h; [discriminate H|discriminate E].
  - inversion Ha as [|? g ? gs' Hx Ha']; subst.
    destruct Hb as [|y h b hs Hy Hb].
    + apply dict_get_In in Hx.
      rewrite forallb_forall in heads_differ.
      pose proof (heads_differ _ Hx) as H; rewrite forallb_forall in H.
      specialize (H _ Hx); cbn [snd] in H.
      destruct g; [discriminate H|discriminate E].
    + cbn [concat] in E.
      destruct (glyph_heads _ _ _ _ _ _ Hx Hy E) as [-> E'].
      f_equal; now apply (IH b gs' hs).
Qed.

(** What [f] returns, by the case of its argument. *)
Lemma script_cases (text : pystr) :
  exists r,
    f text = Ret r
    /\ ((text = [] /\ r = [])
        \/ (text <> []
            /\ exists gs,
                Forall2 (fun x g => dict_get d [x] = Some g) text gs
                /\ r = concat gs)
        \/ (List.length text = 1 /\ r = mark ++ text)
        \/ (1 < List.length text /\ r = mark ++ str "(" ++ text ++ str ")")).
Proof.
  rewrite f_eq; destruct text as [|x text]; [exists []; auto|].
  destruct (forallb _ (x :: text)) eqn:E.
  - destruct (rmap_items_total d _ E) as [gs Hgs]; rewrite Hgs; cbn [rbind].
    exists (concat gs); split; [reflexivity|].
    right; left; split; [discriminate|]; exists gs; split; [|reflexivity].
    apply rmap_ret in Hgs.
    clear E; induction Hgs as [|y g t gs' Hy _ IH]; constructor; [|exact IH].
    unfold dict_item in Hy; destruct (dict_get d [y]); [congruence|discriminate].
  - destruct (Nat.eqb_spec (List.length (x :: text)) 1) as [H1|H1].
    + eexists; split; [reflexivity|]; right; right; left; now split.
    + eexists; split; [reflexivity|]; right; right; right.
      split; [simpl in *; lia|reflexivity].
Qed.

Lemma script_injective (a b : pystr) : f a = f b -> a = b.
Proof.
  intros E.
  destruct (script_cases a) as (r & Ha & Ca).
  destruct (script_cases b) as (r' & Hb & Cb).
  assert (r' = r) by congruence; subst r'; clear E Ha Hb.
  assert (Hm : mark <> []) by (destruct mark; [discriminate mark_differs|discriminate]).
  destruct Ca as [[Ha Hr]|[(Ha & gs & Hgs & Hr)|[[Ha Hr]|[Ha Hr]]]];
    destruct Cb as [[Hb Hr']|[(Hb & hs & Hhs & Hr')|[[Hb Hr']|[Hb Hr']]]];
    subst.
  - reflexivity.
  - exfalso; destruct Hhs as [|y h b hs Hy _]; [congruence|].
    symmetry in Hr'; cbn [concat] in Hr'.
    apply app_eq_nil in Hr' as [-> _].
    apply dict_get_In in Hy.
    rewrite forallb_forall in heads_differ.
    pose proof (heads_differ _ Hy) as H; rewrite forallb_forall in H.
    specialize (H _ Hy); discriminate H.
  - exfalso; symmetry in Hr'; apply app_eq_nil in Hr' as [? _]; congruence.
  - exfalso; symmetry in Hr'; apply app_eq_nil in Hr' as [? _]; congruence.
  - exfalso; destruct Hgs as [|y h b hs Hy _]; [congruence|].
    cbn [concat] in Hr'.
    apply app_eq_nil in Hr' as [-> _].
    apply dict_get_In in Hy.
    rewrite forallb_forall in heads_differ.
    pose proof (heads_differ _ Hy) as H; rewrite forallb_forall in H.
    specialize (H _ Hy); discriminate H.
  - now apply (glyphs_injective a b gs hs).
  - exfalso; destruct Hgs as [|y h t gs' Hy _]; [congruence|].
    cbn [concat] in Hr'; now apply (glyph_not_mark _ _ _ _ Hy) in Hr'.
  - exfalso; destruct Hgs as [|y h t gs' Hy _]; [congruence|].
    cbn [concat] in Hr'; now apply (glyph_not_mark _ _ _ _ Hy) in Hr'.
  - exfalso; apply app_eq_nil in Hr' as [? _]; congruence.
  - exfalso; destruct Hhs as [|y h t hs' Hy _]; [congruence|].
    cbn [concat] in Hr'; symmetry in Hr'.
    now apply (glyph_not_mark _ _ _ _ Hy) in Hr'.
  - now apply app_inv_head in Hr'.
  - exfalso; apply app_inv_head in Hr'.
    apply (f_equal (@List.length _)) in Hr'.
    rewrite !length_app in Hr'; simpl in Hr'; lia.
  - exfalso; apply app_eq_nil in Hr' as [? _]; congruence.
  - exfalso; destruct Hhs as [|y h t hs' Hy _]; [simpl in Hb; congruence|].
    cbn [concat] in Hr'; symmetry in Hr'.
    now apply (glyph_not_mark _ _ _ _ Hy) in Hr'.
  - exfalso; apply app_inv_head in Hr'.
    apply (f_equal (@List.length _)) in Hr'.
    rewrite !length_app in Hr'; simpl in Hr'; lia.
  - apply app_inv_head in Hr'; apply app_inv_head in Hr'.
    now apply app_inv_tail in Hr'.
Qed.

End Script.

(** X2: [to_superscript] and [to_subscript] are injective: two texts with
    the same superscript, or the same subscript, are the same text. *)
Theorem script_converters_injective (a b : pystr) :
  (to_superscript a = to_superscript b -> a = b)
  /\ (to_subscript a = to_subscript b -> a = b).
Proof.
  split.
  - apply (script_injective superscript_ht (str "^") to_superscript);
      [intros text; reflexivity| |]; vm_compute; reflexivity.
  - apply (script_injective subscript_ht (str "_") to_subscript);
      [intros text; reflexivity| |]; vm_compute; reflexivity.
Qed.

Lemma script_converters_injective_witness :
  to_superscript (str "12") <> to_superscript (str "21")
  /\ to_subscript (str "a") <> to_subscript (str "(a)").
Proof.
  split; intros H.
  - apply (script_converters_injective (str "12") (str "21")) in H.
    discriminate H.
  - apply (script_converters_injective (str "a") (str "(a)")) in H.
    discriminate H.
Defined.

Lemma in_range_enum (lo hi c : char) :
  in_range lo hi c = true ->
  In c (map N.of_nat (List.seq (N.to_nat lo) (S (N.to_nat hi - N.to_nat lo)))).
Proof.
  unfold in_range; intros H; apply andb_true_iff in H as [H1 H2].
  apply N.leb_le in H1, H2.
  rewrite <- (N2Nat.id c); apply in_map, in_seq; lia.
Qed.

Lemma subscript_digit (c : char) :
  ascii_digit c = true -> to_subscript [c] = Ret [(c + 0x2050)%N].
Proof.
  intros H; apply in_range_enum in H.
  vm_compute in H.
  repeat (destruct H as [<-|H]; [vm_compute; reflexivity|]).
  destruct H.
Qed.

(** X3: on a text whose digits are all ASCII digits, [to_chem] replaces
    each digit by the subscript digit, 0x2050 code points further, and
    leaves every other character as it is. *)
Theorem to_chem_digits (U : Unicode) (text : pystr) :
  (forall c, In c text -> is_digit U c = true -> is_ascii c = true) ->
  to_chem U text
  = Ret (map (fun c => if ascii_digit c then (c + 0x2050)%N else c) text).
Proof.
  intros H; unfold to_chem.
  assert (E : rmap (fun x => if is_digit U x then to_subscript [x] else Ret [x])
                text
              = Ret (map (fun c => [if ascii_digit c then (c + 0x2050)%N else c])
                       text)).
  { induction text as [|c text IH]; [reflexivity|].
    cbn [rmap map]; rewrite IH by (intros; apply H; [now right|assumption]).
    assert (Hc : is_digit U c = ascii_digit c).
    { unfold is_digit; destruct (is_ascii c) eqn:Ea; [reflexivity|].
      destruct (ext_digit U c) eqn:Ed.
      - assert (Hd : is_digit U c = true) by (unfold is_digit; now rewrite Ea).
        apply H in Hd; [congruence|now left].
      - unfold ascii_digit, in_range, is_ascii in *.
        apply N.ltb_ge in Ea; symmetry; apply andb_false_iff; right.
        apply N.leb_gt; lia. }
    rewrite Hc; destruct (ascii_digit c) eqn:Ed;
      [rewrite (subscript_digit c Ed)|]; reflexivity. }
  rewrite E; cbn [rbind]; f_equal.
  clear; induction text as [|c text IH]; [reflexivity|].
  cbn [map concat app]; now rewrite IH.
Qed.

Lemma to_chem_digits_witness :
  to_chem latin1 (str "C6H12O6")
  = Ret (str "C" ++ [0x2086%N] ++ str "H" ++ [0x2081%N; 0x2082%N] ++ str "O"
         ++ [0x2086%N]).
Proof.
  apply (to_chem_digits latin1 (str "C6H12O6")).
  intros c Hc _; vm_compute in Hc.
  repeat (destruct Hc as [<-|Hc]; [reflexivity|]); destruct Hc.
Defined.

(** The font functions map character by character. *)
Section Font.

Variable d : dict.

Let fn (text : pystr) : pystr :=
  concat (map (fun x => dict_get_default d [x] [x]) text).

Hypothesis single_glyphs :
  forallb (fun kv => match fst kv with
                     | [x] => match snd kv with
                              | [g] => negb (N.eqb g x)
                              | _ => false
                              end
                     | _ => true
                     end) d = true.

Lemma font_char (c : char) :
  (In c (keys1 d) /\ exists g, dict_get_default d [c] [c] = [g] /\ g <> c)
  \/ (~ In c (keys1 d) /\ dict_get_default d [c] [c] = [c]).
Proof.
  unfold dict_get_default; destruct (dict_get d [c]) as [v|] eqn:E.
  - left; split; [now apply dict_get_keys1 in E|].
    apply dict_get_In in E.
    rewrite forallb_forall in single_glyphs.
    specialize (single_glyphs _ E); cbn [fst snd] in single_glyphs.
    destruct v as [|g [|? ?]]; try discriminate.
    exists g; split; [reflexivity|].
    intros ->; now rewrite N.eqb_refl in single_glyphs.
  - right; split; [|reflexivity].
    intros H; unfold keys1 in H; apply in_flat_map in H as ([k v] & Hin & Hk).
    cbn [fst] in Hk; destruct k as [|x [|? ?]]; try contradiction.
    destruct Hk as [->|[]].
    clear single_glyphs; induction d as [|[k' v'] d' IH]; [contradiction|].
    cbn [dict_get] in E; destruct (dict_get d' [c]); [discriminate|].
    destruct Hin as [[= -> ->]|Hin]; [now rewrite streq_refl in E|].
    now apply IH.
Qed.

Lemma font_length (text : pystr) : List.length (fn text) = List.length text.
Proof.
  unfold fn; induction text as [|c text IH]; [reflexivity|].
  cbn [map concat]; rewrite length_app, IH.
  destruct (font_char c) as [(_ & g & -> & _)|[_ ->]]; reflexivity.
Qed.

Lemma font_unchanged (c : char) : fn [c] = [c] <-> ~ In c (keys1 d).
Proof.
  unfold fn; cbn [map concat]; rewrite app_nil_r.
  destruct (font_char c) as [(Hin & g & -> & Hg)|[Hn ->]].
  - split; [intros [= ->]; contradiction|contradiction].
  - split; [intros _; exact Hn|reflexivity].
Qed.

End Font.

Lemma keys1_class (p : char -> bool) (ks enum : list char) :
  forallb p ks = true ->
  (forall c, p c = true -> In c enum) ->
  forallb (fun x => existsb (N.eqb x) ks) enum = true ->
  forall c, In c ks <-> p c = true.
Proof.
  intros H1 H2 H3 c; split.
  - intros Hin; rewrite forallb_forall in H1; now apply H1.
  - intros Hp; apply H2 in Hp.
    rewrite forallb_forall in H3; apply H3 in Hp.
    apply existsb_exists in Hp as (x & Hx & E); apply N.eqb_eq in E.
    now subst.
Qed.

Lemma ascii_letter_enum (c : char) :
  ascii_letter c = true ->
  In c (map N.of_nat (List.seq 65 26 ++ List.seq 97 26)).
Proof.
  unfold ascii_letter, ascii_upper, ascii_lower; intros H.
  apply orb_true_iff in H as [H|H]; apply in_range_enum in H;
    rewrite map_app; apply in_or_app; [left|right]; exact H.
Qed.

(** The capitals that have a Fraktur glyph in the table: all but I and R. *)
Lemma fraktur_enum (c : char) :
  ascii_upper c && negb (N.eqb c 0x49%N || N.eqb c 0x52%N) = true ->
  In c (map N.of_nat (List.seq 65 26)).
Proof.
  intros H; apply andb_true_iff in H as [H _]; now apply in_range_enum in H.
Qed.

(** X4: the font functions keep the length of the text, and change a
    character exactly when it is an ASCII letter ([mathcal_fn],
    [mathbb_fn]) or a capital other than I and R ([mathfrak_fn]). *)
Theorem font_functions_charwise (text : pystr) (c : char) :
  List.length (mathcal_fn text) = List.length text
  /\ List.length (mathfrak_fn text) = List.length text
  /\ List.length (mathbb_fn text) = List.length text
  /\ (mathcal_fn [c] = [c] <-> ascii_letter c = false)
  /\ (mathbb_fn [c] = [c] <-> ascii_letter c = false)
  /\ (mathfrak_fn [c] = [c]
      <-> ascii_upper c && negb (N.eqb c 0x49%N || N.eqb c 0x52%N) = false).
Proof.
  assert (Hcal : forall x, In x (keys1 mathcal_map) <-> ascii_letter x = true).
  { apply (keys1_class _ _ (map N.of_nat (List.seq 65 26 ++ List.seq 97 26)));
      [vm_compute; reflexivity|apply ascii_letter_enum|vm_compute; reflexivity]. }
  assert (Hbb : forall x, In x (keys1 mathbb_map) <-> ascii_letter x = true).
  { apply (keys1_class _ _ (map N.of_nat (List.seq 65 26 ++ List.seq 97 26)));
      [vm_compute; reflexivity|apply ascii_letter_enum|vm_compute; reflexivity]. }
  assert (Hfrak : forall x,
             In x (keys1 mathfrak_map)
             <-> ascii_upper x && negb (N.eqb x 0x49%N || N.eqb x 0x52%N)
                 = true).
  { intros x; split.
    - revert x; apply Forall_forall; vm_compute; repeat constructor.
    - intros H; pose proof (fraktur_enum x H) as Hin.
      vm_compute in Hin.
      repeat (destruct Hin as [<-|Hin];
              [first [discriminate H | vm_compute; tauto]|]).
      destruct Hin. }
  repeat split.
  - apply font_length; vm_compute; reflexivity.
  - apply font_length; vm_compute; reflexivity.
  - apply font_length; vm_compute; reflexivity.
  - intros H; apply (font_unchanged mathcal_map) in H;
      [|vm_compute; reflexivity].
    rewrite Hcal in H; now destruct (ascii_letter c).
  - intros H; apply (font_unchanged mathcal_map); [vm_compute; reflexivity|].
    rewrite Hcal; congruence.
  - intros H; apply (font_unchanged mathbb_map) in H;
      [|vm_compute; reflexivity].
    rewrite Hbb in H; now destruct (ascii_letter c).
  - intros H; apply (font_unchanged mathbb_map); [vm_compute; reflexivity|].
    rewrite Hbb; congruence.
  - intros H; apply (font_unchanged mathfrak_map) in H;
      [|vm_compute; reflexivity].
    rewrite Hfrak in H; now destruct (ascii_upper c && _).
  - intros H; apply (font_unchanged mathfrak_map); [vm_compute; reflexivity|].
    rewrite Hfrak; congruence.
Qed.

(** X5: the entries of [mathbb_map] under the names [pi], [gamma],
    [Gamma], [Pi] and [Sigma] are never used: [mathbb_fn] looks up single
    characters, and yields none of the five glyphs U+213C to U+2140 that
    the text does not hold already. *)
Theorem mathbb_fn_named_glyphs (text : pystr) (g : char) :
  In g (mathbb_fn text) -> in_range 0x213c%N 0x2140%N g = true -> In g text.
Proof.
  unfold mathbb_fn; intros Hin Hg.
  apply in_concat in Hin as (v & Hv & Hgv).
  apply in_map_iff in Hv as (c & <- & Hc).
  unfold dict_get_default in Hgv.
  destruct (dict_get mathbb_map [c]) as [v|] eqn:E.
  - exfalso; apply dict_get_In in E.
    assert (H : forallb (fun kv =>
                  match fst kv with
                  | [_] => forallb (fun x => negb (in_range 0x213c%N 0x2140%N x))
                             (snd kv)
                  | _ => true
                  end) mathbb_map = true) by (vm_compute; reflexivity).
    rewrite forallb_forall in H; specialize (H _ E); cbn [fst snd] in H.
    rewrite forallb_forall in H; specialize (H _ Hgv).
    now rewrite Hg in H.
  - destruct Hgv as [<-|[]]; exact Hc.
Qed.

Lemma mathbb_fn_named_glyphs_witness :
  In 0x213c%N (str "p" ++ [0x213c%N])
  /\ dict_get mathbb_map (str "pi") = Some [0x213c%N]
  /\ ~ In 0x213c%N (mathbb_fn (str "pi")).
Proof.
  split; [|split; [reflexivity|]].
  - apply (mathbb_fn_named_glyphs (str "p" ++ [0x213c%N]) 0x213c%N);
      [vm_compute; right; left; reflexivity|reflexivity].
  - intros H.
    pose proof (mathbb_fn_named_glyphs (str "pi") 0x213c%N H eq_refl) as Hin.
    vm_compute in Hin; destruct Hin as [Hin|[Hin|[]]]; discriminate Hin.
Defined.

(** ** The placeholders of the math expander *)

Lemma rmap_map {A B C} (g : A -> B) (f : B -> res C) (xs : list A) :
  rmap f (map g xs) = rmap (fun x => f (g x)) xs.
Proof.
  induction xs as [|x xs IH]; [reflexivity|].
  cbn [map rmap]; now rewrite IH.
Qed.

(** One pass of [expand]: the entries of the placeholders are looked up from
    left to right, and put in their places. *)
Lemma expand_pass_eq (text : pystr) (e : env) :
  expand_pass text e
  = match rmap (fun c => match nth_error (magic_vec e)
                                 (N.to_nat (c - MAGIC_FIRST)) with
                         | Some t => Ret t
                         | None => Raise IndexError
                         end) (filter is_magic text) with
    | Ret reps => Ret (subst_class is_magic text reps, e)
    | Raise x => Raise x
    | Timeout => Timeout
    end.
Proof.
  unfold expand_pass, bind, get_vec, lift, re_sub_r, magic_re.
  destruct (finditer_class is_magic text) as [Hg Hs].
  assert (E : rmap (fun m => match nth_error (magic_vec e)
                                     (N.to_nat (ord (group0 m) - MAGIC_FIRST)) with
                             | Some t => Ret t
                             | None => Raise IndexError
                             end) (finditer (Cls is_magic) text)
              = rmap (fun c => match nth_error (magic_vec e)
                                       (N.to_nat (c - MAGIC_FIRST)) with
                               | Some t => Ret t
                               | None => Raise IndexError
                               end) (filter is_magic text)).
  { rewrite <- (rmap_map group0
                  (fun g => match nth_error (magic_vec e)
                                    (N.to_nat (ord g - MAGIC_FIRST)) with
                            | Some t => Ret t
                            | None => Raise IndexError
                            end)).
    rewrite Hg, rmap_map; reflexivity. }
  rewrite E.
  match goal with
  | |- context [rmap ?f (filter is_magic text)] =>
      destruct (rmap f (filter is_magic text)) as [reps| |]
  end; cbn [rbind]; [|reflexivity|reflexivity].
  now rewrite Hs.
Qed.

Lemma resolve_subst (vec : list pystr) (text : pystr) :
  subst_class is_magic text
    (map (fun c => nth (N.to_nat (c - MAGIC_FIRST)) vec []) (filter is_magic text))
  = resolve vec text.
Proof.
  induction text as [|c text IH]; [reflexivity|].
  cbn [subst_class filter resolve flat_map]; destruct (is_magic c).
  - cbn [map]; f_equal; exact IH.
  - cbn [app]; f_equal; exact IH.
Qed.

Lemma expand_pass_resolve (text : pystr) (e : env) :
  bounded (List.length (magic_vec e)) text ->
  expand_pass text e = Ret (resolve (magic_vec e) text, e).
Proof.
  intros Hb; rewrite expand_pass_eq.
  assert (E : rmap (fun c => match nth_error (magic_vec e)
                                     (N.to_nat (c - MAGIC_FIRST)) with
                             | Some t => Ret t
                             | None => Raise IndexError
                             end) (filter is_magic text)
              = Ret (map (fun c => nth (N.to_nat (c - MAGIC_FIRST))
                                     (magic_vec e) [])
                       (filter is_magic text))).
  { assert (H : forall c, In c (filter is_magic text) ->
                          N.to_nat (c - MAGIC_FIRST) < List.length (magic_vec e)).
    { intros c Hc; apply filter_In in Hc as [Hc Hm]; now apply Hb. }
    induction (filter is_magic text) as [|c l IH]; [reflexivity|].
    cbn [rmap map]; rewrite IH by (intros; apply H; now right).
    specialize (H c (or_introl eq_refl)).
    destruct (nth_error (magic_vec e) _) as [t|] eqn:En.
    - cbn [rbind]; now rewrite (nth_error_nth _ _ _ En).
    - apply nth_error_None in En; lia. }
  now rewrite E, resolve_subst.
Qed.

Lemma resolve_free (vec : list pystr) (text : pystr) :
  Forall magic_free vec -> bounded (List.length vec) text ->
  magic_free (resolve vec text).
Proof.
  intros Hv Hb c Hc; unfold resolve in Hc.
  apply in_flat_map in Hc as (x & Hx & Hc).
  destruct (is_magic x) eqn:Ex.
  - rewrite Forall_forall in Hv; apply (Hv (nth (N.to_nat (x - MAGIC_FIRST)) vec []));
      [|exact Hc].
    apply nth_In; now apply Hb.
  - destruct Hc as [<-|[]]; exact Ex.
Qed.

(** X6: when the entries of the placeholder vector hold no placeholder and
    the placeholders of the text index the vector, [expand] returns the text
    with each placeholder replaced by its entry, stripped; two passes are
    enough, and the vector is left as it was. *)
Theorem expand_resolves (fuel : nat) (text : pystr) (e : env) :
  vec_ok e -> bounded (List.length (magic_vec e)) text ->
  expand (S (S fuel)) text e = Ret (strip (resolve (magic_vec e) text), e)
  /\ magic_free (strip (resolve (magic_vec e) text)).
Proof.
  intros Hv Hb.
  pose proof (resolve_free _ _ Hv Hb) as Hf.
  split; [|now apply magic_free_strip].
  unfold expand, bind; rewrite until_fixed_S, (expand_pass_resolve _ _ Hb).
  destruct (streq _ text); [reflexivity|].
  rewrite until_fixed_S, (expand_pass_free _ _ Hf), streq_refl; reflexivity.
Qed.

Lemma expand_resolves_witness :
  expand 2 (str " x^" ++ [MAGIC_FIRST])
    {| magic_vec := [str "2y"]; printed := [] |}
  = Ret (str "x^2y", {| magic_vec := [str "2y"]; printed := [] |}).
Proof.
  apply (expand_resolves 0 (str " x^" ++ [MAGIC_FIRST])
           {| magic_vec := [str "2y"]; printed := [] |}).
  - repeat constructor; apply magic_free_glyph; reflexivity.
  - intros c Hc Hm; vm_compute in Hc.
    repeat (destruct Hc as [<-|Hc]; [try discriminate Hm; vm_compute; lia|]).
    destruct Hc.
Defined.

Lemma rmap_raise {A B} (f : A -> res B) (ex : exn) (xs : list A) :
  (forall x, (exists y, f x = Ret y) \/ f x = Raise ex) ->
  (exists x, In x xs /\ f x = Raise ex) ->
  rmap f xs = Raise ex.
Proof.
  intros Hf; induction xs as [|x xs IH]; intros (y & Hin & Hy); [contradiction|].
  cbn [rmap]; destruct (Hf x) as [[z Hz]|Hx]; [|now rewrite Hx].
  rewrite Hz; cbn [rbind].
  destruct Hin as [->|Hin]; [congruence|].
  rewrite IH by eauto; reflexivity.
Qed.

(** X7: a placeholder of the text that indexes no entry of the vector makes
    [expand] raise IndexError, at its first pass. *)
Theorem expand_out_of_range (fuel : nat) (text : pystr) (e : env) (c : char) :
  In c text -> is_magic c = true ->
  List.length (magic_vec e) <= N.to_nat (c - MAGIC_FIRST) ->
  expand (S fuel) text e = Raise IndexError.
Proof.
  intros Hc Hm Hlen.
  unfold expand, bind; rewrite until_fixed_S, expand_pass_eq.
  rewrite (rmap_raise _ IndexError); [reflexivity| |].
  - intros x; destruct (nth_error _ _); eauto.
  - exists c; split; [now apply filter_In|].
    destruct (nth_error _ _) eqn:E; [|reflexivity].
    assert (Hs : nth_error (magic_vec e) (N.to_nat (c - MAGIC_FIRST)) <> None)
      by congruence.
    apply nth_error_Some in Hs; lia.
Qed.

Lemma expand_out_of_range_witness :
  expand 1 (str "x" ++ [(MAGIC_FIRST + 1)%N])
    {| magic_vec := [str "2"]; printed := [] |}
  = Raise IndexError.
Proof.
  apply (expand_out_of_range 0 _ _ (MAGIC_FIRST + 1)%N);
    [right; left; reflexivity|reflexivity|vm_compute; lia].
Defined.

(** ** The spacing heuristic of [expand_group] *)

Lemma bind_ext {A B} (c c' : M A) (f f' : A -> M B) (e : env) :
  c e = c' e -> (forall a e1, f a e1 = f' a e1) -> bind c f e = bind c' f' e.
Proof.
  intros Hc Hf; unfold bind; rewrite Hc.
  destruct (c' e) as [[a e1]| |]; [apply Hf|reflexivity|reflexivity].
Qed.

(** A character that is no placeholder stays where it is through the passes
    of [expand]. *)
Lemma expand_pass_cons (c : char) (text : pystr) (e : env) :
  is_magic c = false ->
  expand_pass (c :: text) e
  = match expand_pass text e with
    | Ret (t, e') => Ret (c :: t, e')
    | Raise x => Raise x
    | Timeout => Timeout
    end.
Proof.
  intros Hc; rewrite !expand_pass_eq; cbn [filter]; rewrite Hc.
  match goal with
  | |- context [rmap ?f (filter is_magic text)] =>
      destruct (rmap f (filter is_magic text)) as [reps| |]
  end; [|reflexivity|reflexivity].
  cbn [subst_class]; now rewrite Hc.
Qed.

Lemma until_fixed_cons (c : char) (fuel : nat) :
  is_magic c = false ->
  forall text e,
    until_fixed fuel expand_pass (c :: text) e
    = match until_fixed fuel expand_pass text e with
      | Ret (t, e') => Ret (c :: t, e')
      | Raise x => Raise x
      | Timeout => Timeout
      end.
Proof.
  intros Hc; induction fuel as [|fuel IH]; intros text e; [reflexivity|].
  rewrite !until_fixed_S, (expand_pass_cons c text e Hc).
  destruct (expand_pass text e) as [[t e']| |]; [|reflexivity|reflexivity].
  cbn [streq]; rewrite N.eqb_refl; cbn [andb].
  destruct (streq t text); [reflexivity|apply IH].
Qed.

(** [expand] strips: a leading white-space character is lost. *)
Lemma expand_space (c : char) (fuel : nat) (text : pystr) (e : env) :
  is_space c = true -> expand fuel (c :: text) e = expand fuel text e.
Proof.
  intros Hc; unfold expand, bind.
  rewrite (until_fixed_cons c fuel (space_not_magic c Hc)).
  destruct (until_fixed fuel expand_pass text e) as [[t e']| |];
    [|reflexivity|reflexivity].
  unfold ret, strip; cbn [lstrip]; now rewrite Hc.
Qed.

Lemma finish_group_parts (U : Unicode) (fuel : nat) (parts : list pystr)
  (fn : style) (v : pystr) (e : env) :
  Forall (fun p => p <> []) parts ->
  finish_group U fuel parts fn v e = finish_group U fuel [] fn v e.
Proof.
  intros Hp; unfold finish_group.
  apply bind_ext; [reflexivity|]; intros v1 e1.
  destruct (needs_space_total U parts v1 Hp) as [b Hb].
  unfold bind at 1 2, lift; rewrite Hb.
  replace (needs_space U [] v1) with (Ret (A := bool) false) by reflexivity.
  destruct b; [|reflexivity].
  apply (expand_space 0x20%N); reflexivity.
Qed.

Lemma expand_group_parts (U : Unicode) (parts : list pystr) (fuel : nat) :
  Forall (fun p => p <> []) parts ->
  forall v e, expand_group U fuel parts v e = expand_group U fuel [] v e.
Proof.
  intros Hp; induction fuel as [|fuel IH]; intros v e; [reflexivity|].
  cbn [expand_group].
  repeat match goal with
         | |- context [if ?c then _ else _] => destruct c
         end;
    try (apply finish_group_parts; exact Hp);
    try reflexivity.
  - apply bind_ext; [reflexivity|]; intros s e1.
    apply finish_group_parts; exact Hp.
  - apply bind_ext; [reflexivity|]; intros [] e1.
    destruct (re_match frac_re v) as [m|]; [|reflexivity].
    apply bind_ext; [apply IH|]; intros a e2.
    apply bind_ext; [apply IH|]; intros b e3.
    apply finish_group_parts; exact Hp.
Qed.

(** X8: the spacing heuristic of [expand_group] has no effect.  The space it
    puts before the result is lost in the [strip] of the [expand] that
    follows: whatever the parts resolved so far, the token resolves as it
    does when there is none. *)
Theorem expand_group_ignores_parts (U : Unicode) (fuel : nat)
  (parts : list pystr) (v : pystr) (e : env) :
  Forall (fun p => p <> []) parts ->
  expand_group U fuel parts v e = expand_group U fuel [] v e.
Proof. intros Hp; now apply expand_group_parts. Qed.

Lemma expand_group_ignores_parts_witness :
  needs_space latin1 [str "ab"] (str "cd") = Ret true
  /\ expand_group latin1 3 [str "ab"] (str "cd")
       {| magic_vec := []; printed := [] |}
     = Ret (str "cd", {| magic_vec := []; printed := [] |}).
Proof.
  split; [reflexivity|].
  rewrite (expand_group_ignores_parts latin1 3 [str "ab"] (str "cd"));
    [vm_compute; reflexivity|].
  repeat constructor; discriminate.
Defined.

Lemma bind_assoc {A B C} (c : M A) (f : A -> M B) (g : B -> M C) (e : env) :
  bind (bind c f) g e = bind c (fun a => bind (f a) g) e.
Proof.
  unfold bind; destruct (c e) as [[a e1]| |]; reflexivity.
Qed.

Lemma for_tokens_concat (U : Unicode) (fuel : nat) (ms : list mobj) :
  forall parts e,
    Forall (fun p => p <> []) parts ->
    bind (for_tokens U fuel ms parts) (fun ps => ret (concat ps)) e
    = bind (mmap (fun m => expand_group U fuel [] (group0 m)) ms)
        (fun vs => ret (concat parts ++ concat vs)) e.
Proof.
  induction ms as [|m ms IH]; intros parts e Hp.
  - cbn [for_tokens mmap]; unfold bind, ret; cbn [concat].
    now rewrite app_nil_r.
  - cbn [for_tokens mmap]; rewrite !bind_assoc.
    apply bind_ext; [now apply expand_group_parts|]; intros v e1.
    rewrite bind_assoc, IH.
    + apply bind_ext; [reflexivity|]; intros vs e2.
      unfold bind, ret; cbn [concat].
      destruct v as [|c v]; cbn [nonempty]; [reflexivity|].
      rewrite concat_app; cbn [concat]; now rewrite app_nil_r, <- app_assoc.
    + destruct v as [|c v]; cbn [nonempty]; [exact Hp|].
      apply Forall_app; split; [exact Hp|]; repeat constructor; discriminate.
Qed.

(** X9: the tokens of [recurse] are resolved independently of each other:
    [recurse] returns the concatenation of what [expand_group] makes of
    each token by itself, the list [parts] playing no part. *)
Theorem recurse_tokens_independent (U : Unicode) (f : nat) (text : pystr)
  (e : env) :
  recurse U (S f) text e
  = (text1 <- until_fixed f
                (fun text =>
                   math_magic f text (str "{") (str "}") (recurse U f))
                text ;;
     print (Print_before_iter text1) ;;;
     vs <- mmap (fun m => expand_group U f [] (group0 m))
             (finditer (token_re U) text1) ;;
     ret (concat vs)) e.
Proof.
  cbn [recurse].
  apply bind_ext; [reflexivity|]; intros text1 e1.
  apply bind_ext; [reflexivity|]; intros [] e2.
  now rewrite for_tokens_concat by constructor.
Qed.

(** X10: what [expand_group] returns has no white space at either end,
    unless it is the token of an unparseable fraction, returned as it is:
    the spaces put around the name of an unknown command, like the space of
    the spacing heuristic, never show. *)
Theorem expand_group_result_stripped (U : Unicode) (fuel : nat)
  (parts : list pystr) (v t : pystr) (e e' : env) :
  expand_group U fuel parts v e = Ret (t, e') ->
  stripped t
  \/ (t = v /\ matches (frac_test_re U) v = true
      /\ re_match frac_re v = None).
Proof.
  intros H; destruct fuel as [|fuel]; [discriminate|].
  cbn [expand_group] in H.
  repeat match type of H with
         | (if ?c then _ else _) _ = _ =>
             destruct c eqn:?;
             [try (apply finish_group_stripped in H; left; exact H)|]
         end.
  - discriminate.
  - apply bind_ret in H as (s & e1 & _ & H).
    left; now apply finish_group_stripped in H.
  - apply bind_ret in H as ([] & e1 & _ & H).
    destruct (re_match frac_re v) as [m|] eqn:Em.
    + apply bind_ret in H as (a & e2 & _ & H).
      apply bind_ret in H as (b & e3 & _ & H).
      left; now apply finish_group_stripped in H.
    + apply bind_ret in H as ([] & e2 & _ & H).
      apply ret_ret in H as [-> _]; right; auto.
  - left; now apply finish_group_stripped in H.
Qed.

Lemma expand_group_result_stripped_witness :
  lookup_command latin1 (str "\foo") = str " foo "
  /\ (stripped (str "foo")
      \/ (str "foo" = str "\foo"
          /\ matches (frac_test_re latin1) (str "\foo") = true
          /\ re_match frac_re (str "\foo") = None)).
Proof.
  split; [vm_compute; reflexivity|].
  apply (expand_group_result_stripped latin1 3 [] (str "\foo") (str "foo")
           {| magic_vec := []; printed := [] |}
           {| magic_vec := []; printed := [] |}).
  vm_compute; reflexivity.
Defined.

(** X11: a token that begins with [\sqrt], not followed by a bracket,
    resolves to the root sign alone: what follows the command in the
    token, the placeholder of a braced argument for one, is dropped. *)
Theorem expand_group_sqrt (U : Unicode) (fuel : nat) (parts : list pystr)
  (v : pystr) (e : env) :
  matches (sqrt_re U) v = true -> matches sqrt_index_re v = false ->
  Forall (fun p => p <> []) parts ->
  expand_group U (S (S fuel)) parts v e = Ret (glyph_sqrt, e).
Proof.
  intros Hs Hi Hp; rewrite (expand_group_parts U parts _ Hp).
  destruct (matches_Lit_head (str "\sqrt") _ v Hs) as [t ->].
  cbn [expand_group].
  replace (matches (mathcal_re U) _) with false by reflexivity.
  replace (matches (mathfrak_re U) _) with false by reflexivity.
  replace (matches (mathbb_re U) _) with false by reflexivity.
  replace (matches (begin_end_re U) _) with false by reflexivity.
  replace (matches (text_re U) _) with false by reflexivity.
  rewrite Hi, Hs.
  unfold finish_group.
  replace (lookup_command U glyph_sqrt) with glyph_sqrt by reflexivity.
  unfold bind at 1 2, ret, lift.
  replace (needs_space U [] glyph_sqrt) with (Ret (A := bool) false)
    by reflexivity.
  rewrite expand_free by (apply magic_free_glyph; reflexivity).
  reflexivity.
Qed.

Lemma expand_group_sqrt_witness :
  expand_group latin1 2 [str "x"] (str "\sqrt" ++ [MAGIC_FIRST])
    {| magic_vec := [str "2"]; printed := [] |}
  = Ret (glyph_sqrt, {| magic_vec := [str "2"]; printed := [] |}).
Proof.
  apply (expand_group_sqrt latin1 0 [str "x"] (str "\sqrt" ++ [MAGIC_FIRST])
           {| magic_vec := [str "2"]; printed := [] |});
    [vm_compute; reflexivity|vm_compute; reflexivity|].
  repeat constructor; discriminate.
Defined.

(** ** The exceptions of [to_math] *)

Lemma ro_rbind (P : exn -> Prop) {A B} (r : res A) (f : A -> res B) :
  raises_only P r -> (forall a, r = Ret a -> raises_only P (f a)) ->
  raises_only P (rbind r f).
Proof.
  intros Hr Hf x; destruct r as [a| |]; cbn [rbind]; [| |discriminate].
  - now apply Hf.
  - intros [= <-]; now apply Hr.
Qed.

Lemma ro_bind (P : exn -> Prop) {A B} (c : M A) (f : A -> M B) (e : env) :
  raises_only P (c e) ->
  (forall a e1, c e = Ret (a, e1) -> raises_only P (f a e1)) ->
  raises_only P (bind c f e).
Proof.
  intros Hc Hf x; unfold bind.
  destruct (c e) as [[a e1]| |]; [| |discriminate].
  - now apply Hf.
  - intros [= <-]; now apply Hc.
Qed.

Lemma ro_ret (P : exn -> Prop) {A} (a : A) : raises_only P (Ret a).
Proof. intros x; discriminate. Qed.

Lemma ro_lift (P : exn -> Prop) {A} (r : res A) (e : env) :
  raises_only P r -> raises_only P (lift r e).
Proof.
  intros H x; unfold lift; destruct r; [discriminate| |discriminate].
  intros [= <-]; now apply H.
Qed.

Lemma ro_total (P : exn -> Prop) {A} (r : res A) :
  (exists a, r = Ret a) -> raises_only P r.
Proof. intros [a ->]; apply ro_ret. Qed.

Lemma ro_rmap (P : exn -> Prop) {A B} (f : A -> res B) (xs : list A) :
  (forall a, In a xs -> raises_only P (f a)) -> raises_only P (rmap f xs).
Proof.
  induction xs as [|a xs IH]; intros H; [apply ro_ret|].
  cbn [rmap]; apply ro_rbind; [apply H; now left|]; intros b _.
  apply ro_rbind; [apply IH; intros; apply H; now right|].
  intros; apply ro_ret.
Qed.

Lemma ro_mmap (P : exn -> Prop) {A B} (f : A -> M B) (xs : list A) :
  (forall a e, In a xs -> raises_only P (f a e)) ->
  forall e, raises_only P (mmap f xs e).
Proof.
  induction xs as [|a xs IH]; intros H e; [apply ro_ret|].
  cbn [mmap]; apply ro_bind; [apply H; now left|]; intros b e1 _.
  apply ro_bind; [apply IH; intros; apply H; now right|].
  intros; apply ro_ret.
Qed.

Lemma ro_until_fixed (P : exn -> Prop) (step : pystr -> M pystr) :
  (forall x e, raises_only P (step x e)) ->
  forall fuel x e, raises_only P (until_fixed fuel step x e).
Proof.
  intros Hs; induction fuel as [|fuel IH]; intros x e; [discriminate|].
  cbn [until_fixed]; apply ro_bind; [apply Hs|]; intros t e1 _.
  destruct (streq t x); [apply ro_ret|apply IH].
Qed.

Lemma ro_expand (fuel : nat) (text : pystr) (e : env) :
  raises_only index_or_value (expand fuel text e).
Proof.
  unfold expand; apply ro_bind; [|intros; apply ro_ret].
  apply ro_until_fixed; clear; intros x e.
  unfold expand_pass; apply ro_bind; [apply ro_ret|]; intros vec e1 _.
  apply ro_lift; unfold re_sub_r; apply ro_rbind; [|intros; apply ro_ret].
  apply ro_rmap; intros m _ ex.
  destruct (nth_error _ _); [discriminate|intros [= <-]; now left].
Qed.

Lemma ro_apply_style (P : exn -> Prop) (fn : style) (v : pystr) :
  raises_only P (apply_style fn v).
Proof.
  destruct fn; cbn [apply_style]; try apply ro_ret;
    apply ro_total, converter_total.
Qed.

Lemma ro_needs_space (U : Unicode) (parts : list pystr) (v : pystr) :
  raises_only index_or_value (needs_space U parts v).
Proof.
  assert (Hl : forall A (f : pystr -> res A),
             (forall l, raises_only index_or_value (f l)) ->
             raises_only index_or_value (rbind (last_part parts) f)).
  { intros A f Hf; apply ro_rbind; [|intros; apply Hf].
    unfold last_part; destruct (rev parts);
      [intros x [= <-]; now left|apply ro_ret]. }
  assert (Hc : forall p : char -> bool,
             raises_only index_or_value
               match parts with
               | [] => Ret false
               | _ =>
                   rbind (last_part parts) (fun l =>
                   rbind (last_of l) (fun c =>
                   if p c then
                     match v with
                     | [] => Ret false
                     | c0 :: _ => Ret (p c0)
                     end
                   else Ret false))
               end).
  { intros p; destruct parts as [|p0 ps]; [apply ro_ret|].
    apply Hl; intros l; apply ro_rbind.
    - unfold last_of; destruct (rev l);
        [intros x [= <-]; now left|apply ro_ret].
    - intros c _; destruct (p c); [destruct v|]; apply ro_ret. }
  unfold needs_space; apply ro_rbind; [apply Hc|]; intros a _.
  apply ro_rbind; [destruct a; [apply ro_ret|apply Hc]|]; intros ad _.
  destruct ad; [|apply ro_ret].
  apply Hl; intros; apply ro_ret.
Qed.

Lemma ro_finish_group (U : Unicode) (fuel : nat) (parts : list pystr)
  (fn : style) (v : pystr) (e : env) :
  raises_only index_or_value (finish_group U fuel parts fn v e).
Proof.
  unfold finish_group; apply ro_bind.
  - destruct fn; try apply ro_ret;
      (apply ro_bind; [apply ro_expand|]; intros; apply ro_lift,
         ro_apply_style).
  - intros v1 e1 _; apply ro_bind; [apply ro_lift, ro_needs_space|].
    intros; apply ro_expand.
Qed.

Lemma ro_expand_group (U : Unicode) (parts : list pystr) (fuel : nat) :
  forall v e,
    no_cube_index v ->
    raises_only index_or_value (expand_group U fuel parts v e).
Proof.
  induction fuel as [|fuel IH]; intros v e Hv; [discriminate|].
  cbn [expand_group].
  repeat match goal with
         | |- raises_only _ ((if ?c then _ else _) e) => destruct c eqn:?
         end;
    try apply ro_finish_group.
  - rewrite Hv in *; [discriminate|assumption].
  - apply ro_bind; [apply ro_lift, ro_total, converter_total|].
    intros; apply ro_finish_group.
  - apply ro_bind; [apply ro_ret|]; intros [] e1 _.
    destruct (re_match frac_re v) as [m|] eqn:Hm.
    + assert (Harg : forall k, k = 1 \/ k = 2 ->
                 no_cube_index (strip (group_or_empty m k))).
      { intros k Hk Hi; exfalso.
        assert (Ha : arg_like (strip (group_or_empty m k))).
        { apply (frac_arg_like U).
          destruct (frac_re_groups v m k Hm Hk); auto. }
        rewrite (arg_like_no_index _ Ha) in Hi; discriminate. }
      apply ro_bind; [apply IH, Harg; now left|]; intros a e2 _.
      apply ro_bind; [apply IH, Harg; now right|]; intros b e3 _.
      apply ro_finish_group.
    + apply ro_bind; [apply ro_ret|]; intros; apply ro_ret.
Qed.

Lemma ro_for_tokens (U : Unicode) (fuel : nat) (ms : list mobj) :
  Forall (fun m => no_cube_index (group0 m)) ms ->
  forall parts e,
    raises_only index_or_value (for_tokens U fuel ms parts e).
Proof.
  induction 1 as [|m ms Hm _ IH]; intros parts e; [apply ro_ret|].
  cbn [for_tokens]; apply ro_bind; [now apply ro_expand_group|].
  intros; apply IH.
Qed.

Lemma ro_recurse (U : Unicode) (fuel : nat) :
  forall text e, raises_only index_or_value (recurse U fuel text e).
Proof.
  induction fuel as [|fuel IH]; intros text e; [discriminate|].
  cbn [recurse]; apply ro_bind.
  - apply ro_until_fixed; intros x e1.
    unfold math_magic; apply ro_until_fixed; intros y e2.
    unfold re_sub_m; apply ro_bind; [|intros; apply ro_ret].
    apply ro_mmap; intros m e3 _.
    unfold math_magic_repl; apply ro_bind; [apply ro_ret|]; intros vec e4 _.
    apply ro_bind.
    + apply ro_lift; unfold chr; destruct (N.leb _ _);
        [apply ro_ret|intros ex [= <-]; now right].
    + intros magic e5 _; apply ro_bind; [apply IH|]; intros t e6 _.
      apply ro_bind; [apply ro_ret|]; intros; apply ro_ret.
  - intros text1 e1 _; apply ro_bind; [apply ro_ret|]; intros [] e2 _.
    apply ro_bind; [|intros; apply ro_ret].
    apply ro_for_tokens.
    destruct (finditer_spec (token_re U) text1) as [Hall _].
    eapply Forall_impl; [|exact Hall].
    intros m Hm Hi; apply (token_index U); [exact (mo_word Hm)|exact Hi].
Qed.

Lemma to_math_raises_only_aux (U : Unicode) (fuel : nat) (text : pystr)
  (x : exn) :
  to_math U fuel text = Raise x -> x = IndexError \/ x = ValueError.
Proof.
  revert x; change (raises_only index_or_value (to_math U fuel text)).
  unfold to_math, to_math_run; apply ro_rbind; [|intros; apply ro_ret].
  apply ro_bind; [apply ro_ret|]; intros [] e1 _.
  apply ro_bind; [apply ro_recurse|]; intros t e2 _.
  apply ro_bind; [apply ro_ret|]; intros; apply ro_ret.
Qed.

(** X12: [to_math] raises nothing but IndexError, on a placeholder that
    indexes no entry, and ValueError, when the code points for placeholders
    run out: in particular the tuple that the branch of the radical index 3
    binds is never reached, and no table lookup fails. *)
Theorem to_math_raises_only (U : Unicode) (fuel : nat) (text : pystr)
  (x : exn) :
  to_math U fuel text = Raise x -> x = IndexError \/ x = ValueError.
Proof. apply to_math_raises_only_aux. Qed.

Lemma to_math_raises_only_witness :
  to_math latin1 3 [MAGIC_FIRST] = Raise IndexError
  /\ (IndexError = IndexError \/ IndexError = ValueError).
Proof.
  assert (H : to_math latin1 3 [MAGIC_FIRST] = Raise IndexError)
    by (vm_compute; reflexivity).
  split; [exact H|].
  exact (to_math_raises_only latin1 3 [MAGIC_FIRST] IndexError H).
Defined.

Lemma ro_re_sub_r (P : exn -> Prop) (r : re) (repl : mobj -> res pystr)
  (text : pystr) :
  (forall m, raises_only P (repl m)) -> raises_only P (re_sub_r r repl text).
Proof.
  intros H; unfold re_sub_r; apply ro_rbind; [|intros; apply ro_ret].
  apply ro_rmap; intros; apply H.
Qed.

(** X13: [clean_value] raises nothing but what [to_math] raises on a math
    span: IndexError or ValueError.  No lookup in the tables of the script
    converters fails, at any depth of the nested calls. *)
Theorem clean_value_raises_only (U : Unicode) (Config : Type)
  (unescape nfc : pystr -> pystr) (fuel : nat) (config : Config)
  (title : pystr) (no_strip : bool) (x : exn) :
  clean_value U unescape nfc fuel config title no_strip = Raise x ->
  x = IndexError \/ x = ValueError.
Proof.
  revert title no_strip x.
  change (forall title no_strip,
            raises_only index_or_value
              (clean_value U unescape nfc fuel config title no_strip)).
  induction fuel as [|fuel IH]; intros title no_strip; [discriminate|].
  cbn [clean_value].
  assert (Hsc : forall (f : pystr -> res pystr) (m : mobj),
             (forall t, exists r, f t = Ret r) ->
             raises_only index_or_value
               (rbind (clean_value U unescape nfc fuel config
                         (group_or_empty m 1) false) f)).
  { intros f m Hf; apply ro_rbind; [apply IH|].
    intros; apply ro_total, Hf. }
  repeat (apply ro_rbind; [apply ro_re_sub_r; intros m|intros ? _]).
  - apply Hsc; intros; apply converter_total.
  - apply Hsc; intros; apply converter_total.
  - apply Hsc; intros; apply to_chem_total.
  - intros ex; apply to_math_raises_only_aux.
  - unfold repl_link_bars; destruct (matches file_re _);
      [apply ro_ret|apply IH].
  - unfold repl_link.
    match goal with |- raises_only _ (if ?c then _ else _) => destruct c end;
      [apply ro_ret|apply IH].
  - apply IH.
  - apply IH.
  - apply ro_ret.
Qed.

Lemma clean_value_raises_only_witness :
  clean_value latin1 unescape_no_amp nfc_acute 10 tt
    (str "<math>" ++ [MAGIC_FIRST] ++ str "</math>") false
  = Raise IndexError
  /\ (IndexError = IndexError \/ IndexError = ValueError).
Proof.
  assert (H : clean_value latin1 unescape_no_amp nfc_acute 10 tt
                (str "<math>" ++ [MAGIC_FIRST] ++ str "</math>") false
              = Raise IndexError) by (vm_compute; reflexivity).
  split; [exact H|].
  exact (clean_value_raises_only latin1 unit unescape_no_amp nfc_acute 10 tt
           _ false IndexError H).
Defined.

(** ** The placeholder vector of [to_math] *)

Lemma until_fixed_keeps (I : pystr -> env -> Prop) (step : pystr -> M pystr) :
  (forall x e t e', I x e -> step x e = Ret (t, e') -> I t e') ->
  forall fuel x e t e',
    I x e -> until_fixed fuel step x e = Ret (t, e') -> I t e'.
Proof.
  intros Hs; induction fuel as [|fuel IH]; intros x e t e' HI H;
    [discriminate|].
  rewrite until_fixed_S in H.
  destruct (step x e) as [[t1 e1]| |] eqn:E; try discriminate.
  apply Hs in E; [|exact HI].
  destruct (streq t1 x); [injection H as <- <-; exact E|].
  now apply (IH t1 e1).
Qed.

Lemma placeholder_no_brace (n : N) (magic : pystr) :
  chr (MAGIC_FIRST + n) = Ret magic -> count lbrace magic = 0.
Proof.
  unfold chr; destruct (N.leb _ _); [|discriminate].
  intros H; assert (E : magic = [(MAGIC_FIRST + n)%N]) by congruence.
  subst magic; clear H; unfold count; cbn [filter].
  replace (N.eqb lbrace (MAGIC_FIRST + n)) with false; [reflexivity|].
  symmetry; apply N.eqb_neq; unfold lbrace, MAGIC_FIRST; lia.
Qed.

Section Alloc.

Variables (U : Unicode) (f : nat).

Hypothesis recurse_alloc : forall text e r e',
  vec_ok e -> recurse U f text e = Ret (r, e') ->
  List.length (magic_vec e')
  <= List.length (magic_vec e) + count lbrace text.

Lemma repl_alloc (ms : list mobj) :
  forall e reps e',
    vec_ok e ->
    Forall (fun m => count lbrace (group_or_empty m 1) = 0) ms ->
    mmap (math_magic_repl (recurse U f)) ms e = Ret (reps, e') ->
    vec_ok e'
    /\ List.length (magic_vec e') <= List.length (magic_vec e) + List.length ms
    /\ List.length reps = List.length ms
    /\ Forall (fun rep => count lbrace rep = 0) reps.
Proof.
  induction ms as [|m ms IH]; intros e reps e' Hok Hms H.
  - injection H as <- <-; repeat split; auto; simpl; lia.
  - rewrite mmap_cons, math_magic_repl_eq in H.
    destruct (chr _) as [magic| |] eqn:Hchr; try discriminate.
    destruct (recurse U f (group_or_empty m 1) e) as [[t e1]| |] eqn:Hr;
      try discriminate.
    pose proof (recurse_alloc _ _ _ _ Hok Hr) as Hlen.
    rewrite (Forall_inv Hms) in Hlen.
    destruct (recurse_sound U f _ _ _ _ Hok Hr) as [Hok1 Hfree].
    set (e2 := {| magic_vec := magic_vec e1 ++ [t]; printed := printed e1 |})
      in *.
    assert (Hok2 : vec_ok e2).
    { unfold vec_ok; simpl; apply Forall_app; split;
        [exact Hok1|now constructor]. }
    destruct (mmap _ ms e2) as [[reps' e3]| |] eqn:Hm; try discriminate.
    injection H as <- <-.
    destruct (IH e2 reps' e3 Hok2 (Forall_inv_tail Hms) Hm)
      as (Hok3 & Hlen3 & Hl & Hall).
    repeat split; [exact Hok3| |simpl; now rewrite Hl|].
    + unfold e2 in Hlen3; cbn [magic_vec] in Hlen3.
      rewrite length_app in Hlen3; simpl in *; lia.
    + constructor; [|exact Hall].
      now apply (placeholder_no_brace _ _ Hchr).
Qed.

Lemma pass_alloc (total : nat) (x t : pystr) (e e' : env) :
  within total x e ->
  re_sub_m brace_re (math_magic_repl (recurse U f)) x e = Ret (t, e') ->
  within total t e'.
Proof.
  intros [Hok Htotal] H.
  destruct (finditer_spec brace_re x) as [Hall Hch].
  unfold re_sub_m in H; apply bind_ret in H as (reps & e1 & Hreps & H).
  apply ret_ret in H as [-> ->].
  set (ms := finditer brace_re x) in *.
  assert (Hbrace : Forall (fun m => count lbrace (group0 m) = 1
                                    /\ count lbrace (group_or_empty m 1) = 0)
                     ms).
  { eapply Forall_impl; [|exact Hall]; intros m Hm; now apply (brace_match x). }
  assert (Hwf : Forall (fun m => mo_string m = x
                                 /\ mo_end m <= List.length x) ms).
  { eapply Forall_impl; [|exact Hall]; intros m Hm; split;
      [exact (mo_subject Hm)|exact (mo_bounded Hm)]. }
  destruct (repl_alloc ms e reps e1 Hok) as (Hok1 & Hlen1 & Hl & Hzero);
    [|exact Hreps|].
  { eapply Forall_impl; [|exact Hbrace]; intros m [_ H]; exact H. }
  pose proof (splice_count lbrace x ms 0 reps Hch Hwf Hl) as Hc.
  rewrite (list_sum_const _ (fun m => count lbrace (group0 m)) 1) in Hc
    by (eapply Forall_impl; [|exact Hbrace]; intros m [H _]; exact H).
  rewrite (list_sum_const _ (count lbrace) 0) in Hc by exact Hzero.
  cbn [skipn] in Hc.
  split; [exact Hok1|lia].
Qed.

End Alloc.

Lemma recurse_alloc (U : Unicode) (f : nat) :
  forall text e r e',
    vec_ok e -> recurse U f text e = Ret (r, e') ->
    List.length (magic_vec e')
    <= List.length (magic_vec e) + count lbrace text.
Proof.
  induction f as [|f IH]; intros text e r e' Hok H; [discriminate|].
  rewrite recurse_S in H.
  destruct (until_fixed f _ text e) as [[text1 e1]| |] eqn:Hb;
    try discriminate.
  destruct (for_tokens U f _ [] _) as [[parts e3]| |] eqn:Ht;
    try discriminate.
  injection H as _ <-.
  assert (H1 : within (List.length (magic_vec e) + count lbrace text) text1 e1).
  { apply (until_fixed_keeps
             (within (List.length (magic_vec e) + count lbrace text)))
      in Hb; [exact Hb| |split; [exact Hok|lia]].
    intros x e0 t e0' HI Hm; unfold math_magic in Hm.
    apply (until_fixed_keeps
             (within (List.length (magic_vec e) + count lbrace text)))
      in Hm; [exact Hm| |exact HI].
    intros y e4 t4 e4'; apply (pass_alloc U f IH). }
  destruct H1 as [Hok1 Hlen1].
  apply for_tokens_sound in Ht as [Hv _];
    [|exact Hok1|apply token_matches_safe|constructor].
  rewrite Hv; cbn [magic_vec]; lia.
Qed.

(** What a run of [to_math] leaves: the result of [to_math], a sound vector,
    and at most one entry for each opening brace of the input. *)
Lemma to_math_run_alloc (U : Unicode) (fuel : nat) (text r : pystr)
  (e : env) :
  to_math_run U fuel text = Ret (r, e) ->
  to_math U fuel text = Ret r
  /\ vec_ok e /\ List.length (magic_vec e) <= count lbrace text.
Proof.
  intros H; split; [unfold to_math; now rewrite H|].
  unfold to_math_run in H.
  apply bind_ret in H as ([] & e1 & H1 & H).
  apply bind_ret in H as (t & e2 & Hr & H).
  apply bind_ret in H as ([] & e3 & H3 & H).
  apply ret_ret in H as [-> ->].
  injection H1 as <-; injection H3 as <-; cbn [magic_vec].
  assert (Hok : vec_ok {| magic_vec := [];
                          printed := [] ++ [Print_to_math text] |})
    by constructor.
  split.
  - now apply recurse_sound in Hr as [Hok2 _].
  - apply recurse_alloc in Hr; [exact Hr|exact Hok].
Qed.

(** The placeholders of the first [RANGE_SIZE] entries are code points of
    the reserved range. *)
Lemma placeholder_in_range (i : nat) :
  (N.of_nat i < RANGE_SIZE)%N -> is_magic (placeholder i) = true.
Proof.
  unfold RANGE_SIZE, placeholder, is_magic, in_range, MAGIC_FIRST, MAGIC_LAST.
  intros H; apply andb_true_intro; split; apply N.leb_le; lia.
Qed.

(** X14: [to_math] allocates at most one placeholder for each opening brace
    of its input; on an input with no more opening braces than the reserved
    range has code points, every allocated placeholder is a code point of
    the range, and no entry of the vector that the call leaves holds an
    allocated placeholder. *)
Theorem to_math_run_vector (U : Unicode) (fuel : nat) (text r : pystr)
  (e : env) :
  to_math_run U fuel text = Ret (r, e) ->
  List.length (magic_vec e) <= count lbrace text
  /\ ((N.of_nat (count lbrace text) <= RANGE_SIZE)%N ->
      forall i, i < List.length (magic_vec e) ->
        is_magic (placeholder i) = true
        /\ Forall (fun t => ~ In (placeholder i) t) (magic_vec e)).
Proof.
  intros H; apply to_math_run_alloc in H as (_ & Hok & Hlen).
  split; [exact Hlen|].
  intros Hmax i Hi.
  assert (Hm : is_magic (placeholder i) = true)
    by (apply placeholder_in_range; lia).
  split; [exact Hm|].
  eapply Forall_impl; [|exact Hok].
  intros t Ht Hin; rewrite (Ht _ Hin) in Hm; discriminate.
Qed.

Lemma to_math_run_vector_witness :
  to_math_run latin1 8 (str "x^{a_{1}}{")
  = Ret (str "x^(a_1){",
         {| magic_vec := [str "1"; str "a_1"];
            printed :=
              [Print_to_math (str "x^{a_{1}}{"); Print_before_iter (str "1");
               Print_before_iter (str "a_" ++ [placeholder 0]);
               Print_before_iter (str "x^" ++ [placeholder 1] ++ str "{");
               Print_final (str "x^(a_1){")] |})
  /\ 2 <= 3
  /\ ~ In (placeholder 1) (str "1") /\ ~ In (placeholder 1) (str "a_1").
Proof.
  assert (H : to_math_run latin1 8 (str "x^{a_{1}}{")
              = Ret (str "x^(a_1){",
                     {| magic_vec := [str "1"; str "a_1"];
                        printed :=
                          [Print_to_math (str "x^{a_{1}}{");
                           Print_before_iter (str "1");
                           Print_before_iter (str "a_" ++ [placeholder 0]);
                           Print_before_iter
                             (str "x^" ++ [placeholder 1] ++ str "{");
                           Print_final (str "x^(a_1){")] |}))
    by (vm_compute; reflexivity).
  split; [exact H|].
  destruct (to_math_run_vector latin1 8 _ _ _ H) as [Hlen Hvec].
  split; [exact Hlen|].
  destruct (Hvec ltac:(vm_compute; discriminate) 1 ltac:(cbn; lia))
    as [_ Hall].
  cbn [magic_vec] in Hall.
  split; [exact (Forall_inv Hall)|exact (Forall_inv (Forall_inv_tail Hall))].
Defined.

(** ** The value cleaner on text without markup *)

Lemma re_sub_none (r : re) (repl : mobj -> pystr) (text : pystr) :
  finditer r text = [] -> re_sub r repl text = text.
Proof. intros H; unfold re_sub; rewrite H; reflexivity. Qed.

Lemma lang_head_seq (c : char) (a r : re) (w : pystr) :
  lang (Seq (Seq (Chr c) a) r) w -> exists t, w = c :: t.
Proof.
  intros H; inversion H as [| |? ? u v Hu Hv| | | | | | |]; subst.
  apply lang_head in Hu as [t ->]; simpl; eauto.
Qed.

Ltac head_of c :=
  apply (no_match _ c);
  [intros w; first [apply lang_head | apply lang_head_seq]|assumption].

(** X15: on a title that holds none of [<], [[] and [{], [clean_value]
    makes no nested call and does only its last steps: it removes the runs
    of apostrophes, decodes the entities, turns the no-break spaces into
    spaces, collapses the white space, strips unless [no_strip] is set, and
    normalizes. *)
Theorem clean_value_markup_free (U : Unicode) (Config : Type)
  (unescape nfc : pystr -> pystr) (fuel : nat) (config : Config)
  (title : pystr) (no_strip : bool) :
  ~ In 0x3c%N title -> ~ In 0x5b%N title -> ~ In 0x7b%N title ->
  clean_value U unescape nfc (S fuel) config title no_strip
  = Ret (let t := re_sub quotes_re (const []) title in
         let t := unescape t in
         let t := re_sub nbsp_re (const (str " ")) t in
         let t := re_sub blanks_re (const (str " ")) t in
         let t := re_sub newlines_re (const [chr_nl]) t in
         nfc (if no_strip then t else strip t)).
Proof.
  intros Hlt Hbr Hcb; cbn [clean_value]; unfold strip_blocks.
  rewrite (re_sub_none template_re) by head_of 0x7b%N.
  rewrite (re_sub_none table_re) by head_of 0x7b%N.
  rewrite (re_sub_none ref_re) by head_of 0x3c%N.
  rewrite (re_sub_none br_re) by head_of 0x3c%N.
  rewrite (re_sub_none (block_re U)) by head_of 0x3c%N.
  rewrite (re_sub_none (cell_re U)) by head_of 0x3c%N.
  rewrite (re_sub_none (empty_pair_re U _ _)) by head_of 0x3c%N.
  rewrite (re_sub_r_none (span_re U _)) by head_of 0x3c%N.
  cbn [rbind].
  rewrite (re_sub_none (empty_pair_re U _ _)) by head_of 0x3c%N.
  do 3 (rewrite (re_sub_r_none (span_re U _)) by head_of 0x3c%N;
        cbn [rbind]).
  unfold strip_tags.
  rewrite (re_sub_none open_tag_re) by head_of 0x3c%N.
  rewrite (re_sub_none close_tag_re) by head_of 0x3c%N.
  rewrite (re_sub_none category_re) by head_of 0x5b%N.
  rewrite (re_sub_r_none link_bars_re) by head_of 0x5b%N.
  cbn [rbind].
  rewrite (re_sub_r_none link_re) by head_of 0x5b%N.
  cbn [rbind].
  rewrite (re_sub_r_none simple_link_re) by head_of 0x5b%N.
  cbn [rbind].
  rewrite (re_sub_r_none url_re) by head_of 0x5b%N.
  cbn [rbind]; unfold finish_value.
  rewrite (re_sub_none edit_re) by head_of 0x5b%N.
  reflexivity.
Qed.

Lemma clean_value_markup_free_witness :
  clean_value latin1 unescape_no_amp nfc_acute 1 tt
    (str "''a''  b" ++ [chr_nbsp] ++ str "c ") false
  = Ret (str "a b c").
Proof.
  rewrite (clean_value_markup_free latin1 unit unescape_no_amp nfc_acute 0 tt);
    [vm_compute; reflexivity| | |];
    intros H; vm_compute in H;
    repeat (destruct H as [H|H]; [discriminate H|]); exact H.
Defined.

(** ** Substitution as one pass *)

Lemma skipn_past (text : pystr) (pos k : nat) :
  skipn pos text = [] -> skipn (pos + k) text = [].
Proof.
  intros H; apply skipn_all_iff; apply skipn_all_iff in H; lia.
Qed.

Lemma skipn_next (text : pystr) (pos : nat) (c : char) (rest : pystr) :
  skipn pos text = c :: rest ->
  skipn (S pos) text = rest /\ S pos <= List.length text.
Proof.
  intros H; split.
  - replace (S pos) with (1 + pos) by lia.
    now rewrite <- skipn_skipn, H.
  - assert (E : List.length (skipn pos text) = S (List.length rest))
      by now rewrite H.
    rewrite length_skipn in E; lia.
Qed.

(** The text before the first match of a list that begins after [pos]
    begins with the character at [pos]. *)
Lemma splice_shift (text : pystr) (pos : nat) (c : char) (rest : pystr)
  (ms : list mobj) (reps : list pystr) :
  skipn pos text = c :: rest -> chain (S pos) ms ->
  splice text pos ms reps = c :: splice text (S pos) ms reps.
Proof.
  intros Hrest Hch; destruct (skipn_next _ _ _ _ Hrest) as [Hnext _].
  destruct ms as [|m ms]; [cbn [splice]; now rewrite Hrest, Hnext|].
  destruct reps as [|rep reps]; [cbn [splice]; now rewrite Hrest, Hnext|].
  cbn [splice]; destruct Hch as (H1 & _).
  unfold substr.
  replace (mo_start m - pos) with (S (mo_start m - S pos)) by lia.
  rewrite Hrest; cbn [firstn app]; now rewrite <- Hnext.
Qed.

Lemma scan_sub (r : re) (repl : mobj -> pystr) (text : pystr) :
  forall rest pos prev skip,
    skipn pos text = rest -> pos <= List.length text ->
    splice text (pos + skip) (scan r text pos prev rest skip)
      (map repl (scan r text pos prev rest skip))
    = sub_scan r repl text pos prev rest skip.
Proof.
  induction rest as [|c rest IH]; intros pos prev skip Hrest Hpos.
  - destruct skip as [|k]; cbn [scan sub_scan].
    + destruct (match_at r text pos prev []) as [m|] eqn:Hm.
      * rewrite <- Hrest in Hm.
        apply match_at_spec in Hm as [Hof Hst]; [|exact Hpos].
        cbn [map splice]; rewrite Hst, Nat.add_0_r.
        unfold substr; rewrite Nat.sub_diag; cbn [firstn app].
        f_equal.
        pose proof (mo_ordered Hof) as Ho.
        replace (mo_end m) with (pos + (mo_end m - pos)) by lia.
        now apply skipn_past.
      * cbn [map splice]; now rewrite Nat.add_0_r.
    + cbn [map splice]; now apply skipn_past.
  - destruct (skipn_next _ _ _ _ Hrest) as [Hnext Hlt].
    destruct skip as [|k]; cbn [scan sub_scan].
    + destruct (match_at r text pos prev (c :: rest)) as [m|] eqn:Hm.
      * rewrite <- Hrest in Hm.
        apply match_at_spec in Hm as [Hof Hst]; [|exact Hpos].
        pose proof (mo_ordered Hof) as Ho.
        cbn [map splice]; rewrite Hst, Nat.add_0_r.
        unfold substr at 1; rewrite Nat.sub_diag; cbn [firstn app].
        f_equal.
        destruct (Nat.leb_spec (mo_end m) pos) as [Hle|Hgt].
        -- assert (E : mo_end m = pos) by lia.
           rewrite E, Nat.sub_diag; cbn [Nat.sub app].
           rewrite <- (IH (S pos) (Some c) 0 Hnext Hlt), Nat.add_0_r.
           apply (splice_shift text pos c rest); [exact Hrest|].
           destruct (scan_spec r text rest (S pos) (Some c) 0 Hnext Hlt)
             as [_ Hch].
           now rewrite Nat.add_0_r in Hch.
        -- cbn [app].
           rewrite <- (IH (S pos) (Some c) (mo_end m - pos - 1) Hnext Hlt).
           replace (S pos + (mo_end m - pos - 1)) with (mo_end m) by lia.
           reflexivity.
      * rewrite Nat.add_0_r.
        rewrite <- (IH (S pos) (Some c) 0 Hnext Hlt), Nat.add_0_r.
        apply (splice_shift text pos c rest); [exact Hrest|].
        destruct (scan_spec r text rest (S pos) (Some c) 0 Hnext Hlt)
          as [_ Hch].
        now rewrite Nat.add_0_r in Hch.
    + rewrite <- (IH (S pos) (Some c) k Hnext Hlt).
      now replace (pos + S k) with (S pos + k) by lia.
Qed.

Lemma re_sub_scan (r : re) (repl : mobj -> pystr) (text : pystr) :
  re_sub r repl text = sub_scan r repl text 0 None text 0.
Proof.
  unfold re_sub, finditer.
  apply (scan_sub r repl text text 0 None 0); [reflexivity|lia].
Qed.

Lemma star_greedy (p : char -> bool) (k : mstate -> option mstate) :
  forall n s,
    List.length (m_rest s) <= n ->
    star_loop (exec (Cls p)) true k n s = greedy p k s (m_rest s).
Proof.
  induction n as [|n IH]; intros s Hn.
  - destruct (m_rest s) as [|c t] eqn:E; [|simpl in Hn; lia].
    cbn [star_loop greedy]; reflexivity.
  - cbn [star_loop exec].
    destruct (m_rest s) as [|c t] eqn:E; cbn [greedy]; [reflexivity|].
    destruct (p c); [|reflexivity].
    assert (Hlt : Nat.ltb (m_pos s) (m_pos (advance s c t)) = true)
      by (apply Nat.ltb_lt; simpl; lia).
    rewrite Hlt, IH by (simpl in *; lia).
    reflexivity.
Qed.

Lemma greedy_run (p : char -> bool) (rest : pystr) :
  forall s,
    exists e, greedy p Some s rest = Some e
              /\ m_pos e = m_pos s + run_length p rest
              /\ m_caps e = m_caps s.
Proof.
  induction rest as [|c t IH]; intros s; cbn [greedy run_length].
  - exists s; repeat split; lia.
  - destruct (p c); [|exists s; repeat split; lia].
    destruct (IH (advance s c t)) as (e & He & Hp & Hc).
    exists e; rewrite He; cbn [or_else]; repeat split;
      [simpl in Hp; lia|exact Hc].
Qed.

Lemma exec_seq (a b : re) (k : mstate -> option mstate) (s : mstate) :
  exec (Seq a b) k s = exec a (exec b k) s.
Proof. reflexivity. Qed.

Lemma exec_cls (p : char -> bool) (k : mstate -> option mstate) (s : mstate) :
  exec (Cls p) k s
  = match m_rest s with
    | c :: t => if p c then k (advance s c t) else None
    | [] => None
    end.
Proof. reflexivity. Qed.

Lemma exec_star (g : bool) (a : re) (k : mstate -> option mstate)
  (s : mstate) :
  exec (Star g a) k s = star_loop (exec a) g k (List.length (m_rest s)) s.
Proof. reflexivity. Qed.

(** A greedy run of a class matches where the class does, up to the end of
    the longest run. *)
Lemma match_at_run (p : char -> bool) (text : pystr) (pos : nat)
  (prev : option char) (rest : pystr) :
  match_at (Plus true (Cls p)) text pos prev rest
  = match rest with
    | c :: t =>
        if p c
        then Some {| mo_string := text; mo_start := pos;
                     mo_end := S pos + run_length p t; mo_caps := [] |}
        else None
    | [] => None
    end.
Proof.
  unfold match_at, Plus; rewrite exec_seq, exec_cls; cbn [m_rest].
  destruct rest as [|c t]; [reflexivity|].
  destruct (p c); [|reflexivity].
  rewrite exec_star, star_greedy by (cbn [advance m_rest]; lia).
  cbn [advance m_rest].
  destruct (greedy_run p t
              {| m_pos := S pos; m_prev := Some c; m_rest := t; m_caps := [] |})
    as (e & He & Hp & Hc).
  unfold advance; cbn [m_pos m_caps]; rewrite He.
  cbn [m_pos m_caps] in Hp, Hc; now rewrite Hp, Hc.
Qed.

Lemma sub_scan_runs (p : char -> bool) (rep text : pystr) (rest : pystr) :
  (forall pos prev,
     sub_scan (Plus true (Cls p)) (const rep) text pos prev rest 0
     = collapse_runs p rep false rest)
  /\ (forall pos prev,
        sub_scan (Plus true (Cls p)) (const rep) text pos prev rest
          (run_length p rest)
        = collapse_runs p rep true rest).
Proof.
  induction rest as [|c t [IH0 IH1]].
  - split; intros pos prev; cbn [run_length sub_scan collapse_runs];
      rewrite match_at_run; reflexivity.
  - assert (H0 : forall pos prev,
               sub_scan (Plus true (Cls p)) (const rep) text pos prev
                 (c :: t) 0
               = collapse_runs p rep false (c :: t)).
    { intros pos prev; cbn [sub_scan collapse_runs]; rewrite match_at_run.
      destruct (p c) eqn:Hc.
      - cbn [mo_end const].
        destruct (Nat.leb_spec (S pos + run_length p t) pos) as [H|_]; [lia|].
        cbn [app].
        replace (S pos + run_length p t - pos - 1) with (run_length p t)
          by lia.
        now rewrite IH1.
      - now rewrite IH0. }
    split; [exact H0|].
    intros pos prev; cbn [run_length].
    destruct (p c) eqn:Hc.
    + cbn [sub_scan collapse_runs]; rewrite Hc; cbn [app]; apply IH1.
    + rewrite H0; cbn [collapse_runs]; now rewrite Hc.
Qed.

(** X16: the step that replaces the runs of spaces, tabs and carriage
    returns puts exactly one space for each maximal run, and keeps every
    other character. *)
Theorem blanks_collapse (text : pystr) :
  re_sub blanks_re (const (str " ")) text
  = collapse_runs is_blank (str " ") false text.
Proof.
  rewrite re_sub_scan.
  apply (proj1 (sub_scan_runs is_blank (str " ") text text)).
Qed.

(** ** The white space that [clean_value] leaves *)

Lemma or_else_none {A} (a : option A) : or_else a None = a.
Proof. now destruct a. Qed.

Lemma exec_newlines (s : mstate) :
  exec (Plus true (Chr chr_nl)) Some s
  = match m_rest s with
    | c :: t =>
        if N.eqb chr_nl c
        then greedy (N.eqb chr_nl) Some (advance s c t) t
        else None
    | [] => None
    end.
Proof.
  unfold Plus, Chr; rewrite exec_seq, exec_cls.
  destruct (m_rest s) as [|c t]; [reflexivity|].
  destruct (N.eqb chr_nl c); [|reflexivity].
  now rewrite exec_star, star_greedy by (cbn [advance m_rest]; lia).
Qed.

Lemma nl_len_space (t : pystr) :
  nl_len (0x20%N :: t) = option_map S (nl_len t).
Proof.
  unfold nl_len; cbn [run_length N.eqb Pos.eqb skipn].
  destruct (skipn _ t) as [|c u]; [reflexivity|].
  destruct (N.eqb chr_nl c); reflexivity.
Qed.

Lemma nl_len_other (c : char) (t : pystr) :
  N.eqb 0x20%N c = false ->
  nl_len (c :: t)
  = if N.eqb chr_nl c then Some (S (run_length (N.eqb chr_nl) t)) else None.
Proof.
  intros H; unfold nl_len; cbn [run_length]; rewrite H; reflexivity.
Qed.

Lemma greedy_newlines (rest : pystr) :
  forall s,
    m_rest s = rest ->
    match nl_len rest with
    | Some n =>
        exists e,
          greedy (N.eqb 0x20%N) (exec (Plus true (Chr chr_nl)) Some) s rest
          = Some e
          /\ m_pos e = m_pos s + n /\ m_caps e = m_caps s
    | None =>
        greedy (N.eqb 0x20%N) (exec (Plus true (Chr chr_nl)) Some) s rest
        = None
    end.
Proof.
  induction rest as [|c t IH]; intros s Hs.
  - cbn [greedy]; rewrite exec_newlines, Hs; reflexivity.
  - cbn [greedy]; destruct (N.eqb 0x20%N c) eqn:Hc.
    + apply N.eqb_eq in Hc; subst c.
      rewrite nl_len_space, exec_newlines, Hs.
      replace (N.eqb chr_nl 0x20%N) with false by reflexivity.
      rewrite or_else_none.
      specialize (IH (advance s 0x20%N t) eq_refl).
      destruct (nl_len t) as [n|]; cbn [option_map]; [|exact IH].
      destruct IH as (e & He & Hp & Hcaps); exists e; split; [exact He|].
      cbn [advance m_pos m_caps] in Hp, Hcaps; split; [lia|exact Hcaps].
    + rewrite (nl_len_other c t Hc), exec_newlines, Hs.
      destruct (N.eqb chr_nl c); [|reflexivity].
      destruct (greedy_run (N.eqb chr_nl) t (advance s c t))
        as (e & He & Hp & Hcaps).
      exists e; split; [exact He|].
      cbn [advance m_pos m_caps] in Hp, Hcaps; split; [lia|exact Hcaps].
Qed.

(** Where the pattern of the newline step matches, and how far. *)
Lemma match_at_newlines (text : pystr) (pos : nat) (prev : option char)
  (rest : pystr) :
  match_at newlines_re text pos prev rest
  = match nl_len rest with
    | Some n => Some {| mo_string := text; mo_start := pos;
                        mo_end := pos + n; mo_caps := [] |}
    | None => None
    end.
Proof.
  unfold match_at, newlines_re; cbn [seq].
  change (Star true (Chr 0x20%N)) with (Star true (Cls (N.eqb 0x20%N))).
  rewrite exec_seq, exec_star, star_greedy by lia.
  cbn [m_rest].
  pose proof (greedy_newlines rest
                {| m_pos := pos; m_prev := prev; m_rest := rest;
                   m_caps := [] |} eq_refl) as H.
  destruct (nl_len rest) as [n|].
  - destruct H as (e & -> & Hp & Hc); cbn [m_pos m_caps] in Hp, Hc.
    now rewrite Hp, Hc.
  - now rewrite H.
Qed.

Lemma run_length_le (p : char -> bool) (s : pystr) :
  run_length p s <= List.length s.
Proof.
  induction s as [|c s IH]; [reflexivity|].
  cbn [run_length]; destruct (p c); simpl; lia.
Qed.

Lemma run_length_nth (p : char -> bool) (s : pystr) (i : nat) :
  i < run_length p s -> p (nth i s 0%N) = true.
Proof.
  revert i; induction s as [|c s IH]; intros i; cbn [run_length]; [lia|].
  destruct (p c) eqn:Hc; [|lia].
  destruct i as [|i]; [intros _; exact Hc|].
  intros H; cbn [nth]; apply IH; lia.
Qed.

(** A match of the newline step is not empty, lies in the string and ends
    with a newline. *)
Lemma nl_len_spec (rest : pystr) (n : nat) :
  nl_len rest = Some n ->
  1 <= n /\ n <= List.length rest /\ nth (n - 1) rest 0%N = chr_nl.
Proof.
  induction rest as [|c t IH] in n |- *; [discriminate|].
  destruct (N.eqb 0x20%N c) eqn:Hc.
  - apply N.eqb_eq in Hc; subst c; rewrite nl_len_space.
    destruct (nl_len t) as [n'|]; [|discriminate].
    intros [= <-]; destruct (IH n' eq_refl) as (H1 & H2 & H3).
    repeat split; [lia|simpl; lia|].
    replace (S n' - 1) with (S (n' - 1)) by lia; exact H3.
  - rewrite (nl_len_other c t Hc).
    destruct (N.eqb chr_nl c) eqn:Hn; [|discriminate].
    intros [= <-]; pose proof (run_length_le (N.eqb chr_nl) t) as Hle.
    repeat split; [lia|simpl; lia|].
    destruct (run_length (N.eqb chr_nl) t) as [|k] eqn:Hr.
    + cbn; now apply N.eqb_eq in Hn.
    + replace (S (S k) - 1) with (S k) by lia; cbn [nth].
      symmetry; apply N.eqb_eq, run_length_nth; lia.
Qed.

Lemma no_adj_tail (bad : char -> char -> bool) (a : char) (l : pystr) :
  no_adj bad (a :: l) = true -> no_adj bad l = true.
Proof.
  destruct l as [|b l]; [reflexivity|].
  cbn [no_adj]; intros H; now apply andb_true_iff in H as [_ H].
Qed.

Lemma no_adj_cons (bad : char -> char -> bool) (a b : char) (l : pystr) :
  bad a b = false -> no_adj bad (b :: l) = true ->
  no_adj bad (a :: b :: l) = true.
Proof. intros H1 H2; cbn [no_adj] in *; now rewrite H1, H2. Qed.

Lemma no_adj_head (bad : char -> char -> bool) (a b : char) (l : pystr) :
  no_adj bad (a :: b :: l) = true -> bad a b = false.
Proof.
  cbn [no_adj]; intros H; apply andb_true_iff in H as [H _].
  now destruct (bad a b).
Qed.

Lemma no_adj_app (bad : char -> char -> bool) (a b : pystr) :
  no_adj bad (a ++ b) = true -> no_adj bad a = true /\ no_adj bad b = true.
Proof.
  induction a as [|x a IH]; [now split|].
  intros H; pose proof (no_adj_tail _ _ _ H) as Ht.
  destruct (IH Ht) as [Ha Hb]; split; [|exact Hb].
  destruct a as [|y a]; [reflexivity|].
  apply no_adj_cons; [|exact Ha].
  now apply no_adj_head in H.
Qed.

Lemma no_adj_mono (bad bad' : char -> char -> bool) (l : pystr) :
  (forall a b, bad' a b = true -> bad a b = true) ->
  no_adj bad l = true -> no_adj bad' l = true.
Proof.
  intros Hb; induction l as [|a l IH]; [reflexivity|].
  intros H; pose proof (no_adj_tail _ _ _ H) as Ht.
  destruct l as [|b l]; [reflexivity|].
  apply no_adj_cons; [|now apply IH].
  apply no_adj_head in H.
  destruct (bad' a b) eqn:E; [|reflexivity].
  apply Hb in E; congruence.
Qed.

Section NewlineStep.

Variable text : pystr.

Let opt (o : option char) : pystr :=
  match o with Some c => [c] | None => [] end.
Let double (a b : char) : bool := N.eqb a 0x20%N && N.eqb b 0x20%N.
Let out := sub_scan newlines_re (const [chr_nl]) text.

(** The newline step leaves no space before a space or a newline, when no
    space stood before a space. *)
Lemma newline_step_adj (rest : pystr) :
  forall pos prev skip,
    skip <= List.length rest ->
    no_adj double (match skip with 0 => opt prev ++ rest | _ => rest end)
    = true ->
    (skip = 0 -> prev = Some 0x20%N -> nl_len rest = None) ->
    (0 < skip -> nth (skip - 1) rest 0%N = chr_nl) ->
    no_adj space_then_blank
      (match skip with 0 => opt prev | _ => [] end
       ++ out pos prev rest skip) = true.
Proof.
  induction rest as [|c t IH]; intros pos prev skip Hlen Hd Hsp Hnl.
  - destruct skip as [|k]; [|simpl in Hlen; lia].
    unfold out; cbn [sub_scan]; rewrite match_at_newlines.
    cbn [nl_len run_length skipn]; rewrite app_nil_r.
    destruct prev; reflexivity.
  - destruct skip as [|k].
    + (* outside a match *)
      unfold out; cbn [sub_scan]; rewrite match_at_newlines.
      destruct (nl_len (c :: t)) as [n|] eqn:Hn.
      * destruct (nl_len_spec _ _ Hn) as (H1 & H2 & H3).
        cbn [mo_end const].
        destruct (Nat.leb_spec (pos + n) pos) as [H|_]; [lia|].
        cbn [app].
        assert (Hprev : forall l, no_adj space_then_blank (chr_nl :: l) = true ->
                          no_adj space_then_blank (opt prev ++ chr_nl :: l)
                          = true).
        { intros l Hl; destruct prev as [a|]; [|exact Hl].
          cbn [opt app]; apply no_adj_cons; [|exact Hl].
          unfold space_then_blank.
          destruct (N.eqb_spec a 0x20%N) as [->|]; [|reflexivity].
          discriminate (Hsp eq_refl eq_refl). }
        apply Hprev.
        replace (pos + n - pos - 1) with (n - 1) by lia.
        assert (Hdt : no_adj double (c :: t) = true)
          by (destruct prev; [now apply no_adj_tail in Hd|exact Hd]).
        destruct (n - 1) as [|k] eqn:Hk.
        -- (* the match is the character [c], a newline *)
           cbn [nth] in H3; subst c.
           apply (IH (S pos) (Some chr_nl) 0); [lia|exact Hdt| |lia].
           intros _ [= E]; discriminate E.
        -- assert (Hx : no_adj space_then_blank
                          ([] ++ out (S pos) (Some c) t (S k)) = true).
           { apply (IH (S pos) (Some c) (S k)); [simpl in H2; lia| |lia|].
             - now apply no_adj_tail in Hdt.
             - intros _; cbn [nth] in H3.
               now replace (S k - 1) with k by lia. }
           cbn [app] in Hx; fold (out (S pos) (Some c) t (S k)).
           destruct (out (S pos) (Some c) t (S k)) as [|b l];
             [reflexivity|].
           apply no_adj_cons; [reflexivity|exact Hx].
      * (* the character is kept *)
        fold (out (S pos) (Some c) t 0).
        assert (Hdt : no_adj double (c :: t) = true)
          by (destruct prev; [now apply no_adj_tail in Hd|exact Hd]).
        assert (Hc : no_adj space_then_blank ([c] ++ out (S pos) (Some c) t 0)
                     = true).
        { apply (IH (S pos) (Some c) 0); [lia|exact Hdt| |lia].
          intros _ [= ->]; rewrite nl_len_space in Hn.
          now destruct (nl_len t). }
        destruct prev as [a|]; [|exact Hc].
        cbn [opt app] in *; apply no_adj_cons; [|exact Hc].
        unfold space_then_blank.
        destruct (N.eqb_spec a 0x20%N) as [->|]; [|reflexivity].
        cbn [andb]; apply no_adj_head in Hd; unfold double in Hd.
        cbn [N.eqb Pos.eqb andb] in Hd; rewrite Hd; cbn [orb].
        destruct (N.eqb_spec c chr_nl) as [->|]; [|reflexivity].
        rewrite nl_len_other in Hn by reflexivity; discriminate Hn.
    + (* inside a match *)
      unfold out; cbn [sub_scan app]; fold (out (S pos) (Some c) t k).
      destruct k as [|k].
      * cbn [nth Nat.sub] in Hnl; specialize (Hnl ltac:(lia)); subst c.
        assert (H : no_adj space_then_blank
                      ([chr_nl] ++ out (S pos) (Some chr_nl) t 0) = true).
        { apply (IH (S pos) (Some chr_nl) 0); [lia|exact Hd| |lia].
          intros _ [= E]; discriminate E. }
        now apply no_adj_tail in H.
      * apply (IH (S pos) (Some c) (S k)); [simpl in Hlen; lia| |lia|].
        -- now apply no_adj_tail in Hd.
        -- intros _; specialize (Hnl ltac:(lia)).
           replace (S (S k) - 1) with (S k) in Hnl by lia.
           cbn [nth] in Hnl; now replace (S k - 1) with k by lia.
Qed.

End NewlineStep.

Lemma match_at_cls (p : char -> bool) (text : pystr) (pos : nat)
  (prev : option char) (rest : pystr) :
  match_at (Cls p) text pos prev rest
  = match rest with
    | c :: _ =>
        if p c
        then Some {| mo_string := text; mo_start := pos; mo_end := S pos;
                     mo_caps := [] |}
        else None
    | [] => None
    end.
Proof.
  unfold match_at; rewrite exec_cls; cbn [m_rest].
  destruct rest as [|c t]; [reflexivity|]; destruct (p c); reflexivity.
Qed.

(** A step that replaces the characters of a class leaves none of them but
    those of the replacement. *)
Lemma sub_scan_cls_in (p : char -> bool) (rep text : pystr) (x : char)
  (rest : pystr) :
  forall pos prev,
    In x (sub_scan (Cls p) (const rep) text pos prev rest 0) ->
    In x rep \/ p x = false.
Proof.
  induction rest as [|c t IH]; intros pos prev; cbn [sub_scan];
    rewrite match_at_cls; [intros []|].
  destruct (p c) eqn:Hc.
  - cbn [mo_end const].
    destruct (Nat.leb_spec (S pos) pos) as [H|_]; [lia|].
    replace (S pos - pos - 1) with 0 by lia; cbn [app].
    intros H; apply in_app_or in H as [H|H]; [now left|now apply IH in H].
  - intros [<-|H]; [now right|now apply IH in H].
Qed.

Lemma collapse_in (p : char -> bool) (rep : pystr) (x : char) (l : pystr) :
  forall b,
    In x (collapse_runs p rep b l) -> In x rep \/ (In x l /\ p x = false).
Proof.
  induction l as [|c l IH]; intros b; cbn [collapse_runs]; [intros []|].
  destruct (p c) eqn:Hc.
  - intros H; apply in_app_or in H as [H|H].
    + destruct b; [destruct H|now left].
    + apply IH in H as [H|[H1 H2]]; [now left|right; split; [now right|exact H2]].
  - intros [<-|H]; [right; split; [now left|exact Hc]|].
    apply IH in H as [H|[H1 H2]]; [now left|right; split; [now right|exact H2]].
Qed.

(** After the runs of a class are collapsed to one character of the class,
    no two neighbours are both in the class. *)
Lemma collapse_adj (p : char -> bool) (sp : char) (l : pystr) :
  p sp = true ->
  no_adj (fun a b => p a && p b) (collapse_runs p [sp] false l) = true
  /\ no_adj (fun a b => p a && p b) (collapse_runs p [sp] true l) = true
  /\ match collapse_runs p [sp] true l with
     | c :: _ => p c = false
     | [] => True
     end.
Proof.
  intros Hsp; induction l as [|c l (IH0 & IH1 & IHh)];
    [repeat split|].
  cbn [collapse_runs]; destruct (p c) eqn:Hc; cbn [app].
  - repeat split; [|exact IH1|exact IHh].
    destruct (collapse_runs p [sp] true l) as [|b l'] eqn:E; [reflexivity|].
    apply no_adj_cons; [now rewrite IHh, andb_false_r|exact IH1].
  - assert (H : no_adj (fun a b => p a && p b)
                  (c :: collapse_runs p [sp] false l) = true).
    { destruct (collapse_runs p [sp] false l) as [|b l'] eqn:E;
        [reflexivity|].
      apply no_adj_cons; [now rewrite Hc|exact IH0]. }
    repeat split; [exact H|exact H|exact Hc].
Qed.

Lemma no_adj_lstrip (bad : char -> char -> bool) (s : pystr) :
  no_adj bad s = true -> no_adj bad (lstrip s) = true.
Proof.
  intros H; destruct (lstrip_suffix s) as [p Hp].
  rewrite Hp in H; now apply no_adj_app in H.
Qed.

Lemma no_adj_rev (bad : char -> char -> bool) (s : pystr) :
  no_adj bad s = true -> no_adj (fun a b => bad b a) (rev s) = true.
Proof.
  induction s as [|a s IH]; [reflexivity|].
  intros H; pose proof (no_adj_tail _ _ _ H) as Ht; specialize (IH Ht).
  cbn [rev]; destruct s as [|b s]; [reflexivity|].
  apply no_adj_head in H; cbn [rev] in *.
  revert IH; generalize (rev s); intros l.
  induction l as [|x l IHl]; cbn [app].
  - intros _; apply no_adj_cons; [exact H|reflexivity].
  - intros Hl; pose proof (no_adj_tail _ _ _ Hl) as Hl'.
    specialize (IHl Hl').
    destruct l as [|y l]; cbn [app] in *.
    + apply no_adj_cons; [now apply no_adj_head in Hl|exact IHl].
    + apply no_adj_cons; [now apply no_adj_head in Hl|exact IHl].
Qed.

Lemma no_adj_strip (bad : char -> char -> bool) (s : pystr) :
  no_adj bad s = true -> no_adj bad (strip s) = true.
Proof.
  intros H; unfold strip, rstrip.
  apply no_adj_lstrip, no_adj_rev, no_adj_lstrip, no_adj_rev in H.
  eapply no_adj_mono; [|exact H]; auto.
Qed.

(** X17: the white space of what [clean_value] returns, before the
    normalization: no tab, carriage return or no-break space is left, no
    space is followed by a space or by a newline, and unless [no_strip] is
    set there is no white space at either end. *)
Theorem clean_value_tidy (U : Unicode) (Config : Type)
  (unescape nfc : pystr -> pystr) (fuel : nat) (config : Config)
  (title : pystr) (no_strip : bool) (r : pystr) :
  clean_value U unescape nfc fuel config title no_strip = Ret r ->
  exists t, r = nfc t /\ tidy t /\ (no_strip = false -> stripped t).
Proof.
  destruct fuel as [|fuel]; [discriminate|].
  cbn [clean_value].
  repeat match goal with
         | |- rbind ?x _ = Ret _ -> _ =>
             destruct x; cbn [rbind]; try discriminate
         end.
  intros [= <-]; unfold finish_value.
  match goal with
  | |- context [re_sub nbsp_re (const (str " ")) ?y] =>
      set (t2 := re_sub nbsp_re (const (str " ")) y)
  end.
  set (t3 := re_sub blanks_re (const (str " ")) t2).
  set (t4 := re_sub newlines_re (const [chr_nl]) t3).
  assert (H2 : ~ In chr_nbsp t2).
  { unfold t2; rewrite re_sub_scan; intros H.
    apply sub_scan_cls_in in H as [H|H]; [|discriminate H].
    destruct H as [H|[]]; discriminate H. }
  assert (H3 : t3 = collapse_runs is_blank (str " ") false t2)
    by (unfold t3; rewrite re_sub_scan;
        apply (proj1 (sub_scan_runs is_blank (str " ") t2 t2))).
  assert (H3in : forall c, In c t3 ->
                           c <> chr_tab /\ c <> chr_cr /\ c <> chr_nbsp).
  { intros c Hc; rewrite H3 in Hc.
    apply collapse_in in Hc as [[<-|[]]|[Hc Hb]];
      [repeat split; discriminate|].
    repeat split; intros ->; [discriminate Hb|discriminate Hb|contradiction]. }
  assert (H3adj : no_adj (fun a b => N.eqb a 0x20%N && N.eqb b 0x20%N) t3
                  = true).
  { rewrite H3.
    destruct (collapse_adj is_blank 0x20%N t2 eq_refl) as [H _].
    eapply no_adj_mono; [|exact H].
    intros u v Huv; apply andb_true_iff in Huv as [Hu Hv].
    apply N.eqb_eq in Hu, Hv; now subst. }
  assert (H4in : forall c, In c t4 ->
                           c <> chr_tab /\ c <> chr_cr /\ c <> chr_nbsp).
  { intros c Hc; apply re_sub_in in Hc as [Hc|[<-|[]]];
      [now apply H3in|repeat split; discriminate]. }
  assert (H4adj : no_adj space_then_blank t4 = true).
  { unfold t4; rewrite re_sub_scan.
    apply (newline_step_adj t3 t3 0 None 0); [lia|exact H3adj| |lia].
    intros _ [=]. }
  exists (if no_strip then t4 else strip t4); split; [reflexivity|].
  destruct no_strip.
  - split; [split; [exact H4in|exact H4adj]|discriminate].
  - split; [split|intros _; apply strip_stripped].
    + intros c Hc; apply H4in; now apply strip_in.
    + now apply no_adj_strip.
Qed.

Lemma clean_value_tidy_witness :
  exists t,
    str "a b" ++ [chr_nl] ++ str " c" = nfc_acute t /\ tidy t
    /\ (false = false -> stripped t).
Proof.
  apply (clean_value_tidy latin1 unit unescape_no_amp nfc_acute 1 tt
           (str "a " ++ [chr_tab; chr_nbsp] ++ str " b " ++ [chr_nl; chr_nl]
            ++ str " c ") false).
  vm_compute; reflexivity.
Defined.

(** ** Plain words in [to_math] *)

Lemma exec_fails (r : re) (c : char) :
  fails r c = true ->
  forall k s t, m_rest s = c :: t -> exec r k s = None.
Proof.
  induction r as [|p|a IHa b IHb|a IHa b IHb|g a IHa|n a IHa| |w];
    cbn [fails]; try discriminate; intros H k s t Hs.
  - rewrite exec_cls, Hs; now destruct (p c).
  - rewrite exec_seq; now apply (IHa H _ _ t).
  - apply andb_true_iff in H as [Ha Hb].
    cbn [exec]; now rewrite (IHa Ha _ _ t Hs), (IHb Hb _ _ t Hs).
  - cbn [exec]; now apply (IHa H _ _ t).
Qed.

Lemma matches_fails (r : re) (c : char) (t : pystr) :
  fails r c = true -> matches r (c :: t) = false.
Proof.
  intros H; unfold matches, re_match, match_at.
  now rewrite (exec_fails r c H _ _ t).
Qed.

Lemma greedy_total (p : char -> bool) (k : mstate -> option mstate)
  (rest : pystr) :
  (forall s, k s <> None) ->
  forall s,
    exists s', greedy p k s rest = k s'
               /\ m_pos s' = m_pos s + run_length p rest
               /\ m_caps s' = m_caps s.
Proof.
  intros Hk; induction rest as [|c t IH]; intros s; cbn [greedy run_length].
  - exists s; repeat split; lia.
  - destruct (p c); [|exists s; repeat split; lia].
    destruct (IH (advance s c t)) as (s' & He & Hp & Hc).
    exists s'; rewrite He.
    specialize (Hk s'); destruct (k s'); [|contradiction].
    cbn [or_else]; repeat split; [simpl in Hp; lia|exact Hc].
Qed.

Lemma run_length_all (p : char -> bool) (t : pystr) :
  forallb p t = true -> run_length p t = List.length t.
Proof.
  induction t as [|c t IH]; [reflexivity|].
  cbn [forallb run_length]; intros H; apply andb_true_iff in H as [Hc Ht].
  now rewrite Hc, IH.
Qed.

Lemma scan_skip_all (r : re) (text : pystr) :
  (forall pos prev, match_at r text pos prev [] = None) ->
  forall rest pos prev, scan r text pos prev rest (List.length rest) = [].
Proof.
  intros Hend; induction rest as [|c rest IH]; intros pos prev.
  - cbn [List.length scan]; now rewrite Hend.
  - cbn [List.length scan]; apply IH.
Qed.

(** The facts about an ASCII word character that the tokenizer asks. *)
Lemma ascii_word_facts (U : Unicode) (c : char) :
  ascii_word c = true ->
  is_space c = false /\ is_word U c = true /\ N.eqb 0x5c%N c = false
  /\ N.eqb c 0x5e%N = false /\ N.eqb c 0x26%N = false
  /\ is_magic c = false.
Proof.
  unfold ascii_word, ascii_alnum, ascii_letter, ascii_upper, ascii_lower,
    ascii_digit; intros H.
  assert (E : In c (map N.of_nat
                      (List.seq 48 10 ++ List.seq 65 26 ++ [95]
                       ++ List.seq 97 26))).
  { rewrite !map_app.
    apply orb_true_iff in H as [H|H];
      [apply orb_true_iff in H as [H|H];
       [apply orb_true_iff in H as [H|H]|]|].
    - apply in_range_enum in H; apply in_or_app; right.
      apply in_or_app; left; exact H.
    - apply in_range_enum in H; do 3 (apply in_or_app; right); exact H.
    - apply in_range_enum in H; apply in_or_app; left; exact H.
    - apply N.eqb_eq in H; subst c; do 2 (apply in_or_app; right).
      apply in_or_app; left; now left. }
  clear H.
  enough (HF : Forall (fun c =>
                 is_space c = false /\ is_word U c = true
                 /\ N.eqb 0x5c%N c = false /\ N.eqb c 0x5e%N = false
                 /\ N.eqb c 0x26%N = false /\ N.ltb c 0x80%N = true)
                (map N.of_nat
                   (List.seq 48 10 ++ List.seq 65 26 ++ [95]
                    ++ List.seq 97 26))).
  { rewrite Forall_forall in HF.
    destruct (HF c E) as (H1 & H2 & H3 & H4 & H5 & H6).
    repeat split; try assumption.
    apply N.ltb_lt in H6.
    unfold is_magic, in_range; apply andb_false_iff; left.
    apply N.leb_gt; unfold MAGIC_FIRST; lia. }
  vm_compute; repeat constructor.
Qed.

Lemma exec_alt (a b : re) (k : mstate -> option mstate) (s : mstate) :
  exec (Alt a b) k s = or_else (exec a k s) (exec b k s).
Proof. reflexivity. Qed.

Lemma exec_eps (k : mstate -> option mstate) (s : mstate) :
  exec Eps k s = k s.
Proof. reflexivity. Qed.

Lemma exec_grp (n : nat) (a : re) (k : mstate -> option mstate) (s : mstate) :
  exec (Grp n a) k s = exec a (fun s' => k (close_group n s s')) s.
Proof. reflexivity. Qed.

Lemma ascii_alnum_word (c : char) :
  ascii_alnum c = true -> ascii_word c = true /\ N.eqb c 0x5f%N = false.
Proof.
  intros H; unfold ascii_word; rewrite H; split; [reflexivity|].
  unfold ascii_alnum, ascii_letter, ascii_upper, ascii_lower, ascii_digit,
    in_range in H.
  apply N.eqb_neq; intros ->; discriminate H.
Qed.

(** A word of ASCII word characters that begins with a letter or a digit is
    one token. *)
Lemma token_word (U : Unicode) (text : pystr) (pos : nat)
  (prev : option char) (c : char) (t : pystr) :
  ascii_alnum c = true -> forallb ascii_word t = true ->
  match_at (token_re U) text pos prev (c :: t)
  = Some {| mo_string := text; mo_start := pos;
            mo_end := S pos + List.length t;
            mo_caps := [(6, (pos, S pos + List.length t))] |}.
Proof.
  intros Hc Ht; destruct (ascii_alnum_word c Hc) as [Hw Hu].
  destruct (ascii_word_facts U c Hw) as (Hsp & Hword & Hbs & Hcaret & _ & _).
  assert (Hrun : run_length (is_word U) t = List.length t).
  { apply run_length_all, forallb_forall; intros x Hx.
    rewrite forallb_forall in Ht.
    now destruct (ascii_word_facts U x (Ht x Hx)) as (_ & H & _). }
  unfold match_at, token_re.
  set (s := {| m_pos := pos; m_prev := prev; m_rest := c :: t;
               m_caps := [] |}).
  rewrite exec_alt, (exec_fails (Plus true Space) c) with (t := t);
    [|cbn [fails Plus Space]; now rewrite Hsp|reflexivity].
  cbn [or_else].
  rewrite exec_alt, (exec_fails frac_call_re c) with (t := t);
    [|change (fails frac_call_re c) with (negb (N.eqb 0x5c%N c));
      now rewrite Hbs|reflexivity].
  cbn [or_else].
  rewrite exec_seq; unfold Opt at 1; rewrite exec_alt.
  rewrite (exec_fails (command_prefix_re U) c) with (t := t);
    [|change (fails (command_prefix_re U) c)
        with (negb (N.eqb 0x5c%N c) && negb (N.eqb 0x5c%N c));
      now rewrite Hbs|reflexivity].
  cbn [or_else]; rewrite exec_eps.
  rewrite exec_seq; unfold Opt at 1; rewrite exec_alt.
  rewrite (exec_fails mark_re c) with (t := t);
    [|cbn [fails mark_re]; now rewrite Hu, Hcaret|reflexivity].
  cbn [or_else]; rewrite exec_eps.
  unfold atom_re; rewrite exec_grp, exec_alt.
  rewrite (exec_fails (Seq (Chr 0x5c%N) _) c) with (t := t);
    [|cbn [fails Chr]; now rewrite Hbs|reflexivity].
  cbn [or_else]; rewrite exec_alt.
  rewrite (exec_fails (Seq (Chr 0x5c%N) Dot) c) with (t := t);
    [|cbn [fails Chr]; now rewrite Hbs|reflexivity].
  cbn [or_else]; rewrite exec_alt.
  unfold Plus at 1; rewrite exec_seq, exec_cls.
  subst s; cbn [m_rest]; rewrite Hword.
  rewrite exec_star, star_greedy by (cbn [advance m_rest]; lia).
  cbn [advance m_rest m_pos m_caps].
  match goal with
  | |- context [greedy _ ?k ?s0 t] =>
      destruct (greedy_total (is_word U) k t ltac:(intros; discriminate) s0)
        as (s' & He & Hp & Hcaps)
  end.
  rewrite He; cbn [or_else close_group m_pos m_caps].
  cbn [m_pos m_caps] in Hp, Hcaps.
  now rewrite Hp, Hcaps, Hrun.
Qed.

(** The tokens of such a word: the word. *)
Lemma finditer_word (U : Unicode) (c : char) (t : pystr) :
  ascii_alnum c = true -> forallb ascii_word t = true ->
  finditer (token_re U) (c :: t)
  = [{| mo_string := c :: t; mo_start := 0;
        mo_end := S (List.length t);
        mo_caps := [(6, (0, S (List.length t)))] |}].
Proof.
  intros Hc Ht; unfold finditer; cbn [scan].
  rewrite (token_word U (c :: t) 0 None c t Hc Ht).
  cbn [mo_end Nat.add]; f_equal.
  replace (S (List.length t) - 0 - 1) with (List.length t) by lia.
  apply scan_skip_all; intros pos prev; reflexivity.
Qed.

Lemma expand_group_word (U : Unicode) (fuel : nat) (c : char) (t : pystr)
  (e : env) :
  ascii_alnum c = true -> forallb ascii_word t = true ->
  expand_group U (S (S fuel)) [] (c :: t) e = Ret (c :: t, e).
Proof.
  intros Hc Ht; destruct (ascii_alnum_word c Hc) as [Hw Hu].
  destruct (ascii_word_facts U c Hw) as (Hsp & _ & Hbs & Hcaret & Hamp & _).
  assert (Hall : forall x, In x (c :: t) ->
                           is_space x = false /\ is_magic x = false).
  { intros x [<-|Hx].
    - now destruct (ascii_word_facts U c Hw) as (H1 & _ & _ & _ & _ & H2).
    - rewrite forallb_forall in Ht.
      now destruct (ascii_word_facts U x (Ht x Hx))
        as (H1 & _ & _ & _ & _ & H2). }
  assert (Hf : forall r, fails r c = true -> matches r (c :: t) = false)
    by (intros r; apply matches_fails).
  cbn [expand_group].
  rewrite (Hf (mathcal_re U))
    by (change (fails (mathcal_re U) c) with (negb (N.eqb 0x5c%N c));
        now rewrite Hbs).
  rewrite (Hf (mathfrak_re U))
    by (change (fails (mathfrak_re U) c) with (negb (N.eqb 0x5c%N c));
        now rewrite Hbs).
  rewrite (Hf (mathbb_re U))
    by (change (fails (mathbb_re U) c) with (negb (N.eqb 0x5c%N c));
        now rewrite Hbs).
  rewrite (Hf (begin_end_re U))
    by (change (fails (begin_end_re U) c) with (negb (N.eqb 0x5c%N c));
        now rewrite Hbs).
  rewrite (Hf (text_re U))
    by (change (fails (text_re U) c) with (negb (N.eqb 0x5c%N c));
        now rewrite Hbs).
  rewrite (Hf sqrt_index_re)
    by (change (fails sqrt_index_re c) with (negb (N.eqb 0x5c%N c));
        now rewrite Hbs).
  rewrite (Hf (sqrt_re U))
    by (change (fails (sqrt_re U) c) with (negb (N.eqb 0x5c%N c));
        now rewrite Hbs).
  rewrite (Hf (frac_test_re U))
    by (change (fails (frac_test_re U) c) with (negb (N.eqb 0x5c%N c));
        now rewrite Hbs).
  assert (Hu' : N.eqb 0x5f%N c = false) by now rewrite N.eqb_sym.
  assert (Hcaret' : N.eqb 0x5e%N c = false) by now rewrite N.eqb_sym.
  replace (startswith (str "_") (c :: t)) with false
    by (change (startswith (str "_") (c :: t))
          with (N.eqb 0x5f%N c && true); now rewrite Hu').
  replace (startswith (str "^") (c :: t)) with false
    by (change (startswith (str "^") (c :: t))
          with (N.eqb 0x5e%N c && true); now rewrite Hcaret').
  unfold finish_group.
  assert (Hl : lookup_command U (c :: t) = c :: t).
  { unfold lookup_command.
    replace (startswith (str "\") (c :: t)) with false
      by (change (startswith (str "\") (c :: t))
            with (N.eqb 0x5c%N c && true); now rewrite Hbs).
    replace (isspace (c :: t)) with false
      by (cbn [isspace forallb]; now rewrite Hsp).
    replace (streq (c :: t) (str "&")) with false; [reflexivity|].
    change (streq (c :: t) (str "&"))
      with (N.eqb c 0x26%N && streq t []); now rewrite Hamp. }
  rewrite Hl; unfold bind at 1 2, ret, lift.
  replace (needs_space U [] (c :: t)) with (Ret (A := bool) false)
    by reflexivity.
  rewrite expand_free by (intros x Hx; now apply Hall).
  rewrite strip_nospace by (intros x Hx; now apply Hall).
  reflexivity.
Qed.

Lemma brace_pass_none (fn : pystr -> M pystr) (fuel : nat) (w : pystr)
  (e : env) :
  ~ In lbrace w ->
  math_magic (S fuel) w (str "{") (str "}") fn e = Ret (w, e).
Proof.
  intros H; unfold math_magic; rewrite until_fixed_S.
  unfold re_sub_m, bind.
  rewrite (no_match (math_magic_re (str "{") (str "}")) lbrace w);
    [|intros x; apply lang_head|exact H].
  cbn [mmap ret splice skipn]; now rewrite streq_refl.
Qed.

(** X18: [to_math] returns a word of ASCII letters, digits and underscores
    that begins with a letter or a digit as it is: the underscore is a word
    character, so that a word with underscores is one token, in which no
    underscore is taken for the subscript mark. *)
Theorem to_math_word (U : Unicode) (fuel : nat) (c : char) (t : pystr) :
  ascii_alnum c = true -> forallb ascii_word t = true ->
  to_math U (S (S (S fuel))) (c :: t) = Ret (c :: t).
Proof.
  intros Hc Ht.
  assert (Hb : ~ In lbrace (c :: t)).
  { intros [E|Hin].
    - subst c; discriminate Hc.
    - rewrite forallb_forall in Ht; specialize (Ht _ Hin); discriminate Ht. }
  unfold to_math, to_math_run, bind at 1, print.
  unfold bind at 1; rewrite recurse_S.
  rewrite until_fixed_S, brace_pass_none by exact Hb.
  rewrite streq_refl.
  rewrite (finditer_word U c t Hc Ht); cbn [for_tokens].
  unfold bind at 1, group0; cbn [mo_string mo_start mo_end].
  unfold substr; cbn [skipn Nat.sub].
  replace (firstn (S (List.length t)) (c :: t)) with (c :: t)
    by (symmetry; apply (firstn_all (c :: t))).
  rewrite (expand_group_word U fuel c t _ Hc Ht).
  cbn [nonempty app concat ret]; rewrite app_nil_r.
  reflexivity.
Qed.

Lemma to_math_word_witness :
  to_math latin1 3 (str "x_1") = Ret (str "x_1").
Proof.
  apply (to_math_word latin1 0 0x78%N (str "_1")); reflexivity.
Defined.

(** ** White space in [to_math] *)

Lemma space_facts (c : char) :
  is_space c = true ->
  N.eqb 0x5c%N c = false /\ N.eqb 0x5f%N c = false /\ N.eqb 0x5e%N c = false
  /\ c <> lbrace.
Proof.
  intros H; repeat split;
    try (apply N.eqb_neq; intros <-; discriminate H).
  intros ->; discriminate H.
Qed.

(** A run of white space is one token. *)
Lemma token_blank (U : Unicode) (text : pystr) (pos : nat)
  (prev : option char) (c : char) (t : pystr) :
  is_space c = true -> forallb is_space t = true ->
  match_at (token_re U) text pos prev (c :: t)
  = Some {| mo_string := text; mo_start := pos;
            mo_end := S pos + List.length t; mo_caps := [] |}.
Proof.
  intros Hc Ht.
  pose proof (match_at_run is_space text pos prev (c :: t)) as H.
  cbn beta iota in H; rewrite Hc, (run_length_all is_space t Ht) in H.
  unfold match_at in *; unfold token_re; rewrite exec_alt.
  fold Space in H.
  destruct (exec (Plus true Space) Some _) as [e|]; [|discriminate H].
  cbn [or_else]; exact H.
Qed.

Lemma finditer_blank (U : Unicode) (c : char) (t : pystr) :
  is_space c = true -> forallb is_space t = true ->
  finditer (token_re U) (c :: t)
  = [{| mo_string := c :: t; mo_start := 0;
        mo_end := S (List.length t); mo_caps := [] |}].
Proof.
  intros Hc Ht; unfold finditer; cbn [scan].
  rewrite (token_blank U (c :: t) 0 None c t Hc Ht).
  cbn [mo_end Nat.add]; f_equal.
  replace (S (List.length t) - 0 - 1) with (List.length t) by lia.
  apply scan_skip_all; intros pos prev; reflexivity.
Qed.

Lemma expand_group_blank (U : Unicode) (fuel : nat) (c : char) (t : pystr)
  (e : env) :
  is_space c = true -> forallb is_space t = true ->
  expand_group U (S (S fuel)) [] (c :: t) e = Ret ([], e).
Proof.
  intros Hc Ht; destruct (space_facts c Hc) as (Hbs & Hu & Hcaret & _).
  assert (Hf : forall r, fails r c = true -> matches r (c :: t) = false)
    by (intros r; apply matches_fails).
  cbn [expand_group].
  rewrite (Hf (mathcal_re U))
    by (change (fails (mathcal_re U) c) with (negb (N.eqb 0x5c%N c));
        now rewrite Hbs).
  rewrite (Hf (mathfrak_re U))
    by (change (fails (mathfrak_re U) c) with (negb (N.eqb 0x5c%N c));
        now rewrite Hbs).
  rewrite (Hf (mathbb_re U))
    by (change (fails (mathbb_re U) c) with (negb (N.eqb 0x5c%N c));
        now rewrite Hbs).
  rewrite (Hf (begin_end_re U))
    by (change (fails (begin_end_re U) c) with (negb (N.eqb 0x5c%N c));
        now rewrite Hbs).
  rewrite (Hf (text_re U))
    by (change (fails (text_re U) c) with (negb (N.eqb 0x5c%N c));
        now rewrite Hbs).
  rewrite (Hf sqrt_index_re)
    by (change (fails sqrt_index_re c) with (negb (N.eqb 0x5c%N c));
        now rewrite Hbs).
  rewrite (Hf (sqrt_re U))
    by (change (fails (sqrt_re U) c) with (negb (N.eqb 0x5c%N c));
        now rewrite Hbs).
  rewrite (Hf (frac_test_re U))
    by (change (fails (frac_test_re U) c) with (negb (N.eqb 0x5c%N c));
        now rewrite Hbs).
  replace (startswith (str "_") (c :: t)) with false
    by (change (startswith (str "_") (c :: t))
          with (N.eqb 0x5f%N c && true); now rewrite Hu).
  replace (startswith (str "^") (c :: t)) with false
    by (change (startswith (str "^") (c :: t))
          with (N.eqb 0x5e%N c && true); now rewrite Hcaret).
  unfold finish_group.
  assert (Hl : lookup_command U (c :: t) = []).
  { unfold lookup_command.
    replace (startswith (str "\") (c :: t)) with false
      by (change (startswith (str "\") (c :: t))
            with (N.eqb 0x5c%N c && true); now rewrite Hbs).
    replace (isspace (c :: t)) with true; [reflexivity|].
    cbn [isspace forallb]; now rewrite Hc, Ht. }
  rewrite Hl; unfold bind at 1 2, ret, lift.
  replace (needs_space U [] []) with (Ret (A := bool) false) by reflexivity.
  rewrite expand_free by (intros x []).
  reflexivity.
Qed.

(** X19: [to_math] returns the empty string for the empty string and for
    every string of white space. *)
Theorem to_math_blank (U : Unicode) (fuel : nat) (w : pystr) :
  forallb is_space w = true -> to_math U (S (S (S fuel))) w = Ret [].
Proof.
  intros Hw.
  assert (Hb : ~ In lbrace w).
  { intros Hin; rewrite forallb_forall in Hw; specialize (Hw _ Hin).
    discriminate Hw. }
  unfold to_math, to_math_run, bind at 1, print.
  unfold bind at 1; rewrite recurse_S.
  rewrite until_fixed_S, brace_pass_none by exact Hb.
  rewrite streq_refl.
  destruct w as [|c t]; [reflexivity|].
  cbn [forallb] in Hw; apply andb_true_iff in Hw as [Hc Ht].
  rewrite (finditer_blank U c t Hc Ht); cbn [for_tokens].
  unfold bind at 1, group0; cbn [mo_string mo_start mo_end].
  unfold substr; cbn [skipn Nat.sub].
  replace (firstn (S (List.length t)) (c :: t)) with (c :: t)
    by (symmetry; apply (firstn_all (c :: t))).
  rewrite (expand_group_blank U fuel c t _ Hc Ht).
  reflexivity.
Qed.

Lemma to_math_blank_witness :
  to_math latin1 3 (str " " ++ [chr_tab; chr_nl]) = Ret [].
Proof.
  apply (to_math_blank latin1 0 (str " " ++ [chr_tab; chr_nl])); reflexivity.
Defined.

(** ** The superscript mark in [to_math] *)

Lemma scan_skip (r : re) (text : pystr) (a : pystr) :
  forall rest pos prev,
    scan r text pos prev (a ++ rest) (List.length a)
    = scan r text (pos + List.length a)
        (match rev a with x :: _ => Some x | [] => prev end) rest 0.
Proof.
  induction a as [|x a IH]; intros rest pos prev.
  - cbn [app List.length rev]; now rewrite Nat.add_0_r.
  - cbn [app List.length scan]; rewrite IH.
    replace (S pos + List.length a) with (pos + S (List.length a)) by lia.
    cbn [rev]; destruct (rev a); reflexivity.
Qed.

Lemma run_length_app (p : char -> bool) (t u : pystr) :
  forallb p t = true ->
  match u with x :: _ => p x = false | [] => True end ->
  run_length p (t ++ u) = List.length t.
Proof.
  intros Ht Hu; induction t as [|c t IH].
  - destruct u as [|x u]; [reflexivity|cbn [app run_length]; now rewrite Hu].
  - cbn [forallb] in Ht; apply andb_true_iff in Ht as [Hc Ht].
    cbn [app run_length List.length]; now rewrite Hc, IH.
Qed.

(** The atom of a token at a letter or a digit: the longest run of word
    characters. *)
Lemma atom_word_run (U : Unicode) (s : mstate) (c : char) (t : pystr) :
  ascii_alnum c = true -> m_rest s = c :: t ->
  exists e,
    exec (atom_re U) Some s = Some e
    /\ m_pos e = S (m_pos s) + run_length (is_word U) t
    /\ m_caps e
       = (6, (m_pos s, S (m_pos s) + run_length (is_word U) t)) :: m_caps s.
Proof.
  intros Hc Hs; destruct (ascii_alnum_word c Hc) as [Hw Hu].
  destruct (ascii_word_facts U c Hw) as (_ & Hword & Hbs & _).
  unfold atom_re; rewrite exec_grp, exec_alt.
  rewrite (exec_fails (Seq (Chr 0x5c%N) _) c) with (t := t);
    [|cbn [fails Chr]; now rewrite Hbs|exact Hs].
  cbn [or_else]; rewrite exec_alt.
  rewrite (exec_fails (Seq (Chr 0x5c%N) Dot) c) with (t := t);
    [|cbn [fails Chr]; now rewrite Hbs|exact Hs].
  cbn [or_else]; rewrite exec_alt.
  unfold Plus at 1; rewrite exec_seq, exec_cls, Hs, Hword.
  rewrite exec_star, star_greedy by (cbn [advance m_rest]; lia).
  cbn [advance m_rest].
  match goal with
  | |- context [greedy _ ?k ?s0 t] =>
      destruct (greedy_total (is_word U) k t ltac:(intros; discriminate) s0)
        as (s' & He & Hp & Hcaps)
  end.
  rewrite He; cbn [or_else].
  eexists; split; [reflexivity|].
  cbn [close_group m_pos m_caps] in *; rewrite Hp, Hcaps; split; reflexivity.
Qed.

Lemma token_word_run (U : Unicode) (text : pystr) (pos : nat)
  (prev : option char) (c : char) (t : pystr) :
  ascii_alnum c = true ->
  match_at (token_re U) text pos prev (c :: t)
  = Some {| mo_string := text; mo_start := pos;
            mo_end := S pos + run_length (is_word U) t;
            mo_caps := [(6, (pos, S pos + run_length (is_word U) t))] |}.
Proof.
  intros Hc; destruct (ascii_alnum_word c Hc) as [Hw Hu].
  destruct (ascii_word_facts U c Hw) as (Hsp & _ & Hbs & Hcaret & _ & _).
  unfold match_at, token_re.
  set (s := {| m_pos := pos; m_prev := prev; m_rest := c :: t;
               m_caps := [] |}).
  rewrite exec_alt, (exec_fails (Plus true Space) c) with (t := t);
    [|cbn [fails Plus Space]; now rewrite Hsp|reflexivity].
  cbn [or_else].
  rewrite exec_alt, (exec_fails frac_call_re c) with (t := t);
    [|change (fails frac_call_re c) with (negb (N.eqb 0x5c%N c));
      now rewrite Hbs|reflexivity].
  cbn [or_else].
  rewrite exec_seq; unfold Opt at 1; rewrite exec_alt.
  rewrite (exec_fails (command_prefix_re U) c) with (t := t);
    [|change (fails (command_prefix_re U) c)
        with (negb (N.eqb 0x5c%N c) && negb (N.eqb 0x5c%N c));
      now rewrite Hbs|reflexivity].
  cbn [or_else]; rewrite exec_eps.
  rewrite exec_seq; unfold Opt at 1; rewrite exec_alt.
  rewrite (exec_fails mark_re c) with (t := t);
    [|cbn [fails mark_re]; now rewrite Hu, Hcaret|reflexivity].
  cbn [or_else]; rewrite exec_eps.
  destruct (atom_word_run U s c t Hc eq_refl) as (e & -> & Hp & Hcaps).
  now rewrite Hp, Hcaps.
Qed.

(** The token of a superscript mark before a letter or a digit. *)
Lemma token_caret (U : Unicode) (text : pystr) (pos : nat)
  (prev : option char) (c : char) (t : pystr) :
  ascii_alnum c = true ->
  match_at (token_re U) text pos prev (0x5e%N :: c :: t)
  = Some {| mo_string := text; mo_start := pos;
            mo_end := S (S pos) + run_length (is_word U) t;
            mo_caps := [(6, (S pos, S (S pos) + run_length (is_word U) t))] |}.
Proof.
  intros Hc.
  unfold match_at, token_re.
  set (s := {| m_pos := pos; m_prev := prev; m_rest := 0x5e%N :: c :: t;
               m_caps := [] |}).
  rewrite exec_alt, (exec_fails (Plus true Space) 0x5e%N) with (t := c :: t);
    [|reflexivity|reflexivity].
  cbn [or_else].
  rewrite exec_alt, (exec_fails frac_call_re 0x5e%N) with (t := c :: t);
    [|reflexivity|reflexivity].
  cbn [or_else].
  rewrite exec_seq; unfold Opt at 1; rewrite exec_alt.
  rewrite (exec_fails (command_prefix_re U) 0x5e%N) with (t := c :: t);
    [|reflexivity|reflexivity].
  cbn [or_else]; rewrite exec_eps.
  rewrite exec_seq; unfold Opt at 1; rewrite exec_alt.
  unfold mark_re at 1; rewrite exec_cls.
  cbn [m_rest s N.eqb Pos.eqb orb].
  destruct (atom_word_run U (advance s 0x5e%N (c :: t)) c t Hc eq_refl)
    as (e & -> & Hp & Hcaps).
  cbn [or_else]; cbn [advance m_pos m_caps s] in Hp, Hcaps.
  now rewrite Hp, Hcaps.
Qed.

Lemma word_run (U : Unicode) (t u : pystr) :
  forallb ascii_word t = true ->
  match u with x :: _ => is_word U x = false | [] => True end ->
  run_length (is_word U) (t ++ u) = List.length t.
Proof.
  intros Ht; apply run_length_app, forallb_forall; intros x Hx.
  rewrite forallb_forall in Ht.
  now destruct (ascii_word_facts U x (Ht x Hx)) as (_ & H & _).
Qed.

Lemma finditer_caret (U : Unicode) (c : char) (t : pystr) (c2 : char)
  (t2 : pystr) :
  ascii_alnum c = true -> forallb ascii_word t = true ->
  ascii_alnum c2 = true -> forallb ascii_word t2 = true ->
  map group0 (finditer (token_re U) (c :: t ++ 0x5e%N :: c2 :: t2))
  = [c :: t; 0x5e%N :: c2 :: t2].
Proof.
  intros Hc Ht Hc2 Ht2.
  set (text := c :: t ++ 0x5e%N :: c2 :: t2).
  unfold finditer; unfold text at 2; cbn [scan].
  rewrite (token_word_run U text 0 None c _ Hc).
  rewrite (word_run U t (0x5e%N :: c2 :: t2) Ht) by reflexivity.
  cbn [mo_end Nat.add].
  replace (S (List.length t) - 0 - 1) with (List.length t) by lia.
  rewrite scan_skip; cbn [scan].
  rewrite (token_caret U text _ _ c2 t2 Hc2).
  pose proof (word_run U t2 [] Ht2 I) as Hr; rewrite app_nil_r in Hr.
  rewrite Hr; cbn [mo_end].
  replace (S (S (1 + List.length t)) + List.length t2 - (1 + List.length t) - 1)
    with (S (List.length t2)) by lia.
  cbn beta iota; rewrite scan_skip_all by (intros; reflexivity).
  cbn [map]; unfold group0, substr; cbn [mo_string mo_start mo_end].
  f_equal; [|f_equal].
  - unfold text; cbn [skipn Nat.sub firstn]; f_equal.
    rewrite firstn_app, Nat.sub_diag, firstn_all; cbn [firstn].
    apply app_nil_r.
  - unfold text.
    replace (1 + List.length t) with (S (List.length t)) by lia.
    cbn [skipn]; rewrite skipn_app, Nat.sub_diag, skipn_all; cbn [skipn app].
    replace (S (S (S (List.length t))) + List.length t2 - S (List.length t))
      with (S (S (List.length t2))) by lia.
    apply (firstn_all (0x5e%N :: c2 :: t2)).
Qed.

Lemma word_chars (U : Unicode) (c : char) (t : pystr) :
  ascii_alnum c = true -> forallb ascii_word t = true ->
  (forall x, In x (c :: t) -> is_space x = false)
  /\ magic_free (c :: t) /\ lookup_command U (c :: t) = c :: t.
Proof.
  intros Hc Ht; destruct (ascii_alnum_word c Hc) as [Hw Hu].
  destruct (ascii_word_facts U c Hw) as (Hsp & _ & Hbs & _ & Hamp & _).
  assert (Hall : forall x, In x (c :: t) ->
                           is_space x = false /\ is_magic x = false).
  { intros x [<-|Hx].
    - now destruct (ascii_word_facts U c Hw) as (H1 & _ & _ & _ & _ & H2).
    - rewrite forallb_forall in Ht.
      now destruct (ascii_word_facts U x (Ht x Hx))
        as (H1 & _ & _ & _ & _ & H2). }
  split; [intros x Hx; now apply Hall|].
  split; [intros x Hx; now apply Hall|].
  unfold lookup_command.
  replace (startswith (str "\") (c :: t)) with false
    by (change (startswith (str "\") (c :: t))
          with (N.eqb 0x5c%N c && true); now rewrite Hbs).
  replace (isspace (c :: t)) with false
    by (cbn [isspace forallb]; now rewrite Hsp).
  replace (streq (c :: t) (str "&")) with false; [reflexivity|].
  change (streq (c :: t) (str "&"))
    with (N.eqb c 0x26%N && streq t []); now rewrite Hamp.
Qed.

Lemma expand_group_caret (U : Unicode) (fuel : nat) (parts : list pystr)
  (c : char) (t s : pystr) (e : env) :
  ascii_alnum c = true -> forallb ascii_word t = true ->
  to_superscript (c :: t) = Ret s ->
  Forall (fun p => p <> []) parts ->
  expand_group U (S (S fuel)) parts (0x5e%N :: c :: t) e = Ret (strip s, e).
Proof.
  intros Hc Ht Hs Hp; rewrite (expand_group_parts U parts _ Hp).
  destruct (word_chars U c t Hc Ht) as (Hsp & Hfree & Hl).
  assert (Hf : forall r, fails r 0x5e%N = true ->
                         matches r (0x5e%N :: c :: t) = false)
    by (intros r; apply matches_fails).
  cbn [expand_group].
  rewrite (Hf (mathcal_re U)) by reflexivity.
  rewrite (Hf (mathfrak_re U)) by reflexivity.
  rewrite (Hf (mathbb_re U)) by reflexivity.
  rewrite (Hf (begin_end_re U)) by reflexivity.
  rewrite (Hf (text_re U)) by reflexivity.
  rewrite (Hf sqrt_index_re) by reflexivity.
  rewrite (Hf (sqrt_re U)) by reflexivity.
  rewrite (Hf (frac_test_re U)) by reflexivity.
  replace (startswith (str "_") (0x5e%N :: c :: t)) with false
    by reflexivity.
  replace (startswith (str "^") (0x5e%N :: c :: t)) with true by reflexivity.
  cbn [skipn]; unfold finish_group; rewrite Hl.
  unfold bind at 1 2; rewrite expand_free by exact Hfree.
  rewrite strip_nospace by exact Hsp.
  unfold lift at 1; cbn [apply_style]; rewrite Hs.
  unfold bind at 1, lift.
  replace (needs_space U [] s) with (Ret (A := bool) false) by reflexivity.
  destruct (to_superscript_total 0 (c :: t)) as (r & Hr & Hb);
    [now apply magic_free_bounded|].
  rewrite Hs in Hr; injection Hr as <-.
  rewrite expand_free by now apply bounded_zero.
  reflexivity.
Qed.

(** X20: a word followed by the superscript mark and a second word, both
    of ASCII letters, digits and underscores and beginning with a letter or
    a digit: [to_math] returns the first word followed by the superscript
    of the second, stripped. *)
Theorem to_math_caret (U : Unicode) (fuel : nat) (c : char) (t : pystr)
  (c2 : char) (t2 s : pystr) :
  ascii_alnum c = true -> forallb ascii_word t = true ->
  ascii_alnum c2 = true -> forallb ascii_word t2 = true ->
  to_superscript (c2 :: t2) = Ret s ->
  to_math U (S (S (S fuel))) (c :: t ++ 0x5e%N :: c2 :: t2)
  = Ret (c :: t ++ strip s).
Proof.
  intros Hc Ht Hc2 Ht2 Hs.
  assert (Hb : ~ In lbrace (c :: t ++ 0x5e%N :: c2 :: t2)).
  { assert (Hw : forall x l, ascii_alnum x = true ->
                             forallb ascii_word l = true ->
                             ~ In lbrace (x :: l)).
    { intros x l Hx Hl [E|Hin]; [subst x; discriminate Hx|].
      rewrite forallb_forall in Hl; specialize (Hl _ Hin); discriminate Hl. }
    change (c :: t ++ 0x5e%N :: c2 :: t2)
      with ((c :: t) ++ 0x5e%N :: c2 :: t2).
    intros Hin; apply in_app_or in Hin as [Hin|[E|Hin]];
      [now apply (Hw c t)|discriminate E|now apply (Hw c2 t2)]. }
  unfold to_math, to_math_run, bind at 1, print.
  unfold bind at 1; rewrite recurse_S.
  rewrite until_fixed_S, brace_pass_none by exact Hb.
  rewrite streq_refl.
  pose proof (finditer_caret U c t c2 t2 Hc Ht Hc2 Ht2) as Hfind.
  destruct (finditer (token_re U) _) as [|m1 [|m2 [|m3 ms]]];
    try discriminate Hfind.
  injection Hfind as E1 E2.
  cbn [for_tokens]; unfold bind at 1; rewrite E1.
  rewrite (expand_group_word U fuel c t _ Hc Ht); cbn [nonempty app].
  unfold bind at 1; rewrite E2.
  rewrite (expand_group_caret U fuel [c :: t] c2 t2 s _ Hc2 Ht2 Hs)
    by (repeat constructor; discriminate).
  unfold ret; cbn [rbind fst]; f_equal.
  destruct (strip s) as [|x l]; cbn [nonempty app concat];
    now rewrite ?app_nil_r.
Qed.

Lemma to_math_caret_witness :
  to_math latin1 3 (str "x^2") = Ret (str "x" ++ [0xb2%N])
  /\ to_math latin1 3 (str "x^10") = Ret (str "x^(10)").
Proof.
  split.
  - apply (to_math_caret latin1 0 0x78%N [] 0x32%N [] [0xb2%N]);
      reflexivity.
  - apply (to_math_caret latin1 0 0x78%N [] 0x31%N (str "0") (str "^(10)"));
      reflexivity.
Defined.

(** ** A braced superscript in [to_math] *)

Lemma scan_fail_prefix (r : re) (text : pystr) (a : pystr) :
  Forall (fun x => fails r x = true) a ->
  forall rest pos prev,
    scan r text pos prev (a ++ rest) 0
    = scan r text (pos + List.length a)
        (match rev a with x :: _ => Some x | [] => prev end) rest 0.
Proof.
  induction 1 as [|x a Hx _ IH]; intros rest pos prev.
  - cbn [app List.length rev]; now rewrite Nat.add_0_r.
  - cbn [app List.length scan]; unfold match_at.
    rewrite (exec_fails r x Hx) with (t := a ++ rest) by reflexivity.
    rewrite IH.
    replace (S pos + List.length a) with (pos + S (List.length a)) by lia.
    cbn [rev]; destruct (rev a); reflexivity.
Qed.

(** A greedy run that can go on after its longest extent does. *)
Lemma greedy_max (p : char -> bool) (k : mstate -> option mstate)
  (u : pystr) (run : pystr) :
  match u with x :: _ => p x = false | [] => True end ->
  forallb p run = true ->
  forall s,
    exists s',
      m_pos s' = m_pos s + List.length run /\ m_rest s' = u
      /\ m_caps s' = m_caps s
      /\ (k s' <> None ->
          greedy p k {| m_pos := m_pos s; m_prev := m_prev s;
                        m_rest := run ++ u; m_caps := m_caps s |} (run ++ u)
          = k s').
Proof.
  intros Hu; induction run as [|c run IH]; intros Hrun s.
  - exists {| m_pos := m_pos s; m_prev := m_prev s; m_rest := u;
              m_caps := m_caps s |}.
    cbn [app List.length m_pos m_rest m_caps]; repeat split; [lia|].
    intros _; destruct u as [|x u]; [reflexivity|].
    cbn [greedy]; now rewrite Hu.
  - cbn [forallb] in Hrun; apply andb_true_iff in Hrun as [Hc Hrun].
    destruct (IH Hrun {| m_pos := S (m_pos s); m_prev := Some c;
                         m_rest := run ++ u; m_caps := m_caps s |})
      as (s' & Hp & Hr & Hcaps & Hk).
    cbn [m_pos m_prev m_caps] in *.
    exists s'; repeat split; [cbn [List.length]; lia|exact Hr|exact Hcaps|].
    intros Hne; cbn [app greedy]; rewrite Hc.
    unfold advance; cbn [m_pos m_caps].
    rewrite (Hk Hne); destruct (k s'); [reflexivity|contradiction].
Qed.

Lemma no_brace_class (w : pystr) :
  ~ In 0x7b%N w -> ~ In 0x7d%N w ->
  forallb (fun c => negb (existsb (N.eqb c) (str "{" ++ str "}"))) w = true.
Proof.
  intros H1 H2; apply forallb_forall; intros x Hx.
  cbn [str existsb app map list_ascii_of_string].
  change (N_of_ascii "{") with 0x7b%N; change (N_of_ascii "}") with 0x7d%N.
  destruct (N.eqb_spec x 0x7b%N) as [->|_]; [contradiction|].
  destruct (N.eqb_spec x 0x7d%N) as [->|_]; [contradiction|].
  reflexivity.
Qed.

(** The pattern of the brace groups at a group without braces inside. *)
Lemma match_at_brace (text : pystr) (pos : nat) (prev : option char)
  (c : char) (t u : pystr) :
  ~ In 0x7b%N (c :: t) -> ~ In 0x7d%N (c :: t) ->
  match_at brace_re text pos prev (0x7b%N :: (c :: t) ++ 0x7d%N :: u)
  = Some {| mo_string := text; mo_start := pos;
            mo_end := S (S (S pos)) + List.length t;
            mo_caps := [(1, (S pos, S (S pos) + List.length t))] |}.
Proof.
  intros H1 H2.
  pose proof (no_brace_class (c :: t) H1 H2) as Hall.
  cbn [forallb] in Hall; apply andb_true_iff in Hall as [Hc Ht].
  unfold match_at, brace_re, math_magic_re.
  change (Lit (str "{")) with (Cls (N.eqb 0x7b%N)).
  change (Lit (str "}")) with (Cls (N.eqb 0x7d%N)).
  rewrite exec_seq, exec_cls; cbn [m_rest N.eqb Pos.eqb].
  rewrite exec_seq, exec_grp; unfold Plus, NoneOf.
  rewrite exec_seq, exec_cls; cbn [advance m_rest app].
  rewrite Hc, exec_star, star_greedy by (cbn [advance m_rest]; lia).
  unfold advance; cbn [m_rest m_pos m_caps m_prev].
  match goal with
  | |- context [greedy ?p ?k ?s0 _] =>
      destruct (greedy_max p k (0x7d%N :: u) t eq_refl Ht s0)
        as (s' & Hp & Hr & Hcaps & Hk)
  end.
  cbn [m_pos m_prev m_caps] in Hp, Hcaps, Hk.
  rewrite Hk.
  - rewrite exec_cls; cbn [close_group m_rest]; rewrite Hr.
    cbn [N.eqb Pos.eqb advance close_group m_pos m_caps].
    rewrite Hp, Hcaps; repeat f_equal; lia.
  - rewrite exec_cls; cbn [close_group m_rest]; rewrite Hr.
    cbn [N.eqb Pos.eqb]; discriminate.
Qed.

(** The brace groups of a text with one group, and no brace before it. *)
Lemma finditer_brace (a : pystr) (c : char) (t : pystr) :
  ~ In 0x7b%N a -> ~ In 0x7b%N (c :: t) -> ~ In 0x7d%N (c :: t) ->
  finditer brace_re (a ++ 0x7b%N :: (c :: t) ++ [0x7d%N])
  = [{| mo_string := a ++ 0x7b%N :: (c :: t) ++ [0x7d%N];
        mo_start := List.length a;
        mo_end := S (S (S (List.length a))) + List.length t;
        mo_caps := [(1, (S (List.length a),
                         S (S (List.length a)) + List.length t))] |}].
Proof.
  intros Ha H1 H2.
  set (text := a ++ 0x7b%N :: (c :: t) ++ [0x7d%N]).
  unfold finditer; unfold text at 2.
  rewrite scan_fail_prefix.
  - cbn [Nat.add scan].
    rewrite (match_at_brace text (List.length a) _ c t [] H1 H2).
    cbn [mo_end app]; f_equal.
    replace (S (S (S (List.length a))) + List.length t - List.length a - 1)
      with (S (S (List.length t))) by lia.
    cbn beta iota.
    rewrite <- (last_length t 0x7d%N).
    apply scan_skip_all; intros; reflexivity.
  - apply Forall_forall; intros x Hx.
    change (fails brace_re x) with (negb (N.eqb 0x7b%N x)).
    destruct (N.eqb_spec 0x7b%N x) as [<-|_]; [contradiction|reflexivity].
Qed.

Lemma recurse_word (U : Unicode) (fuel : nat) (c : char) (t : pystr)
  (e : env) :
  ascii_alnum c = true -> forallb ascii_word t = true ->
  recurse U (S (S (S fuel))) (c :: t) e
  = Ret (c :: t, {| magic_vec := magic_vec e;
                    printed := printed e ++ [Print_before_iter (c :: t)] |}).
Proof.
  intros Hc Ht.
  assert (Hb : ~ In lbrace (c :: t)).
  { intros [E|Hin].
    - subst c; discriminate Hc.
    - rewrite forallb_forall in Ht; specialize (Ht _ Hin); discriminate Ht. }
  rewrite recurse_S, until_fixed_S, brace_pass_none by exact Hb.
  rewrite streq_refl.
  rewrite (finditer_word U c t Hc Ht); cbn [for_tokens].
  unfold bind at 1, group0; cbn [mo_string mo_start mo_end].
  unfold substr; cbn [skipn Nat.sub].
  replace (firstn (S (List.length t)) (c :: t)) with (c :: t)
    by (symmetry; apply (firstn_all (c :: t))).
  rewrite (expand_group_word U fuel c t _ Hc Ht).
  cbn [nonempty app concat ret]; now rewrite app_nil_r.
Qed.

(** One pass over the brace groups of a word, the mark and a braced word:
    the group becomes the first placeholder, and the word the first entry
    of the vector. *)
Lemma brace_pass_caret (U : Unicode) (fuel : nat) (a : pystr) (c : char)
  (t : pystr) (e : env) :
  ~ In 0x7b%N a ->
  ascii_alnum c = true -> forallb ascii_word t = true ->
  magic_vec e = [] ->
  re_sub_m brace_re (math_magic_repl (recurse U (S (S (S fuel)))))
    (a ++ 0x7b%N :: (c :: t) ++ [0x7d%N]) e
  = Ret (a ++ [MAGIC_FIRST],
         {| magic_vec := [c :: t];
            printed := printed e ++ [Print_before_iter (c :: t)] |}).
Proof.
  intros Ha Hc Ht Hv.
  assert (Hw : forall x, In x (c :: t) -> ascii_word x = true).
  { intros x [<-|Hx]; [now apply ascii_alnum_word|].
    rewrite forallb_forall in Ht; now apply Ht. }
  assert (H1 : ~ In 0x7b%N (c :: t))
    by (intros H; apply Hw in H; discriminate H).
  assert (H2 : ~ In 0x7d%N (c :: t))
    by (intros H; apply Hw in H; discriminate H).
  unfold re_sub_m; rewrite (finditer_brace a c t Ha H1 H2).
  unfold bind at 1; rewrite mmap_cons, math_magic_repl_eq, Hv.
  replace (chr (MAGIC_FIRST + N.of_nat (List.length (@nil pystr))))
    with (Ret [MAGIC_FIRST]) by reflexivity.
  assert (Hg : group_or_empty
                 {| mo_string := a ++ 0x7b%N :: (c :: t) ++ [0x7d%N];
                    mo_start := List.length a;
                    mo_end := S (S (S (List.length a))) + List.length t;
                    mo_caps := [(1, (S (List.length a),
                                     S (S (List.length a)) + List.length t))] |}
                 1 = c :: t).
  { unfold group_or_empty, group; cbn [cap_get Nat.eqb mo_caps mo_string].
    unfold substr.
    replace (S (S (List.length a)) + List.length t - S (List.length a))
      with (S (List.length t)) by lia.
    replace (S (List.length a)) with (List.length (a ++ [0x7b%N]))
      by (rewrite last_length; reflexivity).
    replace (a ++ 0x7b%N :: (c :: t) ++ [0x7d%N])
      with ((a ++ [0x7b%N]) ++ (c :: t) ++ [0x7d%N])
      by (rewrite <- app_assoc; reflexivity).
    rewrite skipn_app, Nat.sub_diag, skipn_all; cbn [skipn app firstn].
    f_equal; rewrite firstn_app, Nat.sub_diag, firstn_all; cbn [firstn].
    apply app_nil_r. }
  rewrite Hg, (recurse_word U fuel c t e Hc Ht); cbn [magic_vec printed].
  rewrite Hv; cbn [mmap ret app].
  unfold ret; f_equal; f_equal.
  cbn [splice mo_start mo_end]; unfold substr; cbn [skipn Nat.sub].
  rewrite Nat.sub_0_r, firstn_app, Nat.sub_diag, firstn_all; cbn [firstn].
  rewrite app_nil_r; f_equal; cbn [app]; f_equal.
  apply skipn_all2; rewrite length_app; cbn [List.length].
  rewrite length_app; cbn [List.length]; lia.
Qed.

(** The token of a superscript mark before a single character that is
    neither a backslash nor a newline. *)
Lemma token_caret_one (U : Unicode) (text : pystr) (pos : nat)
  (prev : option char) (x : char) :
  N.eqb 0x5c%N x = false -> N.eqb x chr_nl = false ->
  match_at (token_re U) text pos prev [0x5e%N; x]
  = Some {| mo_string := text; mo_start := pos; mo_end := S (S pos);
            mo_caps := [(6, (S pos, S (S pos)))] |}.
Proof.
  intros Hbs Hnl.
  unfold match_at, token_re.
  set (s := {| m_pos := pos; m_prev := prev; m_rest := [0x5e%N; x];
               m_caps := [] |}).
  rewrite exec_alt, (exec_fails (Plus true Space) 0x5e%N) with (t := [x]);
    [|reflexivity|reflexivity].
  cbn [or_else].
  rewrite exec_alt, (exec_fails frac_call_re 0x5e%N) with (t := [x]);
    [|reflexivity|reflexivity].
  cbn [or_else].
  rewrite exec_seq; unfold Opt at 1; rewrite exec_alt.
  rewrite (exec_fails (command_prefix_re U) 0x5e%N) with (t := [x]);
    [|reflexivity|reflexivity].
  cbn [or_else]; rewrite exec_eps.
  rewrite exec_seq; unfold Opt at 1; rewrite exec_alt.
  unfold mark_re at 1; rewrite exec_cls.
  cbn [m_rest s N.eqb Pos.eqb orb].
  set (s1 := advance s 0x5e%N [x]).
  unfold atom_re; rewrite exec_grp, exec_alt.
  rewrite (exec_fails (Seq (Chr 0x5c%N) _) x) with (t := []);
    [|cbn [fails Chr]; now rewrite Hbs|reflexivity].
  cbn [or_else]; rewrite exec_alt.
  rewrite (exec_fails (Seq (Chr 0x5c%N) Dot) x) with (t := []);
    [|cbn [fails Chr]; now rewrite Hbs|reflexivity].
  cbn [or_else]; rewrite exec_alt.
  unfold Plus at 1; rewrite exec_seq, exec_cls.
  cbn [m_rest s1 advance].
  destruct (is_word U x).
  - rewrite exec_star; cbn [advance m_rest List.length star_loop or_else].
    reflexivity.
  - cbn [or_else]; unfold Dot; rewrite exec_cls.
    subst s1 s; unfold advance at 1; cbn [m_rest]; rewrite Hnl; reflexivity.
Qed.

Lemma finditer_caret_one (U : Unicode) (c : char) (t : pystr) (x : char) :
  ascii_alnum c = true -> forallb ascii_word t = true ->
  N.eqb 0x5c%N x = false -> N.eqb x chr_nl = false ->
  map group0 (finditer (token_re U) (c :: t ++ [0x5e%N; x]))
  = [c :: t; [0x5e%N; x]].
Proof.
  intros Hc Ht Hbs Hnl.
  set (text := c :: t ++ [0x5e%N; x]).
  unfold finditer; unfold text at 2; cbn [scan].
  rewrite (token_word_run U text 0 None c _ Hc).
  rewrite (word_run U t [0x5e%N; x] Ht) by reflexivity.
  cbn [mo_end Nat.add].
  replace (S (List.length t) - 0 - 1) with (List.length t) by lia.
  rewrite scan_skip; cbn [scan].
  rewrite (token_caret_one U text _ _ x Hbs Hnl).
  cbn [mo_end].
  replace (S (S (1 + List.length t)) - (1 + List.length t) - 1) with 1
    by lia.
  cbn beta iota.
  replace (match_at (token_re U) text (S (S (1 + List.length t))) (Some x) [])
    with (@None mobj) by reflexivity.
  cbn [map]; unfold group0, substr; cbn [mo_string mo_start mo_end].
  f_equal; [|f_equal].
  - unfold text; cbn [skipn Nat.sub firstn]; f_equal.
    rewrite firstn_app, Nat.sub_diag, firstn_all; cbn [firstn].
    apply app_nil_r.
  - unfold text.
    replace (1 + List.length t) with (S (List.length t)) by lia.
    cbn [skipn]; rewrite skipn_app, Nat.sub_diag, skipn_all; cbn [skipn app].
    replace (S (S (S (List.length t))) - S (List.length t)) with 2 by lia.
    reflexivity.
Qed.

(** The brace loops of [recurse] on a text whose only braces enclose a
    word at its end: the group becomes the first placeholder. *)
Lemma braces_caret (U : Unicode) (fuel : nat) (a : pystr) (c : char)
  (t : pystr) (e : env) :
  ~ In 0x7b%N a ->
  ascii_alnum c = true -> forallb ascii_word t = true ->
  magic_vec e = [] ->
  until_fixed (S (S (S fuel)))
    (fun x => math_magic (S (S (S fuel))) x (str "{") (str "}")
                (recurse U (S (S (S fuel)))))
    (a ++ 0x7b%N :: (c :: t) ++ [0x7d%N]) e
  = Ret (a ++ [MAGIC_FIRST],
         {| magic_vec := [c :: t];
            printed := printed e ++ [Print_before_iter (c :: t)] |}).
Proof.
  intros Ha Hc Ht He.
  set (fn := recurse U (S (S (S fuel)))).
  set (e1 := {| magic_vec := [c :: t];
                printed := printed e ++ [Print_before_iter (c :: t)] |}).
  assert (Hne : streq (a ++ [MAGIC_FIRST])
                  (a ++ 0x7b%N :: (c :: t) ++ [0x7d%N]) = false).
  { apply streq_neq; intros E; apply app_inv_head in E; discriminate E. }
  assert (Hb : ~ In lbrace (a ++ [MAGIC_FIRST])).
  { intros Hin; apply in_app_or in Hin as [Hin|[E|[]]];
      [now apply Ha|discriminate E]. }
  assert (Hm : math_magic (S (S (S fuel)))
                 (a ++ 0x7b%N :: (c :: t) ++ [0x7d%N]) (str "{") (str "}")
                 fn e = Ret (a ++ [MAGIC_FIRST], e1)).
  { unfold math_magic; rewrite until_fixed_S.
    change (math_magic_re (str "{") (str "}")) with brace_re.
    unfold fn at 1; rewrite (brace_pass_caret U fuel a c t e Ha Hc Ht He).
    fold e1; rewrite Hne.
    change (until_fixed (S (S fuel)) (re_sub_m brace_re (math_magic_repl fn))
              (a ++ [MAGIC_FIRST]) e1)
      with (math_magic (S (S fuel)) (a ++ [MAGIC_FIRST]) (str "{") (str "}")
              fn e1).
    now apply brace_pass_none. }
  rewrite until_fixed_S, Hm, Hne, until_fixed_S.
  rewrite brace_pass_none by exact Hb.
  now rewrite streq_refl.
Qed.

Lemma resolve_first (w : pystr) : resolve [w] [MAGIC_FIRST] = w.
Proof.
  unfold resolve; cbn [flat_map].
  replace (is_magic MAGIC_FIRST) with true by reflexivity.
  replace (N.to_nat (MAGIC_FIRST - MAGIC_FIRST)) with 0 by reflexivity.
  cbn [nth]; apply app_nil_r.
Qed.

(** [expand] on the first placeholder returns the text it stands for,
    stripped, when that text holds no placeholder. *)
Lemma expand_first (fuel : nat) (w : pystr) (e : env) :
  magic_vec e = [w] -> magic_free w ->
  expand (S (S fuel)) [MAGIC_FIRST] e = Ret (strip w, e).
Proof.
  intros He Hw.
  assert (Hb : bounded (List.length (magic_vec e)) [MAGIC_FIRST]).
  { rewrite He; intros x [<-|[]] _; vm_compute; lia. }
  unfold expand, bind.
  rewrite until_fixed_S, (expand_pass_resolve _ _ Hb), He, resolve_first.
  destruct (streq w [MAGIC_FIRST]) eqn:E; [reflexivity|].
  now rewrite until_fixed_S, (expand_pass_free w e Hw), streq_refl.
Qed.

(** [expand_group] on the superscript mark before the first placeholder,
    which stands for a word. *)
Lemma expand_group_caret_first (U : Unicode) (fuel : nat)
  (parts : list pystr) (c : char) (t s : pystr) (e : env) :
  ascii_alnum c = true -> forallb ascii_word t = true ->
  to_superscript (c :: t) = Ret s ->
  Forall (fun p => p <> []) parts ->
  magic_vec e = [c :: t] ->
  expand_group U (S (S (S fuel))) parts [0x5e%N; MAGIC_FIRST] e
  = Ret (strip s, e).
Proof.
  intros Hc Ht Hs Hp He; rewrite (expand_group_parts U parts _ Hp).
  destruct (word_chars U c t Hc Ht) as (Hsp & Hfree & _).
  assert (Hf : forall r, fails r 0x5e%N = true ->
                         matches r [0x5e%N; MAGIC_FIRST] = false)
    by (intros r; apply matches_fails).
  cbn [expand_group].
  rewrite (Hf (mathcal_re U)) by reflexivity.
  rewrite (Hf (mathfrak_re U)) by reflexivity.
  rewrite (Hf (mathbb_re U)) by reflexivity.
  rewrite (Hf (begin_end_re U)) by reflexivity.
  rewrite (Hf (text_re U)) by reflexivity.
  rewrite (Hf sqrt_index_re) by reflexivity.
  rewrite (Hf (sqrt_re U)) by reflexivity.
  rewrite (Hf (frac_test_re U)) by reflexivity.
  replace (startswith (str "_") [0x5e%N; MAGIC_FIRST]) with false
    by reflexivity.
  replace (startswith (str "^") [0x5e%N; MAGIC_FIRST]) with true
    by reflexivity.
  cbn [skipn]; unfold finish_group.
  replace (lookup_command U [MAGIC_FIRST]) with [MAGIC_FIRST]
    by reflexivity.
  unfold bind at 1 2; rewrite (expand_first fuel (c :: t) e He Hfree).
  rewrite strip_nospace by exact Hsp.
  unfold lift at 1; cbn [apply_style]; rewrite Hs.
  unfold bind at 1, lift.
  replace (needs_space U [] s) with (Ret (A := bool) false) by reflexivity.
  destruct (to_superscript_total 0 (c :: t)) as (r & Hr & Hb);
    [now apply magic_free_bounded|].
  rewrite Hs in Hr; injection Hr as <-.
  rewrite expand_free by now apply bounded_zero.
  reflexivity.
Qed.

(** X21: a word followed by the superscript mark and a second word in
    braces, both words of ASCII letters, digits and underscores and
    beginning with a letter or a digit: [to_math] returns the first word
    followed by the superscript of the second, stripped; the braces are
    gone, as for the same input written without them. *)
Theorem to_math_caret_braced (U : Unicode) (fuel : nat) (c : char)
  (t : pystr) (c2 : char) (t2 s : pystr) :
  ascii_alnum c = true -> forallb ascii_word t = true ->
  ascii_alnum c2 = true -> forallb ascii_word t2 = true ->
  to_superscript (c2 :: t2) = Ret s ->
  to_math U (S (S (S (S fuel))))
    (c :: t ++ 0x5e%N :: 0x7b%N :: (c2 :: t2) ++ [0x7d%N])
  = Ret (c :: t ++ strip s).
Proof.
  intros Hc Ht Hc2 Ht2 Hs.
  assert (Ha : ~ In 0x7b%N ((c :: t) ++ [0x5e%N])).
  { intros Hin; apply in_app_or in Hin as [[E|Hin]|[E|[]]];
      [subst c; discriminate Hc| |discriminate E].
    rewrite forallb_forall in Ht; specialize (Ht _ Hin); discriminate Ht. }
  replace (c :: t ++ 0x5e%N :: 0x7b%N :: (c2 :: t2) ++ [0x7d%N])
    with (((c :: t) ++ [0x5e%N]) ++ 0x7b%N :: (c2 :: t2) ++ [0x7d%N])
    by (rewrite <- app_assoc; reflexivity).
  unfold to_math, to_math_run, bind at 1, print.
  unfold bind at 1; rewrite recurse_S.
  rewrite (braces_caret U fuel ((c :: t) ++ [0x5e%N]) c2 t2)
    by (assumption || reflexivity).
  replace (((c :: t) ++ [0x5e%N]) ++ [MAGIC_FIRST])
    with (c :: t ++ [0x5e%N; MAGIC_FIRST])
    by (rewrite <- app_assoc; reflexivity).
  pose proof (finditer_caret_one U c t MAGIC_FIRST Hc Ht eq_refl eq_refl)
    as Hfind.
  destruct (finditer (token_re U) _) as [|m1 [|m2 [|m3 ms]]];
    try discriminate Hfind.
  injection Hfind as E1 E2.
  cbn [for_tokens]; unfold bind at 1; rewrite E1.
  rewrite (expand_group_word U (S fuel) c t _ Hc Ht); cbn [nonempty app].
  unfold bind at 1; rewrite E2.
  rewrite (expand_group_caret_first U fuel [c :: t] c2 t2 s _ Hc2 Ht2 Hs)
    by (try reflexivity; repeat constructor; discriminate).
  unfold ret; cbn [rbind fst]; f_equal.
  destruct (strip s) as [|x l]; cbn [nonempty app concat];
    now rewrite ?app_nil_r.
Qed.

Lemma to_math_caret_braced_witness :
  to_math latin1 4 (str "x^{2}") = Ret (str "x" ++ [0xb2%N])
  /\ to_math latin1 4 (str "x^{10}") = Ret (str "x^(10)").
Proof.
  split.
  - apply (to_math_caret_braced latin1 0 0x78%N [] 0x32%N [] [0xb2%N]);
      reflexivity.
  - apply (to_math_caret_braced latin1 0 0x78%N [] 0x31%N (str "0")
             (str "^(10)"));
      reflexivity.
Defined.
(** ** The fraction branch, whatever the previous parts *)

(** C2, as stated, fails on [\frac_2] and on [\fracab]: the tokenizer takes
    each for a fraction whose two arguments are single characters, which
    match the argument pattern, but the branch test of [expand_group] asks
    for the end of the token, a digit or a word boundary after [\frac]; the
    token is then looked up as the command that it spells, and the sides are
    never joined. *)
Lemma frac_guard_rejects :
  map group0 (finditer (token_re latin1) (str "\frac_2")) = [str "\frac_2"]
  /\ (exists m, re_match frac_re (str "\frac_2") = Some m
                /\ group m 1 = Some (str "_") /\ group m 2 = Some (str "2"))
  /\ matches (frac_test_re latin1) (str "\frac_2") = false
  /\ to_math latin1 10 (str "\frac_2") = Ret (str "frac_2")
  /\ to_math latin1 10 (str "\fracab") = Ret (str "fracab")
  /\ str "frac_2" <> str "_/2".
Proof.
  split; [vm_compute; reflexivity|].
  split; [eexists; repeat split; vm_compute; reflexivity|].
  repeat split; try (vm_compute; reflexivity); vm_compute; discriminate.
Qed.

(** C2, amended: for a token that passes the branch test of [expand_group]
    ([\frac] followed by the end of the token, a digit or a word boundary)
    and whose two arguments match the argument pattern, [expand_group]
    resolves each argument, stripped, through [expand_group], puts a resolved
    side in parentheses exactly when it is longer than one character, and
    joins the two sides with a slash; whatever the previous parts, the
    joined text is what it returns when that text does not begin with a
    backslash. *)
Theorem expand_group_frac (U : Unicode) (fuel : nat) (parts : list pystr)
  (v a b : pystr) (m : mobj) (e e1 e2 : env) :
  vec_ok e ->
  Forall (fun p => p <> []) parts ->
  matches (frac_test_re U) v = true ->
  re_match frac_re v = Some m ->
  expand_group U fuel parts (strip (group_or_empty m 1))
    {| magic_vec := magic_vec e; printed := printed e ++ [Print_frac v] |}
  = Ret (a, e1) ->
  expand_group U fuel parts (strip (group_or_empty m 2)) e1 = Ret (b, e2) ->
  startswith (str "\") (parenthesize a ++ str "/" ++ parenthesize b) = false ->
  expand_group U (S fuel) parts v e
  = Ret (parenthesize a ++ str "/" ++ parenthesize b, e2).
Proof.
  intros Hok Hp Htest Hm Ha Hb Hstart.
  rewrite (expand_group_parts U parts fuel Hp) in Ha, Hb.
  rewrite (expand_group_parts U parts (S fuel) Hp).
  now apply (frac_branch_joined U fuel [] v a b m e e1 e2).
Qed.

Lemma expand_group_frac_witness :
  expand_group latin1 3 [str "12"] (str "\frac12")
    {| magic_vec := []; printed := [] |}
  = Ret (str "1/2",
         {| magic_vec := []; printed := [Print_frac (str "\frac12")] |})
  /\ needs_space latin1 [str "12"] (str "1/2") = Ret true
  /\ to_math latin1 10 (str "12\frac12") = Ret (str "121/2")
  /\ to_math latin1 10 (str "\frac{1}{2}") = Ret (str "1/2").
Proof.
  split; [|repeat split; vm_compute; reflexivity].
  apply (expand_group_frac latin1 2 [str "12"] (str "\frac12") (str "1")
           (str "2")
           {| mo_string := str "\frac12"; mo_start := 0; mo_end := 7;
              mo_caps := [(2, (6, 7)); (1, (5, 6))] |}
           {| magic_vec := []; printed := [] |}
           {| magic_vec := []; printed := [Print_frac (str "\frac12")] |}
           {| magic_vec := []; printed := [Print_frac (str "\frac12")] |});
    try (vm_compute; reflexivity).
  - constructor.
  - repeat constructor; discriminate.
Defined.
(** ** The placeholders of a run *)

(** C10, amended: on a string that holds no code point of the reserved
    range, whatever [to_math] returns holds none either; when the string has
    no more opening braces than the range has code points, every placeholder
    allocated into the vector is a code point of the range and none is left
    in the result, and a result is returned with fuel for the braces. *)
Theorem to_math_placeholders_expanded (U : Unicode) (text : pystr) :
  magic_free text ->
  (forall fuel r, to_math U fuel text = Ret r -> magic_free r)
  /\ ((N.of_nat (count lbrace text) <= RANGE_SIZE)%N ->
      (forall fuel r e,
         to_math_run U fuel text = Ret (r, e) ->
         forall i, i < List.length (magic_vec e) ->
           is_magic (placeholder i) = true /\ ~ In (placeholder i) r)
      /\ exists r, to_math U (count lbrace text + 5) text = Ret r).
Proof.
  intros Hfree; split; [intros fuel r; apply to_math_sound|].
  intros Hmax; split.
  - intros fuel r e H i Hi.
    apply to_math_run_alloc in H as (Hr & _ & Hlen).
    assert (Hm : is_magic (placeholder i) = true)
      by (apply placeholder_in_range; lia).
    split; [exact Hm|].
    intros Hin; apply to_math_sound in Hr.
    rewrite (Hr _ Hin) in Hm; discriminate.
  - destruct (to_math_total U text Hfree) as (r & Hr & _); [|now exists r].
    unfold RANGE_SIZE, MAX_ENTRIES, MAGIC_LAST, MAGIC_FIRST in *; lia.
Qed.

Lemma to_math_placeholders_expanded_witness :
  magic_free (str "\frac{1}{2}")
  /\ to_math_run latin1 7 (str "\frac{1}{2}")
     = Ret (str "1/2",
            {| magic_vec := [str "1"; str "2"];
               printed :=
                 [Print_to_math (str "\frac{1}{2}");
                  Print_before_iter (str "1"); Print_before_iter (str "2");
                  Print_before_iter
                    (str "\frac" ++ [placeholder 0; placeholder 1]);
                  Print_frac (str "\frac" ++ [placeholder 0; placeholder 1]);
                  Print_final (str "1/2")] |})
  /\ is_magic (placeholder 0) = true /\ ~ In (placeholder 0) (str "1/2")
  /\ is_magic (placeholder 1) = true /\ ~ In (placeholder 1) (str "1/2").
Proof.
  assert (Hfree : magic_free (str "\frac{1}{2}"))
    by (apply magic_free_glyph; reflexivity).
  assert (H : to_math_run latin1 7 (str "\frac{1}{2}")
              = Ret (str "1/2",
                     {| magic_vec := [str "1"; str "2"];
                        printed :=
                          [Print_to_math (str "\frac{1}{2}");
                           Print_before_iter (str "1");
                           Print_before_iter (str "2");
                           Print_before_iter
                             (str "\frac" ++ [placeholder 0; placeholder 1]);
                           Print_frac
                             (str "\frac" ++ [placeholder 0; placeholder 1]);
                           Print_final (str "1/2")] |}))
    by (vm_compute; reflexivity).
  destruct (to_math_placeholders_expanded latin1 (str "\frac{1}{2}") Hfree)
    as [_ Hb].
  destruct Hb as [Hexp _]; [vm_compute; discriminate|].
  split; [exact Hfree|split; [exact H|]].
  destruct (Hexp 7 _ _ H 0 ltac:(cbn; lia)) as [H0 H0'].
  destruct (Hexp 7 _ _ H 1 ltac:(cbn; lia)) as [H1 H1'].
  repeat split; assumption.
Defined.

(** ** More brace groups than the reserved range has code points *)

Lemma match_at_brace_open (text : pystr) (pos : nat) (prev : option char)
  (rest : pystr) :
  match_at brace_re text pos prev (0x7b%N :: 0x7b%N :: rest) = None.
Proof.
  unfold match_at, brace_re, math_magic_re.
  change (Lit (str "{")) with (Cls (N.eqb 0x7b%N)).
  rewrite exec_seq, exec_cls; cbn [m_rest N.eqb Pos.eqb].
  rewrite exec_seq, exec_grp; unfold Plus, NoneOf.
  rewrite exec_seq, exec_cls; cbn [advance m_rest].
  reflexivity.
Qed.

(** No brace group begins at an opening brace that another one follows. *)
Lemma scan_open_prefix (text : pystr) :
  forall k rest pos prev,
    scan brace_re text pos prev (repeat 0x7b%N k ++ 0x7b%N :: rest) 0
    = scan brace_re text (pos + k)
        (match k with 0 => prev | S _ => Some 0x7b%N end)
        (0x7b%N :: rest) 0.
Proof.
  induction k as [|k IH]; intros rest pos prev.
  - cbn [repeat app]; now rewrite Nat.add_0_r.
  - assert (E : exists rest', repeat 0x7b%N k ++ 0x7b%N :: rest
                              = 0x7b%N :: rest')
      by (destruct k; eexists; reflexivity).
    destruct E as [rest' E].
    cbn [repeat app scan]; rewrite E, match_at_brace_open, <- E, IH.
    replace (S pos + k) with (pos + S k) by lia.
    destruct k; reflexivity.
Qed.

Lemma finditer_brace_nested (k : nat) (c : char) (t : pystr) :
  ~ In 0x7b%N (c :: t) -> ~ In 0x7d%N (c :: t) ->
  finditer brace_re
    (repeat 0x7b%N k ++ 0x7b%N :: (c :: t) ++ 0x7d%N :: repeat 0x7d%N k)
  = [{| mo_string :=
          repeat 0x7b%N k ++ 0x7b%N :: (c :: t) ++ 0x7d%N :: repeat 0x7d%N k;
        mo_start := k;
        mo_end := S (S (S k)) + List.length t;
        mo_caps := [(1, (S k, S (S k) + List.length t))] |}].
Proof.
  intros H1 H2.
  set (text := repeat 0x7b%N k ++ 0x7b%N :: (c :: t)
                 ++ 0x7d%N :: repeat 0x7d%N k).
  unfold finditer; unfold text at 2.
  rewrite scan_open_prefix; cbn [Nat.add scan].
  rewrite (match_at_brace text k _ c t (repeat 0x7d%N k) H1 H2).
  cbn [mo_end]; f_equal.
  replace (S (S (S k)) + List.length t - k - 1)
    with (List.length ((c :: t) ++ [0x7d%N]))
    by (rewrite length_app; cbn [List.length]; lia).
  replace ((c :: t) ++ 0x7d%N :: repeat 0x7d%N k)
    with (((c :: t) ++ [0x7d%N]) ++ repeat 0x7d%N k)
    by (rewrite <- app_assoc; reflexivity).
  rewrite scan_skip.
  rewrite <- (app_nil_r (repeat 0x7d%N k)), scan_fail_prefix; [reflexivity|].
  apply Forall_forall; intros x Hx; apply repeat_spec in Hx; subst x.
  reflexivity.
Qed.

(** The group of such a match and the text with the match replaced. *)
Lemma brace_group_splice (a u : pystr) (k : nat) (c : char) (t rep : pystr) :
  List.length a = k ->
  group_or_empty
    {| mo_string := a ++ 0x7b%N :: (c :: t) ++ 0x7d%N :: u; mo_start := k;
       mo_end := S (S (S k)) + List.length t;
       mo_caps := [(1, (S k, S (S k) + List.length t))] |} 1 = c :: t
  /\ splice (a ++ 0x7b%N :: (c :: t) ++ 0x7d%N :: u) 0
       [{| mo_string := a ++ 0x7b%N :: (c :: t) ++ 0x7d%N :: u; mo_start := k;
           mo_end := S (S (S k)) + List.length t;
           mo_caps := [(1, (S k, S (S k) + List.length t))] |}] [rep]
     = a ++ rep ++ u.
Proof.
  intros <-.
  set (text := a ++ 0x7b%N :: (c :: t) ++ 0x7d%N :: u).
  set (m := {| mo_string := text; mo_start := List.length a;
               mo_end := S (S (S (List.length a))) + List.length t;
               mo_caps := [(1, (S (List.length a),
                                S (S (List.length a)) + List.length t))] |}).
  split.
  - unfold group_or_empty, group, m; cbn [cap_get Nat.eqb mo_caps mo_string].
    unfold substr, text.
    replace (S (S (List.length a)) + List.length t - S (List.length a))
      with (S (List.length t)) by lia.
    replace (S (List.length a)) with (List.length (a ++ [0x7b%N]))
      by (rewrite last_length; reflexivity).
    replace (a ++ 0x7b%N :: (c :: t) ++ 0x7d%N :: u)
      with ((a ++ [0x7b%N]) ++ (c :: t) ++ 0x7d%N :: u)
      by (rewrite <- app_assoc; reflexivity).
    rewrite skipn_app, Nat.sub_diag, skipn_all; cbn [skipn app firstn].
    f_equal; rewrite firstn_app, Nat.sub_diag, firstn_all; cbn [firstn].
    apply app_nil_r.
  - unfold m; cbn [splice mo_start mo_end]; unfold substr, text.
    cbn [skipn]; rewrite Nat.sub_0_r, firstn_app, Nat.sub_diag, firstn_all.
    cbn [firstn]; rewrite app_nil_r; f_equal; f_equal.
    replace (S (S (S (List.length a))) + List.length t)
      with (List.length (a ++ 0x7b%N :: (c :: t) ++ [0x7d%N]))
      by (rewrite length_app; cbn [List.length]; rewrite length_app;
          cbn [List.length]; lia).
    replace (a ++ 0x7b%N :: (c :: t) ++ 0x7d%N :: u)
      with ((a ++ 0x7b%N :: (c :: t) ++ [0x7d%N]) ++ u).
    + rewrite skipn_app, Nat.sub_diag, skipn_all; reflexivity.
    + rewrite <- app_assoc; cbn [app]; do 2 f_equal.
      rewrite <- app_assoc; reflexivity.
Qed.

Lemma chr_placeholder (n : nat) :
  (N.of_nat n < MAX_ENTRIES)%N ->
  chr (MAGIC_FIRST + N.of_nat n) = Ret [placeholder n].
Proof.
  unfold MAX_ENTRIES, MAGIC_FIRST, placeholder, chr; intros H.
  destruct (N.leb_spec (0x10203e + N.of_nat n) 0x10ffff); [reflexivity|lia].
Qed.

(** One pass over the brace groups of a nest of braces around a group: the
    group becomes the next placeholder. *)
Lemma brace_pass_nested (fn : pystr -> M pystr) (k : nat) (c : char)
  (t w : pystr) (e e1 : env) :
  ~ In 0x7b%N (c :: t) -> ~ In 0x7d%N (c :: t) ->
  (N.of_nat (List.length (magic_vec e)) < MAX_ENTRIES)%N ->
  fn (c :: t) e = Ret (w, e1) ->
  re_sub_m brace_re (math_magic_repl fn)
    (repeat 0x7b%N k ++ 0x7b%N :: (c :: t) ++ 0x7d%N :: repeat 0x7d%N k) e
  = Ret (repeat 0x7b%N k ++ [placeholder (List.length (magic_vec e))]
           ++ repeat 0x7d%N k,
         {| magic_vec := magic_vec e1 ++ [w]; printed := printed e1 |}).
Proof.
  intros H1 H2 Hn Hfn.
  unfold re_sub_m; rewrite (finditer_brace_nested k c t H1 H2).
  destruct (brace_group_splice (repeat 0x7b%N k) (repeat 0x7d%N k) k c t
              [placeholder (List.length (magic_vec e))]
              (repeat_length _ _)) as [Hg Hs].
  unfold bind at 1; rewrite mmap_cons, math_magic_repl_eq.
  rewrite (chr_placeholder _ Hn).
  match goal with
  | |- context [fn ?g e] => replace g with (c :: t) by (symmetry; exact Hg)
  end.
  rewrite Hfn; cbn [mmap ret]; unfold ret; f_equal; f_equal; exact Hs.
Qed.

Lemma high_char_facts (x : char) :
  (0x80 <= x)%N ->
  N.eqb 0x5c%N x = false /\ N.eqb x 0x5f%N = false /\ N.eqb x 0x5e%N = false
  /\ N.eqb x chr_nl = false /\ N.eqb x 0x26%N = false.
Proof.
  intros H; unfold chr_nl; repeat split; apply N.eqb_neq; lia.
Qed.

(** The token of a single character above ASCII that is no white space. *)
Lemma token_one (U : Unicode) (text : pystr) (pos : nat)
  (prev : option char) (x : char) :
  (0x80 <= x)%N -> is_space x = false ->
  match_at (token_re U) text pos prev [x]
  = Some {| mo_string := text; mo_start := pos; mo_end := S pos;
            mo_caps := [(6, (pos, S pos))] |}.
Proof.
  intros Hx Hsp; destruct (high_char_facts x Hx) as (Hbs & Hus & Hcar & Hnl & _).
  unfold match_at, token_re.
  set (s := {| m_pos := pos; m_prev := prev; m_rest := [x]; m_caps := [] |}).
  rewrite exec_alt, (exec_fails (Plus true Space) x) with (t := []);
    [|change (fails (Plus true Space) x) with (negb (is_space x));
      now rewrite Hsp|reflexivity].
  cbn [or_else].
  rewrite exec_alt, (exec_fails frac_call_re x) with (t := []);
    [|change (fails frac_call_re x) with (negb (N.eqb 0x5c%N x));
      now rewrite Hbs|reflexivity].
  cbn [or_else].
  rewrite exec_seq; unfold Opt at 1; rewrite exec_alt.
  rewrite (exec_fails (command_prefix_re U) x) with (t := []);
    [|change (fails (command_prefix_re U) x)
        with (negb (N.eqb 0x5c%N x) && negb (N.eqb 0x5c%N x));
      now rewrite Hbs|reflexivity].
  cbn [or_else]; rewrite exec_eps.
  rewrite exec_seq; unfold Opt at 1; rewrite exec_alt.
  unfold mark_re at 1; rewrite exec_cls.
  cbn [m_rest s]; rewrite Hus, Hcar; cbn [orb or_else]; rewrite exec_eps.
  unfold atom_re; rewrite exec_grp, exec_alt.
  rewrite (exec_fails (Seq (Chr 0x5c%N) _) x) with (t := []);
    [|cbn [fails Chr]; now rewrite Hbs|reflexivity].
  cbn [or_else]; rewrite exec_alt.
  rewrite (exec_fails (Seq (Chr 0x5c%N) Dot) x) with (t := []);
    [|cbn [fails Chr]; now rewrite Hbs|reflexivity].
  cbn [or_else]; rewrite exec_alt.
  unfold Plus at 1; rewrite exec_seq, exec_cls.
  cbn [m_rest s].
  destruct (is_word U x).
  - rewrite exec_star; cbn [advance m_rest List.length star_loop or_else].
    reflexivity.
  - cbn [or_else]; unfold Dot; rewrite exec_cls.
    cbn [m_rest s]; rewrite Hnl; reflexivity.
Qed.

Lemma finditer_one (U : Unicode) (x : char) :
  (0x80 <= x)%N -> is_space x = false ->
  map group0 (finditer (token_re U) [x]) = [[x]].
Proof.
  intros Hx Hsp; unfold finditer; cbn [scan].
  rewrite (token_one U [x] 0 None x Hx Hsp).
  cbn [mo_end Nat.sub scan].
  replace (match_at (token_re U) [x] 1 (Some x) []) with (@None mobj)
    by reflexivity.
  reflexivity.
Qed.

(** [expand_group] on such a character goes to the final [expand]. *)
Lemma expand_group_one (U : Unicode) (fuel : nat) (x : char) (e : env) :
  (0x80 <= x)%N -> is_space x = false ->
  expand_group U (S fuel) [] [x] e = expand fuel [x] e.
Proof.
  intros Hx Hsp; destruct (high_char_facts x Hx) as (Hbs & Hus & Hcar & _ & Hamp).
  assert (Hf : forall r, fails r x = true -> matches r [x] = false)
    by (intros r; apply matches_fails).
  cbn [expand_group].
  rewrite (Hf (mathcal_re U))
    by (change (fails (mathcal_re U) x) with (negb (N.eqb 0x5c%N x));
        now rewrite Hbs).
  rewrite (Hf (mathfrak_re U))
    by (change (fails (mathfrak_re U) x) with (negb (N.eqb 0x5c%N x));
        now rewrite Hbs).
  rewrite (Hf (mathbb_re U))
    by (change (fails (mathbb_re U) x) with (negb (N.eqb 0x5c%N x));
        now rewrite Hbs).
  rewrite (Hf (begin_end_re U))
    by (change (fails (begin_end_re U) x) with (negb (N.eqb 0x5c%N x));
        now rewrite Hbs).
  rewrite (Hf (text_re U))
    by (change (fails (text_re U) x) with (negb (N.eqb 0x5c%N x));
        now rewrite Hbs).
  rewrite (Hf sqrt_index_re)
    by (change (fails sqrt_index_re x) with (negb (N.eqb 0x5c%N x));
        now rewrite Hbs).
  rewrite (Hf (sqrt_re U))
    by (change (fails (sqrt_re U) x) with (negb (N.eqb 0x5c%N x));
        now rewrite Hbs).
  rewrite (Hf (frac_test_re U))
    by (change (fails (frac_test_re U) x) with (negb (N.eqb 0x5c%N x));
        now rewrite Hbs).
  assert (Hus' : N.eqb 0x5f%N x = false) by now rewrite N.eqb_sym.
  assert (Hcar' : N.eqb 0x5e%N x = false) by now rewrite N.eqb_sym.
  replace (startswith (str "_") [x]) with false
    by (change (startswith (str "_") [x]) with (N.eqb 0x5f%N x && true);
        now rewrite Hus').
  replace (startswith (str "^") [x]) with false
    by (change (startswith (str "^") [x]) with (N.eqb 0x5e%N x && true);
        now rewrite Hcar').
  unfold finish_group.
  assert (Hl : lookup_command U [x] = [x]).
  { unfold lookup_command.
    replace (startswith (str "\") [x]) with false
      by (change (startswith (str "\") [x]) with (N.eqb 0x5c%N x && true);
          now rewrite Hbs).
    replace (isspace [x]) with false
      by (cbn [isspace forallb]; now rewrite Hsp).
    replace (streq [x] (str "&")) with false; [reflexivity|].
    change (streq [x] (str "&")) with (N.eqb x 0x26%N && streq [] []).
    now rewrite Hamp. }
  rewrite Hl; unfold bind at 1 2, ret, lift.
  replace (needs_space U [] [x]) with (Ret (A := bool) false) by reflexivity.
  reflexivity.
Qed.

Lemma placeholder_high (i : nat) :
  (0x80 <= placeholder i)%N /\ ~ In 0x7b%N [placeholder i]
  /\ ~ In 0x7d%N [placeholder i].
Proof.
  unfold placeholder, MAGIC_FIRST; repeat split; try lia;
    intros [E|[]]; lia.
Qed.

(** [expand] on a placeholder of the range returns its entry, stripped, when
    the entry holds no placeholder. *)
Lemma expand_placeholder (fuel i : nat) (w : pystr) (e : env) :
  nth_error (magic_vec e) i = Some w -> magic_free w ->
  (N.of_nat i < RANGE_SIZE)%N ->
  expand (S (S fuel)) [placeholder i] e = Ret (strip w, e).
Proof.
  intros Hi Hw Hr.
  assert (Hlt : i < List.length (magic_vec e))
    by (apply nth_error_Some; rewrite Hi; discriminate).
  assert (Hb : bounded (List.length (magic_vec e)) [placeholder i]).
  { intros c [<-|[]] _; unfold placeholder; lia. }
  assert (Hres : resolve (magic_vec e) [placeholder i] = w).
  { unfold resolve; cbn [flat_map].
    rewrite (placeholder_in_range i Hr), app_nil_r.
    unfold placeholder; rewrite N.add_comm, N.add_sub, Nat2N.id.
    now apply nth_error_nth. }
  unfold expand, bind.
  rewrite until_fixed_S, (expand_pass_resolve _ _ Hb), Hres.
  destruct (streq w [placeholder i]) eqn:E; [reflexivity|].
  now rewrite until_fixed_S, (expand_pass_free w e Hw), streq_refl.
Qed.

(** [recurse] on a placeholder of the range returns its entry, when the
    entry holds neither a placeholder nor white space. *)
Lemma recurse_placeholder (U : Unicode) (fuel i : nat) (w : pystr) (e : env) :
  nth_error (magic_vec e) i = Some w -> magic_free w ->
  (forall c, In c w -> is_space c = false) ->
  (N.of_nat i < RANGE_SIZE)%N ->
  recurse U (S (S (S (S fuel)))) [placeholder i] e
  = Ret (w, {| magic_vec := magic_vec e;
               printed := printed e ++ [Print_before_iter [placeholder i]] |}).
Proof.
  intros Hi Hw Hsp Hr.
  destruct (placeholder_high i) as (Hx & Hb & _).
  assert (Hs : is_space (placeholder i) = false).
  { destruct (is_space (placeholder i)) eqn:E; [|reflexivity].
    apply space_not_magic in E.
    rewrite (placeholder_in_range i Hr) in E; discriminate. }
  rewrite recurse_S, until_fixed_S, brace_pass_none by exact Hb.
  rewrite streq_refl.
  pose proof (finditer_one U (placeholder i) Hx Hs) as Hfind.
  destruct (finditer (token_re U) _) as [|m1 [|m2 ms]];
    try discriminate Hfind.
  injection Hfind as E1.
  cbn [for_tokens]; unfold bind at 1; rewrite E1.
  rewrite (expand_group_one U _ _ _ Hx Hs).
  rewrite expand_placeholder with (w := w) by assumption.
  rewrite (strip_nospace w Hsp).
  unfold ret; destruct w; cbn [nonempty app concat]; now rewrite ?app_nil_r.
Qed.

(** The loop of [math_magic] on a nest of [k] pairs of braces around a
    group that resolves to [w]: each pass replaces the innermost group by
    the next placeholder, whose entry is [w] again, and the text that is
    left is the placeholder of the outermost group. *)
Ltac rewrite_pass H :=
  match type of H with
  | _ = ?r =>
      match goal with
      | |- context [re_sub_m ?a ?b ?c ?d] =>
          replace (re_sub_m a b c d) with r by (symmetry; exact H)
      end
  end.

Lemma brace_loop (U : Unicode) (fuel : nat) (w : pystr) :
  magic_free w -> (forall c, In c w -> is_space c = false) ->
  forall k f (c : char) (t : pystr) e,
    ~ In 0x7b%N (c :: t) -> ~ In 0x7d%N (c :: t) ->
    (exists e1, recurse U (S (S (S (S fuel)))) (c :: t) e = Ret (w, e1)
                /\ magic_vec e1 = magic_vec e) ->
    (N.of_nat (List.length (magic_vec e) + k) <= RANGE_SIZE)%N ->
    k + 2 <= f ->
    exists e',
      until_fixed f
        (re_sub_m brace_re
           (math_magic_repl (recurse U (S (S (S (S fuel)))))))
        (repeat 0x7b%N k ++ 0x7b%N :: (c :: t) ++ 0x7d%N :: repeat 0x7d%N k) e
      = Ret ([placeholder (List.length (magic_vec e) + k)], e')
      /\ magic_vec e' = magic_vec e ++ repeat w (S k).
Proof.
  intros Hw Hsp.
  set (fn := recurse U (S (S (S (S fuel))))).
  induction k as [|k IH]; intros f c t e H1 H2 (e1 & Hfn & Hv) Hmax Hf.
  - destruct f as [|[|f]]; try lia.
    rewrite until_fixed_S.
    assert (Hn : (N.of_nat (List.length (magic_vec e)) < MAX_ENTRIES)%N)
      by (unfold RANGE_SIZE, MAX_ENTRIES, MAGIC_LAST, MAGIC_FIRST in *; lia).
    pose proof (brace_pass_nested fn 0 c t w e e1 H1 H2 Hn Hfn) as Hpass.
    rewrite_pass Hpass.
    cbn [repeat app].
    match goal with
    | |- context [streq ?a ?b] => destruct (streq a b) eqn:E
    end; [apply streq_eq in E; discriminate E|].
    change (until_fixed (S f) (re_sub_m brace_re (math_magic_repl fn)))
      with (fun x => math_magic (S f) x (str "{") (str "}") fn).
    cbn beta; rewrite brace_pass_none
      by (destruct (placeholder_high (List.length (magic_vec e)))
            as (_ & Hb & _); exact Hb).
    eexists; split; [rewrite Nat.add_0_r; reflexivity|].
    cbn [magic_vec repeat]; now rewrite Hv.
  - destruct f as [|f]; [lia|].
    rewrite until_fixed_S.
    assert (Hn : (N.of_nat (List.length (magic_vec e)) < MAX_ENTRIES)%N)
      by (unfold RANGE_SIZE, MAX_ENTRIES, MAGIC_LAST, MAGIC_FIRST in *; lia).
    pose proof (brace_pass_nested fn (S k) c t w e e1 H1 H2 Hn Hfn) as Hpass.
    rewrite_pass Hpass.
    set (n := List.length (magic_vec e)) in *.
    set (e2 := {| magic_vec := magic_vec e1 ++ [w]; printed := printed e1 |}).
    assert (Enext : repeat 0x7b%N (S k) ++ [placeholder n]
                      ++ repeat 0x7d%N (S k)
                    = repeat 0x7b%N k ++ 0x7b%N :: [placeholder n]
                        ++ 0x7d%N :: repeat 0x7d%N k).
    { cbn [repeat]; rewrite (repeat_cons k 0x7b%N), <- app_assoc.
      reflexivity. }
    rewrite Enext.
    match goal with
    | |- context [streq ?a ?b] => destruct (streq a b) eqn:E
    end.
    { apply streq_eq in E; exfalso.
      apply (f_equal (@List.length _)) in E.
      rewrite !length_app in E; cbn [List.length] in E.
      rewrite !length_app in E; cbn [List.length] in E.
      rewrite !repeat_length in E; lia. }
    destruct (placeholder_high n) as (_ & Hb1 & Hb2).
    assert (Hlen : List.length (magic_vec e2) = S n)
      by (unfold e2; cbn [magic_vec]; rewrite Hv, last_length; reflexivity).
    destruct (IH f (placeholder n) [] e2 Hb1 Hb2) as (e' & He' & Hv').
    + eexists; split.
      * apply recurse_placeholder with (w := w); auto.
        -- unfold e2; cbn [magic_vec]; rewrite Hv.
           rewrite nth_error_app2 by (unfold n; lia).
           unfold n; now rewrite Nat.sub_diag.
        -- lia.
      * reflexivity.
    + rewrite Hlen; lia.
    + lia.
    + exists e'; split.
      * rewrite He', Hlen.
        replace (S n + k) with (n + S k) by lia; reflexivity.
      * rewrite Hv'; unfold e2; cbn [magic_vec]; rewrite Hv, <- app_assoc.
        reflexivity.
Qed.

(** A nest of one more pair of braces than the reserved range has code
    points, around a word: the placeholder of the outermost group lies past
    the range, [expand] leaves it as it is, and it is the result. *)
Lemma to_math_run_nest (U : Unicode) (n : nat) (c : char) (t : pystr) :
  ascii_alnum c = true -> forallb ascii_word t = true ->
  N.of_nat n = RANGE_SIZE ->
  exists e,
    to_math_run U (n + 6)
      (repeat 0x7b%N (S n) ++ (c :: t) ++ repeat 0x7d%N (S n))
    = Ret ([placeholder n], e)
    /\ magic_vec e = repeat (c :: t) (S n).
Proof.
  intros Hc Ht Hn.
  destruct (word_chars U c t Hc Ht) as (Hsp & Hfree & _).
  assert (Hw : forall x, In x (c :: t) -> ascii_word x = true).
  { intros x [<-|Hx]; [now apply ascii_alnum_word|].
    rewrite forallb_forall in Ht; now apply Ht. }
  assert (H1 : ~ In 0x7b%N (c :: t))
    by (intros H; apply Hw in H; discriminate H).
  assert (H2 : ~ In 0x7d%N (c :: t))
    by (intros H; apply Hw in H; discriminate H).
  assert (Ex : placeholder n = 0x10fff1%N)
    by (unfold placeholder; rewrite Hn; reflexivity).
  destruct (placeholder_high n) as (Hx & Hb & _).
  assert (Hs : is_space (placeholder n) = false) by (rewrite Ex; reflexivity).
  assert (Hm : magic_free [placeholder n])
    by (rewrite Ex; intros x [<-|[]]; reflexivity).
  replace (n + 6) with (S (S (S (S (S (S n)))))) by lia.
  replace (repeat 0x7b%N (S n) ++ (c :: t) ++ repeat 0x7d%N (S n))
    with (repeat 0x7b%N n ++ 0x7b%N :: (c :: t) ++ 0x7d%N :: repeat 0x7d%N n)
    by (cbn [repeat]; rewrite (repeat_cons n 0x7b%N), <- app_assoc;
        reflexivity).
  set (text := repeat 0x7b%N n ++ 0x7b%N :: (c :: t)
                 ++ 0x7d%N :: repeat 0x7d%N n).
  unfold to_math_run, bind at 1, print.
  unfold bind at 1; rewrite recurse_S.
  rewrite until_fixed_S; cbn beta.
  unfold math_magic at 1; change (math_magic_re (str "{") (str "}")) with brace_re.
  match goal with
  | |- context [until_fixed _ _ text ?e] => set (e0 := e)
  end.
  destruct (brace_loop U (S n) (c :: t) Hfree Hsp n (S (S (S (S (S n)))))
              c t e0 H1 H2) as (e' & He' & Hv').
  { eexists; split; [apply (recurse_word U (S (S n)) c t e0 Hc Ht)|].
    reflexivity. }
  { cbn [e0 magic_vec List.length Nat.add]; lia. }
  { lia. }
  cbn [e0 magic_vec List.length Nat.add app] in He', Hv'; fold e0 in He'.
  match goal with
  | |- context [until_fixed ?f ?st ?x e0] =>
      replace (until_fixed f st x e0) with (Ret ([placeholder n], e'))
        by (symmetry; exact He')
  end.
  match goal with
  | |- context [streq ?a ?b] => destruct (streq a b) eqn:E
  end.
  { apply streq_eq in E; exfalso.
    apply (f_equal (@List.length _)) in E; unfold text in E.
    rewrite !length_app in E; cbn [List.length] in E.
    rewrite !length_app in E; cbn [List.length] in E; lia. }
  rewrite until_fixed_S; cbn beta.
  rewrite brace_pass_none by exact Hb.
  rewrite streq_refl.
  pose proof (finditer_one U (placeholder n) Hx Hs) as Hfind.
  destruct (finditer (token_re U) _) as [|m1 [|m2 ms]];
    try discriminate Hfind.
  injection Hfind as E1.
  cbn [for_tokens]; unfold bind at 1; rewrite E1.
  rewrite (expand_group_one U _ _ _ Hx Hs), expand_free by exact Hm.
  rewrite strip_nospace by (intros x [<-|[]]; exact Hs).
  cbn [nonempty app concat ret]; unfold bind, ret, print.
  eexists; split; [reflexivity|].
  cbn [magic_vec]; exact Hv'.
Qed.

(** C10, as stated, fails on a nest of 57268 pairs of braces around a
    letter: the input holds no code point of the reserved range and neither
    does the result, but the result is the placeholder allocated for the
    outermost group, U+10FFF1, the first code point past the range: the
    vector has an entry for it, and [expand], whose class ends with the
    range, never puts the entry back. *)
Lemma to_math_placeholder_overflow :
  let n := N.to_nat 57267 in
  let text := repeat 0x7b%N (S n) ++ str "a" ++ repeat 0x7d%N (S n) in
  magic_free text
  /\ placeholder n = 0x10fff1%N
  /\ exists e,
       to_math_run latin1 (n + 6) text = Ret ([placeholder n], e)
       /\ magic_vec e = repeat (str "a") (S n).
Proof.
  intros n text.
  assert (Hn : N.of_nat n = RANGE_SIZE)
    by (unfold n; rewrite N2Nat.id; reflexivity).
  clearbody n.
  split; [|split].
  - intros x Hx; unfold text in Hx.
    apply in_app_or in Hx as [Hx|Hx];
      [|apply in_app_or in Hx as [[<-|[]]|Hx]];
      try (apply repeat_spec in Hx; subst x); reflexivity.
  - unfold placeholder; rewrite Hn; reflexivity.
  - apply (to_math_run_nest latin1 n 0x61%N []); auto.
Qed.
(** ** The matcher on runs of a class *)

Lemma after_pos (w : pystr) :
  forall s, m_pos (after s w) = m_pos s + List.length w.
Proof.
  induction w as [|c w IH]; intros s; cbn [after List.length]; [lia|].
  rewrite IH; cbn [advance m_pos]; lia.
Qed.

Lemma after_caps (w : pystr) : forall s, m_caps (after s w) = m_caps s.
Proof.
  induction w as [|c w IH]; intros s; cbn [after]; [reflexivity|].
  now rewrite IH.
Qed.

Lemma after_rest (w u : pystr) :
  forall s, m_rest s = w ++ u -> m_rest (after s w) = u.
Proof.
  induction w as [|c w IH]; intros s H; cbn [after]; [exact H|].
  apply IH; rewrite H; reflexivity.
Qed.

Lemma after_app (a b : pystr) :
  forall s, after s (a ++ b) = after (after s a) b.
Proof.
  induction a as [|c a IH]; intros s; cbn [after app]; [reflexivity|].
  apply IH.
Qed.

Lemma exec_cls_after (p : char -> bool) (k : mstate -> option mstate)
  (s : mstate) (c : char) (u : pystr) :
  m_rest s = c :: u -> p c = true -> exec (Cls p) k s = k (after s [c]).
Proof.
  intros H Hp; rewrite exec_cls, H, Hp; cbn [after]; now rewrite H.
Qed.

Lemma exec_Lit_after (p : pystr) :
  forall k s u, m_rest s = p ++ u -> exec (Lit p) k s = k (after s p).
Proof.
  induction p as [|c p IH]; intros k s u H; [reflexivity|].
  destruct p as [|c' p].
  - cbn [Lit]; unfold Chr.
    apply (exec_cls_after _ k s c u H), N.eqb_refl.
  - change (Lit (c :: c' :: p)) with (Seq (Chr c) (Lit (c' :: p))).
    rewrite exec_seq; unfold Chr.
    rewrite (exec_cls_after _ _ s c ((c' :: p) ++ u) H (N.eqb_refl c)).
    rewrite (IH k (after s [c]) u); [reflexivity|].
    now apply (after_rest [c]).
Qed.

Lemma exec_LitI_after (p : pystr) :
  forall w k s u,
    ci_equal w p -> m_rest s = w ++ u -> exec (LitI p) k s = k (after s w).
Proof.
  induction p as [|c p IH]; intros w k s u Hw H.
  - inversion Hw; subst; reflexivity.
  - inversion Hw as [|x c0 w' p0 Hx Hw']; subst.
    destruct p as [|c' p].
    + inversion Hw'; subst; cbn [LitI].
      now apply (exec_cls_after _ k s x u H).
    + change (LitI (c :: c' :: p)) with (Seq (Cls (ci_char c)) (LitI (c' :: p))).
      rewrite exec_seq.
      rewrite (exec_cls_after _ _ s x (w' ++ u) H Hx).
      rewrite (IH w' k (after s [x]) u Hw'); [reflexivity|].
      now apply (after_rest [x]).
Qed.

Lemma or_else_none_r {A} (a : option A) : or_else a None = a.
Proof. now destruct a. Qed.

(** A repetition of a class stops at once before a character that is not of
    the class, and at the end of the subject. *)
Lemma exec_star_zero (g : bool) (p : char -> bool)
  (k : mstate -> option mstate) (s : mstate) :
  match m_rest s with c :: _ => p c = false | [] => True end ->
  exec (Star g (Cls p)) k s = k s.
Proof.
  intros H; rewrite exec_star.
  destruct (m_rest s) as [|c u] eqn:E; [reflexivity|].
  cbn [List.length star_loop]; rewrite exec_cls, E, H.
  destruct g; [reflexivity|apply or_else_none_r].
Qed.

(** A lazy repetition of a class goes on as long as what follows it
    fails. *)
Lemma lazy_star_run (p : char -> bool) (k : mstate -> option mstate)
  (u : pystr) (e : mstate) :
  forall run s n,
    m_rest s = run ++ u -> List.length (m_rest s) <= n ->
    forallb p run = true ->
    (forall a b, run = a ++ b -> b <> [] -> k (after s a) = None) ->
    k (after s run) = Some e ->
    star_loop (exec (Cls p)) false k n s = Some e.
Proof.
  induction run as [|c run IH]; intros s n Hr Hn Hp Hfail Hk.
  - cbn [after] in Hk; destruct n; cbn [star_loop]; now rewrite Hk.
  - rewrite Hr in Hn; cbn [app List.length] in Hn.
    destruct n as [|n]; [lia|].
    cbn [forallb] in Hp; apply andb_true_iff in Hp as [Hc Hp].
    cbn [star_loop].
    pose proof (Hfail [] (c :: run) eq_refl ltac:(discriminate)) as H0.
    cbn [after] in H0; rewrite H0.
    cbn [or_else]; rewrite exec_cls, Hr; cbn [app]; rewrite Hc.
    replace (Nat.ltb (m_pos s) (m_pos (advance s c (run ++ u)))) with true
      by (symmetry; apply Nat.ltb_lt; cbn [advance m_pos]; lia).
    assert (E : advance s c (run ++ u) = advance s c (tl (m_rest s)))
      by (rewrite Hr; reflexivity).
    apply IH; auto.
    + cbn [advance m_rest]; lia.
    + intros a b Hab Hb; rewrite E.
      apply (Hfail (c :: a) b); [now rewrite Hab|exact Hb].
    + now rewrite E.
Qed.

Lemma lazy_plus_run (p : char -> bool) (k : mstate -> option mstate)
  (s : mstate) (run u : pystr) (e : mstate) :
  m_rest s = run ++ u -> run <> [] -> forallb p run = true ->
  (forall a b, run = a ++ b -> a <> [] -> b <> [] -> k (after s a) = None) ->
  k (after s run) = Some e ->
  exec (Plus false (Cls p)) k s = Some e.
Proof.
  intros Hr Hne Hp Hfail Hk.
  destruct run as [|c run]; [contradiction|].
  cbn [forallb] in Hp; apply andb_true_iff in Hp as [Hc Hp].
  unfold Plus; rewrite exec_seq, exec_cls, Hr; cbn [app]; rewrite Hc.
  assert (E : advance s c (run ++ u) = advance s c (tl (m_rest s)))
    by (rewrite Hr; reflexivity).
  rewrite exec_star; apply (lazy_star_run p k u e run); auto.
  - intros a b Hab Hb; rewrite E.
    apply (Hfail (c :: a) b); [now rewrite Hab|discriminate|exact Hb].
  - now rewrite E.
Qed.

(** White space and then a pattern that can begin with none of the
    characters in front: no match. *)
Lemma greedy_fails (p : char -> bool) (r : re) (k : mstate -> option mstate)
  (y : char) (u : pystr) :
  p y = false ->
  forall sp s,
    m_rest s = sp ++ y :: u -> forallb p sp = true ->
    Forall (fun c => fails r c = true) (sp ++ [y]) ->
    greedy p (exec r k) s (sp ++ y :: u) = None.
Proof.
  intros Hy; induction sp as [|c sp IH]; intros s Hr Hp Hf.
  - cbn [app greedy]; rewrite Hy.
    apply (exec_fails r y (Forall_inv Hf) k s u Hr).
  - cbn [forallb] in Hp; apply andb_true_iff in Hp as [Hc Hp].
    cbn [app greedy]; rewrite Hc.
    rewrite (IH (advance s c (sp ++ y :: u)) eq_refl Hp (Forall_inv_tail Hf)).
    apply (exec_fails r c (Forall_inv Hf) k s (sp ++ y :: u) Hr).
Qed.

Lemma spaces_then_fails (r : re) (k : mstate -> option mstate) (s : mstate)
  (sp : pystr) (y : char) (u : pystr) :
  m_rest s = sp ++ y :: u -> forallb is_space sp = true ->
  is_space y = false ->
  Forall (fun c => fails r c = true) (sp ++ [y]) ->
  exec (Seq star_space r) k s = None.
Proof.
  intros Hr Hsp Hy Hf.
  rewrite exec_seq; unfold star_space, Space.
  rewrite exec_star, star_greedy by lia.
  rewrite Hr; now apply greedy_fails.
Qed.

(** A string that ends with a character that is no white space begins with
    white space and such a character. *)
Lemma space_prefix (b : pystr) :
  b <> [] -> head_ok (rev b) ->
  exists sp y b', b = sp ++ y :: b' /\ forallb is_space sp = true
                  /\ is_space y = false.
Proof.
  induction b as [|c b IH]; intros Hne Hlast; [contradiction|].
  destruct (is_space c) eqn:Hc.
  - destruct b as [|c' b].
    + cbn [rev app head_ok] in Hlast; congruence.
    + destruct IH as (sp & y & b' & E & Hsp & Hy); [discriminate| |].
      * cbn [rev] in *; unfold head_ok in *.
        destruct (rev b ++ [c']) eqn:E; [destruct (rev b); discriminate|].
        exact Hlast.
      * exists (c :: sp), y, b'; rewrite E; cbn [forallb]; now rewrite Hc.
  - exists [], c, b; auto.
Qed.
